(** * timewheel: a shallow embedding of the timing-wheel scheduler

    The Go package [timewheel] keeps a ring of slots (each a
    [container/list] of task pointers), a cursor, and a key index
    ([taskRecord]) pointing at the same task objects.  Task objects are
    shared between the slot lists and the index, so the embedding keeps an
    explicit object store ([heap]) addressed by pointers and threads the
    whole wheel through every operation.  Run-time panics of the Go code
    (integer division by zero, index out of range, nil dereference) are
    explicit outcomes. *)

From Stdlib Require Import ZArith Lia.
From Stdlib Require Import Floats.SpecFloat.
From stdpp Require Import base option list gmap strings.

Local Open Scope Z_scope.

(** ** Machine integers

    Go's [int] and [time.Duration] are 64-bit two's-complement integers on
    the platforms this model targets.  [/] truncates toward zero and [%]
    takes the sign of the dividend. *)

Definition min_int : Z := - 2 ^ 63.
Definition max_int : Z := 2 ^ 63 - 1.

Definition wrap (z : Z) : Z := (z + 2 ^ 63) mod 2 ^ 64 - 2 ^ 63.

Definition int_add (a b : Z) : Z := wrap (a + b).
Definition int_sub (a b : Z) : Z := wrap (a - b).

(** [a / b] and [a % b] for a non-zero divisor ([min_int / -1] wraps). *)
Definition int_quot (a b : Z) : Z := wrap (Z.quot a b).
Definition int_rem (a b : Z) : Z := Z.rem a b.

(** ** [time.Duration.Seconds] and the conversion back to [int]

    [Seconds] is [float64(d / Second) + float64(d % Second) / 1e9], computed
    in IEEE 754 binary64 with round-to-nearest-even; [int(f)] truncates
    toward zero. *)

Definition prec64 : Z := 53.
Definition emax64 : Z := 1024.

Definition float64_of_int (z : Z) : spec_float :=
  binary_normalize prec64 emax64 z 0 false.

Definition Second : Z := 1000000000.

Definition Seconds (d : Z) : spec_float :=
  let sec := Z.quot d Second in
  let nsec := Z.rem d Second in
  SFadd prec64 emax64 (float64_of_int sec)
        (SFdiv prec64 emax64 (float64_of_int nsec) (float64_of_int Second)).

(** [int(f)]: truncation toward zero; a value that does not fit (or a NaN)
    converts to the "integer indefinite" value, as on amd64. *)
Definition int_of_float64 (f : spec_float) : Z :=
  match f with
  | S754_zero _ => 0
  | S754_finite s m e =>
      let a := match e with
               | Zneg k => Z.shiftr (Zpos m) (Zpos k)
               | _ => Z.shiftl (Zpos m) e
               end in
      let z := if s then - a else a in
      if (min_int <=? z) && (z <=? max_int) then z else min_int
  | _ => min_int
  end.

(** [int(d.Seconds())] *)
Definition int_seconds (d : Z) : Z := int_of_float64 (Seconds d).

(** ** Data model *)

(** A pointer to a task object: its index in the object store. *)
Abbreviation addr := nat (only parsing).

(** Keys are [interface{}] values; [None] is the nil interface, [Some s] a
    (comparable) key value. *)
Abbreviation key_t := (option string) (only parsing).

(** A [Job] is a function value, identified by a name; the field holding it
    may be nil. *)
Definition Job := nat.

(** [TaskData] is [map[interface{}]interface{}]; the wheel only stores it and
    hands it to the job. *)
Definition TaskData := gmap string string.

Module task.

Record t := mk {
  interval : Z;
  times : Z;        (* -1: no limit, >= 1: run times *)
  circle : Z;
  key : key_t;
  job : option Job;
  taskData : TaskData
}.

(** Stores into single fields through a task pointer. *)
Definition set_times (x : t) (n : Z) : t :=
  mk (interval x) n (circle x) (key x) (job x) (taskData x).
Definition set_circle (x : t) (c : Z) : t :=
  mk (interval x) (times x) c (key x) (job x) (taskData x).
Definition set_update (x : t) (d : Z) (data : TaskData) : t :=
  mk d (times x) (circle x) (key x) (job x) data.

End task.

(** One [go task.job(task.taskData)]: which task object fired, with which
    function and which argument. *)
Definition dispatch := (addr * Job * TaskData)%type.

(** The wheel.  [slots] holds list pointers ([None] is a nil pointer, as
    left by [make] before [init] runs); every list is owned by its slot.
    [heap] is the store of task objects and [fired] the log of dispatched
    jobs; [ticker] is nil until [Start]. *)
Record TimeWheel := mkTW {
  interval : Z;
  ticker : option Z;
  slots : list (option (list addr));
  currentPos : Z;
  slotNum : Z;
  taskRecord : gmap key_t addr;
  heap : list task.t;
  fired : list dispatch
}.

Definition with_ticker (tw : TimeWheel) (x : option Z) : TimeWheel :=
  mkTW (interval tw) x (slots tw) (currentPos tw) (slotNum tw)
       (taskRecord tw) (heap tw) (fired tw).
Definition with_slots (tw : TimeWheel) (x : list (option (list addr))) : TimeWheel :=
  mkTW (interval tw) (ticker tw) x (currentPos tw) (slotNum tw)
       (taskRecord tw) (heap tw) (fired tw).
Definition with_currentPos (tw : TimeWheel) (x : Z) : TimeWheel :=
  mkTW (interval tw) (ticker tw) (slots tw) x (slotNum tw)
       (taskRecord tw) (heap tw) (fired tw).
Definition with_taskRecord (tw : TimeWheel) (x : gmap key_t addr) : TimeWheel :=
  mkTW (interval tw) (ticker tw) (slots tw) (currentPos tw) (slotNum tw)
       x (heap tw) (fired tw).
Definition with_heap (tw : TimeWheel) (x : list task.t) : TimeWheel :=
  mkTW (interval tw) (ticker tw) (slots tw) (currentPos tw) (slotNum tw)
       (taskRecord tw) x (fired tw).
Definition with_fired (tw : TimeWheel) (x : list dispatch) : TimeWheel :=
  mkTW (interval tw) (ticker tw) (slots tw) (currentPos tw) (slotNum tw)
       (taskRecord tw) (heap tw) x.

(** The errors the public operations return. *)
Inductive error :=
  | ErrIllegalParams    (* "illegal task params" *)
  | ErrDuplicateKey     (* "duplicate task key" *)
  | ErrNotExists        (* "task not exists, please check you task key" *)
  | ErrIllegalKey.      (* "illegal key, please try again" *)

(** How a piece of the control loop ends: it returns, it panics, or the
    model's fuel ran out before the loop ended.  Each carries the wheel as
    it was at that point. *)
Inductive outcome :=
  | Done (tw : TimeWheel)
  | Panic (tw : TimeWheel)
  | OutOfFuel (tw : TimeWheel).

Definition state_of (o : outcome) : TimeWheel :=
  match o with Done tw | Panic tw | OutOfFuel tw => tw end.

(** ** Construction *)

(** [init]: [for i := 0; i < tw.slotNum; i++ { tw.slots[i] = list.New() }].
    The store is in range for every [i] because [make] gave the slice
    [slotNum] entries. *)
Definition init (tw : TimeWheel) : TimeWheel :=
  with_slots tw
    (foldl (fun s i => <[i := Some []]> s) (slots tw)
           (seq 0 (Z.to_nat (slotNum tw)))).

(** [New]; [None] is the nil wheel.  [make] is taken to succeed: memory is
    not bounded in this model. *)
Definition New (interval slotNum : Z) : option TimeWheel :=
  if (interval <=? 0) || (slotNum <=? 0) then None
  else Some (init (mkTW interval None (replicate (Z.to_nat slotNum) None)
                        0 slotNum ∅ [] [])).

(** [Start] creates the ticker; the control loop it launches is [loop_step]
    below, one event at a time. *)
Definition Start (tw : TimeWheel) : TimeWheel := with_ticker tw (Some (interval tw)).

(** ** Position and circle *)

(** [None] is the run-time panic "integer divide by zero". *)
Definition getPositionAndCircle (tw : TimeWheel) (d : Z) : option (Z * Z) :=
  let delaySeconds := int_seconds d in
  let intervalSeconds := int_seconds (interval tw) in
  if intervalSeconds =? 0 then None
  else if slotNum tw =? 0 then None
  else
    let circle := int_quot (int_quot delaySeconds intervalSeconds) (slotNum tw) in
    let pos := int_rem (int_add (currentPos tw) (int_quot delaySeconds intervalSeconds))
                       (slotNum tw) in
    Some (pos, circle).

(** ** The control loop's add path

    The panics are the division by zero in [getPositionAndCircle], the index
    out of range in [tw.slots[pos]] and [PushBack] on a nil list.  A task
    pointer always points to an object; the arm for an address outside the
    store (here and in the operations below) stands for nothing in the Go
    code and only makes the function total. *)

Definition addTask (tw : TimeWheel) (a : addr) : outcome :=
  match heap tw !! a with
  | None => Panic tw
  | Some t =>
      if task.times t =? 0 then Done tw
      else
        match getPositionAndCircle tw (task.interval t) with
        | None => Panic tw
        | Some (pos, circle) =>
            let tw1 := with_heap tw (<[a := task.set_circle t circle]> (heap tw)) in
            if pos <? 0 then Panic tw1
            else
              match slots tw1 !! Z.to_nat pos with
              | Some (Some l) =>
                  Done (with_taskRecord
                          (with_slots tw1 (<[Z.to_nat pos := Some (l ++ [a])]> (slots tw1)))
                          (<[task.key t := a]> (taskRecord tw1)))
              | _ => Panic tw1
              end
        end
  end.

(** ** Public operations *)

(** [AddTask] validates, allocates the task object and sends its pointer on
    [addTaskChannel]; the result is the wheel (with the new object in the
    store), the pointer sent (if any) and the error returned. *)
Definition AddTask (tw : TimeWheel) (interval times : Z) (key : key_t)
    (data : TaskData) (job : option Job) : TimeWheel * option addr * option error :=
  if (interval <=? 0) || bool_decide (key = None) || bool_decide (job = None)
     || (times <? -1) || (times =? 0)
  then (tw, None, Some ErrIllegalParams)
  else
    match taskRecord tw !! key with
    | Some _ => (tw, None, Some ErrDuplicateKey)
    | None =>
        (with_heap tw (heap tw ++ [task.mk interval times 0 key job data]),
         Some (length (heap tw)), None)
    end.

(** [RemoveTask] and [UpdateTask] write through the pointer found in the
    index, from the caller's side; the result is the wheel and the error
    returned. *)
Definition RemoveTask (tw : TimeWheel) (key : key_t) : TimeWheel * option error :=
  match key with
  | None => (tw, None)
  | Some _ =>
      match taskRecord tw !! key with
      | None => (tw, Some ErrNotExists)
      | Some a =>
          match heap tw !! a with
          | None => (tw, Some ErrNotExists)
          | Some t =>
              (* lazy remove task *)
              (with_taskRecord
                 (with_heap tw (<[a := task.set_times t 0]> (heap tw)))
                 (delete (task.key t) (taskRecord tw)),
               None)
          end
      end
  end.

Definition UpdateTask (tw : TimeWheel) (key : key_t) (interval : Z)
    (taskData : TaskData) : TimeWheel * option error :=
  match key with
  | None => (tw, Some ErrIllegalKey)
  | Some _ =>
      match taskRecord tw !! key with
      | None => (tw, Some ErrNotExists)
      | Some a =>
          match heap tw !! a with
          | None => (tw, Some ErrNotExists)
          | Some t => (with_heap tw (<[a := task.set_update t interval taskData]> (heap tw)), None)
          end
      end
  end.

(** ** Tick processing *)

(** The scan walks a [container/list] by element pointer while removing
    elements and, through [addTask], pushing elements at the back of a list
    that may be the one being walked.  The element under the cursor [item]
    is the [i]-th element of the list of slot [p]; [None] is the nil
    element that ends the loop. *)
Inductive step_result :=
  | StepNext (tw : TimeWheel) (item : option nat)
  | StepPanic (tw : TimeWheel).

(** [l.Front()] *)
Definition Front (l : list addr) : option nat :=
  match l with [] => None | _ => Some 0%nat end.

(** [next := item.Next(); l.Remove(item); item = next]: the successor, taken
    before the removal, sits at index [i] once element [i] is gone. *)
Definition next_after_remove (l : list addr) (i : nat) : option nat :=
  if decide (S i < length l)%nat then Some i else None.

(** [item = item.Next()] *)
Definition next_in_place (l : list addr) (i : nat) : option nat :=
  if decide (S i < length l)%nat then Some (S i) else None.

Definition set_slot (tw : TimeWheel) (p : nat) (l : list addr) : TimeWheel :=
  with_slots tw (<[p := Some l]> (slots tw)).

(** One iteration of the [for] loop of [scanAddRunTask], on the list of
    slot [p] with the cursor on its element [i].  The only panics of the Go
    code are a nil [job] at the [go] statement and those of [addTask]; a
    cursor outside the list and a list pointer that is nil or outside the
    slice do not occur there (the loop runs on a non-nil [l] and stops at the
    nil element). *)
Definition scan_step (p i : nat) (tw : TimeWheel) : step_result :=
  match slots tw !! p with
  | Some (Some l) =>
      match l !! i with
      | None => StepPanic tw
      | Some a =>
          match heap tw !! a with
          | None => StepPanic tw
          | Some t =>
              if task.times t =? 0 then
                (* l.Remove(item); delete(tw.taskRecord, task.key) *)
                StepNext (with_taskRecord (set_slot tw p (delete i l))
                            (delete (task.key t) (taskRecord tw)))
                         (next_after_remove l i)
              else if 0 <? task.circle t then
                (* task.circle--, on a positive value *)
                StepNext (with_heap tw
                            (<[a := task.set_circle t (task.circle t - 1)]> (heap tw)))
                         (next_in_place l i)
              else
                match task.job t with
                | None => StepPanic tw
                | Some j =>
                    (* go task.job(task.taskData); l.Remove(item) *)
                    let tw1 := set_slot (with_fired tw (fired tw ++ [(a, j, task.taskData t)]))
                                 p (delete i l) in
                    let next := next_after_remove l i in
                    if task.times t =? 1 then
                      StepNext (with_taskRecord
                                  (with_heap tw1 (<[a := task.set_times t 0]> (heap tw1)))
                                  (delete (task.key t) (taskRecord tw1)))
                               next
                    else
                      let tw2 :=
                        if 0 <? task.times t    (* task.times--, on a positive value *)
                        then with_heap tw1
                               (<[a := task.set_times t (task.times t - 1)]> (heap tw1))
                        else tw1 in
                      match addTask tw2 a with
                      | Done tw3 => StepNext tw3 next
                      | Panic tw3 | OutOfFuel tw3 => StepPanic tw3
                      end
                end
          end
      end
  | _ => StepPanic tw
  end.

Fixpoint scan_loop (fuel : nat) (p : nat) (item : option nat) (tw : TimeWheel) : outcome :=
  match item with
  | None => Done tw
  | Some i =>
      match fuel with
      | O => OutOfFuel tw
      | S fuel' =>
          match scan_step p i tw with
          | StepNext tw' item' => scan_loop fuel' p item' tw'
          | StepPanic tw' => Panic tw'
          end
      end
  end.

(** [scanAddRunTask(l)], where [l] is the list pointer held by slot [p]
    ([tickHandler] has read it from [tw.slots[p]], in range). *)
Definition scanAddRunTask (fuel : nat) (tw : TimeWheel) (p : nat) : outcome :=
  match slots tw !! p with
  | Some (Some l) => scan_loop fuel p (Front l) tw
  | Some None => Done tw          (* l == nil *)
  | None => Panic tw
  end.

Definition tickHandler (fuel : nat) (tw : TimeWheel) : outcome :=
  if (currentPos tw <? 0) || (Z.of_nat (length (slots tw)) <=? currentPos tw)
  then Panic tw                   (* index out of range *)
  else
    match scanAddRunTask fuel tw (Z.to_nat (currentPos tw)) with
    | Done tw1 =>
        Done (with_currentPos tw1
                (if currentPos tw1 =? int_sub (slotNum tw1) 1 then 0
                 else int_add (currentPos tw1) 1))
    | o => o
    end.

(** ** The control loop and its callers, one operation at a time

    [start] selects between a tick and a task pointer received from
    [addTaskChannel] until the stop signal ends it; callers run [AddTask]
    (up to the send), [RemoveTask] and [UpdateTask] in between. *)
Inductive op :=
  | OpTick (fuel : nat)
  | OpRecv (a : addr)
  | OpAddTask (interval times : Z) (key : key_t) (data : TaskData) (job : option Job)
  | OpRemoveTask (key : key_t)
  | OpUpdateTask (key : key_t) (interval : Z) (data : TaskData).

Definition run_op (tw : TimeWheel) (o : op) : outcome :=
  match o with
  | OpTick fuel => tickHandler fuel tw
  | OpRecv a => addTask tw a
  | OpAddTask d n k data j => Done (AddTask tw d n k data j).1.1
  | OpRemoveTask k => Done (RemoveTask tw k).1
  | OpUpdateTask k d data => Done (UpdateTask tw k d data).1
  end.

(** A panic, or a scan that never ends, stops everything after it. *)
Fixpoint run (ops : list op) (tw : TimeWheel) : outcome :=
  match ops with
  | [] => Done tw
  | o :: ops' =>
      match run_op tw o with
      | Done tw' => run ops' tw'
      | stuck => stuck
      end
  end.

(** ** Well-formed wheels

    What [New] establishes and every operation keeps. *)
Record wf (tw : TimeWheel) : Prop := mk_wf {
  wf_slotNum : 0 < slotNum tw <= max_int;
  wf_length : Z.of_nat (length (slots tw)) = slotNum tw;
  wf_pos : 0 <= currentPos tw < slotNum tw;
  wf_nonnil : forall p s, slots tw !! p = Some s -> is_Some s;
  wf_addrs : forall p l a,
      slots tw !! p = Some (Some l) -> a ∈ l -> is_Some (heap tw !! a);
  wf_index : forall k a,
      taskRecord tw !! k = Some a ->
      exists t, heap tw !! a = Some t /\ task.key t = k;
  wf_jobs : forall a t, heap tw !! a = Some t -> is_Some (task.job t)
}.

(** * Vocabulary of the properties *)

(** ** Steps and frames *)

(** The wheel an iteration of the scan ends with. *)
Definition step_state (r : step_result) : TimeWheel :=
  match r with StepNext tw _ | StepPanic tw => tw end.

(** None of the cursor, the slot count and the tick interval is written by
    the scan. *)
Definition same_frame (tw tw' : TimeWheel) : Prop :=
  currentPos tw' = currentPos tw /\ slotNum tw' = slotNum tw /\
  interval tw' = interval tw /\ ticker tw' = ticker tw /\
  length (slots tw') = length (slots tw).

(** The parameter combinations [AddTask] refuses. *)
Definition illegal_params (d n : Z) (k : key_t) (j : option Job) : Prop :=
  d <= 0 \/ k = None \/ j = None \/ n = 0 \/ n < -1.

(** The wheel right after a due task was dispatched and unlinked. *)
Definition after_dispatch (tw : TimeWheel) (p i : nat) (l : list addr) (a : addr)
    (j : Job) (t : task.t) : TimeWheel :=
  mkTW (interval tw) (ticker tw) (<[p := Some (delete i l)]> (slots tw))
       (currentPos tw) (slotNum tw) (taskRecord tw) (heap tw)
       (fired tw ++ [(a, j, task.taskData t)]).

(** What is left of the iteration after [addTask] ran. *)
Definition after_addTask (o : outcome) (next : option nat) : step_result :=
  match o with
  | Done tw => StepNext tw next
  | Panic tw | OutOfFuel tw => StepPanic tw
  end.

(** ** Tombstones *)

(** The dispatches of the task object at [a]. *)
Definition dispatched (a : addr) (tw : TimeWheel) : list dispatch :=
  filter (fun d => d.1.1 = a) (fired tw).

(** The task object at [a] has no runs left. *)
Definition tombstone (a : addr) (tw : TimeWheel) : Prop :=
  exists t, heap tw !! a = Some t /\ task.times t = 0.

(** From [tw] to [tw'] the object at [a] stayed a tombstone and was not
    dispatched. *)
Definition silent (a : addr) (tw tw' : TimeWheel) : Prop :=
  tombstone a tw' /\ dispatched a tw' = dispatched a tw.

(** The part of the list of slot [p] that the cursor has passed (all of
    it once the cursor is nil) does not hold [a]. *)
Definition passed_free (a : addr) (p : nat) (tw : TimeWheel) (item : option nat) : Prop :=
  forall l, slots tw !! p = Some (Some l) ->
    match item with
    | Some i => a ∉ take i l
    | None => a ∉ l
    end.

(** ** Scans that end *)

(** A task of delay [d] that is admitted now finds its slot and, if that is
    the slot under the cursor, gets a circle to wait. *)
Definition readmits_later (tw : TimeWheel) (d : Z) : Prop :=
  exists pos circle,
    getPositionAndCircle tw d = Some (pos, circle) /\
    0 <= pos < slotNum tw /\
    (pos = currentPos tw -> 0 < circle).

(** Every task object of the wheel would be re-admitted that way. *)
Definition tame (tw : TimeWheel) : Prop :=
  forall a t, heap tw !! a = Some t -> readmits_later tw (task.interval t).

(** The work left for the scan: tasks that will be dropped or passed count
    one, due tasks count two (they may come back once, as waiting). *)
Definition weight (tw : TimeWheel) (a : addr) : nat :=
  match heap tw !! a with
  | Some t => if (task.times t =? 0) || (0 <? task.circle t) then 1%nat else 2%nat
  | None => 0%nat
  end.

(** The weight of the part of the list from the cursor on. *)
Definition scan_measure (p : nat) (tw : TimeWheel) (item : option nat) : nat :=
  match item, slots tw !! p with
  | Some i, Some (Some l) => sum_list_with (weight tw) (drop i l)
  | _, _ => 0%nat
  end.

(** What the scan of slot [p] relies on to go on. *)
Record scan_ok (p : nat) (tw : TimeWheel) (item : option nat) : Prop := mk_scan_ok {
  so_wf : wf tw;
  so_tame : tame tw;
  so_cursor : p = Z.to_nat (currentPos tw);
  so_list : exists l, slots tw !! p = Some (Some l) /\ NoDup l /\
                      forall i, item = Some i -> (i < length l)%nat
}.

(** What one iteration did, seen from the task [a] under the cursor: no
    other task object was written; a waiting task lost one circle and the
    list is as it was; any other task left its place, and the list is the
    old one without it, or that with the task pushed at the back. *)
Definition step_summary (p i : nat) (tw tw' : TimeWheel) (item' : option nat)
    (l : list addr) (a : addr) (t : task.t) : Prop :=
  (forall b, b <> a -> heap tw' !! b = heap tw !! b) /\
  ((task.times t <> 0 /\ 0 < task.circle t /\
    slots tw' !! p = Some (Some l) /\ item' = next_in_place l i /\
    heap tw' !! a = Some (task.set_circle t (task.circle t - 1)) /\
    fired tw' = fired tw /\ taskRecord tw' = taskRecord tw)
   \/
   ((task.times t = 0 \/ task.circle t <= 0) /\
    item' = next_after_remove l i /\
    (slots tw' !! p = Some (Some (delete i l)) \/
     slots tw' !! p = Some (Some (delete i l ++ [a]))))).

(** Where a waiting task [a] of slot [p] stands during a scan, [t] being
    what its object held when the scan began: ahead of the cursor and
    untouched, or passed, still in the list, with one circle less. *)
Definition waiting_inv (a : addr) (t : task.t) (p : nat) (tw : TimeWheel)
    (item : option nat) : Prop :=
  exists l k,
    slots tw !! p = Some (Some l) /\ l !! k = Some a /\
    ((exists i, item = Some i /\ (i <= k)%nat /\ heap tw !! a = Some t) \/
     ((forall i, item = Some i -> (k < i)%nat) /\
      heap tw !! a = Some (task.set_circle t (task.circle t - 1)))).

(** ** Concrete wheels *)

(** [New(time.Second, 4)] *)
Definition wheel_1s : TimeWheel :=
  mkTW Second None (replicate 4 (Some [])) 0 4 ∅ [] [].

(** [AddTask(6 * time.Second, 2, "a", data, job)] up to the send: the task
    object sits at address 0 and is not yet in a slot. *)
Definition wheel_sent : TimeWheel :=
  (AddTask wheel_1s (6 * Second) 2 (Some "a"%string) ∅ (Some 7%nat)).1.1.

(** A wheel whose slot under the cursor holds a waiting task (address 0,
    key "a", due after one more round) and a tombstone (address 1, key "b",
    added and then removed). *)
Definition wheel_busy : TimeWheel :=
  state_of (run [OpAddTask (4 * Second) 2 (Some "a"%string) ∅ (Some 7%nat);
                 OpRecv 0;
                 OpAddTask (8 * Second) 1 (Some "b"%string) ∅ (Some 8%nat);
                 OpRecv 1;
                 OpRemoveTask (Some "b"%string)] wheel_1s).

(** [New(1500 * time.Millisecond, 10)] and a task of 3 s sent to it. *)
Definition wheel_1500ms : TimeWheel :=
  mkTW 1500000000 None (replicate 10 (Some [])) 0 10 ∅ [] [].

Definition wheel_1500ms_sent : TimeWheel :=
  (AddTask wheel_1500ms (3 * Second) 1 (Some "k"%string) ∅ (Some 7%nat)).1.1.

(** [New(500 * time.Millisecond, 10)] and a task of 1 s sent to it. *)
Definition wheel_500ms : TimeWheel :=
  mkTW 500000000 None (replicate 10 (Some [])) 0 10 ∅ [] [].

Definition wheel_500ms_sent : TimeWheel :=
  (AddTask wheel_500ms Second 1 (Some "k"%string) ∅ (Some 7%nat)).1.1.

(** [AddTask(4 * time.Second, 2, "a", data, job)] admitted on a fresh
    wheel: the task (address 0) is pending in slot 0 with one circle to
    wait. *)
Definition wheel_pending : TimeWheel :=
  state_of (run [OpAddTask (4 * Second) 2 (Some "a"%string) ∅ (Some 7%nat);
                 OpRecv 0] wheel_1s).

(** A task of 1 s with two runs, admitted on a fresh wheel, after the
    first tick: the cursor is on slot 1 and the task (address 0) is due
    there. *)
Definition wheel_due : TimeWheel :=
  state_of (run [OpAddTask Second 2 (Some "a"%string) ∅ (Some 7%nat);
                 OpRecv 0; OpTick 1] wheel_1s).

(** [New(2 * time.Second, 4)] with two unlimited tasks of 1 s admitted: both
    sit in slot 0 with no circle, and each re-admission puts the task back
    into slot 0 with no circle.  [order] tells which of the two is first in
    the list, [f] what has been dispatched. *)
Definition wheel_spin (order : bool) (f : list dispatch) : TimeWheel :=
  mkTW (2 * Second) None
       [Some (if order then [0; 1]%nat else [1; 0]%nat); Some []; Some []; Some []]
       0 4
       (<[Some "b"%string := 1%nat]> (<[Some "a"%string := 0%nat]> ∅))
       [task.mk Second (-1) 0 (Some "a"%string) (Some 7%nat) ∅;
        task.mk Second (-1) 0 (Some "b"%string) (Some 8%nat) ∅]
       f.

(** * The wheel at work *)

(** What happened to the task object at [a] from [tw] to [tw']: it kept
    its key and its job; the log grew by [ds], in which every dispatch of
    [a] runs that job; and if its runs were counted, they still are and
    each dispatch was paid for by one run. *)
Definition history (a : addr) (tw tw' : TimeWheel) : Prop :=
  exists t t' ds,
    heap tw !! a = Some t /\ heap tw' !! a = Some t' /\
    task.key t' = task.key t /\ task.job t' = task.job t /\
    fired tw' = fired tw ++ ds /\
    (forall d, d ∈ ds -> d.1.1 = a -> task.job t = Some d.1.2) /\
    (-1 <= task.times t -> -1 <= task.times t') /\
    (0 <= task.times t ->
     0 <= task.times t' /\
     Z.of_nat (length (dispatched a tw')) + task.times t'
     <= Z.of_nat (length (dispatched a tw)) + task.times t).

(** The ticks among the operations. *)
Fixpoint count_ticks (ops : list op) : Z :=
  match ops with
  | [] => 0
  | OpTick _ :: ops' => 1 + count_ticks ops'
  | _ :: ops' => count_ticks ops'
  end.

(** What [AddTask] lets through, and the scan keeps: a key, a job, and a
    run count that is -1 or not negative. *)
Definition valid_task (t : task.t) : Prop :=
  task.key t <> None /\ is_Some (task.job t) /\ -1 <= task.times t.

(** ** The wheel with its control loop and its callers

    [Start] launches [start] as a goroutine ([go tw.start()]); [AddTask] and
    [Stop] hand over to it on the unbuffered channels [addTaskChannel] and
    [stopChannel], where a sender blocks until the loop takes what it
    sends.  The system is the wheel, where the control loop stands, whether
    the ticker runs, the task pointers offered by callers blocked in
    [AddTask], and the number of callers blocked in [Stop].  Operations are
    atomic, as in [run]. *)

Inductive loop_state :=
  | NotStarted        (* no [Start] yet *)
  | Selecting         (* in [start], at the [select] *)
  | Returned          (* [start] has returned on the stop signal *)
  | Crashed.          (* a panic ended the program *)

Record system := mkSys {
  wheel : TimeWheel;
  loop : loop_state;
  ticking : bool;
  senders : list addr;
  stoppers : nat
}.

(** What can happen next: a caller enters one of the public operations, or
    the [select] of the control loop takes one of its three cases. *)
Inductive action :=
  | DoStart
  | DoStop
  | DoAddTask (interval times : Z) (key : key_t) (data : TaskData) (job : option Job)
  | DoRemoveTask (key : key_t)
  | DoUpdateTask (key : key_t) (interval : Z) (data : TaskData)
  | OnTick (fuel : nat)      (* case <-tw.ticker.C *)
  | OnTask (a : addr)        (* case task := <-tw.addTaskChannel *)
  | OnStop.                  (* case <-tw.stopChannel *)

(** The sender that was served leaves the channel. *)
Fixpoint remove_first (a : addr) (l : list addr) : list addr :=
  match l with
  | [] => []
  | b :: l' => if decide (b = a) then l' else b :: remove_first a l'
  end.

Definition after_loop_step (s : system) (chan : list addr) (o : outcome) : option system :=
  match o with
  | Done tw => Some (mkSys tw Selecting (ticking s) chan (stoppers s))
  | Panic tw => Some (mkSys tw Crashed (ticking s) chan (stoppers s))
  | OutOfFuel _ => None
  end.

(** One step of the system; [None] when the action cannot happen in that
    state, or happens outside what is modelled: nothing happens after a
    panic; [Start] while a control loop is selecting would run two loops on
    one wheel; a tick that takes more than [fuel] iterations of the scan is
    not [OnTick fuel].  [time.NewTicker] panics on a non-positive
    interval. *)
Definition sys_step (s : system) (x : action) : option system :=
  match loop s, x with
  | Crashed, _ => None
  | Selecting, DoStart => None
  | _, DoStart =>
      if interval (wheel s) <=? 0
      then Some (mkSys (wheel s) Crashed (ticking s) (senders s) (stoppers s))
      else Some (mkSys (Start (wheel s)) Selecting true (senders s) (stoppers s))
  | st, DoStop =>
      Some (mkSys (wheel s) st (ticking s) (senders s) (S (stoppers s)))
  | st, DoAddTask d n k data j =>
      match AddTask (wheel s) d n k data j with
      | (tw, Some a, _) => Some (mkSys tw st (ticking s) (senders s ++ [a]) (stoppers s))
      | (tw, None, _) => Some (mkSys tw st (ticking s) (senders s) (stoppers s))
      end
  | st, DoRemoveTask k =>
      Some (mkSys (RemoveTask (wheel s) k).1 st (ticking s) (senders s) (stoppers s))
  | st, DoUpdateTask k d data =>
      Some (mkSys (UpdateTask (wheel s) k d data).1 st (ticking s) (senders s) (stoppers s))
  | Selecting, OnTick fuel =>
      if ticking s then after_loop_step s (senders s) (tickHandler fuel (wheel s))
      else None
  | Selecting, OnTask a =>
      if decide (a ∈ senders s)
      then after_loop_step s (remove_first a (senders s)) (addTask (wheel s) a)
      else None
  | Selecting, OnStop =>
      match stoppers s with
      | O => None
      | S n => Some (mkSys (wheel s) Returned false (senders s) n)   (* tw.ticker.Stop(); return *)
      end
  | _, _ => None
  end.

Fixpoint sys_run (xs : list action) (s : system) : option system :=
  match xs with
  | [] => Some s
  | x :: xs' =>
      match sys_step s x with
      | Some s' => sys_run xs' s'
      | None => None
      end
  end.

(** A wheel as [New] returns it, with no control loop yet. *)
Definition boot (tw : TimeWheel) : system := mkSys tw NotStarted false [] 0.

(** The ticks among the actions. *)
Fixpoint ticks (xs : list action) : Z :=
  match xs with
  | [] => 0
  | OnTick _ :: xs' => 1 + ticks xs'
  | _ :: xs' => ticks xs'
  end.

(** ** Wheels used as intended

    The tick interval is at least one second, every delay handed to
    [AddTask] or [UpdateTask] is at least one tick interval, all are below
    [2^24] seconds, and the slot count leaves room for the cursor
    arithmetic. *)

Definition sane_wheel (d n : Z) : Prop :=
  Second <= d < 2 ^ 24 * Second /\ 0 < n /\ n + 2 ^ 24 <= max_int.

Definition sane_action (d : Z) (x : action) : Prop :=
  match x with
  | DoAddTask i _ _ _ _ | DoUpdateTask _ i _ => d <= i < 2 ^ 24 * Second
  | _ => True
  end.

(** All task pointers in the slot lists. *)
Definition queued (tw : TimeWheel) : list addr :=
  mjoin (default [] <$> slots tw).

(** The ticks a delay of [i] takes on a wheel of tick interval [d]. *)
Definition delay_steps (d i : Z) : Z := (i / Second) / (d / Second).

(** What holds of the wheel of such a system at every moment, [chan] being
    the task pointers waiting on the channel: every delay is as above,
    no task pointer is held twice, a task on the channel has runs left,
    and the index holds queued tasks only. *)
Record wheel_inv (d n : Z) (chan : list addr) (tw : TimeWheel) : Prop := mk_wheel_inv {
  wi_sane : sane_wheel d n;
  wi_wf : wf tw;
  wi_interval : interval tw = d;
  wi_slotNum : slotNum tw = n;
  wi_tasks : forall a t, heap tw !! a = Some t ->
               d <= task.interval t < 2 ^ 24 * Second;
  wi_nodup : NoDup (chan ++ queued tw);
  wi_alloc : forall a, a ∈ chan ->
               exists t, heap tw !! a = Some t /\ task.times t <> 0;
  wi_index : forall k a, taskRecord tw !! k = Some a -> a ∈ queued tw
}.

Record sys_inv (d n : Z) (s : system) : Prop := mk_sys_inv {
  si_wheel : wheel_inv d n (senders s) (wheel s);
  si_ticking : loop s = Selecting -> ticking s = true;
  si_alive : loop s <> Crashed
}.

(** What one iteration of the scan makes of the wheel, by the state of the
    task [b] under the cursor: dropped, passed, run for the last time, or
    run and admitted again. *)
Inductive step_shape (p i : nat) (tw : TimeWheel) (l : list addr) (b : addr)
    (t : task.t) : TimeWheel -> option nat -> Prop :=
  | shape_dead :
      task.times t = 0 ->
      step_shape p i tw l b t
        (mkTW (interval tw) (ticker tw) (<[p := Some (delete i l)]> (slots tw))
              (currentPos tw) (slotNum tw)
              (delete (task.key t) (taskRecord tw)) (heap tw) (fired tw))
        (next_after_remove l i)
  | shape_wait :
      task.times t <> 0 -> 0 < task.circle t ->
      step_shape p i tw l b t
        (mkTW (interval tw) (ticker tw) (slots tw) (currentPos tw) (slotNum tw)
              (taskRecord tw)
              (<[b := task.set_circle t (task.circle t - 1)]> (heap tw)) (fired tw))
        (next_in_place l i)
  | shape_last (j : Job) :
      task.times t = 1 -> task.circle t <= 0 -> task.job t = Some j ->
      step_shape p i tw l b t
        (mkTW (interval tw) (ticker tw) (<[p := Some (delete i l)]> (slots tw))
              (currentPos tw) (slotNum tw)
              (delete (task.key t) (taskRecord tw))
              (<[b := task.set_times t 0]> (heap tw))
              (fired tw ++ [(b, j, task.taskData t)]))
        (next_after_remove l i)
  | shape_again (j : Job) (pos circle : Z) (l' : list addr) :
      task.times t <> 0 -> task.times t <> 1 -> task.circle t <= 0 ->
      task.job t = Some j ->
      getPositionAndCircle tw (task.interval t) = Some (pos, circle) ->
      0 <= pos < slotNum tw -> (pos = currentPos tw -> 0 < circle) ->
      <[p := Some (delete i l)]> (slots tw) !! Z.to_nat pos = Some (Some l') ->
      step_shape p i tw l b t
        (mkTW (interval tw) (ticker tw)
              (<[Z.to_nat pos := Some (l' ++ [b])]>
                 (<[p := Some (delete i l)]> (slots tw)))
              (currentPos tw) (slotNum tw)
              (<[task.key t := b]> (taskRecord tw))
              (<[b := task.mk (task.interval t)
                              (if 0 <? task.times t then task.times t - 1
                               else task.times t)
                              circle (task.key t) (task.job t) (task.taskData t)]>
                 (heap tw))
              (fired tw ++ [(b, j, task.taskData t)]))
        (next_after_remove l i).

(** ** Following one task through a scan *)

(** Where a task stands with respect to the scan of slot [p]: in the list
    of that slot at or after the cursor, in that list before the cursor, in
    the list of the slot [q], or in no slot. *)
Inductive place :=
  | Ahead
  | Behind
  | Away (q : nat)
  | Out.

(** The task [a] holds [x], its dispatches so far are [D], and it stands
    at [pl]. *)
Definition tracked (a : addr) (p : nat) (pl : place) (x : task.t) (D : list dispatch)
    (tw : TimeWheel) (item : option nat) : Prop :=
  heap tw !! a = Some x /\ dispatched a tw = D /\
  match pl with
  | Ahead =>
      exists l k i, slots tw !! p = Some (Some l) /\ l !! k = Some a /\
                    item = Some i /\ (i <= k)%nat
  | Behind =>
      exists l k, slots tw !! p = Some (Some l) /\ l !! k = Some a /\
                  forall i, item = Some i -> (k < i)%nat
  | Away q => q <> p /\ exists l, slots tw !! q = Some (Some l) /\ a ∈ l
  | Out => a ∉ queued tw
  end.

(** What the iteration that finds [a] under the cursor makes of it, unless
    [a] comes back into the list that is being scanned. *)
Definition visit (tw : TimeWheel) (p : nat) (a : addr) (x : task.t) (D : list dispatch)
    : option (place * task.t * list dispatch) :=
  if task.times x =? 0 then Some (Out, x, D)
  else if 0 <? task.circle x then Some (Behind, task.set_circle x (task.circle x - 1), D)
  else
    match task.job x with
    | None => None
    | Some j =>
        let D' := D ++ [(a, j, task.taskData x)] in
        if task.times x =? 1 then Some (Out, task.set_times x 0, D')
        else
          match getPositionAndCircle tw (task.interval x) with
          | None => None
          | Some (pos, c) =>
              if decide (Z.to_nat pos = p) then None
              else Some (Away (Z.to_nat pos),
                         task.mk (task.interval x)
                                 (if 0 <? task.times x then task.times x - 1
                                  else task.times x)
                                 c (task.key x) (task.job x) (task.taskData x),
                         D')
          end
    end.

(** ** Schedules *)

Definition in_slot (tw : TimeWheel) (a : addr) (q : nat) : Prop :=
  exists l, slots tw !! q = Some (Some l) /\ a ∈ l.

(** The task [a] holds [x], has runs left, and sits in a slot with a
    circle such that [m] ticks pass before the tick that runs it. *)
Definition waits (tw : TimeWheel) (a : addr) (x : task.t) (m : Z) : Prop :=
  heap tw !! a = Some x /\ task.times x <> 0 /\ 0 <= task.circle x /\
  exists q, in_slot tw a q /\
    m = (Z.of_nat q - currentPos tw) mod slotNum tw + task.circle x * slotNum tw.

(** Actions that leave the task with key [k] to the control loop. *)
Definition quiet (k : key_t) (x : action) : Prop :=
  match x with
  | DoRemoveTask k' | DoUpdateTask k' _ _ => k' <> k
  | _ => True
  end.

(** The runs that a task of run count [times], admitted with [st] ticks
    of delay, has had after [N] ticks when it runs at the ticks
    [st + 1], [2 st + 1], ... *)
Definition runs_by (times st N : Z) : Z :=
  let k := Z.max 0 ((N - 1) / st) in
  if 0 <? times then Z.min times k else k.

(** The task as it is after [k] runs, with the circle [c]. *)
Definition after_runs (t : task.t) (k c : Z) : task.t :=
  task.mk (task.interval t)
          (if 0 <? task.times t then task.times t - k else task.times t)
          c (task.key t) (task.job t) (task.taskData t).

(** Where the task [a], admitted as [t], stands [N] ticks after its
    admission when it keeps to that schedule: [k] runs are on the log, after
    the dispatches [D0] it had before, and either it waits for the next one
    or it has had them all. *)
Definition on_schedule (d n : Z) (a : addr) (t : task.t) (j : Job)
    (D0 : list dispatch) (N : Z) (tw : TimeWheel) : Prop :=
  let st := delay_steps d (task.interval t) in
  exists k : Z,
    0 <= k /\
    dispatched a tw = D0 ++ replicate (Z.to_nat k) (a, j, task.taskData t) /\
    ((exists m c,
        (0 < task.times t -> k < task.times t) /\
        waits tw a (after_runs t k c) m /\
        0 <= m /\ N + m = (k + 1) * st /\ (k = 0 \/ m < st))
     \/
     (0 < task.times t /\ k = task.times t /\ k * st + 1 <= N /\
      heap tw !! a = Some (after_runs t k 0) /\ a ∉ queued tw)).

(** ** The example program

    [main]: [tw := timewheel.New(time.Second, 160)], [tw.Start()],
    [tw.AddTask(time.Second * 2, 5, "did", TaskData{"name": "nosixtools"}, f)]
    and [select {}], where [f] prints the time and [params["name"]]. *)

Definition main_wheel : TimeWheel :=
  mkTW Second None (replicate 160 (Some [])) 0 160 ∅ [] [].

Definition main_data : TaskData := {["name"%string := "nosixtools"%string]}.

(** The function literal handed to [AddTask]. *)
Definition main_job : Job := 0%nat.

Definition main_calls : list action :=
  [DoStart; DoAddTask (2 * Second) 5 (Some "did"%string) main_data (Some main_job)].

(** What the control loop does while [main] blocks: only ticks. *)
Definition only_ticks (xs : list action) : Prop :=
  Forall (fun x => exists fuel, x = OnTick fuel) xs.

(** What holds while the program runs: the control loop is at its
    [select], and the one task object is all there is. *)
Record main_inv (s : system) : Prop := mk_main_inv {
  mi_sys : sys_inv Second 160 s;
  mi_loop : loop s = Selecting;
  mi_heap : length (heap (wheel s)) = 1%nat;
  mi_fired : forall d, d ∈ fired (wheel s) -> d.1.1 = 0%nat
}.

(** ** Concrete runs *)

(** The state a run of actions ends in, or the state it starts from when
    the run cannot happen. *)
Definition sys_after (xs : list action) (s : system) : system :=
  default s (sys_run xs s).

(** Key "a" added, admitted, removed, added again and admitted again on
    [wheel_1s]: slot 0 holds the tombstone (address 0) and the new task
    (address 1), and the index maps "a" to the new task. *)
Definition wheel_reused : TimeWheel :=
  state_of (run [OpAddTask (4 * Second) 2 (Some "a"%string) ∅ (Some 7%nat);
                 OpRecv 0;
                 OpRemoveTask (Some "a"%string);
                 OpAddTask (4 * Second) 2 (Some "a"%string) ∅ (Some 8%nat);
                 OpRecv 1] wheel_1s).

(** A task of 2 s and three runs, as [AddTask] makes it. *)
Definition task_2s : task.t :=
  task.mk (2 * Second) 3 0 (Some "a"%string) (Some 7%nat) ∅.

(** [Start] on [wheel_1s] and a caller blocked in [AddTask] with that
    task. *)
Definition calls_2s : list action :=
  [DoStart; DoAddTask (2 * Second) 3 (Some "a"%string) ∅ (Some 7%nat)].

Definition sys_2s : system := sys_after calls_2s (boot wheel_1s).

(** [Start] on [wheel_1s], a task of 4 s and three runs admitted, and four
    ticks: the cursor is back on slot 0, where the task is due. *)
Definition calls_4s : list action :=
  [DoStart; DoAddTask (4 * Second) 3 (Some "a"%string) ∅ (Some 7%nat); OnTask 0;
   OnTick 2; OnTick 2; OnTick 2; OnTick 2].

Definition sys_4s : system := sys_after calls_4s (boot wheel_1s).

(** [Start] on [wheel_1s], a task of 1 s and two runs admitted, and one
    tick: the cursor is on slot 1, where the task is due. *)
Definition sys_due : system :=
  sys_after [DoStart; DoAddTask Second 2 (Some "a"%string) ∅ (Some 7%nat); OnTask 0;
             OnTick 1] (boot wheel_1s).

(** Two callers in [AddTask(4 * time.Second, 2, "k", data, job)] on
    [wheel_1s] before the control loop has taken the first task, then both
    tasks admitted: both sit in slot 0 with one circle to wait, and the
    index holds the second under "k". *)
Definition wheel_twins : TimeWheel :=
  state_of (run [OpAddTask (4 * Second) 2 (Some "k"%string) ∅ (Some 7%nat);
                 OpAddTask (4 * Second) 2 (Some "k"%string) ∅ (Some 8%nat);
                 OpRecv 0; OpRecv 1] wheel_1s).

(** ** One iteration of the scan, access by access

    [RemoveTask] runs in the goroutine of its caller.  It holds the read
    lock of [recordLock] from its lookup to its return, and the control loop
    takes the write lock around each of its accesses to [taskRecord]; the
    fields of a task object are read and written by the scan under no lock.
    So a [RemoveTask] can take effect between any two accesses of an
    iteration of the scan to the task object, and it takes effect there as a
    whole.  The points are these accesses, in program order. *)
Inductive point :=
  | AtTimes0      (* line 207: if task.times == 0 *)
  | AtCircle      (* line 217: if task.circle > 0 *)
  | AtGo          (* line 223: go task.job(task.taskData) *)
  | AtTimes1      (* line 228: if task.times == 1 *)
  | AtPositive    (* line 234: if task.times > 0 *)
  | AtDecrement   (* line 235: task.times--, the read *)
  | AtStore       (* line 235: task.times--, the write *)
  | AtAddTask     (* line 182: if task.times == 0 *)
  | AtPosition.   (* line 186: tw.getPositionAndCircle(task.interval) *)

Definition point_index (x : point) : nat :=
  match x with
  | AtTimes0 => 0 | AtCircle => 1 | AtGo => 2 | AtTimes1 => 3 | AtPositive => 4
  | AtDecrement => 5 | AtStore => 6 | AtAddTask => 7 | AtPosition => 8
  end%nat.

(** The wheel as the control loop finds it at the point [here], when a
    [RemoveTask(k)] takes effect just before the access at [at_]. *)
Definition land (at_ : point) (k : key_t) (here : point) (tw : TimeWheel) : TimeWheel :=
  if Nat.eqb (point_index here) (point_index at_) then (RemoveTask tw k).1 else tw.

(** [addTask] from line 186 on, after the test of [task.times]. *)
Definition addTask_rest (tw : TimeWheel) (a : addr) : outcome :=
  match heap tw !! a with
  | None => Panic tw
  | Some t =>
      match getPositionAndCircle tw (task.interval t) with
      | None => Panic tw
      | Some (pos, circle) =>
          let tw1 := with_heap tw (<[a := task.set_circle t circle]> (heap tw)) in
          if pos <? 0 then Panic tw1
          else
            match slots tw1 !! Z.to_nat pos with
            | Some (Some l) =>
                Done (with_taskRecord
                        (with_slots tw1 (<[Z.to_nat pos := Some (l ++ [a])]> (slots tw1)))
                        (<[task.key t := a]> (taskRecord tw1)))
            | _ => Panic tw1
            end
      end
  end.

(** Lines 234 to 237 with the task object read anew at every access:
    [if task.times > 0 { task.times-- }], then [tw.addTask(task)]. *)
Definition racy_readmit (at_ : point) (k : key_t) (a : addr) (next : option nat)
    (tw : TimeWheel) : step_result :=
  let tw := land at_ k AtPositive tw in
  match heap tw !! a with
  | None => StepPanic tw
  | Some t =>
      let tw :=
        if 0 <? task.times t then
          let tw := land at_ k AtDecrement tw in
          match heap tw !! a with
          | None => tw
          | Some t1 =>
              let tw := land at_ k AtStore tw in
              match heap tw !! a with
              | None => tw
              | Some t2 =>
                  with_heap tw (<[a := task.set_times t2 (task.times t1 - 1)]> (heap tw))
              end
          end
        else tw in
      let tw := land at_ k AtAddTask tw in
      match heap tw !! a with
      | None => StepPanic tw
      | Some t =>
          if task.times t =? 0 then StepNext tw next
          else
            match addTask_rest (land at_ k AtPosition tw) a with
            | Done tw' => StepNext tw' next
            | Panic tw' | OutOfFuel tw' => StepPanic tw'
            end
      end
  end.

(** One iteration of the scan of slot [p] on its element [i], with a
    [RemoveTask(k)] that takes effect just before the access at [at_] (if
    the iteration gets there).  The list is the control loop's own: no
    caller reads or writes the slots. *)
Definition racy_step (at_ : point) (k : key_t) (p i : nat) (tw : TimeWheel)
    : step_result :=
  let tw := land at_ k AtTimes0 tw in
  match slots tw !! p with
  | Some (Some l) =>
      match l !! i with
      | None => StepPanic tw
      | Some a =>
          match heap tw !! a with
          | None => StepPanic tw
          | Some t =>
              if task.times t =? 0 then
                StepNext (with_taskRecord (set_slot tw p (delete i l))
                            (delete (task.key t) (taskRecord tw)))
                         (next_after_remove l i)
              else
                let tw := land at_ k AtCircle tw in
                match heap tw !! a with
                | None => StepPanic tw
                | Some t =>
                    if 0 <? task.circle t then
                      StepNext (with_heap tw
                                  (<[a := task.set_circle t (task.circle t - 1)]> (heap tw)))
                               (next_in_place l i)
                    else
                      let tw := land at_ k AtGo tw in
                      match heap tw !! a with
                      | None => StepPanic tw
                      | Some t =>
                          match task.job t with
                          | None => StepPanic tw
                          | Some j =>
                              let tw :=
                                set_slot (with_fired tw (fired tw ++ [(a, j, task.taskData t)]))
                                         p (delete i l) in
                              let next := next_after_remove l i in
                              let tw := land at_ k AtTimes1 tw in
                              match heap tw !! a with
                              | None => StepPanic tw
                              | Some t =>
                                  if task.times t =? 1 then
                                    StepNext
                                      (with_taskRecord
                                         (with_heap tw (<[a := task.set_times t 0]> (heap tw)))
                                         (delete (task.key t) (taskRecord tw)))
                                      next
                                  else racy_readmit at_ k a next tw
                              end
                          end
                      end
                end
          end
      end
  | _ => StepPanic tw
  end.

(** The wheel of [sys_due] when a [RemoveTask("a")] has taken effect
    between the test of line 234 and the decrement of line 235 in the scan
    of the next tick, and that tick has moved the cursor. *)
Definition wheel_raced : TimeWheel :=
  with_currentPos (step_state (racy_step AtDecrement (Some "a"%string) 1 0 (wheel sys_due))) 2.

(** Closes the side goals of a [history] that adds nothing to the log. *)
Ltac history_nil :=
  repeat split; try done; try (simpl; lia);
  try (intros ? Hnil; by apply elem_of_nil in Hnil);
  try (unfold dispatched; simpl;
       repeat match goal with H : fired _ = _ |- _ => rewrite H end; lia).


(** * Properties *)

(** ** Construction *)

Lemma init_loop_prefix (s : list (option (list addr))) (k : nat) :
  (k <= length s)%nat ->
  foldl (fun s i => <[i := Some []]> s) s (seq 0 k)
  = replicate k (Some []) ++ drop k s.
Proof.
  induction k as [|k IH]; intros Hk.
  - by rewrite drop_0.
  - rewrite seq_S, foldl_app, IH by lia. simpl.
    destruct (lookup_lt_is_Some_2 s k) as [x Hx]; [lia|].
    rewrite (drop_S _ _ _ Hx).
    rewrite insert_app_r_alt by (rewrite length_replicate; lia).
    rewrite length_replicate, Nat.sub_diag. simpl.
    change (Some [] :: replicate k (Some []) ++ drop (S k) s)
      with (replicate (S k) (Some ([] : list addr)) ++ drop (S k) s).
    by rewrite replicate_S_end, <- app_assoc.
Qed.

Lemma init_slots (tw : TimeWheel) :
  length (slots tw) = Z.to_nat (slotNum tw) ->
  slots (init tw) = replicate (Z.to_nat (slotNum tw)) (Some []).
Proof.
  intros Hlen. unfold init. simpl.
  rewrite init_loop_prefix by lia.
  rewrite drop_ge by lia. by rewrite app_nil_r.
Qed.

Lemma New_Some (d n : Z) :
  0 < d -> 0 < n ->
  New d n = Some (mkTW d None (replicate (Z.to_nat n) (Some [])) 0 n ∅ [] []).
Proof.
  intros Hd Hn. unfold New.
  destruct (Z.leb_spec d 0); [lia|]. destruct (Z.leb_spec n 0); [lia|]. simpl.
  f_equal.
  pose proof (init_slots (mkTW d None (replicate (Z.to_nat n) None) 0 n ∅ [] [])) as H1.
  simpl in H1. specialize (H1 (length_replicate _ _)).
  unfold init in *. simpl in *. unfold with_slots. simpl. by rewrite H1.
Qed.

Lemma New_None (d n : Z) : New d n = None <-> d <= 0 \/ n <= 0.
Proof.
  unfold New. destruct (Z.leb_spec d 0), (Z.leb_spec n 0); simpl; split;
    intros; try lia; try done; auto.
Qed.

(** C9: [New] yields nil exactly for a non-positive interval or slot count;
    for positive arguments it yields a wheel with [slotNum] allocated, empty
    slots, an empty task index and the cursor on the first slot, and nothing
    is started: no ticker, no task object, nothing dispatched. *)
Theorem New_spec (d n : Z) :
  (New d n = None <-> d <= 0 \/ n <= 0) /\
  (0 < d -> 0 < n ->
   exists tw, New d n = Some tw /\
     interval tw = d /\ slotNum tw = n /\
     Z.of_nat (length (slots tw)) = n /\
     (forall p, (p < Z.to_nat n)%nat -> slots tw !! p = Some (Some [])) /\
     taskRecord tw = ∅ /\ currentPos tw = 0 /\
     ticker tw = None /\ heap tw = [] /\ fired tw = []).
Proof.
  split; [apply New_None|].
  intros Hd Hn. eexists. split; [by apply New_Some|]. simpl.
  repeat split; try done.
  - rewrite length_replicate. lia.
  - intros p Hp. by apply lookup_replicate_2.
Qed.

Lemma New_spec_witness :
  exists tw, New Second 4 = Some tw /\
     interval tw = Second /\ slotNum tw = 4 /\
     Z.of_nat (length (slots tw)) = 4 /\
     (forall p, (p < Z.to_nat 4)%nat -> slots tw !! p = Some (Some [])) /\
     taskRecord tw = ∅ /\ currentPos tw = 0 /\
     ticker tw = None /\ heap tw = [] /\ fired tw = [].
Proof.
  apply (proj2 (New_spec Second 4)); reflexivity.
Defined.

(** ** Well-formedness is an invariant *)

Lemma wrap_id (z : Z) : min_int <= z <= max_int -> wrap z = z.
Proof.
  unfold wrap, min_int, max_int. intros H.
  rewrite Z.mod_small; lia.
Qed.

Lemma wf_New (d n : Z) (tw : TimeWheel) :
  n <= max_int -> New d n = Some tw -> wf tw.
Proof.
  intros Hmax HN.
  destruct (Z.leb_spec d 0) as [Hd|Hd].
  { assert (New d n = None) as E by (apply New_None; auto). congruence. }
  destruct (Z.leb_spec n 0) as [Hn|Hn].
  { assert (New d n = None) as E by (apply New_None; auto). congruence. }
  rewrite New_Some in HN by lia. injection HN as <-.
  split; simpl; try lia.
  - rewrite length_replicate. lia.
  - intros p s [-> _]%lookup_replicate. eauto.
  - intros p l a [[= ->] _]%lookup_replicate Ha. by apply elem_of_nil in Ha.
  - intros k a Hk. by rewrite lookup_empty in Hk.
  - intros a t Ha. by rewrite lookup_nil in Ha.
Qed.

(** Writing through a task pointer keeps the wheel well formed as long as
    the key and the job of the object stay what they were. *)
Lemma wf_store (tw : TimeWheel) (a : addr) (t t' : task.t) :
  heap tw !! a = Some t ->
  task.key t' = task.key t -> task.job t' = task.job t ->
  wf tw -> wf (with_heap tw (<[a := t']> (heap tw))).
Proof.
  intros Ha Hk Hj [H1 H2 H3 H4 H5 H6 H7].
  split; simpl; try done.
  - intros p l b Hp Hb. destruct (H5 p l b Hp Hb) as [x Hx].
    apply lookup_lt_is_Some. rewrite length_insert.
    by eapply lookup_lt_Some.
  - intros k b Hb. destruct (H6 k b Hb) as (x & Hx & Hkx).
    destruct (decide (b = a)) as [->|Hne].
    + exists t'. rewrite list_lookup_insert_eq by (by eapply lookup_lt_Some).
      split; [done|]. congruence.
    + exists x. by rewrite list_lookup_insert_ne.
  - intros b x Hb.
    destruct (decide (b = a)) as [->|Hne].
    + rewrite list_lookup_insert_eq in Hb by (by eapply lookup_lt_Some).
      injection Hb as <-. rewrite Hj. eauto.
    + rewrite list_lookup_insert_ne in Hb by done. eauto.
Qed.

(** Replacing the list of a slot by one whose elements are all in the
    store. *)
Lemma wf_set_slot (tw : TimeWheel) (p : nat) (l : list addr) :
  (forall a, a ∈ l -> is_Some (heap tw !! a)) ->
  wf tw -> wf (set_slot tw p l).
Proof.
  intros Hl [H1 H2 H3 H4 H5 H6 H7].
  split; simpl; try done.
  - by rewrite length_insert.
  - intros q s Hq. destruct (decide (q = p)) as [->|Hne].
    + apply list_lookup_insert_Some in Hq as [(_ & <- & _)|(? & _)]; [eauto|done].
    + rewrite list_lookup_insert_ne in Hq by done. eauto.
  - intros q l' a Hq Ha. destruct (decide (q = p)) as [->|Hne].
    + apply list_lookup_insert_Some in Hq as [(_ & [= <-] & _)|(? & _)]; [eauto|done].
    + rewrite list_lookup_insert_ne in Hq by done. eauto.
Qed.

Lemma wf_index_delete (tw : TimeWheel) (k : key_t) :
  wf tw -> wf (with_taskRecord tw (delete k (taskRecord tw))).
Proof.
  intros [H1 H2 H3 H4 H5 H6 H7].
  split; simpl; try done.
  intros k' a [_ Hk]%lookup_delete_Some. eauto.
Qed.

Lemma wf_index_insert (tw : TimeWheel) (a : addr) (t : task.t) :
  heap tw !! a = Some t ->
  wf tw -> wf (with_taskRecord tw (<[task.key t := a]> (taskRecord tw))).
Proof.
  intros Ha [H1 H2 H3 H4 H5 H6 H7].
  split; simpl; try done.
  intros k b [[<- <-]|[_ Hk]]%lookup_insert_Some; eauto.
Qed.

Lemma wf_fired (tw : TimeWheel) (x : list dispatch) :
  wf tw -> wf (with_fired tw x).
Proof. intros [H1 H2 H3 H4 H5 H6 H7]. by split. Qed.

Lemma wf_addTask (tw : TimeWheel) (a : addr) :
  wf tw -> wf (state_of (addTask tw a)).
Proof.
  intros Hwf. unfold addTask.
  destruct (heap tw !! a) as [t|] eqn:Ha; [|done].
  destruct (task.times t =? 0); [done|].
  destruct (getPositionAndCircle tw (task.interval t)) as [[pos c]|]; [|done].
  assert (wf (with_heap tw (<[a:=task.set_circle t c]> (heap tw)))) as Hwf1
    by (by eapply wf_store).
  destruct (pos <? 0); [done|]. simpl.
  destruct (slots tw !! Z.to_nat pos) as [[l|]|] eqn:Hp; try done.
  simpl.
  assert (heap (with_heap tw (<[a:=task.set_circle t c]> (heap tw))) !! a
          = Some (task.set_circle t c)) as Ha1.
  { simpl. apply list_lookup_insert_eq. by eapply lookup_lt_Some. }
  apply (wf_index_insert
           (set_slot (with_heap tw (<[a:=task.set_circle t c]> (heap tw)))
                     (Z.to_nat pos) (l ++ [a])) a (task.set_circle t c) Ha1).
  apply wf_set_slot; [|done].
  intros b [Hb|Hb%list_elem_of_singleton]%elem_of_app.
  - eapply (wf_addrs _ Hwf1); [|done]. done.
  - subst b. rewrite Ha1. eauto.
Qed.

Lemma wf_AddTask (tw : TimeWheel) d n k data j :
  wf tw -> wf (AddTask tw d n k data j).1.1.
Proof.
  intros Hwf. unfold AddTask.
  destruct (_ || _) eqn:Hv; [done|].
  destruct (taskRecord tw !! k); [done|]. simpl.
  destruct Hwf as [H1 H2 H3 H4 H5 H6 H7]. split; simpl; try done.
  - intros p l a Hp Ha. destruct (H5 p l a Hp Ha) as [x Hx].
    exists x. by apply lookup_app_l_Some.
  - intros k' a Hk. destruct (H6 k' a Hk) as (x & Hx & Hkx).
    exists x. split; [|done]. by apply lookup_app_l_Some.
  - intros a t [Ha|[_ Ha]]%lookup_app_Some; [eauto|].
    apply list_lookup_singleton_Some in Ha as [_ <-]. simpl.
    destruct j; [eauto|].
    rewrite !orb_false_iff in Hv. destruct Hv as [[[[_ _] Hj] _] _].
    by rewrite bool_decide_eq_false in Hj.
Qed.

Lemma wf_RemoveTask (tw : TimeWheel) (k : key_t) :
  wf tw -> wf (RemoveTask tw k).1.
Proof.
  intros Hwf. unfold RemoveTask.
  destruct k as [k|]; [|done].
  destruct (taskRecord tw !! Some k) as [a|]; [|done].
  destruct (heap tw !! a) as [t|] eqn:Ha; [|done]. simpl.
  apply (wf_index_delete (with_heap tw (<[a:=task.set_times t 0]> (heap tw)))).
  by eapply wf_store.
Qed.

Lemma wf_UpdateTask (tw : TimeWheel) (k : key_t) d data :
  wf tw -> wf (UpdateTask tw k d data).1.
Proof.
  intros Hwf. unfold UpdateTask.
  destruct k as [k|]; [|done].
  destruct (taskRecord tw !! Some k) as [a|]; [|done].
  destruct (heap tw !! a) as [t|] eqn:Ha; [|done]. simpl.
  by eapply wf_store.
Qed.

Lemma wf_scan_step (p i : nat) (tw : TimeWheel) :
  wf tw -> wf (step_state (scan_step p i tw)).
Proof.
  intros Hwf. unfold scan_step.
  destruct (slots tw !! p) as [[l|]|] eqn:Hp; try done.
  destruct (l !! i) as [a|] eqn:Hi; [|done].
  destruct (heap tw !! a) as [t|] eqn:Ha; [|done].
  assert (forall tw', wf tw' -> heap tw' = heap tw ->
                      wf (set_slot tw' p (delete i l))) as Hdel.
  { intros tw' Hwf' Hh. apply wf_set_slot; [|done]. rewrite Hh.
    intros b Hb%list_elem_of_delete_inv. by eapply (wf_addrs _ Hwf). }
  destruct (task.times t =? 0).
  { simpl. apply (wf_index_delete (set_slot tw p (delete i l))). by apply Hdel. }
  destruct (0 <? task.circle t).
  { simpl. by eapply wf_store. }
  destruct (task.job t) as [j|]; [|done].
  set (tw1 := set_slot (with_fired tw (fired tw ++ [(a, j, task.taskData t)])) p (delete i l)).
  assert (wf tw1) as Hwf1 by (apply Hdel; [by apply wf_fired|done]).
  assert (heap tw1 !! a = Some t) as Ha1 by done.
  destruct (task.times t =? 1).
  { simpl. apply (wf_index_delete (with_heap tw1 (<[a:=task.set_times t 0]> (heap tw1)))).
    by eapply wf_store. }
  set (tw2 := if 0 <? task.times t then _ else _).
  assert (wf tw2) as Hwf2.
  { subst tw2. destruct (0 <? task.times t); [|done]. by eapply wf_store. }
  pose proof (wf_addTask tw2 a Hwf2) as H3.
  by destruct (addTask tw2 a).
Qed.

Lemma wf_scan_loop (fuel p : nat) (item : option nat) (tw : TimeWheel) :
  wf tw -> wf (state_of (scan_loop fuel p item tw)).
Proof.
  revert item tw. induction fuel as [|fuel IH]; intros [i|] tw Hwf; simpl; try done.
  pose proof (wf_scan_step p i tw Hwf) as Hs.
  destruct (scan_step p i tw); simpl in *; [by apply IH|done].
Qed.

Lemma same_frame_refl tw : same_frame tw tw.
Proof. by repeat split. Qed.

Lemma same_frame_trans tw1 tw2 tw3 :
  same_frame tw1 tw2 -> same_frame tw2 tw3 -> same_frame tw1 tw3.
Proof. unfold same_frame. intros (?&?&?&?&?) (?&?&?&?&?). repeat split; congruence. Qed.

Lemma same_frame_addTask (tw : TimeWheel) (a : addr) :
  same_frame tw (state_of (addTask tw a)).
Proof.
  unfold addTask.
  destruct (heap tw !! a) as [t|]; [|apply same_frame_refl].
  destruct (task.times t =? 0); [apply same_frame_refl|].
  destruct (getPositionAndCircle tw (task.interval t)) as [[pos c]|];
    [|apply same_frame_refl].
  destruct (pos <? 0); [by repeat split|]. simpl.
  destruct (slots tw !! Z.to_nat pos) as [[l|]|]; try by repeat split.
  repeat split. simpl. by rewrite length_insert.
Qed.

Lemma same_frame_scan_step (p i : nat) (tw : TimeWheel) :
  same_frame tw (step_state (scan_step p i tw)).
Proof.
  unfold scan_step.
  destruct (slots tw !! p) as [[l|]|]; try apply same_frame_refl.
  destruct (l !! i) as [a|]; [|apply same_frame_refl].
  destruct (heap tw !! a) as [t|]; [|apply same_frame_refl].
  destruct (task.times t =? 0).
  { repeat split. simpl. by rewrite length_insert. }
  destruct (0 <? task.circle t); [by repeat split|].
  destruct (task.job t) as [j|]; [|apply same_frame_refl].
  destruct (task.times t =? 1).
  { repeat split. simpl. by rewrite length_insert. }
  set (tw2 := if 0 <? task.times t then _ else _).
  assert (same_frame tw tw2) as H2.
  { subst tw2. destruct (0 <? task.times t); repeat split; simpl; by rewrite length_insert. }
  pose proof (same_frame_addTask tw2 a) as H3.
  destruct (addTask tw2 a); simpl in *; by eapply same_frame_trans.
Qed.

Lemma same_frame_scan_loop (fuel p : nat) (item : option nat) (tw : TimeWheel) :
  same_frame tw (state_of (scan_loop fuel p item tw)).
Proof.
  revert item tw. induction fuel as [|fuel IH]; intros [i|] tw; simpl;
    try apply same_frame_refl.
  pose proof (same_frame_scan_step p i tw) as Hs.
  destruct (scan_step p i tw) as [tw' item'|tw']; simpl in *; [|done].
  eapply same_frame_trans; [exact Hs|apply IH].
Qed.

Lemma wf_tickHandler (fuel : nat) (tw : TimeWheel) :
  wf tw -> wf (state_of (tickHandler fuel tw)).
Proof.
  intros Hwf. unfold tickHandler.
  destruct (_ || _); [done|].
  unfold scanAddRunTask.
  destruct (slots tw !! Z.to_nat (currentPos tw)) as [[l|]|]; simpl; try done.
  - pose proof (wf_scan_loop fuel (Z.to_nat (currentPos tw)) (Front l) tw Hwf) as H1.
    pose proof (same_frame_scan_loop fuel (Z.to_nat (currentPos tw)) (Front l) tw) as H2.
    destruct (scan_loop _ _ _ _) as [tw1|tw1|tw1]; simpl in *; try done.
    destruct H2 as (Hc & Hn & _).
    destruct H1 as [H1 H3 H4 H5 H6 H7 H8]. split; simpl; try done.
    unfold int_sub, int_add. rewrite !wrap_id by (unfold min_int, max_int in *; lia).
    destruct (Z.eqb_spec (currentPos tw1) (slotNum tw1 - 1)); lia.
  - destruct Hwf as [H1 H3 H4 H5 H6 H7 H8]. split; simpl; try done.
    unfold int_sub, int_add. rewrite !wrap_id by (unfold min_int, max_int in *; lia).
    destruct (Z.eqb_spec (currentPos tw) (slotNum tw - 1)); lia.
Qed.

Lemma wf_run_op (tw : TimeWheel) (o : op) :
  wf tw -> wf (state_of (run_op tw o)).
Proof.
  intros Hwf. destruct o; simpl.
  - by apply wf_tickHandler.
  - by apply wf_addTask.
  - by apply wf_AddTask.
  - by apply wf_RemoveTask.
  - by apply wf_UpdateTask.
Qed.

Lemma wf_run (ops : list op) (tw : TimeWheel) :
  wf tw -> wf (state_of (run ops tw)).
Proof.
  revert tw. induction ops as [|o ops IH]; intros tw Hwf; simpl; [done|].
  pose proof (wf_run_op tw o Hwf) as H1.
  destruct (run_op tw o); simpl in *; auto.
Qed.

(** ** The public operations *)

Lemma AddTask_illegal tw d n k data j :
  illegal_params d n k j ->
  AddTask tw d n k data j = (tw, None, Some ErrIllegalParams).
Proof.
  unfold AddTask, illegal_params. intros H.
  destruct (_ || _) eqn:Hv; [done|]. exfalso.
  rewrite !orb_false_iff in Hv. destruct Hv as [[[[H1 H2] H3] H4] H5].
  rewrite bool_decide_eq_false in H2, H3.
  apply Z.leb_gt in H1. apply Z.ltb_ge in H4. apply Z.eqb_neq in H5.
  destruct H as [?|[?|[?|[?|?]]]]; [lia|done|done|lia|lia].
Qed.

Lemma AddTask_legal tw d n k data j :
  ~ illegal_params d n k j ->
  AddTask tw d n k data j =
    match taskRecord tw !! k with
    | Some _ => (tw, None, Some ErrDuplicateKey)
    | None => (with_heap tw (heap tw ++ [task.mk d n 0 k j data]),
               Some (length (heap tw)), None)
    end.
Proof.
  unfold AddTask, illegal_params. intros H.
  destruct (_ || _) eqn:Hv; [|done]. exfalso. apply H.
  rewrite !orb_true_iff in Hv. rewrite !bool_decide_eq_true in Hv.
  rewrite Z.leb_le, Z.ltb_lt, Z.eqb_eq in Hv. tauto.
Qed.

Lemma illegal_params_dec d n k j : Decision (illegal_params d n k j).
Proof. unfold illegal_params. apply _. Qed.

(** C7: [AddTask] returns the illegal-parameters error exactly when the
    interval is not positive, the key or the job is nil, or [times] is 0 or
    below -1; with legal parameters it returns the duplicate-key error
    exactly when the key is in the task index.  Whenever it returns an
    error the wheel, with every task in it, is what it was and nothing is
    sent to the control loop.  Otherwise the new task object is sent, and
    slots and index are still untouched. *)
Theorem AddTask_spec (tw : TimeWheel) (d n : Z) (k : key_t) (data : TaskData)
    (j : option Job) :
  let r := AddTask tw d n k data j in
  (r.2 = Some ErrIllegalParams <-> illegal_params d n k j) /\
  (r.2 = Some ErrDuplicateKey <->
     ~ illegal_params d n k j /\ is_Some (taskRecord tw !! k)) /\
  (is_Some r.2 <-> illegal_params d n k j \/ is_Some (taskRecord tw !! k)) /\
  (is_Some r.2 -> r.1 = (tw, None)) /\
  (r.2 = None ->
     r.1.2 = Some (length (heap tw)) /\
     heap r.1.1 = heap tw ++ [task.mk d n 0 k j data] /\
     slots r.1.1 = slots tw /\ taskRecord r.1.1 = taskRecord tw /\
     currentPos r.1.1 = currentPos tw /\ fired r.1.1 = fired tw).
Proof.
  intros r. subst r.
  destruct (illegal_params_dec d n k j) as [Hi|Hi].
  - rewrite (AddTask_illegal _ _ _ _ _ _ Hi). simpl.
    repeat split; try done; try tauto; eauto; intros [? ?]; done.
  - rewrite (AddTask_legal _ _ _ _ _ _ Hi).
    destruct (taskRecord tw !! k) as [a|] eqn:Hk; simpl;
      repeat split; try done; try tauto; eauto;
      try (intros [? ?]; done); try (intros [_ [? ?]]; done);
      try (intros [?|[? ?]]; done).
Qed.

(** C10: with a nil key [UpdateTask] returns the illegal-key error and
    [RemoveTask] returns no error; neither changes the wheel, and neither
    depends on what the task index holds. *)
Theorem nil_key_UpdateTask_RemoveTask (tw : TimeWheel) (d : Z) (data : TaskData) :
  UpdateTask tw None d data = (tw, Some ErrIllegalKey) /\
  RemoveTask tw None = (tw, None) /\
  (forall idx,
     UpdateTask (with_taskRecord tw idx) None d data
     = (with_taskRecord tw idx, Some ErrIllegalKey) /\
     RemoveTask (with_taskRecord tw idx) None = (with_taskRecord tw idx, None)).
Proof. repeat split. Qed.

(** The effect of [UpdateTask] and [RemoveTask] on a key that is in the
    index. *)
Lemma UpdateTask_found tw k a t d data :
  taskRecord tw !! Some k = Some a -> heap tw !! a = Some t ->
  UpdateTask tw (Some k) d data
  = (with_heap tw (<[a := task.set_update t d data]> (heap tw)), None).
Proof. intros Hk Ha. unfold UpdateTask. by rewrite Hk, Ha. Qed.

Lemma RemoveTask_found tw k a t :
  taskRecord tw !! Some k = Some a -> heap tw !! a = Some t ->
  RemoveTask tw (Some k)
  = (with_taskRecord (with_heap tw (<[a := task.set_times t 0]> (heap tw)))
       (delete (task.key t) (taskRecord tw)), None).
Proof. intros Hk Ha. unfold RemoveTask. by rewrite Hk, Ha. Qed.

(** C8, amended: for a non-nil key that is not in the task index
    [UpdateTask] returns the not-exists error and leaves the wheel as it
    was; for a key that is in the index it overwrites the interval and the
    data of that task object and nothing else: the object keeps its times,
    circle, key and job, every other object, every slot, the index, the
    cursor and the dispatch log are unchanged. *)
Theorem UpdateTask_frame (tw : TimeWheel) (k : string) (d : Z) (data : TaskData) :
  match taskRecord tw !! Some k with
  | None => UpdateTask tw (Some k) d data = (tw, Some ErrNotExists)
  | Some a =>
      wf tw ->
      exists t tw',
        heap tw !! a = Some t /\
        UpdateTask tw (Some k) d data = (tw', None) /\
        heap tw' !! a = Some (task.mk d (task.times t) (task.circle t)
                                      (task.key t) (task.job t) data) /\
        (forall b, b <> a -> heap tw' !! b = heap tw !! b) /\
        length (heap tw') = length (heap tw) /\
        slots tw' = slots tw /\ taskRecord tw' = taskRecord tw /\
        currentPos tw' = currentPos tw /\ slotNum tw' = slotNum tw /\
        interval tw' = interval tw /\ ticker tw' = ticker tw /\
        fired tw' = fired tw
  end.
Proof.
  destruct (taskRecord tw !! Some k) as [a|] eqn:Hk.
  - intros Hwf. destruct (wf_index _ Hwf _ _ Hk) as (t & Ha & _).
    exists t. eexists. split; [done|].
    split; [by apply UpdateTask_found|]. simpl.
    repeat split; try done.
    + apply list_lookup_insert_eq. by eapply lookup_lt_Some.
    + intros b Hb. by apply list_lookup_insert_ne.
    + by rewrite length_insert.
  - unfold UpdateTask. by rewrite Hk.
Qed.

(** C6: [RemoveTask] with a nil key returns no error and changes nothing;
    with a key that is not in the task index it returns the not-exists
    error and changes nothing; with a key that is in the index it sets the
    times of that task object to 0 and deletes the key from the index,
    while every slot still holds what it held. *)
Theorem RemoveTask_spec (tw : TimeWheel) (key : key_t) :
  match key with
  | None => RemoveTask tw key = (tw, None)
  | Some k =>
      match taskRecord tw !! key with
      | None => RemoveTask tw key = (tw, Some ErrNotExists)
      | Some a =>
          wf tw ->
          exists t tw',
            heap tw !! a = Some t /\
            RemoveTask tw key = (tw', None) /\
            heap tw' !! a = Some (task.mk (task.interval t) 0 (task.circle t)
                                    (task.key t) (task.job t) (task.taskData t)) /\
            (forall b, b <> a -> heap tw' !! b = heap tw !! b) /\
            taskRecord tw' = delete key (taskRecord tw) /\
            taskRecord tw' !! key = None /\
            slots tw' = slots tw /\
            currentPos tw' = currentPos tw /\ fired tw' = fired tw
      end
  end.
Proof.
  destruct key as [k|]; [|done].
  destruct (taskRecord tw !! Some k) as [a|] eqn:Hk.
  - intros Hwf. destruct (wf_index _ Hwf _ _ Hk) as (t & Ha & Hkey).
    exists t. eexists. split; [done|].
    split; [by apply RemoveTask_found|]. simpl.
    repeat split; try done.
    + apply list_lookup_insert_eq. by eapply lookup_lt_Some.
    + intros b Hb. by apply list_lookup_insert_ne.
    + by rewrite Hkey.
    + rewrite Hkey. apply lookup_delete_eq.
  - unfold RemoveTask. by rewrite Hk.
Qed.

(** ** Whole seconds

    An integer below [2^53] converts to [float64] and back without loss,
    so a duration of a whole number of seconds has exactly that many
    seconds. *)

Lemma digits2_pos_bounds (m : positive) :
  2 ^ (Zpos (digits2_pos m) - 1) <= Zpos m < 2 ^ Zpos (digits2_pos m).
Proof.
  induction m as [m IH|m IH|]; simpl digits2_pos.
  - rewrite Pos2Z.inj_succ. replace (Z.succ (Zpos (digits2_pos m)) - 1) with (Zpos (digits2_pos m)) by lia.
    rewrite Z.pow_succ_r by lia.
    replace (2 ^ Zpos (digits2_pos m)) with (2 * 2 ^ (Zpos (digits2_pos m) - 1)) in *
      by (rewrite <- Z.pow_succ_r by lia; f_equal; lia).
    lia.
  - rewrite Pos2Z.inj_succ. replace (Z.succ (Zpos (digits2_pos m)) - 1) with (Zpos (digits2_pos m)) by lia.
    rewrite Z.pow_succ_r by lia.
    replace (2 ^ Zpos (digits2_pos m)) with (2 * 2 ^ (Zpos (digits2_pos m) - 1)) in *
      by (rewrite <- Z.pow_succ_r by lia; f_equal; lia).
    lia.
  - simpl. lia.
Qed.

Lemma iter_xO_value (m k : positive) :
  Zpos (Pos.iter xO m k) = Zpos m * 2 ^ Zpos k.
Proof.
  induction k as [|k IH] using Pos.peano_ind.
  - simpl. lia.
  - rewrite Pos.iter_succ, Pos2Z.inj_succ, Z.pow_succ_r by lia.
    rewrite Pos2Z.inj_xO, IH. lia.
Qed.

Lemma iter_xO_digits (m k : positive) :
  digits2_pos (Pos.iter xO m k) = (digits2_pos m + k)%positive.
Proof.
  induction k as [|k IH] using Pos.peano_ind.
  - simpl. lia.
  - rewrite Pos.iter_succ. simpl. rewrite IH. lia.
Qed.

Lemma binary_round_aux_exact (m : positive) (e : Z) :
  Zpos (digits2_pos m) = 53 -> -1074 <= e <= 971 ->
  binary_round_aux 53 1024 false (Zpos m) e loc_Exact = S754_finite false m e.
Proof.
  intros Hd He.
  assert (shr_fexp 53 1024 (Zpos m) e loc_Exact
          = (Build_shr_record (Zpos m) false false, e)) as Hs.
  { unfold shr_fexp, fexp, emin. simpl Zdigits2. rewrite Hd.
    replace (Z.max (53 + e - 53) (3 - 1024 - 53) - e) with 0 by lia. reflexivity. }
  unfold binary_round_aux. rewrite Hs. simpl. rewrite Hs. simpl.
  destruct (Z.leb_spec e (1024 - 53)); [reflexivity|]. lia.
Qed.

Lemma float64_of_int_exact (n : Z) :
  0 <= n < 2 ^ 53 -> int_of_float64 (float64_of_int n) = n.
Proof.
  intros Hn. destruct n as [|m|m]; [reflexivity| |lia].
  pose proof (digits2_pos_bounds m) as Hb.
  set (D := digits2_pos m) in *.
  assert (Zpos D <= 53) as HD.
  { destruct (Z.le_gt_cases (Zpos D) 53) as [|Hgt]; [done|].
    assert (2 ^ 53 <= 2 ^ (Zpos D - 1)) by (apply Z.pow_le_mono_r; lia). lia. }
  unfold float64_of_int, binary_normalize, binary_round.
  fold D. unfold fexp, emin, prec64, emax64.
  replace (Z.max (Zpos D + 0 - 53) (3 - 1024 - 53)) with (Zpos D - 53) by lia.
  assert (forall z, min_int <= z <= max_int ->
            (if (min_int <=? z) && (z <=? max_int) then z else min_int) = z) as Hin.
  { intros z Hz. destruct (Z.leb_spec min_int z); [|lia].
    destruct (Z.leb_spec z max_int); [reflexivity|lia]. }
  assert (min_int <= Zpos m <= max_int) as Hm by (unfold min_int, max_int; lia).
  unfold shl_align.
  destruct (Zpos D - 53) as [|k|k] eqn:Hk; [|lia|]; rewrite Z.sub_0_r; cbv beta iota.
  - rewrite binary_round_aux_exact by (fold D; lia).
    unfold int_of_float64. rewrite Z.shiftl_0_r. by apply Hin.
  - rewrite binary_round_aux_exact.
    + unfold int_of_float64.
      rewrite iter_xO_value, Z.shiftr_div_pow2 by lia.
      rewrite Z.div_mul by (apply Z.pow_nonzero; lia). by apply Hin.
    + rewrite iter_xO_digits. fold D. lia.
    + lia.
Qed.

Lemma SFadd_zero_r (x : spec_float) :
  int_of_float64 (SFadd prec64 emax64 x (S754_zero false)) = int_of_float64 x.
Proof. destruct x as [[|]| | |s m e]; reflexivity. Qed.

(** A duration of a whole number of seconds converts to that number. *)
Lemma int_seconds_whole (n : Z) :
  0 <= n < 2 ^ 53 -> int_seconds (n * Second) = n.
Proof.
  intros Hn. unfold int_seconds, Seconds.
  rewrite Z.quot_mul, Z.rem_mul by (unfold Second; lia).
  change (SFdiv prec64 emax64 (float64_of_int 0) (float64_of_int Second))
    with (S754_zero false).
  rewrite SFadd_zero_r. by apply float64_of_int_exact.
Qed.

(** ** Position and circle of an admitted task *)

Lemma int_quot_nonneg (a b : Z) :
  0 <= a <= max_int -> 1 <= b -> int_quot a b = a / b.
Proof.
  intros Ha Hb. unfold int_quot.
  rewrite Z.quot_div_nonneg by lia.
  apply wrap_id. unfold min_int, max_int in *.
  assert (0 <= a / b) by (apply Z.div_pos; lia).
  assert (a / b <= a) by (apply Z.div_le_upper_bound; nia).
  lia.
Qed.

(** The conversion to [int] always lands in the range of [int]. *)
Lemma int_of_float64_range (f : spec_float) :
  min_int <= int_of_float64 f <= max_int.
Proof.
  destruct f as [| | |s m e]; simpl; try (unfold min_int, max_int; lia).
  match goal with |- context [if ?c then _ else _] => destruct c eqn:Hr end.
  - apply andb_true_iff in Hr as [H1 H2].
    apply Z.leb_le in H1. apply Z.leb_le in H2. lia.
  - unfold min_int, max_int; lia.
Qed.

Lemma int_seconds_range (d : Z) : min_int <= int_seconds d <= max_int.
Proof. apply int_of_float64_range. Qed.

(** ** Rounding in [Seconds]

    The library's shift-right loop, as iteration over [nat]. *)
Lemma iter_pos_nat {A} (f : A -> A) (p : positive) (x : A) :
  SpecFloat.iter_pos f p x = Nat.iter (Pos.to_nat p) f x.
Proof.
  revert x. induction p as [p IH|p IH|]; intros x; cbn [SpecFloat.iter_pos].
  - rewrite !IH, Pos2Nat.inj_xI.
    rewrite <- Nat.iter_succ_r, <- Nat.iter_add. f_equal. lia.
  - rewrite !IH, Pos2Nat.inj_xO.
    rewrite <- Nat.iter_add. f_equal. lia.
  - reflexivity.
Qed.

Lemma shr_1_spec (mrs : shr_record) :
  0 <= shr_m mrs ->
  shr_m (shr_1 mrs) = shr_m mrs / 2 /\ shr_r (shr_1 mrs) = Z.odd (shr_m mrs).
Proof.
  destruct mrs as [m r s]. simpl. intros Hm.
  destruct m as [|[p|p|]|p]; simpl; try lia; split; try reflexivity.
  - rewrite Pos2Z.inj_xI. apply Z.div_unique with 1; lia.
  - rewrite Pos2Z.inj_xO. apply Z.div_unique with 0; lia.
Qed.

Lemma shr_iter (k : nat) (mrs : shr_record) :
  0 <= shr_m mrs ->
  shr_m (Nat.iter k shr_1 mrs) = shr_m mrs / 2 ^ Z.of_nat k /\
  ((0 < k)%nat ->
   shr_r (Nat.iter k shr_1 mrs) = Z.odd (shr_m mrs / 2 ^ (Z.of_nat k - 1))).
Proof.
  intros Hm. induction k as [|k [IH1 IH2]].
  - simpl. rewrite Z.div_1_r. split; [done|lia].
  - simpl Nat.iter.
    assert (0 <= shr_m (Nat.iter k shr_1 mrs)) as Hk.
    { rewrite IH1. apply Z.div_pos; [done|]. apply Z.pow_pos_nonneg; lia. }
    destruct (shr_1_spec _ Hk) as [H1 H2]. rewrite H1, H2, IH1.
    replace (Z.of_nat (S k) - 1) with (Z.of_nat k) by lia.
    split; [|done].
    rewrite Nat2Z.inj_succ, Z.pow_succ_r by lia.
    rewrite Z.div_div by (try apply Z.pow_pos_nonneg; lia).
    f_equal. lia.
Qed.

Lemma Zdigits2_unique (z d : Z) :
  0 < d -> 2 ^ (d - 1) <= z < 2 ^ d -> Zdigits2 z = d.
Proof.
  intros Hd Hz.
  assert (0 < z) as Hpos.
  { assert (0 < 2 ^ (d - 1)) by (apply Z.pow_pos_nonneg; lia). lia. }
  destruct z as [|p|p]; try lia. simpl.
  pose proof (digits2_pos_bounds p) as Hb.
  set (D := Zpos (digits2_pos p)) in *.
  destruct (Z.lt_trichotomy D d) as [Hlt|[Heq|Hgt]]; [|done|].
  - assert (2 ^ D <= 2 ^ (d - 1)) by (apply Z.pow_le_mono_r; lia). lia.
  - assert (2 ^ d <= 2 ^ (D - 1)) by (apply Z.pow_le_mono_r; lia). lia.
Qed.

(** Rounding to nearest even moves the mantissa by at most one, and not at
    all when the round bit is clear. *)
Lemma rne_bounds (mrs : shr_record) :
  let m2 := round_nearest_even (shr_m mrs) (loc_of_shr_record mrs) in
  shr_m mrs <= m2 <= shr_m mrs + 1 /\ (shr_r mrs = false -> m2 = shr_m mrs).
Proof.
  destruct mrs as [m [|] [|]]; simpl; try destruct (Z.even m); split; (lia || done).
Qed.

Lemma odd_div_mod (m n : Z) :
  0 <= m -> 1 <= n -> Z.odd (m / 2 ^ (n - 1)) = true -> 2 ^ (n - 1) <= m mod 2 ^ n.
Proof.
  intros Hm Hn Hodd.
  assert (0 < 2 ^ (n - 1)) as Hp by (apply Z.pow_pos_nonneg; lia).
  assert (2 ^ n = 2 * 2 ^ (n - 1)) as Hn2.
  { rewrite <- Z.pow_succ_r by lia. f_equal. lia. }
  pose proof (Z.div_mod m (2 ^ (n - 1)) ltac:(lia)) as Hdm.
  pose proof (Z.mod_pos_bound m (2 ^ (n - 1)) Hp) as Hb.
  set (a := m / 2 ^ (n - 1)) in *. set (b := m mod 2 ^ (n - 1)) in *.
  assert (a = 2 * Z.div2 a + 1) as Ha.
  { rewrite (Zdiv2_odd_eqn a) at 1. by rewrite Hodd. }
  assert (2 ^ (n - 1) + b = m mod 2 ^ n) as <-.
  { apply (Z.mod_unique m (2 ^ n) (Z.div2 a)); [lia|]. rewrite Hn2. nia. }
  lia.
Qed.

Lemma shr_record_of_loc_m (m : Z) (l : location) :
  shr_m (shr_record_of_loc m l) = m.
Proof. destruct l as [|[| |]]; reflexivity. Qed.

(** The first shift of [binary_round_aux]: a mantissa of [53 + n] digits
    loses its [n] low bits. *)
Lemma shr_fexp_spec (m : positive) (e : Z) (l : location) :
  let n := Zpos (digits2_pos m) - 53 in
  0 <= n -> -1000 <= e ->
  exists mrs,
    shr_fexp 53 1024 (Zpos m) e l = (mrs, e + n) /\
    shr_m mrs = Zpos m / 2 ^ n /\
    (n = 0 -> mrs = shr_record_of_loc (Zpos m) l) /\
    (0 < n -> shr_r mrs = Z.odd (Zpos m / 2 ^ (n - 1))).
Proof.
  intros n Hn He. unfold shr_fexp, fexp, emin. simpl Zdigits2.
  replace (Z.max (Zpos (digits2_pos m) + e - 53) (3 - 1024 - 53) - e) with n
    by (subst n; lia).
  unfold shr. destruct n as [|p|p] eqn:En; [| |lia].
  - eexists. split; [by rewrite Z.add_0_r|].
    rewrite shr_record_of_loc_m, Z.div_1_r. repeat split; (done || lia).
  - eexists. split; [done|].
    rewrite iter_pos_nat.
    destruct (shr_iter (Pos.to_nat p) (shr_record_of_loc (Zpos m) l)) as [H1 H2];
      [rewrite shr_record_of_loc_m; lia|].
    rewrite shr_record_of_loc_m, positive_nat_Z in *.
    split; [done|]. split; [done|]. intros _. apply H2. lia.
Qed.

(** Rounding a mantissa of [53 + n] digits: the result has 53 digits, is
    the truncated mantissa or the next one, and is the truncated one when
    the dropped bits are less than half a unit. *)
Lemma binary_round_aux_spec (m : positive) (e : Z) (l : location) :
  let n := Zpos (digits2_pos m) - 53 in
  0 <= n -> -1000 <= e -> e + n <= 900 ->
  exists m' e',
    binary_round_aux 53 1024 false (Zpos m) e l = S754_finite false m' e' /\
    e + n <= e' <= e + n + 1 /\
    2 ^ 52 <= Zpos m' < 2 ^ 53 /\
    Zpos m / 2 ^ n <= Zpos m' * 2 ^ (e' - (e + n)) <= Zpos m / 2 ^ n + 1 /\
    (l = loc_Exact -> 2 * (Zpos m mod 2 ^ n) < 2 ^ n ->
     Zpos m' * 2 ^ (e' - (e + n)) = Zpos m / 2 ^ n).
Proof.
  intros n Hn He Hmax.
  destruct (shr_fexp_spec m e l Hn He) as (mrs & Hs & Hm1 & Hn0 & Hr). fold n in Hs, Hm1, Hn0, Hr.
  unfold binary_round_aux. rewrite Hs.
  destruct (rne_bounds mrs) as [Hb Hexact].
  set (m2 := round_nearest_even (shr_m mrs) (loc_of_shr_record mrs)) in *.
  set (m1 := Zpos m / 2 ^ n) in *. rewrite Hm1 in Hb, Hexact.
  pose proof (digits2_pos_bounds m) as HD.
  assert (0 < 2 ^ n) as Hpn by (apply Z.pow_pos_nonneg; lia).
  assert (2 ^ 52 <= m1 < 2 ^ 53) as Hm1b.
  { replace (Zpos (digits2_pos m)) with (53 + n) in HD by (subst n; lia).
    replace (53 + n - 1) with (52 + n) in HD by lia.
    rewrite !Z.pow_add_r in HD by lia. subst m1. split.
    - apply Z.div_le_lower_bound; lia.
    - apply Z.div_lt_upper_bound; lia. }
  assert (m2 = m1 \/ m2 = m1 + 1) as Hm2 by lia.
  assert (l = loc_Exact -> 2 * (Zpos m mod 2 ^ n) < 2 ^ n -> m2 = m1) as Hex.
  { intros -> Hfrac. apply Hexact.
    destruct (Z.eq_dec n 0) as [E0|E0].
    - by rewrite (Hn0 E0).
    - rewrite Hr by lia. destruct (Z.odd _) eqn:Hodd; [|done].
      apply odd_div_mod in Hodd; [|lia|lia].
      assert (2 ^ n = 2 * 2 ^ (n - 1)) as Hn2.
      { rewrite <- Z.pow_succ_r by lia. f_equal. lia. }
      lia. }
  destruct (Z.eq_dec m2 (2 ^ 53)) as [E2|E2].
  - (* the rounding carried into a 54th bit *)
    rewrite E2.
    assert (shr_fexp 53 1024 (2 ^ 53) (e + n) loc_Exact
            = (Build_shr_record (2 ^ 52) false false, e + n + 1)) as ->.
    { unfold shr_fexp, fexp, emin. change (Zdigits2 (2 ^ 53)) with 54.
      replace (Z.max (54 + (e + n) - 53) (3 - 1024 - 53) - (e + n)) with 1 by lia.
      reflexivity. }
    cbn [shr_m]. change (2 ^ 52) with (Zpos (2 ^ 52)%positive) at 1. cbv iota beta.
    destruct (Z.leb_spec (e + n + 1) (1024 - 53)); [|lia].
    exists (2 ^ 52)%positive, (e + n + 1).
    split; [done|]. split; [lia|]. split; [done|].
    replace (e + n + 1 - (e + n)) with 1 by lia.
    change (Zpos (2 ^ 52)%positive * 2 ^ 1) with (2 ^ 53). rewrite <- E2.
    split; [lia|]. done.
  - assert (2 ^ 52 <= m2 < 2 ^ 53) as Hm2b by lia.
    assert (shr_fexp 53 1024 m2 (e + n) loc_Exact
            = (Build_shr_record m2 false false, e + n)) as ->.
    { unfold shr_fexp, fexp, emin. rewrite (Zdigits2_unique m2 53) by (done || lia).
      replace (Z.max (53 + (e + n) - 53) (3 - 1024 - 53) - (e + n)) with 0 by lia.
      reflexivity. }
    cbn [shr_m]. destruct m2 as [|p2|p2] eqn:Ep; [lia| |lia].
    destruct (Z.leb_spec (e + n) (1024 - 53)); [|lia].
    exists p2, (e + n).
    split; [done|]. split; [lia|]. split; [done|].
    rewrite Z.sub_diag, Z.mul_1_r. split; [lia|]. done.
Qed.

(** The shape of a converted positive integer below [2^53]: the integer
    shifted left to 53 digits. *)
Lemma float64_of_int_pos (m : positive) :
  Zpos m < 2 ^ 53 ->
  exists ma k,
    float64_of_int (Zpos m) = S754_finite false ma (- k) /\
    k = 53 - Zpos (digits2_pos m) /\ 0 <= k <= 52 /\
    Zpos ma = Zpos m * 2 ^ k /\ Zpos (digits2_pos ma) = 53.
Proof.
  intros Hn.
  pose proof (digits2_pos_bounds m) as Hb.
  set (D := digits2_pos m) in *.
  assert (Zpos D <= 53) as HD.
  { destruct (Z.le_gt_cases (Zpos D) 53) as [|Hgt]; [done|].
    assert (2 ^ 53 <= 2 ^ (Zpos D - 1)) by (apply Z.pow_le_mono_r; lia). lia. }
  unfold float64_of_int, binary_normalize, binary_round.
  fold D. unfold fexp, emin, prec64, emax64.
  replace (Z.max (Zpos D + 0 - 53) (3 - 1024 - 53)) with (Zpos D - 53) by lia.
  unfold shl_align.
  destruct (Zpos D - 53) as [|k|k] eqn:Hk; [|lia|]; rewrite Z.sub_0_r; cbv beta iota.
  - rewrite binary_round_aux_exact by (fold D; lia).
    exists m, 0. fold D. repeat split; lia.
  - rewrite binary_round_aux_exact by (rewrite ?iter_xO_digits; fold D; lia).
    exists (Pos.iter xO m k), (Zpos k). fold D.
    rewrite iter_xO_value, iter_xO_digits. fold D.
    repeat split; lia.
Qed.

Lemma float64_of_int_Second :
  float64_of_int Second = S754_finite false 8388608000000000 (-23).
Proof. vm_compute. reflexivity. Qed.

Lemma pow2_pos (z : Z) : 0 <= z -> 0 < 2 ^ z.
Proof. intros. apply Z.pow_pos_nonneg; lia. Qed.

(** The fraction of a second, as a [float64]: normal, and below
    [1 - 2^-30]. *)
Lemma div_by_Second (nsec : positive) :
  Zpos nsec < Second ->
  exists my ey,
    SFdiv prec64 emax64 (float64_of_int (Zpos nsec)) (float64_of_int Second)
    = S754_finite false my ey /\
    2 ^ 52 <= Zpos my < 2 ^ 53 /\ -83 <= ey <= -53 /\
    Zpos my * 2 ^ 30 < (2 ^ 30 - 1) * 2 ^ (- ey).
Proof.
  intros Hns. unfold Second in Hns.
  destruct (float64_of_int_pos nsec) as (ma & k & Ea & Hk & Hkr & Hma & Hda); [lia|].
  assert (23 <= k) as Hk23.
  { pose proof (digits2_pos_bounds nsec) as Hb.
    destruct (Z.le_gt_cases (Zpos (digits2_pos nsec)) 30) as [|Hgt]; [lia|].
    assert (2 ^ 30 <= 2 ^ (Zpos (digits2_pos nsec) - 1)) by (apply Z.pow_le_mono_r; lia).
    lia. }
  rewrite Ea, float64_of_int_Second.
  unfold SFdiv, SFdiv_core_binary, prec64, emax64.
  change (Zdigits2 (Zpos 8388608000000000)) with 53.
  simpl Zdigits2. rewrite Hda. unfold fexp, emin.
  replace (Z.min (Z.max (53 + - k - (53 + -23) - 53) (3 - 1024 - 53)) (- k - -23))
    with (- 30 - k) by lia.
  replace (- k - -23 - (-30 - k)) with 53 by lia.
  cbv beta iota.
  rewrite Z.shiftl_mul_pow2 by lia.
  set (mb := 8388608000000000) in *.
  pose proof (Z.div_eucl_eq (Zpos ma * 2 ^ 53) mb ltac:(subst mb; lia)) as Hde.
  pose proof (Z.mod_pos_bound (Zpos ma * 2 ^ 53) mb ltac:(subst mb; lia)) as Hrb.
  unfold Z.modulo in Hrb.
  destruct (Z.div_eucl (Zpos ma * 2 ^ 53) mb) as [q r].
  pose proof (digits2_pos_bounds ma) as Hab. rewrite Hda in Hab.
  change (53 - 1) with 52 in Hab.
  assert (2 ^ 52 <= q < 2 ^ 54) as Hq.
  { subst mb. change (2 ^ 53) with 9007199254740992 in *.
    change (2 ^ 52) with 4503599627370496 in *.
    change (2 ^ 54) with 18014398509481984. nia. }
  destruct q as [|q|q]; [lia| |lia].
  assert (53 <= Zpos (digits2_pos q) <= 54) as Hdq.
  { pose proof (digits2_pos_bounds q) as Hqb.
    split.
    - destruct (Z.le_gt_cases 53 (Zpos (digits2_pos q))) as [|Hlt]; [done|].
      assert (2 ^ Zpos (digits2_pos q) <= 2 ^ 52) by (apply Z.pow_le_mono_r; lia). lia.
    - destruct (Z.le_gt_cases (Zpos (digits2_pos q)) 54) as [|Hgt]; [done|].
      assert (2 ^ 54 <= 2 ^ (Zpos (digits2_pos q) - 1)) by (apply Z.pow_le_mono_r; lia).
      lia. }
  destruct (binary_round_aux_spec q (-30 - k) (new_location mb r))
    as (my & ey & Ey & Hey & Hmy & Hval & _); [lia|lia|lia|].
  set (n := Zpos (digits2_pos q) - 53) in *.
  exists my, ey. split; [exact Ey|]. split; [done|].
  assert (0 <= n <= 1) as Hn by (subst n; lia).
  (* the value bound *)
  set (w := ey - (-30 - k + n)) in *.
  assert (0 <= w <= 1) as Hw by (subst w; lia).
  assert (- ey = 30 + k - n - w) as Eey by (subst w; lia).
  assert (Zpos q / 2 ^ n * 2 ^ n <= Zpos q) as Hfloor.
  { pose proof (Z.mul_div_le (Zpos q) (2 ^ n) (pow2_pos n ltac:(lia))). lia. }
  assert (2 ^ (30 + k - n - w) * (2 ^ n * 2 ^ w) = 2 ^ 30 * 2 ^ k) as Hsplit.
  { rewrite <- !Z.pow_add_r by lia. f_equal. lia. }
  pose proof (pow2_pos n ltac:(lia)) as Hpn.
  pose proof (pow2_pos w ltac:(lia)) as Hpw.
  pose proof (pow2_pos k ltac:(lia)) as Hpk.
  pose proof (pow2_pos (30 + k - n - w) ltac:(lia)) as Hpe.
  assert (2 ^ n <= 2 /\ 2 ^ w <= 2) as [Hn2 Hw2].
  { split; [change 2 with (2 ^ 1) at 2|change 2 with (2 ^ 1) at 2];
      apply Z.pow_le_mono_r; lia. }
  assert (2 ^ 23 <= 2 ^ k) as Hk2 by (apply Z.pow_le_mono_r; lia).
  (* my * 2^w * 2^n <= q + 2^n *)
  assert (Zpos my * (2 ^ n * 2 ^ w) <= Zpos q + 2) as Hmq by nia.
  (* q * 10^9 <= nsec * 2^(k+30) *)
  assert (Zpos q * 1000000000 <= (1000000000 - 1) * (2 ^ 30 * 2 ^ k)) as Hq9.
  { subst mb. change (2 ^ 53) with (2 ^ 23 * 2 ^ 30) in Hde.
    change 8388608000000000 with (1000000000 * 2 ^ 23) in Hde.
    change (2 ^ 23) with 8388608 in *. nia. }
  assert (Zpos my * (2 ^ n * 2 ^ w) < (2 ^ 30 - 1) * 2 ^ k) as Hfin.
  { change (2 ^ 30) with 1073741824 in *. change (2 ^ 23) with 8388608 in *. nia. }
  assert (Zpos my * 2 ^ 30 < (2 ^ 30 - 1) * 2 ^ (- ey)) as Hbound.
  { rewrite Eey.
    apply (Z.mul_lt_mono_pos_r (2 ^ n * 2 ^ w)); [nia|].
    replace ((2 ^ 30 - 1) * 2 ^ (30 + k - n - w) * (2 ^ n * 2 ^ w))
      with ((2 ^ 30 - 1) * (2 ^ 30 * 2 ^ k)) by (rewrite <- Hsplit; ring).
    change (2 ^ 30) with 1073741824 in *. nia. }
  split; [|exact Hbound].
  split; [lia|].
  (* a mantissa of 53 digits with a value below 1 has an exponent of at most -53 *)
  destruct (Z.le_gt_cases ey (-53)) as [|Hgt]; [done|].
  assert (2 ^ (- ey) <= 2 ^ 52) by (apply Z.pow_le_mono_r; lia).
  change (2 ^ 30) with 1073741824 in *. nia.
Qed.

(** The arithmetic of [add_fraction]: a sum below [s + 1] by more than half
    a unit in the last place rounds to a value below [s + 1]. *)
Lemma round_between (s y A W P m1 fr m' : Z) :
  0 < A -> 0 < W -> 0 < P -> 0 < s -> 0 <= y ->
  2 ^ 29 <= A * W ->
  y * 2 ^ 30 < (2 ^ 30 - 1) * (A * W * P) ->
  s * (A * W * P) + y = P * m1 + fr -> 0 <= fr < P ->
  m1 <= m' * W <= m1 + 1 ->
  (2 * fr < P -> m' * W = m1) ->
  s * A <= m' < (s + 1) * A.
Proof.
  intros HA HW HP Hs Hy HB Hval HM Hfr Hv Hexact.
  set (B := A * W) in *.
  assert (0 < B) as HB0 by (subst B; apply Z.mul_pos_pos; lia).
  assert (s * B <= m1) as Hlow.
  { assert (P * (s * B - 1) < P * m1) as H by lia.
    apply Z.mul_lt_mono_pos_l in H; lia. }
  assert (2 * y + P < 2 * (B * P)) as Hgap.
  { assert (2 ^ 29 * P <= B * P) as H1 by (apply Z.mul_le_mono_nonneg_r; lia).
    change (2 ^ 30) with (2 * 2 ^ 29) in Hval.
    change (2 ^ 29) with 536870912 in *. lia. }
  assert (m' * W < (s + 1) * B) as Hup.
  { destruct (Z.eq_dec (m' * W) m1) as [Eq|Ne].
    - rewrite Eq.
      assert (P * m1 < P * ((s + 1) * B)) as H by lia.
      apply Z.mul_lt_mono_pos_l in H; lia.
    - assert (~ 2 * fr < P) as Hh by (intros Hlt; apply Ne; apply Hexact; exact Hlt).
      assert (m' * W = m1 + 1) as -> by lia.
      assert (2 * P * (m1 + 1) < 2 * P * ((s + 1) * B)) as H by lia.
      apply Z.mul_lt_mono_pos_l in H; lia. }
  subst B. split.
  - assert (W * (s * A) <= W * m') as H by lia.
    apply Z.mul_le_mono_pos_l in H; lia.
  - assert (W * m' < W * ((s + 1) * A)) as H by lia.
    apply Z.mul_lt_mono_pos_l in H; lia.
Qed.

(** [int(float64(sec) + frac)] is [sec] for [0 < sec < 2^24] and a
    fraction as in [div_by_Second]. *)
Lemma add_fraction (sec my : positive) (ey : Z) :
  Zpos sec < 2 ^ 24 ->
  2 ^ 52 <= Zpos my < 2 ^ 53 -> -83 <= ey <= -53 ->
  Zpos my * 2 ^ 30 < (2 ^ 30 - 1) * 2 ^ (- ey) ->
  int_of_float64
    (SFadd prec64 emax64 (float64_of_int (Zpos sec)) (S754_finite false my ey))
  = Zpos sec.
Proof.
  intros Hsec Hmy Hey Hval.
  destruct (float64_of_int_pos sec) as (mx & kx & Ex & Hkx & Hkr & Hmx & Hdx);
    [change (2 ^ 53) with (2 ^ 24 * 2 ^ 29); lia|].
  assert (29 <= kx) as Hk29.
  { pose proof (digits2_pos_bounds sec) as Hb.
    destruct (Z.le_gt_cases (Zpos (digits2_pos sec)) 24) as [|Hgt]; [lia|].
    assert (2 ^ 24 <= 2 ^ (Zpos (digits2_pos sec) - 1)) by (apply Z.pow_le_mono_r; lia).
    lia. }
  rewrite Ex. unfold SFadd, prec64, emax64.
  rewrite Z.min_r by lia.
  unfold shl_align at 1 2.
  rewrite Z.sub_diag.
  destruct (ey - - kx) as [|d|d] eqn:Ed; [lia|lia|].
  cbn [fst cond_Zopp]. 
  set (E := - ey) in *.
  assert (Zpos d = E - kx) as Hd by lia.
  (* the sum of the aligned mantissas *)
  assert (Zpos (Pos.iter xO mx d) = Zpos sec * 2 ^ E) as Hshift.
  { rewrite iter_xO_value, Hmx, Hd, <- Z.mul_assoc, <- Z.pow_add_r by lia.
    do 2 f_equal. lia. }
  change (Zpos (Pos.iter xO mx d) + Zpos my) with (Zpos (Pos.iter xO mx d + my)).
  assert (Zpos (Pos.iter xO mx d + my) = Zpos sec * 2 ^ E + Zpos my) as HM
    by (rewrite Pos2Z.inj_add, Hshift; done).
  set (M := (Pos.iter xO mx d + my)%positive) in *.
  pose proof (pow2_pos E ltac:(lia)) as HpE.
  assert (2 ^ 53 <= 2 ^ E) as HE53 by (apply Z.pow_le_mono_r; lia).
  (* its number of digits *)
  pose proof (digits2_pos_bounds M) as HDM.
  set (DM := Zpos (digits2_pos M)) in *.
  assert (E + 1 <= DM <= E + 24) as HDMr.
  { split.
    - destruct (Z.le_gt_cases (E + 1) DM) as [|Hlt]; [done|].
      assert (2 ^ DM <= 2 ^ E) by (apply Z.pow_le_mono_r; lia). nia.
    - destruct (Z.le_gt_cases DM (E + 24)) as [|Hgt]; [done|].
      assert (2 ^ (E + 24) <= 2 ^ (DM - 1)) by (apply Z.pow_le_mono_r; lia).
      rewrite Z.pow_add_r in * by lia. nia. }
  unfold binary_normalize, binary_round. fold DM.
  unfold fexp, emin, shl_align.
  replace (Z.max (DM + ey - 53) (3 - 1024 - 53) - ey) with (DM - 53) by lia.
  destruct (DM - 53) as [|n0|n0] eqn:En; [lia| |lia].
  cbv beta iota.
  destruct (binary_round_aux_spec M ey loc_Exact)
    as (m' & e' & -> & He' & Hm' & Hv & Hexact); fold DM; [lia|lia|lia|].
  fold DM in He', Hv, Hexact. rewrite En in He', Hv, Hexact.
  specialize (Hexact eq_refl). set (n := Zpos n0) in *.
  assert (1 <= n <= E - 29) as Hn by lia.
  set (w := e' - (ey + n)) in *.
  assert (0 <= w <= 1) as Hw by (subst w; lia).
  assert (e' = - (E - n - w)) as He'' by (subst w E; lia).
  unfold int_of_float64.
  destruct e' as [|c|c]; [lia|lia|].
  assert (Zpos c = E - n - w) as Hc by lia.
  rewrite Z.shiftr_div_pow2 by lia. rewrite Hc.
  pose proof (pow2_pos n ltac:(lia)) as Hpn.
  pose proof (pow2_pos w ltac:(lia)) as Hpw.
  pose proof (pow2_pos (E - n - w) ltac:(lia)) as Hpc.
  pose proof (pow2_pos (E - n) ltac:(lia)) as Hpen.
  assert (2 ^ (E - n) = 2 ^ (E - n - w) * 2 ^ w) as Hsw.
  { rewrite <- Z.pow_add_r by lia. f_equal. lia. }
  assert (2 ^ E = 2 ^ (E - n) * 2 ^ n) as Hsn.
  { rewrite <- Z.pow_add_r by lia. f_equal. lia. }
  assert (2 ^ 29 <= 2 ^ (E - n)) as H29 by (apply Z.pow_le_mono_r; lia).
  set (m1 := Zpos M / 2 ^ n) in *.
  pose proof (Z.div_mod (Zpos M) (2 ^ n) ltac:(lia)) as Hdm. fold m1 in Hdm.
  pose proof (Z.mod_pos_bound (Zpos M) (2 ^ n) Hpn) as Hmb.
  set (fr := Zpos M mod 2 ^ n) in *.
  (* the result is between sec and sec + 1 *)
  assert (Zpos sec * 2 ^ (E - n - w) <= Zpos m' < (Zpos sec + 1) * 2 ^ (E - n - w)) as Hres.
  { apply (round_between (Zpos sec) (Zpos my) (2 ^ (E - n - w)) (2 ^ w) (2 ^ n) m1 fr);
      rewrite <- ?Hsw, <- ?Hsn; solve [lia | exact Hexact]. }
  assert (Zpos m' / 2 ^ (E - n - w) = Zpos sec) as ->.
  { symmetry. apply Z.div_unique with (Zpos m' - Zpos sec * 2 ^ (E - n - w)); lia. }
  assert (min_int <= Zpos sec <= max_int) as Hr by (unfold min_int, max_int; lia).
  destruct (Z.leb_spec min_int (Zpos sec)); [|lia].
  destruct (Z.leb_spec (Zpos sec) max_int); [reflexivity|lia].
Qed.

(** Below [2^24] seconds, [int(d.Seconds())] is the number of whole seconds
    of [d]: the rounding of the fraction and of the sum never reaches the
    next integer. *)
Lemma int_seconds_floor (d : Z) :
  0 <= d < 2 ^ 24 * Second -> int_seconds d = d / Second.
Proof.
  intros Hd. unfold int_seconds, Seconds.
  rewrite Z.quot_div_nonneg, Z.rem_mod_nonneg by (unfold Second; lia).
  pose proof (Z.mod_pos_bound d Second ltac:(unfold Second; lia)) as Hr.
  assert (0 <= d / Second < 2 ^ 24) as Hq.
  { split; [apply Z.div_pos; unfold Second; lia|].
    apply Z.div_lt_upper_bound; unfold Second in *; lia. }
  destruct (d mod Second) as [|nsec|nsec] eqn:En; [|clear En|lia].
  - change (SFdiv prec64 emax64 (float64_of_int 0) (float64_of_int Second))
      with (S754_zero false).
    rewrite SFadd_zero_r. apply float64_of_int_exact.
    change (2 ^ 53) with (2 ^ 24 * 2 ^ 29). lia.
  - destruct (div_by_Second nsec) as (my & ey & -> & Hmy & Hey & Hval); [lia|].
    destruct (d / Second) as [|sec|sec]; [|apply add_fraction; [lia|exact Hmy|exact Hey|exact Hval]|lia].
    change (float64_of_int 0) with (S754_zero false).
    unfold SFadd, int_of_float64.
    destruct ey as [|c|c]; [lia|lia|].
    rewrite Z.shiftr_div_pow2 by lia.
    assert (2 ^ 53 <= 2 ^ Zpos c) by (apply Z.pow_le_mono_r; lia).
    rewrite Z.div_small by lia. reflexivity.
Qed.

(** The bound is tight up to a nanosecond: at [2^24] seconds the spacing of
    [float64] values near the sum is too coarse, and the conversion of a
    duration one nanosecond short of the next second rounds up. *)
Lemma int_seconds_rounds_up :
  int_seconds (2 ^ 24 * Second + 999999999) = 2 ^ 24 + 1 /\
  (2 ^ 24 * Second + 999999999) / Second = 2 ^ 24.
Proof. split; vm_compute; reflexivity. Qed.

(** With whole-second counts [ds] of the delay and [isec] of the tick
    interval, the code's truncating and wrapping arithmetic is plain floor
    division and modulus as long as nothing is negative or overflows. *)
Lemma getPositionAndCircle_seconds (tw : TimeWheel) (d : Z) :
  let ds := int_seconds d in
  let isec := int_seconds (interval tw) in
  1 <= isec -> 0 <= ds -> 0 < slotNum tw <= max_int -> 0 <= currentPos tw ->
  currentPos tw + ds / isec <= max_int ->
  getPositionAndCircle tw d
  = Some ((currentPos tw + ds / isec) mod slotNum tw, ds / isec / slotNum tw).
Proof.
  intros ds isec His Hds HS Hc Hov. unfold getPositionAndCircle.
  fold ds. fold isec.
  destruct (Z.eqb_spec isec 0); [lia|].
  destruct (Z.eqb_spec (slotNum tw) 0); [lia|].
  assert (0 <= ds / isec) by (apply Z.div_pos; lia).
  assert (ds <= max_int) by apply int_seconds_range.
  rewrite (int_quot_nonneg ds isec) by lia.
  rewrite (int_quot_nonneg (ds / isec) (slotNum tw)) by lia.
  unfold int_add, int_rem.
  rewrite wrap_id by (unfold min_int, max_int in *; lia).
  rewrite Z.rem_mod_nonneg by lia. done.
Qed.

(** The effect of [addTask] on a task that still has runs left, once
    position and circle are known. *)
Lemma addTask_Done (tw : TimeWheel) (a : addr) (t : task.t) (pos circle : Z)
    (l : list addr) :
  heap tw !! a = Some t -> task.times t <> 0 ->
  getPositionAndCircle tw (task.interval t) = Some (pos, circle) ->
  0 <= pos -> slots tw !! Z.to_nat pos = Some (Some l) ->
  addTask tw a
  = Done (mkTW (interval tw) (ticker tw)
               (<[Z.to_nat pos := Some (l ++ [a])]> (slots tw))
               (currentPos tw) (slotNum tw)
               (<[task.key t := a]> (taskRecord tw))
               (<[a := task.set_circle t circle]> (heap tw))
               (fired tw)).
Proof.
  intros Ha Ht Hg Hpos Hl. unfold addTask. rewrite Ha.
  destruct (Z.eqb_spec (task.times t) 0); [done|].
  rewrite Hg. destruct (Z.ltb_spec pos 0); [lia|]. simpl. by rewrite Hl.
Qed.

(** C1, amended: delay and tick interval enter the computation as whole
    seconds, [ds = int(delay.Seconds())] and [isec = int(interval.Seconds())].
    On a wheel whose tick interval is at least one second, for a task with
    runs left the add path sets the task's circle to
    [floor(floor(ds / isec) / slotNum)], appends the task at the end of the
    slot at index [(currentPos + floor(ds / isec)) mod slotNum], and records it
    in the task index under its key; nothing else changes.  For a duration
    below [2^24] seconds the whole-second count is the duration's number of
    full seconds.  When the tick interval is a whole number of seconds, and
    [ds] is the delay's number of full seconds, [floor(ds / isec)] is
    [floor(delay / interval)]. *)
Theorem addTask_position (tw : TimeWheel) (a : addr) (t : task.t) :
  let ds := int_seconds (task.interval t) in
  let isec := int_seconds (interval tw) in
  let steps := ds / isec in
  let pos := Z.to_nat ((currentPos tw + steps) mod slotNum tw) in
  wf tw ->
  heap tw !! a = Some t -> task.times t <> 0 ->
  1 <= isec -> 0 <= ds -> currentPos tw + steps <= max_int ->
  exists l tw',
    slots tw !! pos = Some (Some l) /\
    addTask tw a = Done tw' /\
    heap tw' !! a = Some (task.mk (task.interval t) (task.times t)
                            (steps / slotNum tw)
                            (task.key t) (task.job t) (task.taskData t)) /\
    (forall b, b <> a -> heap tw' !! b = heap tw !! b) /\
    slots tw' !! pos = Some (Some (l ++ [a])) /\
    (forall q, q <> pos -> slots tw' !! q = slots tw !! q) /\
    taskRecord tw' = <[task.key t := a]> (taskRecord tw) /\
    currentPos tw' = currentPos tw /\ fired tw' = fired tw /\
    (0 <= task.interval t < 2 ^ 24 * Second -> ds = task.interval t / Second) /\
    (0 <= interval tw < 2 ^ 24 * Second -> isec = interval tw / Second) /\
    (forall n,
       interval tw = n * Second -> 0 < n < 2 ^ 53 ->
       ds = task.interval t / Second ->
       steps = task.interval t / interval tw) /\
    (forall m n,
       task.interval t = m * Second -> interval tw = n * Second ->
       0 <= m < 2 ^ 53 -> 0 < n < 2 ^ 53 ->
       steps = task.interval t / interval tw).
Proof.
  intros ds isec steps pos Hwf Ha Ht His Hds Hov.
  pose proof (wf_slotNum _ Hwf) as HS. pose proof (wf_pos _ Hwf) as Hc.
  pose proof (wf_length _ Hwf) as Hlen.
  assert (0 <= (currentPos tw + steps) mod slotNum tw < slotNum tw) as Hm
    by (apply Z.mod_pos_bound; lia).
  destruct (lookup_lt_is_Some_2 (slots tw) pos) as [s Hs]; [subst pos; lia|].
  destruct (wf_nonnil _ Hwf _ _ Hs) as [l ->].
  exists l. eexists. split; [done|].
  split.
  { apply (addTask_Done tw a t ((currentPos tw + steps) mod slotNum tw)
             (steps / slotNum tw) l); try done.
    - apply getPositionAndCircle_seconds; fold ds; fold isec; lia.
    - lia. }
  simpl. repeat split; try done.
  - apply list_lookup_insert_eq. by eapply lookup_lt_Some.
  - intros b Hb. by apply list_lookup_insert_ne.
  - apply list_lookup_insert_eq. by eapply lookup_lt_Some.
  - intros q Hq. by apply list_lookup_insert_ne.
  - apply int_seconds_floor.
  - apply int_seconds_floor.
  - intros n En Hnr Eds. subst steps isec. rewrite Eds, En.
    rewrite int_seconds_whole by lia.
    rewrite (Z.mul_comm n Second), Z.div_div by (unfold Second; lia). done.
  - intros m n Em En Hmr Hnr. subst steps ds isec.
    rewrite Em, En, !int_seconds_whole by lia.
    rewrite Z.div_mul_cancel_r by (unfold Second; lia). done.
Qed.

(** With a tick interval below one second the add path panics on every
    task that has runs left: the interval is 0 whole seconds and
    [getPositionAndCircle] divides by it. *)
Lemma addTask_sub_second (tw : TimeWheel) (a : addr) (t : task.t) :
  0 <= interval tw < Second ->
  heap tw !! a = Some t -> task.times t <> 0 ->
  int_seconds (interval tw) = 0 /\ addTask tw a = Panic tw.
Proof.
  intros Hi Ha Ht.
  assert (int_seconds (interval tw) = 0) as E0.
  { rewrite int_seconds_floor by (unfold Second in *; lia).
    apply Z.div_small. lia. }
  split; [done|]. unfold addTask, getPositionAndCircle.
  rewrite Ha, E0. by destruct (Z.eqb_spec (task.times t) 0).
Qed.

(** ** One iteration of the scan *)

Lemma getPositionAndCircle_frame (tw tw' : TimeWheel) (d : Z) :
  interval tw' = interval tw -> slotNum tw' = slotNum tw ->
  currentPos tw' = currentPos tw ->
  getPositionAndCircle tw' d = getPositionAndCircle tw d.
Proof. intros H1 H2 H3. unfold getPositionAndCircle. by rewrite H1, H2, H3. Qed.

(** A tombstoned task is dropped from the list and from the index. *)
Lemma scan_step_dead (tw : TimeWheel) (p i : nat) (l : list addr) (a : addr)
    (t : task.t) :
  slots tw !! p = Some (Some l) -> l !! i = Some a -> heap tw !! a = Some t ->
  task.times t = 0 ->
  scan_step p i tw
  = StepNext (mkTW (interval tw) (ticker tw) (<[p := Some (delete i l)]> (slots tw))
                   (currentPos tw) (slotNum tw)
                   (delete (task.key t) (taskRecord tw)) (heap tw) (fired tw))
             (next_after_remove l i).
Proof.
  intros Hp Hi Ha Ht. unfold scan_step. rewrite Hp, Hi, Ha, Ht. done.
Qed.

(** A task that is not yet due loses one circle and stays where it is. *)
Lemma scan_step_wait (tw : TimeWheel) (p i : nat) (l : list addr) (a : addr)
    (t : task.t) :
  slots tw !! p = Some (Some l) -> l !! i = Some a -> heap tw !! a = Some t ->
  task.times t <> 0 -> 0 < task.circle t ->
  scan_step p i tw
  = StepNext (mkTW (interval tw) (ticker tw) (slots tw) (currentPos tw) (slotNum tw)
                   (taskRecord tw)
                   (<[a := task.set_circle t (task.circle t - 1)]> (heap tw))
                   (fired tw))
             (next_in_place l i).
Proof.
  intros Hp Hi Ha Ht Hc. unfold scan_step. rewrite Hp, Hi, Ha.
  destruct (Z.eqb_spec (task.times t) 0); [done|].
  destruct (Z.ltb_spec 0 (task.circle t)); [done|lia].
Qed.

Lemma scan_step_due_last (tw : TimeWheel) (p i : nat) (l : list addr) (a : addr)
    (t : task.t) (j : Job) :
  slots tw !! p = Some (Some l) -> l !! i = Some a -> heap tw !! a = Some t ->
  task.circle t <= 0 -> task.job t = Some j -> task.times t = 1 ->
  scan_step p i tw
  = StepNext (with_taskRecord
                (with_heap (after_dispatch tw p i l a j t)
                           (<[a := task.set_times t 0]> (heap tw)))
                (delete (task.key t) (taskRecord tw)))
             (next_after_remove l i).
Proof.
  intros Hp Hi Ha Hc Hj Ht. unfold scan_step. rewrite Hp, Hi, Ha, Hj, Ht. simpl.
  destruct (Z.ltb_spec 0 (task.circle t)); [lia|]. done.
Qed.

Lemma scan_step_due_unlimited (tw : TimeWheel) (p i : nat) (l : list addr) (a : addr)
    (t : task.t) (j : Job) :
  slots tw !! p = Some (Some l) -> l !! i = Some a -> heap tw !! a = Some t ->
  task.circle t <= 0 -> task.job t = Some j -> task.times t < 0 ->
  scan_step p i tw
  = after_addTask (addTask (after_dispatch tw p i l a j t) a) (next_after_remove l i).
Proof.
  intros Hp Hi Ha Hc Hj Ht. unfold scan_step. rewrite Hp, Hi, Ha, Hj.
  destruct (Z.eqb_spec (task.times t) 0); [lia|].
  destruct (Z.ltb_spec 0 (task.circle t)); [lia|].
  destruct (Z.eqb_spec (task.times t) 1); [lia|].
  destruct (Z.ltb_spec 0 (task.times t)); [lia|].
  unfold after_addTask, after_dispatch, set_slot, with_fired, with_slots. simpl.
  by destruct (addTask _ a).
Qed.

Lemma scan_step_due_more (tw : TimeWheel) (p i : nat) (l : list addr) (a : addr)
    (t : task.t) (j : Job) :
  slots tw !! p = Some (Some l) -> l !! i = Some a -> heap tw !! a = Some t ->
  task.circle t <= 0 -> task.job t = Some j -> 1 < task.times t ->
  scan_step p i tw
  = after_addTask
      (addTask (with_heap (after_dispatch tw p i l a j t)
                          (<[a := task.set_times t (task.times t - 1)]> (heap tw))) a)
      (next_after_remove l i).
Proof.
  intros Hp Hi Ha Hc Hj Ht. unfold scan_step. rewrite Hp, Hi, Ha, Hj.
  destruct (Z.eqb_spec (task.times t) 0); [lia|].
  destruct (Z.ltb_spec 0 (task.circle t)); [lia|].
  destruct (Z.eqb_spec (task.times t) 1); [lia|].
  destruct (Z.ltb_spec 0 (task.times t)); [|lia].
  unfold after_addTask, after_dispatch, set_slot, with_fired, with_slots, with_heap. simpl.
  by destruct (addTask _ a).
Qed.

(** A due task with more runs to go, when [addTask] finds its slot. *)
Lemma scan_step_readmit (tw : TimeWheel) (p i : nat) (l : list addr) (a : addr)
    (t : task.t) (j : Job) (pos circle : Z) (l' : list addr) :
  slots tw !! p = Some (Some l) -> l !! i = Some a -> heap tw !! a = Some t ->
  task.circle t <= 0 -> task.job t = Some j ->
  task.times t < 0 \/ 1 < task.times t ->
  getPositionAndCircle tw (task.interval t) = Some (pos, circle) ->
  0 <= pos ->
  slots (after_dispatch tw p i l a j t) !! Z.to_nat pos = Some (Some l') ->
  scan_step p i tw
  = StepNext (mkTW (interval tw) (ticker tw)
                   (<[Z.to_nat pos := Some (l' ++ [a])]>
                      (<[p := Some (delete i l)]> (slots tw)))
                   (currentPos tw) (slotNum tw)
                   (<[task.key t := a]> (taskRecord tw))
                   (<[a := task.mk (task.interval t)
                                   (if 0 <? task.times t then task.times t - 1
                                    else task.times t)
                                   circle (task.key t) (task.job t) (task.taskData t)]>
                      (heap tw))
                   (fired tw ++ [(a, j, task.taskData t)]))
             (next_after_remove l i).
Proof.
  intros Hp Hi Ha Hc Hj Hcase Hg Hpos Hl'.
  set (tw1 := after_dispatch tw p i l a j t) in *.
  assert (a < length (heap tw))%nat as Halt by (by eapply lookup_lt_Some).
  destruct Hcase as [H1|H1].
  - rewrite (scan_step_due_unlimited tw p i l a t j) by (done || lia).
    fold tw1.
    rewrite (addTask_Done tw1 a t pos circle l') by (done || lia).
    destruct (Z.ltb_spec 0 (task.times t)); [lia|]. done.
  - rewrite (scan_step_due_more tw p i l a t j) by (done || lia).
    fold tw1.
    set (t' := task.set_times t (task.times t - 1)).
    assert (heap (with_heap tw1 (<[a := t']> (heap tw))) !! a = Some t') as Ha'
      by (simpl; by apply list_lookup_insert_eq).
    rewrite (addTask_Done (with_heap tw1 (<[a := t']> (heap tw))) a t' pos circle l')
      by (done || simpl; lia).
    unfold task.set_circle. simpl. rewrite list_insert_insert_eq.
    destruct (Z.ltb_spec 0 (task.times t)); [|lia]. done.
Qed.

(** ** Tombstones never fire *)

Section tombstones.

(** The task object that is followed. *)
Variable a : addr.

Lemma silent_refl tw : tombstone a tw -> silent a tw tw.
Proof. by split. Qed.

Lemma silent_trans tw1 tw2 tw3 :
  silent a tw1 tw2 -> silent a tw2 tw3 -> silent a tw1 tw3.
Proof. intros [H1 H2] [H3 H4]. split; [done|congruence]. Qed.

(** A store through a pointer that keeps [times], or that goes to an object
    with runs left, keeps every tombstone. *)
Lemma tombstone_store (b : addr) (t t' : task.t) (tw tw' : TimeWheel) :
  heap tw !! b = Some t ->
  heap tw' = <[b := t']> (heap tw) ->
  task.times t' = task.times t \/ task.times t <> 0 ->
  tombstone a tw -> tombstone a tw'.
Proof.
  intros Hb Hh Ht (x & Hx & Hx0). unfold tombstone. rewrite Hh.
  destruct (decide (a = b)) as [->|Hne].
  - assert (x = t) as -> by congruence.
    destruct Ht as [Ht|Ht]; [|done].
    exists t'. rewrite list_lookup_insert_eq by (by eapply lookup_lt_Some).
    split; [done|congruence].
  - exists x. by rewrite list_lookup_insert_ne.
Qed.

Lemma tombstone_same_heap (tw tw' : TimeWheel) :
  heap tw' = heap tw -> tombstone a tw -> tombstone a tw'.
Proof. intros Hh. unfold tombstone. by rewrite Hh. Qed.

Lemma silent_addTask (b : addr) (tw : TimeWheel) :
  tombstone a tw -> silent a tw (state_of (addTask tw b)).
Proof.
  intros Ht. unfold addTask.
  destruct (heap tw !! b) as [t|] eqn:Hb; [|by apply silent_refl].
  destruct (Z.eqb_spec (task.times t) 0); [by apply silent_refl|].
  destruct (getPositionAndCircle tw (task.interval t)) as [[pos c]|];
    [|by apply silent_refl].
  assert (forall tw', heap tw' = <[b := task.set_circle t c]> (heap tw) ->
                      fired tw' = fired tw -> silent a tw tw') as Hs.
  { intros tw' Hh Hf. split; [|unfold dispatched; by rewrite Hf].
    eapply tombstone_store; eauto. }
  destruct (pos <? 0); [by apply Hs|]. simpl.
  destruct (slots tw !! Z.to_nat pos) as [[l|]|]; by apply Hs.
Qed.

Lemma dispatched_other (b : addr) (j : Job) (data : TaskData) (tw tw' : TimeWheel) :
  a <> b -> fired tw' = fired tw ++ [(b, j, data)] ->
  dispatched a tw' = dispatched a tw.
Proof.
  intros Hne Hf. unfold dispatched. rewrite Hf, filter_app.
  rewrite (filter_cons_False _ (b, j, data)) by (simpl; congruence).
  by rewrite filter_nil, app_nil_r.
Qed.

Lemma silent_scan_step (p i : nat) (tw : TimeWheel) :
  tombstone a tw -> silent a tw (step_state (scan_step p i tw)).
Proof.
  intros Ht. unfold scan_step.
  destruct (slots tw !! p) as [[l|]|]; try by apply silent_refl.
  destruct (l !! i) as [b|]; [|by apply silent_refl].
  destruct (heap tw !! b) as [t|] eqn:Hb; [|by apply silent_refl].
  destruct (Z.eqb_spec (task.times t) 0) as [H0|H0].
  { split; [|done]. by eapply tombstone_same_heap. }
  destruct (0 <? task.circle t).
  { split; [|done]. eapply tombstone_store; eauto. }
  destruct (task.job t) as [j|]; [|by apply silent_refl].
  assert (a <> b) as Hne.
  { intros ->. destruct Ht as (x & Hx & Hx0). congruence. }
  set (tw1 := set_slot (with_fired tw (fired tw ++ [(b, j, task.taskData t)])) p (delete i l)).
  assert (silent a tw tw1) as H1.
  { split; [by eapply tombstone_same_heap|]. by eapply dispatched_other. }
  destruct (task.times t =? 1).
  { simpl. destruct H1 as [H1 H2]. split; [|done].
    eapply (tombstone_store b t); [exact Hb|done|by right|done]. }
  set (tw2 := if 0 <? task.times t then _ else _).
  assert (silent a tw tw2) as H2.
  { subst tw2. destruct (0 <? task.times t); [|done].
    destruct H1 as [H1 H2]. split; [|done].
    eapply (tombstone_store b t); [exact Hb|done|by right|done]. }
  pose proof (silent_addTask b tw2 (proj1 H2)) as H3.
  destruct (addTask tw2 b); simpl in *; by eapply silent_trans.
Qed.

Lemma silent_scan_loop (fuel p : nat) (item : option nat) (tw : TimeWheel) :
  tombstone a tw -> silent a tw (state_of (scan_loop fuel p item tw)).
Proof.
  revert item tw. induction fuel as [|fuel IH]; intros [i|] tw Ht; simpl;
    try by apply silent_refl.
  pose proof (silent_scan_step p i tw Ht) as Hs.
  destruct (scan_step p i tw) as [tw' item'|tw']; simpl in *; [|done].
  eapply silent_trans; [exact Hs|]. apply IH. apply Hs.
Qed.

Lemma silent_tickHandler (fuel : nat) (tw : TimeWheel) :
  tombstone a tw -> silent a tw (state_of (tickHandler fuel tw)).
Proof.
  intros Ht. unfold tickHandler.
  destruct (_ || _); [by apply silent_refl|].
  unfold scanAddRunTask.
  destruct (slots tw !! Z.to_nat (currentPos tw)) as [[l|]|]; simpl.
  - pose proof (silent_scan_loop fuel (Z.to_nat (currentPos tw)) (Front l) tw Ht) as H1.
    destruct (scan_loop _ _ _ _); exact H1.
  - exact (silent_refl tw Ht).
  - by apply silent_refl.
Qed.

Lemma silent_run_op (tw : TimeWheel) (o : op) :
  tombstone a tw -> silent a tw (state_of (run_op tw o)).
Proof.
  intros Ht. destruct o as [fuel|b|d n k data j|k|k d data]; simpl.
  - by apply silent_tickHandler.
  - by apply silent_addTask.
  - unfold AddTask. destruct (_ || _); [by apply silent_refl|].
    destruct (taskRecord tw !! k); [by apply silent_refl|]. simpl.
    split; [|done]. destruct Ht as (x & Hx & Hx0). exists x.
    split; [|done]. simpl. by apply lookup_app_l_Some.
  - unfold RemoveTask. destruct k as [k|]; [|by apply silent_refl].
    destruct (taskRecord tw !! Some k) as [b|]; [|by apply silent_refl].
    destruct (heap tw !! b) as [t|] eqn:Hb; [|by apply silent_refl]. simpl.
    split; [|done].
    destruct (decide (task.times t = 0)) as [H0|H0].
    + eapply (tombstone_store b t); [exact Hb|done|by left|done].
    + eapply (tombstone_store b t); [exact Hb|done|by right|done].
  - unfold UpdateTask. destruct k as [k|]; [|by apply silent_refl].
    destruct (taskRecord tw !! Some k) as [b|]; [|by apply silent_refl].
    destruct (heap tw !! b) as [t|] eqn:Hb; [|by apply silent_refl]. simpl.
    split; [|done].
    eapply (tombstone_store b t); [exact Hb|done|by left|done].
Qed.

Lemma silent_run (ops : list op) (tw : TimeWheel) :
  tombstone a tw -> silent a tw (state_of (run ops tw)).
Proof.
  revert tw. induction ops as [|o ops IH]; intros tw Ht; simpl;
    [by apply silent_refl|].
  pose proof (silent_run_op tw o Ht) as H1.
  destruct (run_op tw o) as [tw'|tw'|tw']; simpl in *; try done.
  eapply silent_trans; [exact H1|]. apply IH. apply H1.
Qed.

(** ** A completed scan leaves no tombstone behind *)

Lemma take_delete_same {A} (l : list A) (i : nat) :
  take i (delete i l) = take i l.
Proof.
  rewrite delete_take_drop.
  destruct (decide (i <= length l)%nat).
  - rewrite take_app_le by (rewrite length_take; lia).
    rewrite take_take. f_equal. lia.
  - rewrite drop_ge by lia. rewrite app_nil_r, take_take. f_equal. lia.
Qed.

Lemma delete_last {A} (l : list A) (i : nat) :
  is_Some (l !! i) -> ~ (S i < length l)%nat -> delete i l = take i l.
Proof.
  intros Hi%lookup_lt_is_Some Hn. rewrite delete_take_drop.
  rewrite drop_ge by lia. by rewrite app_nil_r.
Qed.

(** What [addTask] can do to the slots: nothing, or one push at the back of
    one list. *)
Lemma addTask_slots (tw : TimeWheel) (b : addr) :
  slots (state_of (addTask tw b)) = slots tw \/
  exists q lq, slots tw !! q = Some (Some lq) /\
    slots (state_of (addTask tw b)) = <[q := Some (lq ++ [b])]> (slots tw).
Proof.
  unfold addTask.
  destruct (heap tw !! b) as [t|]; [|by left].
  destruct (task.times t =? 0); [by left|].
  destruct (getPositionAndCircle tw (task.interval t)) as [[pos c]|]; [|by left].
  destruct (pos <? 0); [by left|]. simpl.
  destruct (slots tw !! Z.to_nat pos) as [[lq|]|] eqn:Hq; try by left.
  right. by exists (Z.to_nat pos), lq.
Qed.

Lemma passed_free_remove (p i : nat) (l : list addr) (tw' : TimeWheel) :
  is_Some (l !! i) -> a ∉ take i l ->
  slots tw' !! p = Some (Some (delete i l)) ->
  passed_free a p tw' (next_after_remove l i).
Proof.
  intros Hi Ha Hp l' Hl'. assert (l' = delete i l) as -> by congruence.
  unfold next_after_remove. destruct (decide (S i < length l)%nat).
  - by rewrite take_delete_same.
  - by rewrite delete_last.
Qed.

Lemma passed_free_remove_push (b : addr) (p i : nat) (l : list addr) (tw' : TimeWheel) :
  is_Some (l !! i) -> a ∉ take i l -> a <> b ->
  slots tw' !! p = Some (Some (delete i l ++ [b])) ->
  passed_free a p tw' (next_after_remove l i).
Proof.
  intros Hi Ha Hne Hp l' Hl'. assert (l' = delete i l ++ [b]) as -> by congruence.
  pose proof (lookup_lt_is_Some_1 _ _ Hi) as Hlt.
  unfold next_after_remove. destruct (decide (S i < length l)%nat).
  - rewrite take_app_le by (rewrite length_delete by done; lia).
    by rewrite take_delete_same.
  - rewrite delete_last by done.
    intros [?|?%list_elem_of_singleton]%elem_of_app; done.
Qed.

Lemma passed_free_scan_step (p i : nat) (tw tw' : TimeWheel)
    (item' : option nat) :
  tombstone a tw -> passed_free a p tw (Some i) ->
  scan_step p i tw = StepNext tw' item' ->
  passed_free a p tw' item'.
Proof.
  intros Ht Hfree. unfold scan_step.
  destruct (slots tw !! p) as [[l|]|] eqn:Hp; try done.
  specialize (Hfree l Hp). simpl in Hfree.
  assert (p < length (slots tw))%nat as Hlt by (by eapply lookup_lt_Some).
  destruct (l !! i) as [b|] eqn:Hi; [|done].
  assert (is_Some (l !! i)) as Hsome by eauto.
  destruct (heap tw !! b) as [t|] eqn:Hb; [|done].
  destruct (Z.eqb_spec (task.times t) 0) as [H0|H0].
  { intros [= <- <-]. eapply passed_free_remove; eauto.
    simpl. by apply list_lookup_insert_eq. }
  assert (a <> b) as Hne.
  { intros ->. destruct Ht as (x & Hx & Hx0). congruence. }
  destruct (0 <? task.circle t).
  { intros [= <- <-]. intros l' Hl'. simpl in Hl'.
    assert (l' = l) as -> by congruence.
    unfold next_in_place. destruct (decide (S i < length l)%nat).
    - rewrite (take_S_r _ _ _ Hi).
      intros [?|?%list_elem_of_singleton]%elem_of_app; done.
    - rewrite <- (take_drop i l), <- delete_last by done.
      rewrite (delete_take_drop l i), drop_ge, app_nil_r by lia.
      rewrite (drop_S _ _ _ Hi), drop_ge by lia.
      intros [?|?%list_elem_of_singleton]%elem_of_app; done. }
  destruct (task.job t) as [j|]; [|done].
  set (tw1 := set_slot (with_fired tw (fired tw ++ [(b, j, task.taskData t)])) p (delete i l)).
  assert (slots tw1 !! p = Some (Some (delete i l))) as Hp1
    by (simpl; by apply list_lookup_insert_eq).
  destruct (task.times t =? 1).
  { intros [= <- <-]. eapply passed_free_remove; eauto. }
  set (tw2 := if 0 <? task.times t then _ else _).
  assert (slots tw2 = slots tw1) as Hs2 by (subst tw2; by destruct (0 <? task.times t)).
  pose proof (addTask_slots tw2 b) as Hadd.
  destruct (addTask tw2 b) as [tw3|tw3|tw3]; simpl in *; try done.
  intros [= <- <-].
  destruct Hadd as [Hsame|(q & lq & Hq & Hpush)].
  - eapply passed_free_remove; eauto. by rewrite Hsame, Hs2.
  - rewrite Hs2 in Hq, Hpush.
    destruct (decide (q = p)) as [->|Hqp].
    + assert (lq = delete i l) as -> by congruence.
      eapply passed_free_remove_push; eauto.
      rewrite Hpush. apply list_lookup_insert_eq.
      by eapply lookup_lt_Some.
    + eapply passed_free_remove; eauto.
      rewrite Hpush. by rewrite list_lookup_insert_ne.
Qed.

Lemma passed_free_scan_loop (fuel p : nat) (item : option nat)
    (tw tw' : TimeWheel) :
  tombstone a tw -> passed_free a p tw item ->
  scan_loop fuel p item tw = Done tw' ->
  passed_free a p tw' None.
Proof.
  revert item tw. induction fuel as [|fuel IH]; intros [i|] tw Ht Hfree; simpl;
    try done; try (by intros [= <-]).
  destruct (scan_step p i tw) as [tw1 item1|tw1] eqn:Hs; [|done].
  intros Hl. eapply (IH item1 tw1); [| |done].
  - pose proof (silent_scan_step p i tw Ht) as H1. rewrite Hs in H1. apply H1.
  - by eapply passed_free_scan_step.
Qed.

(** After a tick that ran to its end, the slot that was scanned holds no
    tombstone. *)
Lemma tickHandler_purges (fuel : nat) (tw tw' : TimeWheel) (l : list addr) :
  tombstone a tw ->
  tickHandler fuel tw = Done tw' ->
  slots tw' !! Z.to_nat (currentPos tw) = Some (Some l) ->
  a ∉ l.
Proof.
  intros Ht. unfold tickHandler.
  destruct (_ || _); [done|]. unfold scanAddRunTask.
  destruct (slots tw !! Z.to_nat (currentPos tw)) as [[l0|]|] eqn:Hp; try done.
  - destruct (scan_loop _ _ _ _) as [tw1|tw1|tw1] eqn:Hl; try done.
    intros [= <-] Hl'. simpl in Hl'.
    eapply (passed_free_scan_loop fuel _ (Front l0) tw tw1 Ht) in Hl.
    + by apply Hl.
    + intros l1 Hl1. assert (l1 = l0) as -> by congruence.
      destruct l0; simpl; apply not_elem_of_nil.
  - intros [= <-]. simpl. congruence.
Qed.

End tombstones.

(** A [RemoveTask] that overlaps no scan, on the task the index holds
    under the key: it succeeds and leaves the task object with no runs.
    From then on, whatever ticks and calls follow one after the other and
    however far they get, the object is never dispatched again and stays a
    tombstone; when the scan reaches it, it is unlinked from its slot with
    nothing dispatched; and after any tick that ran to its end the slot that
    was scanned no longer holds it.  Another task pending under the same
    key, and a [RemoveTask] that takes effect inside a scan, are treated at
    the end of the file. *)
Theorem RemoveTask_never_fires (tw : TimeWheel) (k : string) (a : addr) :
  wf tw -> taskRecord tw !! Some k = Some a ->
  let tw1 := (RemoveTask tw (Some k)).1 in
  (RemoveTask tw (Some k)).2 = None /\
  tombstone a tw1 /\ slots tw1 = slots tw /\
  forall ops,
    let tw2 := state_of (run ops tw1) in
    dispatched a tw2 = dispatched a tw /\
    tombstone a tw2 /\
    (forall p i l,
       slots tw2 !! p = Some (Some l) -> l !! i = Some a ->
       exists tw3,
         scan_step p i tw2 = StepNext tw3 (next_after_remove l i) /\
         slots tw3 !! p = Some (Some (delete i l)) /\
         fired tw3 = fired tw2) /\
    (forall fuel tw3 l,
       tickHandler fuel tw2 = Done tw3 ->
       slots tw3 !! Z.to_nat (currentPos tw2) = Some (Some l) ->
       a ∉ l).
Proof.
  intros Hwf Hk tw1.
  destruct (wf_index _ Hwf _ _ Hk) as (t & Ha & Hkey).
  assert (a < length (heap tw))%nat as Hlt by (by eapply lookup_lt_Some).
  subst tw1. rewrite (RemoveTask_found tw k a t Hk Ha). simpl.
  set (tw1 := with_taskRecord _ _).
  assert (tombstone a tw1) as Ht1.
  { exists (task.set_times t 0). split; [|done]. simpl. by apply list_lookup_insert_eq. }
  split; [done|]. split; [done|]. split; [done|].
  intros ops. set (tw2 := state_of (run ops tw1)).
  destruct (silent_run a ops tw1 Ht1) as [Ht2 Hd2]. fold tw2 in Ht2, Hd2.
  split; [done|]. split; [done|]. split.
  - intros p i l Hp Hi. destruct Ht2 as (x & Hx & Hx0).
    eexists. split; [by eapply scan_step_dead|]. simpl.
    split; [|done]. apply list_lookup_insert_eq. by eapply lookup_lt_Some.
  - intros fuel tw3 l Htick Hl. by eapply tickHandler_purges.
Qed.

(** ** When a tick runs to its end

    A task that [addTask] puts back into the slot being scanned with no
    circle to wait is due again in the same scan; two such tasks with
    unlimited runs keep the loop going forever.  The scan ends without a
    panic when every re-admission finds its slot and, if that is the slot
    being scanned, gets a positive circle. *)

(** A delay of at least one tick interval, in whole seconds, re-admits
    later. *)
Lemma readmits_later_one_tick (tw : TimeWheel) (d : Z) :
  wf tw ->
  1 <= int_seconds (interval tw) <= int_seconds d ->
  currentPos tw + int_seconds d / int_seconds (interval tw) <= max_int ->
  readmits_later tw d.
Proof.
  intros Hwf His Hov.
  pose proof (wf_slotNum _ Hwf) as HS. pose proof (wf_pos _ Hwf) as Hc.
  set (ds := int_seconds d) in *. set (isec := int_seconds (interval tw)) in *.
  assert (1 <= ds / isec) as Hsteps.
  { apply Z.div_le_lower_bound; lia. }
  exists ((currentPos tw + ds / isec) mod slotNum tw), (ds / isec / slotNum tw).
  split.
  { pose proof (getPositionAndCircle_seconds tw d) as H. simpl in H.
    fold ds isec in H. apply H; lia. }
  split; [apply Z.mod_pos_bound; lia|].
  intros Hsame. set (st := ds / isec) in *.
  pose proof (Z.div_mod (currentPos tw + st) (slotNum tw)) as Hdm.
  rewrite Hsame in Hdm. specialize (Hdm ltac:(lia)).
  set (q := (currentPos tw + st) / slotNum tw) in *.
  assert (1 <= q) by nia.
  apply Z.div_str_pos. nia.
Qed.

Lemma tame_frame (tw tw' : TimeWheel) :
  interval tw' = interval tw -> slotNum tw' = slotNum tw ->
  currentPos tw' = currentPos tw ->
  (forall a t', heap tw' !! a = Some t' ->
     exists t, heap tw !! a = Some t /\ task.interval t' = task.interval t) ->
  tame tw -> tame tw'.
Proof.
  intros H1 H2 H3 Hh Ht a t' Ha.
  destruct (Hh a t' Ha) as (t & Hat & Hi).
  destruct (Ht a t Hat) as (pos & c & Hg & Hpos & Hc).
  exists pos, c. rewrite Hi, H2, H3.
  by rewrite (getPositionAndCircle_frame tw tw').
Qed.

Lemma store_intervals (heap0 : list task.t) (b : addr) (t t' : task.t) :
  heap0 !! b = Some t -> task.interval t' = task.interval t ->
  forall a x', <[b := t']> heap0 !! a = Some x' ->
    exists x, heap0 !! a = Some x /\ task.interval x' = task.interval x.
Proof.
  intros Hb Hi a x' Ha.
  destruct (decide (a = b)) as [->|Hne].
  - rewrite list_lookup_insert_eq in Ha by (by eapply lookup_lt_Some).
    injection Ha as <-. eauto.
  - rewrite list_lookup_insert_ne in Ha by done. eauto.
Qed.

Lemma sum_weight_ext (tw tw' : TimeWheel) (l : list addr) :
  (forall b, b ∈ l -> heap tw' !! b = heap tw !! b) ->
  sum_list_with (weight tw') l = sum_list_with (weight tw) l.
Proof.
  induction l as [|b l IH]; intros H; [done|]. simpl.
  rewrite IH by (intros; apply H; by right).
  unfold weight. rewrite (H b) by (by left). done.
Qed.

Lemma sum_weight_store (tw tw' : TimeWheel) (a : addr) (x : task.t) (l : list addr) :
  heap tw' = <[a := x]> (heap tw) -> a ∉ l ->
  sum_list_with (weight tw') l = sum_list_with (weight tw) l.
Proof.
  intros Hh Ha. apply sum_weight_ext. intros b Hb. rewrite Hh.
  apply list_lookup_insert_ne. intros ->. done.
Qed.

Lemma drop_delete_same {A} (l : list A) (i : nat) :
  (i < length l)%nat -> drop i (delete i l) = drop (S i) l.
Proof.
  intros Hi. rewrite delete_take_drop.
  rewrite drop_app_length'; [done|]. rewrite length_take. lia.
Qed.

Lemma NoDup_at (l : list addr) (i : nat) (a : addr) :
  NoDup l -> l !! i = Some a ->
  (a ∉ take i l) /\ (a ∉ drop (S i) l) /\ NoDup (delete i l) /\ (a ∉ delete i l).
Proof.
  intros Hnd Hi.
  rewrite <- (take_drop_middle l i a Hi) in Hnd.
  apply NoDup_app in Hnd as (H1 & H2 & H3).
  apply NoDup_cons in H3 as [H3 H4].
  assert (a ∉ take i l) as H5.
  { intros Hin. apply (H2 a Hin). by left. }
  rewrite delete_take_drop.
  repeat split; try done.
  - apply NoDup_app. split; [done|]. split; [|done].
    intros x Hx Hx'. apply (H2 x Hx). by right.
  - intros [?|?]%elem_of_app; done.
Qed.

Lemma scan_ok_item (p i : nat) (tw : TimeWheel) :
  scan_ok p tw (Some i) ->
  exists l a t, slots tw !! p = Some (Some l) /\ l !! i = Some a /\ heap tw !! a = Some t.
Proof.
  intros [Hwf _ _ (l & Hp & _ & Hvalid)].
  destruct (lookup_lt_is_Some_2 l i (Hvalid i eq_refl)) as [a Hi].
  destruct (wf_addrs _ Hwf p l a Hp) as [t Ha]; [by eapply list_elem_of_lookup_2|].
  eauto 10.
Qed.

Lemma next_after_remove_valid (l : list addr) (i k : nat) :
  next_after_remove l i = Some k -> (k < length l - 1)%nat /\ k = i.
Proof.
  unfold next_after_remove. destruct (decide (S i < length l)%nat); [|done].
  intros [= <-]. lia.
Qed.

Lemma measure_after_remove (tw' : TimeWheel) (p i : nat) (l : list addr) (n : nat) :
  (i < length l)%nat ->
  slots tw' !! p = Some (Some (delete i l)) ->
  sum_list_with (weight tw') (drop (S i) l) = n ->
  (scan_measure p tw' (next_after_remove l i) <= n)%nat.
Proof.
  intros Hi Hp Hn. unfold scan_measure, next_after_remove.
  destruct (decide (S i < length l)%nat); [|lia].
  rewrite Hp, drop_delete_same by done. lia.
Qed.

Lemma weight_dead_or_waiting (tw : TimeWheel) (a : addr) (t : task.t) :
  heap tw !! a = Some t -> task.times t = 0 \/ 0 < task.circle t ->
  weight tw a = 1%nat.
Proof.
  intros Ha H. unfold weight. rewrite Ha.
  destruct (Z.eqb_spec (task.times t) 0); [done|].
  destruct (Z.ltb_spec 0 (task.circle t)); [done|lia].
Qed.

Lemma weight_due (tw : TimeWheel) (a : addr) (t : task.t) :
  heap tw !! a = Some t -> task.times t <> 0 -> task.circle t <= 0 ->
  weight tw a = 2%nat.
Proof.
  intros Ha H1 H2. unfold weight. rewrite Ha.
  destruct (Z.eqb_spec (task.times t) 0); [done|].
  destruct (Z.ltb_spec 0 (task.circle t)); [lia|done].
Qed.

(** Every iteration returns, keeps what the scan relies on, and leaves
    less work. *)
Lemma scan_step_progress (p i : nat) (tw : TimeWheel) (l : list addr) (a : addr)
    (t : task.t) :
  scan_ok p tw (Some i) ->
  slots tw !! p = Some (Some l) -> l !! i = Some a -> heap tw !! a = Some t ->
  exists tw' item',
    scan_step p i tw = StepNext tw' item' /\
    scan_ok p tw' item' /\
    (scan_measure p tw' item' < scan_measure p tw (Some i))%nat /\
    step_summary p i tw tw' item' l a t.
Proof.
  intros [Hwf Htame Hcur (l0 & Hp0 & Hnd & Hvalid)] Hp Hi Ha.
  assert (l0 = l) as -> by congruence. clear Hp0.
  specialize (Hvalid i eq_refl).
  destruct (wf_jobs _ Hwf a t Ha) as [j Hj].
  destruct (NoDup_at l i a Hnd Hi) as (Hpre & Hpost & Hnd' & Hnotin).
  assert (p < length (slots tw))%nat as Hplt by (by eapply lookup_lt_Some).
  assert (a < length (heap tw))%nat as Halt by (by eapply lookup_lt_Some).
  pose proof (wf_scan_step p i tw Hwf) as Hwf'.
  assert (scan_measure p tw (Some i)
          = (weight tw a + sum_list_with (weight tw) (drop (S i) l))%nat) as Hm.
  { unfold scan_measure. rewrite Hp, (drop_S _ _ _ Hi). done. }
  rewrite Hm. unfold step_summary.
  (* what is shared by the branches that unlink the task *)
  assert (forall tw',
            wf tw' -> same_frame tw tw' ->
            (forall b x', heap tw' !! b = Some x' ->
               exists x, heap tw !! b = Some x /\ task.interval x' = task.interval x) ->
            (forall b, b <> a -> heap tw' !! b = heap tw !! b) ->
            slots tw' !! p = Some (Some (delete i l)) ->
            scan_ok p tw' (next_after_remove l i) /\
            (scan_measure p tw' (next_after_remove l i)
             <= sum_list_with (weight tw) (drop (S i) l))%nat) as Hunlink.
  { intros tw' Hw (Hc & Hn & Hiv & _ & _) Hx Hh Hp'. split.
    - split; [done| |congruence|].
      + by eapply (tame_frame tw tw').
      + exists (delete i l). split; [done|]. split; [done|].
        intros k [Hk _]%next_after_remove_valid. rewrite length_delete by eauto. lia.
    - eapply measure_after_remove; try done.
      apply sum_weight_ext. intros b Hb. apply Hh. intros ->. done. }
  assert (forall x b, b <> a -> <[a := x]> (heap tw) !! b = heap tw !! b) as Hoff
    by (intros; by apply list_lookup_insert_ne).
  destruct (decide (task.times t = 0)) as [H0|H0].
  { (* tombstone *)
    rewrite (scan_step_dead tw p i l a t) in * by done. cbn [step_state] in Hwf'.
    eexists _, _. split; [done|].
    edestruct (Hunlink _ Hwf') as [H1 H2];
      [| | | |split; [exact H1|split; [|split; [done|right]]]].
    - repeat split; simpl. by rewrite length_insert.
    - simpl. eauto.
    - done.
    - simpl. by apply list_lookup_insert_eq.
    - rewrite (weight_dead_or_waiting tw a t) by auto. lia.
    - split; [by left|]. split; [done|]. left. simpl. by apply list_lookup_insert_eq. }
  destruct (decide (0 < task.circle t)) as [Hc|Hc].
  { (* not yet due *)
    rewrite (scan_step_wait tw p i l a t) in * by done. cbn [step_state] in Hwf'.
    eexists _, _. split; [done|]. split; [|split; [|split; [apply Hoff|left]]].
    - split; [done| |done|].
      + eapply (tame_frame tw); [done .. | | done]. simpl.
        by apply (store_intervals (heap tw) a t).
      + exists l. split; [done|]. split; [done|].
        unfold next_in_place. intros k.
        destruct (decide (S i < length l)%nat); [|done]. intros [= <-]. done.
    - rewrite (weight_dead_or_waiting tw a t) by auto.
      unfold scan_measure, next_in_place. simpl.
      destruct (decide (S i < length l)%nat); [|lia].
      rewrite Hp.
      rewrite (sum_weight_store tw _ a (task.set_circle t (task.circle t - 1))) by done.
      lia.
    - repeat split; try done. simpl. by apply list_lookup_insert_eq. }
  rewrite (weight_due tw a t) by (done || lia).
  destruct (decide (task.times t = 1)) as [H1|H1].
  { (* last run *)
    rewrite (scan_step_due_last tw p i l a t j) in * by (done || lia).
    cbn [step_state] in Hwf'.
    eexists _, _. split; [done|].
    edestruct (Hunlink _ Hwf') as [H2 H3];
      [| | | |split; [exact H2|split; [|split; [apply Hoff|right]]]].
    - repeat split; simpl. by rewrite length_insert.
    - simpl. by apply (store_intervals (heap tw) a t).
    - simpl. apply Hoff.
    - simpl. by apply list_lookup_insert_eq.
    - lia.
    - split; [right; lia|]. split; [done|]. left. simpl. by apply list_lookup_insert_eq. }
  (* re-admission *)
  destruct (Htame a t Ha) as (pos & c & Hg & Hpos & Hlater).
  pose proof (wf_length _ Hwf) as Hlen. pose proof (wf_pos _ Hwf) as Hcp.
  assert (Z.to_nat pos < length (slots tw))%nat as Hposlt by lia.
  set (t' := task.mk (task.interval t)
                     (if 0 <? task.times t then task.times t - 1 else task.times t)
                     c (task.key t) (task.job t) (task.taskData t)).
  destruct (decide (Z.to_nat pos = p)) as [Hsame|Hother].
  - (* back into the slot being scanned, with a circle to wait *)
    assert (0 < c) as Hcpos by (apply Hlater; lia).
    assert (slots (after_dispatch tw p i l a j t) !! Z.to_nat pos
            = Some (Some (delete i l))) as Hslot
      by (simpl; rewrite Hsame; by apply list_lookup_insert_eq).
    pose proof (scan_step_readmit tw p i l a t j pos c (delete i l)
                  Hp Hi Ha ltac:(lia) Hj ltac:(lia) Hg ltac:(lia) Hslot) as Heq.
    rewrite Heq in *. clear Heq Hslot. cbn [step_state] in Hwf'.
    rewrite Hsame, list_insert_insert_eq in *. fold t' in Hwf' |- *.
    eexists _, _. split; [done|]. split; [|split; [|split; [apply Hoff|right]]].
    + split; [done| |done|].
      * eapply (tame_frame tw); [done .. | | done]. simpl.
        by apply (store_intervals (heap tw) a t).
      * exists (delete i l ++ [a]). simpl.
        split; [by apply list_lookup_insert_eq|]. split.
        -- apply NoDup_app. split; [done|]. split; [|apply NoDup_singleton].
           intros x Hx ->%list_elem_of_singleton. done.
        -- intros k [Hk _]%next_after_remove_valid.
           rewrite length_app, length_delete by eauto. simpl. lia.
    + unfold scan_measure, next_after_remove. simpl.
      destruct (decide (S i < length l)%nat); [|lia].
      rewrite list_lookup_insert_eq by done.
      rewrite drop_app_le by (rewrite length_delete by eauto; lia).
      rewrite drop_delete_same by done.
      rewrite sum_list_with_app. simpl.
      rewrite (sum_weight_store tw _ a t') by done.
      assert (weight (mkTW (interval tw) (ticker tw)
                        (<[p:=Some (delete i l ++ [a])]> (slots tw)) (currentPos tw)
                        (slotNum tw) (<[task.key t:=a]> (taskRecord tw))
                        (<[a:=t']> (heap tw)) (fired tw ++ [(a, j, task.taskData t)])) a
              = 1%nat) as ->.
      { eapply (weight_dead_or_waiting _ a t'); [|by right].
        simpl. by apply list_lookup_insert_eq. }
      lia.
    + split; [right; lia|]. split; [done|]. right. simpl.
      by apply list_lookup_insert_eq.
  - (* into another slot *)
    destruct (lookup_lt_is_Some_2 (slots tw) (Z.to_nat pos) Hposlt) as [s Hs].
    destruct (wf_nonnil _ Hwf _ _ Hs) as [l' ->].
    assert (slots (after_dispatch tw p i l a j t) !! Z.to_nat pos = Some (Some l')) as Hslot
      by (simpl; by rewrite list_lookup_insert_ne).
    pose proof (scan_step_readmit tw p i l a t j pos c l'
                  Hp Hi Ha ltac:(lia) Hj ltac:(lia) Hg ltac:(lia) Hslot) as Heq.
    rewrite Heq in *. clear Heq Hslot. cbn [step_state] in Hwf'. fold t' in Hwf' |- *.
    eexists _, _. split; [done|].
    edestruct (Hunlink _ Hwf') as [H2 H3];
      [| | | |split; [exact H2|split; [|split; [apply Hoff|right]]]].
    + repeat split; simpl. by rewrite !length_insert.
    + simpl. by apply (store_intervals (heap tw) a t).
    + simpl. apply Hoff.
    + simpl. rewrite list_lookup_insert_ne by done.
      by apply list_lookup_insert_eq.
    + lia.
    + split; [right; lia|]. split; [done|]. left. simpl.
      rewrite list_lookup_insert_ne by done. by apply list_lookup_insert_eq.
Qed.

Lemma scan_loop_ends (fuel p : nat) (item : option nat) (tw : TimeWheel) :
  scan_ok p tw item ->
  (scan_measure p tw item <= fuel)%nat ->
  exists tw', scan_loop fuel p item tw = Done tw'.
Proof.
  revert item tw. induction fuel as [|fuel IH]; intros [i|] tw Hok Hm; simpl; eauto.
  - destruct (scan_ok_item p i tw Hok) as (l & a & t & Hp & Hi & Ha).
    destruct (scan_step_progress p i tw l a t Hok Hp Hi Ha) as (tw' & item' & _ & _ & Hlt & _).
    lia.
  - destruct (scan_ok_item p i tw Hok) as (l & a & t & Hp & Hi & Ha).
    destruct (scan_step_progress p i tw l a t Hok Hp Hi Ha)
      as (tw' & item' & -> & Hok' & Hlt & _).
    apply IH; [done|lia].
Qed.

Lemma weight_le_2 (tw : TimeWheel) (a : addr) : (weight tw a <= 2)%nat.
Proof.
  unfold weight. destruct (heap tw !! a) as [t|]; [|lia].
  destruct (_ || _); lia.
Qed.

Lemma sum_weight_bound (tw : TimeWheel) (l : list addr) :
  (sum_list_with (weight tw) l <= 2 * length l)%nat.
Proof.
  induction l as [|a l IH]; simpl; [lia|].
  pose proof (weight_le_2 tw a). lia.
Qed.

(** The cursor after a tick that returned. *)
Lemma tickHandler_cursor (fuel : nat) (tw tw' : TimeWheel) :
  wf tw -> tickHandler fuel tw = Done tw' ->
  currentPos tw' = (currentPos tw + 1) mod slotNum tw /\
  slotNum tw' = slotNum tw /\ interval tw' = interval tw.
Proof.
  intros Hwf. unfold tickHandler.
  pose proof (wf_slotNum _ Hwf) as HS. pose proof (wf_pos _ Hwf) as Hc.
  destruct (_ || _); [done|]. unfold scanAddRunTask.
  assert (forall tw1, same_frame tw tw1 ->
            currentPos (with_currentPos tw1
              (if currentPos tw1 =? int_sub (slotNum tw1) 1 then 0
               else int_add (currentPos tw1) 1))
            = (currentPos tw + 1) mod slotNum tw) as Hadv.
  { intros tw1 (H1 & H2 & _). simpl. rewrite H1, H2.
    unfold int_sub, int_add. rewrite !wrap_id by (unfold min_int, max_int in *; lia).
    destruct (Z.eqb_spec (currentPos tw) (slotNum tw - 1)) as [->|Hne].
    - replace (slotNum tw - 1 + 1) with (slotNum tw) by lia.
      by rewrite Z.mod_same by lia.
    - rewrite Z.mod_small; lia. }
  destruct (slots tw !! Z.to_nat (currentPos tw)) as [[l|]|]; try done.
  - pose proof (same_frame_scan_loop fuel (Z.to_nat (currentPos tw)) (Front l) tw) as Hf.
    destruct (scan_loop _ _ _ _) as [tw1|tw1|tw1]; try done.
    intros [= <-]. split; [by apply Hadv|]. destruct Hf as (_ & ? & ? & _). done.
  - intros [= <-]. split; [apply Hadv; apply same_frame_refl|]. done.
Qed.

(** A tick on a well-formed, tame wheel whose current slot holds no task
    twice runs to its end; twice the length of that slot is fuel enough. *)
Lemma tickHandler_ends (tw : TimeWheel) (l : list addr) :
  wf tw -> tame tw ->
  slots tw !! Z.to_nat (currentPos tw) = Some (Some l) -> NoDup l ->
  exists tw', tickHandler (2 * length l) tw = Done tw'.
Proof.
  intros Hwf Htame Hl Hnd. unfold tickHandler.
  pose proof (wf_pos _ Hwf) as Hc. pose proof (wf_length _ Hwf) as Hlen.
  destruct (Z.ltb_spec (currentPos tw) 0); [lia|].
  destruct (Z.leb_spec (Z.of_nat (length (slots tw))) (currentPos tw)); [lia|].
  cbn [orb]. unfold scanAddRunTask. rewrite Hl.
  destruct (scan_loop_ends (2 * length l) (Z.to_nat (currentPos tw)) (Front l) tw)
    as [tw1 ->]; [| |eauto].
  - split; [done..|]. exists l. split; [done|]. split; [done|].
    intros i. destruct l; [done|]. intros [= <-]. simpl. lia.
  - unfold scan_measure. destruct (Front l); [|lia]. rewrite Hl.
    etrans; [apply sum_weight_bound|]. rewrite length_drop. lia.
Qed.

(** ** A waiting task through a whole scan

    [a] is a task of slot [p] that had runs left and a positive circle when
    the scan began, and [t] what the task object held then.  Until the
    cursor reaches it the object is untouched; once the cursor has passed,
    the task is still in the list and the object holds one circle less. *)

Section waiting.

(** The task that is followed and what its object held when the scan
    began: runs left and a circle to wait. *)
Variables (a : addr) (t : task.t).
Hypothesis Ht : task.times t <> 0.
Hypothesis Hc : 0 < task.circle t.

Lemma waiting_inv_step (p i : nat) (tw tw' : TimeWheel) (item' : option nat) :
  scan_ok p tw (Some i) -> waiting_inv a t p tw (Some i) ->
  scan_step p i tw = StepNext tw' item' ->
  waiting_inv a t p tw' item'.
Proof.
  intros Hok (l & k & Hp & Hk & Hcase) Hstep.
  destruct (scan_ok_item p i tw Hok) as (l0 & b & tb & Hp0 & Hi & Hb).
  assert (l0 = l) as -> by congruence. clear Hp0.
  assert (NoDup l) as Hnd.
  { destruct Hok as [_ _ _ (l1 & Hp1 & Hnd & _)]. congruence. }
  destruct (scan_step_progress p i tw l b tb Hok Hp Hi Hb)
    as (tw2 & item2 & Heq & _ & _ & Hoff & Hsum).
  rewrite Heq in Hstep. injection Hstep as -> ->.
  pose proof (lookup_lt_Some _ _ _ Hk) as Hklt.
  pose proof (lookup_lt_Some _ _ _ Hi) as Hilt.
  unfold waiting_inv.
  destruct (decide (i = k)) as [->|Hik].
  - (* the cursor is on the task *)
    assert (b = a) as -> by congruence.
    destruct Hcase as [(i' & [= <-] & _ & Ha)|[Hlt _]];
      [|specialize (Hlt k eq_refl); lia].
    assert (tb = t) as -> by congruence.
    destruct Hsum as [(_ & _ & Hp' & -> & Ha' & _)|([H0|H0] & _)]; [|done|lia].
    exists l, k. split; [done|]. split; [done|]. right. split; [|done].
    unfold next_in_place. intros i'.
    destruct (decide (S k < length l)%nat); [|done]. intros [= <-]. lia.
  - assert (b <> a) as Hne.
    { intros ->. apply Hik. by eapply NoDup_lookup. }
    assert (heap tw' !! a = heap tw !! a) as Hsame by (apply Hoff; congruence).
    destruct Hsum as [(_ & _ & Hp' & -> & _)|(_ & -> & Hp')].
    + (* the task under the cursor waits too: the list is as it was *)
      exists l, k. split; [done|]. split; [done|]. rewrite Hsame.
      unfold next_in_place.
      destruct Hcase as [(i' & [= <-] & Hle & Ha)|[Hlt Ha]].
      * left. exists (S i). destruct (decide (S i < length l)%nat); [|lia].
        split; [done|]. split; [lia|done].
      * right. split; [|done]. specialize (Hlt i eq_refl). intros i'.
        destruct (decide (S i < length l)%nat); [|done]. intros [= <-]. lia.
    + (* the task under the cursor left its place *)
      unfold next_after_remove.
      destruct Hcase as [(i' & [= <-] & Hle & Ha)|[Hlt Ha]].
      * assert (delete i l !! (k - 1)%nat = Some a) as Hk'.
        { rewrite list_lookup_delete_ge by lia.
          by replace (S (k - 1)) with k by lia. }
        destruct (decide (S i < length l)%nat); [|lia].
        destruct Hp' as [Hp'|Hp'].
        -- exists (delete i l), (k - 1)%nat. split; [done|]. split; [done|].
           left. exists i. rewrite Hsame. split; [done|]. split; [lia|done].
        -- exists (delete i l ++ [b]), (k - 1)%nat. split; [done|].
           split; [by apply lookup_app_l_Some|].
           left. exists i. rewrite Hsame. split; [done|]. split; [lia|done].
      * specialize (Hlt i eq_refl).
        assert (delete i l !! k = Some a) as Hk'
          by (by rewrite list_lookup_delete_lt by lia).
        assert (forall i', (if decide (S i < length l)%nat then Some i else None) = Some i' ->
                           (k < i')%nat) as Hnext.
        { intros i'. destruct (decide (S i < length l)%nat); [|done].
          intros [= <-]. lia. }
        destruct Hp' as [Hp'|Hp'].
        -- exists (delete i l), k. split; [done|]. split; [done|].
           right. by rewrite Hsame.
        -- exists (delete i l ++ [b]), k. split; [done|].
           split; [by apply lookup_app_l_Some|]. right. by rewrite Hsame.
Qed.

Lemma waiting_inv_loop (fuel p : nat) (item : option nat) (tw tw' : TimeWheel) :
  scan_ok p tw item -> waiting_inv a t p tw item ->
  scan_loop fuel p item tw = Done tw' ->
  waiting_inv a t p tw' None.
Proof.
  revert item tw.
  induction fuel as [|fuel IH]; intros [i|] tw Hok Hinv; simpl;
    try done; try (by intros [= <-]).
  destruct (scan_ok_item p i tw Hok) as (l & b & tb & Hp & Hi & Hb).
  destruct (scan_step_progress p i tw l b tb Hok Hp Hi Hb)
    as (tw1 & item1 & Heq & Hok1 & _ & _).
  rewrite Heq. apply IH; [done|]. by eapply waiting_inv_step.
Qed.

(** After a tick that ran to its end, a task of the scanned slot that had
    runs left and a positive circle is still in that slot, with one circle
    less and nothing else about it changed. *)
Lemma tickHandler_waiting (fuel : nat) (tw tw' : TimeWheel) (l : list addr) :
  wf tw -> tame tw ->
  slots tw !! Z.to_nat (currentPos tw) = Some (Some l) -> NoDup l ->
  a ∈ l -> heap tw !! a = Some t ->
  tickHandler fuel tw = Done tw' ->
  heap tw' !! a = Some (task.set_circle t (task.circle t - 1)) /\
  exists l', slots tw' !! Z.to_nat (currentPos tw) = Some (Some l') /\ a ∈ l'.
Proof.
  intros Hwf Htame Hl Hnd Hin Ha. unfold tickHandler.
  destruct (_ || _); [done|]. unfold scanAddRunTask. rewrite Hl.
  destruct (scan_loop _ _ _ _) as [tw1|tw1|tw1] eqn:Hloop; try done.
  intros [= <-]. simpl.
  apply list_elem_of_lookup_1 in Hin as [k Hk].
  eapply waiting_inv_loop in Hloop; try done.
  - destruct Hloop as (l' & k' & Hl' & Hk' & [(i & ? & _)|[_ Ha']]); [done|].
    split; [done|]. exists l'. split; [done|]. by eapply list_elem_of_lookup_2.
  - split; [done..|]. exists l. split; [done|]. split; [done|].
    intros i. destruct l; [done|]. intros [= <-]. simpl. lia.
  - exists l, k. split; [done|]. split; [done|]. left.
    destruct l as [|x l]; [done|]. exists 0%nat. split; [done|]. split; [lia|done].
Qed.

End waiting.

(** On a well-formed wheel a tick is the scan of the slot under the cursor,
    from the front of its list, followed by the move of the cursor. *)
Lemma tickHandler_unfold (fuel : nat) (tw : TimeWheel) (l : list addr) :
  wf tw -> slots tw !! Z.to_nat (currentPos tw) = Some (Some l) ->
  tickHandler fuel tw
  = match scan_loop fuel (Z.to_nat (currentPos tw)) (Front l) tw with
    | Done tw1 => Done (with_currentPos tw1 ((currentPos tw + 1) mod slotNum tw))
    | o => o
    end.
Proof.
  intros Hwf Hl.
  pose proof (tickHandler_cursor fuel tw) as Hcur.
  unfold tickHandler in *.
  pose proof (wf_pos _ Hwf) as Hc. pose proof (wf_length _ Hwf) as Hlen.
  destruct (Z.ltb_spec (currentPos tw) 0); [lia|].
  destruct (Z.leb_spec (Z.of_nat (length (slots tw))) (currentPos tw)); [lia|].
  cbn [orb] in *. unfold scanAddRunTask in *. rewrite Hl in *.
  destruct (scan_loop _ _ _ _) as [tw1|tw1|tw1]; try done.
  destruct (Hcur _ Hwf eq_refl) as [H1 _]. simpl in H1. by rewrite H1.
Qed.

(** C3: a tick scans the slot under the cursor from the front of its list,
    one task after the other, and then moves the cursor.  A task with no
    runs left is unlinked from the list and its key deleted from the task
    index, with nothing dispatched and no task object written, and the scan
    goes on with its successor.  A task with runs left and a positive circle
    loses one circle and stays where it is, and the scan goes on with its
    successor.  When the tick returns the cursor is one further, modulo the
    slot count; the tombstones that were in the slot are gone and were not
    dispatched; and (no task being twice in the slot, and re-admissions
    landing later) every waiting task of the slot is still there with
    exactly one circle less.  Under the same conditions the tick does
    return. *)
Theorem tickHandler_spec (tw : TimeWheel) (l : list addr) :
  wf tw -> slots tw !! Z.to_nat (currentPos tw) = Some (Some l) ->
  let p := Z.to_nat (currentPos tw) in
  (forall fuel,
     tickHandler fuel tw
     = match scan_loop fuel p (Front l) tw with
       | Done tw1 => Done (with_currentPos tw1 ((currentPos tw + 1) mod slotNum tw))
       | o => o
       end) /\
  (forall tw1 i l1 a t,
     slots tw1 !! p = Some (Some l1) -> l1 !! i = Some a -> heap tw1 !! a = Some t ->
     task.times t = 0 ->
     scan_step p i tw1
     = StepNext (mkTW (interval tw1) (ticker tw1) (<[p := Some (delete i l1)]> (slots tw1))
                      (currentPos tw1) (slotNum tw1)
                      (delete (task.key t) (taskRecord tw1)) (heap tw1) (fired tw1))
                (next_after_remove l1 i)) /\
  (forall tw1 i l1 a t,
     slots tw1 !! p = Some (Some l1) -> l1 !! i = Some a -> heap tw1 !! a = Some t ->
     task.times t <> 0 -> 0 < task.circle t ->
     scan_step p i tw1
     = StepNext (mkTW (interval tw1) (ticker tw1) (slots tw1) (currentPos tw1) (slotNum tw1)
                      (taskRecord tw1)
                      (<[a := task.set_circle t (task.circle t - 1)]> (heap tw1))
                      (fired tw1))
                (next_in_place l1 i)) /\
  (forall fuel tw',
     tickHandler fuel tw = Done tw' ->
     currentPos tw' = (currentPos tw + 1) mod slotNum tw /\
     (forall a t l',
        a ∈ l -> heap tw !! a = Some t -> task.times t = 0 ->
        slots tw' !! p = Some (Some l') ->
        (a ∉ l') /\ dispatched a tw' = dispatched a tw) /\
     (tame tw -> NoDup l ->
      forall a t,
        a ∈ l -> heap tw !! a = Some t -> task.times t <> 0 -> 0 < task.circle t ->
        heap tw' !! a = Some (task.set_circle t (task.circle t - 1)) /\
        exists l', slots tw' !! p = Some (Some l') /\ a ∈ l')) /\
  (tame tw -> NoDup l -> exists tw', tickHandler (2 * length l) tw = Done tw').
Proof.
  intros Hwf Hl p.
  split; [intros fuel; by apply tickHandler_unfold|].
  split; [intros; by eapply scan_step_dead|].
  split; [intros; by eapply scan_step_wait|].
  split; [|intros; by apply tickHandler_ends].
  intros fuel tw' Htick.
  split; [by eapply tickHandler_cursor|]. split.
  - intros a t l' Hin Ha Ht Hl'.
    assert (tombstone a tw) as Htomb by (by exists t).
    split; [by eapply tickHandler_purges|].
    pose proof (silent_tickHandler a fuel tw Htomb) as [_ Hs].
    by rewrite Htick in Hs.
  - intros Htame Hnd a t Hin Ha Ht Hc. by eapply tickHandler_waiting.
Qed.

(** * The properties on concrete wheels *)

Lemma wheel_1s_New : New Second 4 = Some wheel_1s.
Proof. reflexivity. Qed.

Lemma wheel_1s_wf : wf wheel_1s.
Proof. apply (wf_New Second 4); [unfold max_int; lia|apply wheel_1s_New]. Qed.

Lemma wheel_sent_wf : wf wheel_sent.
Proof. apply wf_AddTask, wheel_1s_wf. Qed.

Lemma wheel_busy_wf : wf wheel_busy.
Proof. apply wf_run, wheel_1s_wf. Qed.

Lemma wheel_busy_slot :
  slots wheel_busy !! Z.to_nat (currentPos wheel_busy) = Some (Some [0; 1]%nat).
Proof. reflexivity. Qed.

Lemma wheel_busy_tame : tame wheel_busy.
Proof.
  intros a t Ha. apply readmits_later_one_tick; [apply wheel_busy_wf| |].
  - destruct a as [|[|a]]; vm_compute in Ha; try done;
      injection Ha as <-; vm_compute; split; discriminate.
  - destruct a as [|[|a]]; vm_compute in Ha; try done;
      injection Ha as <-; vm_compute; discriminate.
Qed.

(** C1 as stated fails: on a wheel with a tick interval of 1.5 s and 10
    slots, an accepted task with a delay of 3 s has [floor(3 s / 1.5 s) = 2],
    so the claimed slot is [(0 + 2) mod 10 = 2]; the add path puts it into
    slot 3 and leaves slot 2 empty. *)
Lemma addTask_position_counterexample :
  New 1500000000 10 = Some wheel_1500ms /\
  AddTask wheel_1500ms (3 * Second) 1 (Some "k"%string) ∅ (Some 7%nat)
    = (wheel_1500ms_sent, Some 0%nat, None) /\
  (currentPos wheel_1500ms_sent + (3 * Second) / interval wheel_1500ms_sent)
    mod slotNum wheel_1500ms_sent = 2 /\
  exists tw',
    addTask wheel_1500ms_sent 0 = Done tw' /\
    slots tw' !! 2%nat = Some (Some []) /\
    slots tw' !! 3%nat = Some (Some [0%nat]).
Proof.
  split; [reflexivity|]. split; [reflexivity|]. split; [reflexivity|].
  eexists. split; [reflexivity|]. split; reflexivity.
Qed.

Lemma addTask_position_witness :
  wf wheel_sent /\
  1 <= int_seconds (interval wheel_sent) /\
  exists l tw',
    slots wheel_sent !! 2%nat = Some (Some l) /\
    addTask wheel_sent 0 = Done tw' /\
    heap tw' !! 0%nat
    = Some (task.mk (6 * Second) 2 1 (Some "a"%string) (Some 7%nat) ∅) /\
    slots tw' !! 2%nat = Some (Some (l ++ [0%nat])).
Proof.
  split; [apply wheel_sent_wf|]. split; [vm_compute; discriminate|].
  destruct (addTask_position wheel_sent 0
              (task.mk (6 * Second) 2 0 (Some "a"%string) (Some 7%nat) ∅))
    as (l & tw' & H1 & H2 & H3 & _ & H5 & _).
  - apply wheel_sent_wf.
  - reflexivity.
  - discriminate.
  - vm_compute; discriminate.
  - vm_compute; discriminate.
  - vm_compute; discriminate.
  - exists l, tw'. done.
Defined.

(** C2: the wheel [New(500 * time.Millisecond, 10)] is constructed, the
    task [AddTask(time.Second, 1, "k", data, job)] is accepted, and the add
    path of the control loop panics on it: the tick interval is 0 whole
    seconds and [getPositionAndCircle] divides by it. *)
Theorem sub_second_interval_panics :
  New 500000000 10 = Some wheel_500ms /\
  AddTask wheel_500ms Second 1 (Some "k"%string) ∅ (Some 7%nat)
    = (wheel_500ms_sent, Some 0%nat, None) /\
  int_seconds (interval wheel_500ms_sent) = 0 /\
  getPositionAndCircle wheel_500ms_sent Second = None /\
  addTask wheel_500ms_sent 0 = Panic wheel_500ms_sent.
Proof. repeat split. Qed.

(** C8 as stated fails for the nil key: it is not in the task index, and
    [UpdateTask] returns the illegal-key error, not the not-exists error. *)
Lemma UpdateTask_nil_key_counterexample :
  taskRecord wheel_1s !! (None : option string) = None /\
  UpdateTask wheel_1s None Second ∅ = (wheel_1s, Some ErrIllegalKey) /\
  UpdateTask wheel_1s None Second ∅ <> (wheel_1s, Some ErrNotExists).
Proof. split; [reflexivity|]. split; [reflexivity|]. discriminate. Qed.

Lemma wheel_pending_wf : wf wheel_pending.
Proof. apply wf_run, wheel_1s_wf. Qed.

Lemma wheel_pending_index : taskRecord wheel_pending !! Some "a"%string = Some 0%nat.
Proof. reflexivity. Qed.

Lemma AddTask_spec_witness :
  illegal_params 0 1 (Some "k"%string) (Some 7%nat) /\
  (AddTask wheel_pending 0 1 (Some "k"%string) ∅ (Some 7%nat)).1 = (wheel_pending, None) /\
  (AddTask wheel_pending Second 1 (Some "a"%string) ∅ (Some 7%nat)).2
    = Some ErrDuplicateKey.
Proof.
  split; [left; lia|]. split.
  - apply (AddTask_spec wheel_pending 0 1 (Some "k"%string) ∅ (Some 7%nat)).
    by eexists.
  - apply (AddTask_spec wheel_pending Second 1 (Some "a"%string) ∅ (Some 7%nat)).
    split; [|by eexists].
    unfold illegal_params. intros [?|[?|[?|[?|?]]]]; done.
Defined.

Lemma UpdateTask_frame_witness :
  wf wheel_pending /\
  exists tw',
    UpdateTask wheel_pending (Some "a"%string) (2 * Second) ∅ = (tw', None) /\
    heap tw' !! 0%nat
    = Some (task.mk (2 * Second) 2 1 (Some "a"%string) (Some 7%nat) ∅) /\
    slots tw' = slots wheel_pending /\ taskRecord tw' = taskRecord wheel_pending.
Proof.
  split; [apply wheel_pending_wf|].
  pose proof (UpdateTask_frame wheel_pending "a" (2 * Second) ∅) as H.
  rewrite wheel_pending_index in H.
  destruct (H wheel_pending_wf) as (t & tw' & Ht & H1 & H2 & _ & _ & H3 & H4 & _).
  injection Ht as <-. exists tw'. done.
Defined.

Lemma RemoveTask_spec_witness :
  wf wheel_pending /\
  exists tw',
    RemoveTask wheel_pending (Some "a"%string) = (tw', None) /\
    heap tw' !! 0%nat
    = Some (task.mk (4 * Second) 0 1 (Some "a"%string) (Some 7%nat) ∅) /\
    taskRecord tw' !! Some "a"%string = None /\
    slots tw' = slots wheel_pending.
Proof.
  split; [apply wheel_pending_wf|].
  pose proof (RemoveTask_spec wheel_pending (Some "a"%string)) as H.
  cbv beta iota in H. rewrite wheel_pending_index in H.
  destruct (H wheel_pending_wf) as (t & tw' & Ht & H1 & H2 & _ & _ & H3 & H4 & _).
  injection Ht as <-. exists tw'. done.
Defined.

Lemma RemoveTask_never_fires_witness :
  wf wheel_pending /\
  taskRecord wheel_pending !! Some "a"%string = Some 0%nat /\
  dispatched 0
    (state_of (run [OpTick 9; OpTick 9; OpTick 9; OpTick 9; OpTick 9; OpTick 9]
                   (RemoveTask wheel_pending (Some "a"%string)).1))
  = dispatched 0 wheel_pending.
Proof.
  split; [apply wheel_pending_wf|]. split; [reflexivity|].
  apply (RemoveTask_never_fires wheel_pending "a" 0 wheel_pending_wf wheel_pending_index).
Defined.

Lemma tickHandler_spec_witness :
  wf wheel_busy /\
  slots wheel_busy !! Z.to_nat (currentPos wheel_busy) = Some (Some [0; 1]%nat) /\
  exists tw',
    tickHandler 4 wheel_busy = Done tw' /\
    currentPos tw' = 1 /\
    heap tw' !! 0%nat
    = Some (task.mk (4 * Second) 2 0 (Some "a"%string) (Some 7%nat) ∅) /\
    (forall l', slots tw' !! 0%nat = Some (Some l') -> 1%nat ∉ l').
Proof.
  split; [apply wheel_busy_wf|]. split; [apply wheel_busy_slot|].
  destruct (tickHandler_spec wheel_busy [0; 1]%nat wheel_busy_wf wheel_busy_slot)
    as (_ & _ & _ & Hdone & Hends).
  assert (NoDup [0; 1]%nat) as Hnd by (apply NoDup_ListNoDup; repeat constructor; simpl; lia).
  destruct (Hends wheel_busy_tame Hnd) as [tw' Htick].
  destruct (Hdone _ _ Htick) as (Hcur & Hdead & Hwait).
  exists tw'. split; [exact Htick|]. split; [exact Hcur|]. split.
  - apply (Hwait wheel_busy_tame Hnd 0%nat
             (task.mk (4 * Second) 2 1 (Some "a"%string) (Some 7%nat) ∅)
             (list_elem_of_here _ _) eq_refl ltac:(discriminate) eq_refl).
  - intros l' Hl'.
    apply (Hdead 1%nat (task.mk (8 * Second) 0 2 (Some "b"%string) (Some 8%nat) ∅) l'
             (list_elem_of_further _ _ _ (list_elem_of_here _ _)) eq_refl eq_refl Hl').
Defined.

(** ** Ticks that do not return

    Two wheels reached through the public operations on which the
    conditions of [tickHandler_ends] fail, and the tick with them. *)

Lemma wheel_spin_reached :
  run [OpAddTask Second (-1) (Some "a"%string) ∅ (Some 7%nat); OpRecv 0;
       OpAddTask Second (-1) (Some "b"%string) ∅ (Some 8%nat); OpRecv 1]
      (mkTW (2 * Second) None (replicate 4 (Some [])) 0 4 ∅ [] [])
  = Done (wheel_spin true []).
Proof. vm_compute. reflexivity. Qed.

Lemma wheel_spin_step (order : bool) (f : list dispatch) :
  scan_step 0 0 (wheel_spin order f)
  = StepNext (wheel_spin (negb order)
                (f ++ [if order then (0%nat, 7%nat, ∅) else (1%nat, 8%nat, ∅)]))
             (Some 0%nat).
Proof. destruct order; vm_compute; reflexivity. Qed.

(** Whatever the fuel, the scan of slot 0 is still running when it is used
    up: the tick never returns and the cursor never moves. *)
Lemma tick_can_spin (fuel : nat) :
  exists tw', tickHandler fuel (wheel_spin true []) = OutOfFuel tw'.
Proof.
  assert (forall order f,
            exists tw', scan_loop fuel 0 (Some 0%nat) (wheel_spin order f) = OutOfFuel tw')
    as Hloop.
  { induction fuel as [|fuel IH]; intros order f; simpl; [eauto|].
    rewrite wheel_spin_step. apply IH. }
  destruct (Hloop true []) as [tw' Htw'].
  exists tw'. unfold tickHandler, scanAddRunTask.
  change (currentPos (wheel_spin true [])) with 0.
  change (slots (wheel_spin true []) !! Z.to_nat 0) with (Some (Some [0; 1]%nat)).
  change (Z.to_nat 0) with 0%nat. cbv beta iota.
  change (Front [0; 1]%nat) with (Some 0%nat).
  rewrite Htw'. reflexivity.
Qed.

(** A task whose interval [UpdateTask] made negative: when it is due, the
    re-admission computes slot [(1 - 2) % 4 = -1] and the store into
    [tw.slots[pos]] panics. *)
Lemma tick_can_panic_after_update :
  exists tw',
    run [OpAddTask Second 2 (Some "a"%string) ∅ (Some 7%nat); OpRecv 0;
         OpUpdateTask (Some "a"%string) (-2 * Second) ∅;
         OpTick 4; OpTick 4] wheel_1s
    = Panic tw'.
Proof. eexists. vm_compute. reflexivity. Qed.

(** * The wheel at work: properties *)

Section histories.

Variable a : addr.

Lemma history_refl (tw : TimeWheel) (t : task.t) :
  heap tw !! a = Some t -> history a tw tw.
Proof.
  intros Ha. exists t, t, []. rewrite app_nil_r. history_nil.
Qed.

Lemma history_trans (tw1 tw2 tw3 : TimeWheel) :
  history a tw1 tw2 -> history a tw2 tw3 -> history a tw1 tw3.
Proof.
  intros (t1 & t2 & ds & H1 & H2 & Hk & Hj & Hf & Hd & Hm & Hn)
         (t2' & t3 & ds' & H2' & H3 & Hk' & Hj' & Hf' & Hd' & Hm' & Hn').
  assert (t2' = t2) as -> by congruence.
  exists t1, t3, (ds ++ ds').
  split; [done|]. split; [done|]. split; [congruence|]. split; [congruence|].
  split; [by rewrite Hf', Hf, app_assoc|]. split; [|split].
  - intros d [Hin|Hin]%elem_of_app Hda; [by apply Hd|].
    rewrite <- Hj. by apply Hd'.
  - lia.
  - intros H0. destruct (Hn H0) as [H0' Hc]. destruct (Hn' H0') as [H0'' Hc'].
    lia.
Qed.

(** A store through the pointer [b] that keeps key and job and does not
    add runs. *)
Lemma history_store (b : addr) (t0 t' : task.t) (tw tw' : TimeWheel) (t : task.t) :
  heap tw !! b = Some t0 ->
  heap tw' = <[b := t']> (heap tw) -> fired tw' = fired tw ->
  task.key t' = task.key t0 -> task.job t' = task.job t0 ->
  (task.times t' = task.times t0 \/ 0 <= task.times t' <= task.times t0 \/
   (task.times t' = 0 /\ -1 <= task.times t0)) ->
  heap tw !! a = Some t -> history a tw tw'.
Proof.
  intros Hb Hh Hf Hk Hj Ht Ha.
  destruct (decide (a = b)) as [->|Hne].
  - assert (t0 = t) as -> by congruence.
    exists t, t', []. rewrite Hh, app_nil_r.
    rewrite list_lookup_insert_eq by (by eapply lookup_lt_Some).
    history_nil.
  - exists t, t, []. rewrite Hh, app_nil_r.
    rewrite list_lookup_insert_ne by done.
    history_nil.
Qed.

Lemma history_same_heap (tw tw' : TimeWheel) (t : task.t) :
  heap tw' = heap tw -> fired tw' = fired tw ->
  heap tw !! a = Some t -> history a tw tw'.
Proof.
  intros Hh Hf Ha. exists t, t, []. rewrite Hh, app_nil_r.
  history_nil.
Qed.

Lemma dispatched_self (j : Job) (data : TaskData) (tw tw' : TimeWheel) :
  fired tw' = fired tw ++ [(a, j, data)] ->
  dispatched a tw' = dispatched a tw ++ [(a, j, data)].
Proof.
  intros Hf. unfold dispatched. rewrite Hf, filter_app.
  by rewrite (filter_cons_True _ (a, j, data)), filter_nil.
Qed.

(** A dispatch of [b], with the store that pays for it. *)
Lemma history_fire (b : addr) (t0 t' : task.t) (j : Job) (data : TaskData)
    (tw tw' : TimeWheel) (t : task.t) :
  heap tw !! b = Some t0 -> task.job t0 = Some j -> task.times t0 <> 0 ->
  heap tw' = <[b := t']> (heap tw) ->
  fired tw' = fired tw ++ [(b, j, data)] ->
  task.key t' = task.key t0 -> task.job t' = task.job t0 ->
  task.times t' = (if 0 <? task.times t0 then task.times t0 - 1 else task.times t0) ->
  heap tw !! a = Some t -> history a tw tw'.
Proof.
  intros Hb Hj0 Hn0 Hh Hf Hk Hj Ht Ha.
  destruct (decide (a = b)) as [Heq|Hne]; [subst b|].
  - assert (t0 = t) as -> by congruence.
    exists t, t', [(a, j, data)]. rewrite Hh.
    rewrite list_lookup_insert_eq by (by eapply lookup_lt_Some).
    repeat split; try done.
    + intros d ->%list_elem_of_singleton _. done.
    + rewrite Ht; destruct (Z.ltb_spec 0 (task.times t)); lia.
    + rewrite Ht; destruct (Z.ltb_spec 0 (task.times t)); lia.
    + rewrite (dispatched_self j data tw tw' Hf), length_app, Nat2Z.inj_add.
      cbn [length]. rewrite Ht; destruct (Z.ltb_spec 0 (task.times t)); lia.
  - exists t, t, [(b, j, data)]. rewrite Hh.
    rewrite list_lookup_insert_ne by done.
    repeat split; try done.
    + intros d ->%list_elem_of_singleton Hd. simpl in Hd. congruence.
    + rewrite (dispatched_other a b j data tw tw' Hne Hf). lia.
Qed.

Lemma history_addTask (b : addr) (tw : TimeWheel) (t : task.t) :
  heap tw !! a = Some t -> history a tw (state_of (addTask tw b)).
Proof.
  intros Ha. unfold addTask.
  destruct (heap tw !! b) as [t0|] eqn:Hb; [|by eapply history_refl].
  destruct (Z.eqb_spec (task.times t0) 0); [by eapply history_refl|].
  destruct (getPositionAndCircle tw (task.interval t0)) as [[pos c]|];
    [|by eapply history_refl].
  assert (forall tw', heap tw' = <[b := task.set_circle t0 c]> (heap tw) ->
                      fired tw' = fired tw -> history a tw tw') as Hs.
  { intros tw' Hh Hf. eapply (history_store b t0); eauto. }
  destruct (pos <? 0); [by apply Hs|]. simpl.
  destruct (slots tw !! Z.to_nat pos) as [[l|]|]; by apply Hs.
Qed.

Lemma history_scan_step (p i : nat) (tw : TimeWheel) (t : task.t) :
  heap tw !! a = Some t -> history a tw (step_state (scan_step p i tw)).
Proof.
  intros Ha. unfold scan_step.
  destruct (slots tw !! p) as [[l|]|]; try by eapply history_refl.
  destruct (l !! i) as [b|]; [|by eapply history_refl].
  destruct (heap tw !! b) as [t0|] eqn:Hb; [|by eapply history_refl].
  destruct (Z.eqb_spec (task.times t0) 0) as [H0|H0].
  { by eapply history_same_heap. }
  destruct (0 <? task.circle t0).
  { eapply (history_store b t0); eauto. }
  destruct (task.job t0) as [j|] eqn:Hj; [|by eapply history_refl].
  destruct (Z.eqb_spec (task.times t0) 1) as [H1|H1].
  { simpl. eapply (history_fire b t0 (task.set_times t0 0)); eauto.
    simpl. rewrite H1. reflexivity. }
  set (tw1 := set_slot (with_fired tw (fired tw ++ [(b, j, task.taskData t0)])) p (delete i l)).
  set (tw2 := if 0 <? task.times t0 then _ else _).
  assert (history a tw tw2) as H2.
  { subst tw2. destruct (Z.ltb_spec 0 (task.times t0)) as [Hp|Hp].
    - eapply (history_fire b t0 (task.set_times t0 (task.times t0 - 1))); eauto.
      simpl. destruct (Z.ltb_spec 0 (task.times t0)); [done|lia].
    - eapply (history_fire b t0 t0); eauto.
      + simpl. by rewrite list_insert_id.
      + destruct (Z.ltb_spec 0 (task.times t0)); [lia|done]. }
  destruct H2 as (x & x2 & ds & Hx & Hx2 & Hrest).
  assert (history a tw tw2) as H2 by (exists x, x2, ds; done).
  pose proof (history_addTask b tw2 x2 Hx2) as H3.
  destruct (addTask tw2 b); simpl in *; by eapply history_trans.
Qed.

Lemma history_scan_loop (fuel p : nat) (item : option nat) (tw : TimeWheel)
    (t : task.t) :
  heap tw !! a = Some t -> history a tw (state_of (scan_loop fuel p item tw)).
Proof.
  revert item tw t. induction fuel as [|fuel IH]; intros [i|] tw t Ha; simpl;
    try by eapply history_refl.
  pose proof (history_scan_step p i tw t Ha) as Hs.
  destruct (scan_step p i tw) as [tw' item'|tw']; simpl in *; [|done].
  eapply history_trans; [exact Hs|].
  destruct Hs as (x & x' & ds & _ & Hx' & _). by eapply IH.
Qed.

Lemma history_tickHandler (fuel : nat) (tw : TimeWheel) (t : task.t) :
  heap tw !! a = Some t -> history a tw (state_of (tickHandler fuel tw)).
Proof.
  intros Ha. unfold tickHandler.
  destruct (_ || _); [by eapply history_refl|].
  unfold scanAddRunTask.
  destruct (slots tw !! Z.to_nat (currentPos tw)) as [[l|]|]; simpl.
  - pose proof (history_scan_loop fuel (Z.to_nat (currentPos tw)) (Front l) tw t Ha) as H1.
    destruct (scan_loop _ _ _ _); exact H1.
  - exact (history_refl tw t Ha).
  - by eapply history_refl.
Qed.

Lemma history_run_op (tw : TimeWheel) (o : op) (t : task.t) :
  heap tw !! a = Some t -> history a tw (state_of (run_op tw o)).
Proof.
  intros Ha. destruct o as [fuel|b|d n k data j|k|k d data]; simpl.
  - by eapply history_tickHandler.
  - by eapply history_addTask.
  - unfold AddTask. destruct (_ || _); [by eapply history_refl|].
    destruct (taskRecord tw !! k); [by eapply history_refl|]. simpl.
    exists t, t, []. simpl. rewrite app_nil_r.
    history_nil. by apply lookup_app_l_Some.
  - unfold RemoveTask. destruct k as [k|]; [|by eapply history_refl].
    destruct (taskRecord tw !! Some k) as [b|]; [|by eapply history_refl].
    destruct (heap tw !! b) as [t0|] eqn:Hb; [|by eapply history_refl]. simpl.
    destruct (Z.le_gt_cases 0 (task.times t0)).
    + eapply (history_store b t0 (task.set_times t0 0)); eauto; simpl; lia.
    + destruct (Z.le_gt_cases (-1) (task.times t0)).
      * eapply (history_store b t0 (task.set_times t0 0)); eauto; simpl; lia.
      * (* a run count below -1 *)
        destruct (decide (a = b)) as [->|Hne].
        -- assert (t0 = t) as -> by congruence.
           exists t, (task.set_times t 0), []. simpl. rewrite app_nil_r.
           rewrite list_lookup_insert_eq by (by eapply lookup_lt_Some).
           history_nil.
        -- exists t, t, []. simpl. rewrite app_nil_r.
           rewrite list_lookup_insert_ne by done.
           history_nil.
  - unfold UpdateTask. destruct k as [k|]; [|by eapply history_refl].
    destruct (taskRecord tw !! Some k) as [b|]; [|by eapply history_refl].
    destruct (heap tw !! b) as [t0|] eqn:Hb; [|by eapply history_refl]. simpl.
    eapply (history_store b t0 (task.set_update t0 d data)); eauto.
Qed.

Lemma history_run (ops : list op) (tw : TimeWheel) (t : task.t) :
  heap tw !! a = Some t -> history a tw (state_of (run ops tw)).
Proof.
  revert tw t. induction ops as [|o ops IH]; intros tw t Ha; simpl;
    [by eapply history_refl|].
  pose proof (history_run_op tw o t Ha) as H1.
  destruct (run_op tw o) as [tw'|tw'|tw'] eqn:Ho; simpl in *; try done.
  eapply history_trans; [exact H1|].
  destruct H1 as (x & x' & ds & _ & Hx' & _). by eapply IH.
Qed.

End histories.

(** ** The store of task objects only grows in [AddTask] *)

Lemma heap_length_addTask (tw : TimeWheel) (b : addr) :
  length (heap (state_of (addTask tw b))) = length (heap tw).
Proof.
  unfold addTask.
  destruct (heap tw !! b) as [t0|]; [|done].
  destruct (task.times t0 =? 0); [done|].
  destruct (getPositionAndCircle tw (task.interval t0)) as [[pos c]|]; [|done].
  destruct (pos <? 0); simpl; [by rewrite length_insert|].
  destruct (slots tw !! Z.to_nat pos) as [[l|]|]; simpl; by rewrite length_insert.
Qed.

Lemma heap_length_scan_step (p i : nat) (tw : TimeWheel) :
  length (heap (step_state (scan_step p i tw))) = length (heap tw).
Proof.
  unfold scan_step.
  destruct (slots tw !! p) as [[l|]|]; try done.
  destruct (l !! i) as [b|]; [|done].
  destruct (heap tw !! b) as [t0|]; [|done].
  destruct (task.times t0 =? 0); [done|].
  destruct (0 <? task.circle t0); [simpl; by rewrite length_insert|].
  destruct (task.job t0) as [j|]; [|done].
  destruct (task.times t0 =? 1); [simpl; by rewrite length_insert|].
  set (tw2 := if 0 <? task.times t0 then _ else _).
  assert (length (heap tw2) = length (heap tw)) as H2.
  { subst tw2. destruct (0 <? task.times t0); simpl; [by rewrite length_insert|done]. }
  pose proof (heap_length_addTask tw2 b) as H3.
  destruct (addTask tw2 b); simpl in *; congruence.
Qed.

Lemma heap_length_scan_loop (fuel p : nat) (item : option nat) (tw : TimeWheel) :
  length (heap (state_of (scan_loop fuel p item tw))) = length (heap tw).
Proof.
  revert item tw. induction fuel as [|fuel IH]; intros [i|] tw; simpl; try done.
  pose proof (heap_length_scan_step p i tw) as Hs.
  destruct (scan_step p i tw) as [tw' item'|tw']; simpl in *; [|done].
  by rewrite IH.
Qed.

Lemma heap_length_tickHandler (fuel : nat) (tw : TimeWheel) :
  length (heap (state_of (tickHandler fuel tw))) = length (heap tw).
Proof.
  unfold tickHandler. destruct (_ || _); [done|].
  unfold scanAddRunTask.
  destruct (slots tw !! Z.to_nat (currentPos tw)) as [[l|]|]; simpl; try done.
  pose proof (heap_length_scan_loop fuel (Z.to_nat (currentPos tw)) (Front l) tw) as H1.
  destruct (scan_loop _ _ _ _); exact H1.
Qed.

Lemma valid_task_run_op (tw : TimeWheel) (o : op) :
  Forall valid_task (heap tw) -> Forall valid_task (heap (state_of (run_op tw o))).
Proof.
  intros Hv.
  assert (length (heap (state_of (run_op tw o))) = length (heap tw) ->
          Forall valid_task (heap (state_of (run_op tw o)))) as Hsame.
  { intros Hlen. rewrite Forall_lookup in *. intros a t' Ha'.
    destruct (heap tw !! a) as [t|] eqn:Ha.
    - destruct (history_run_op a tw o t Ha)
        as (x & x' & ds & Hx & Hx' & Hk & Hj & _ & _ & Hm & _).
      assert (x = t) as -> by congruence. assert (x' = t') as -> by congruence.
      destruct (Hv a t Ha) as (V1 & V2 & V3).
      split; [congruence|]. split; [by rewrite Hj|]. by apply Hm.
    - apply lookup_ge_None in Ha. apply lookup_lt_Some in Ha'. lia. }
  destruct o as [fuel|b|d n k data j|k|k d data].
  - apply Hsame, heap_length_tickHandler.
  - apply Hsame, heap_length_addTask.
  - simpl. unfold AddTask. destruct (_ || _) eqn:Hchk; [done|].
    destruct (taskRecord tw !! k); [done|]. simpl.
    apply Forall_app. split; [done|]. apply Forall_singleton.
    rewrite !orb_false_iff in Hchk. destruct Hchk as [[[[H1 H2] H3] H4] H5].
    rewrite bool_decide_eq_false in H2, H3.
    apply Z.ltb_ge in H4.
    split; [done|]. split; [|done]. simpl. by destruct j.
  - apply Hsame. simpl. unfold RemoveTask. destruct k as [k|]; [|done].
    destruct (taskRecord tw !! Some k) as [b|]; [|done].
    destruct (heap tw !! b) as [t0|]; simpl; [|done].
    by rewrite length_insert.
  - apply Hsame. simpl. unfold UpdateTask. destruct k as [k|]; [|done].
    destruct (taskRecord tw !! Some k) as [b|]; [|done].
    destruct (heap tw !! b) as [t0|]; simpl; [|done].
    by rewrite length_insert.
Qed.

Lemma valid_task_run (ops : list op) (tw : TimeWheel) :
  Forall valid_task (heap tw) -> Forall valid_task (heap (state_of (run ops tw))).
Proof.
  revert tw. induction ops as [|o ops IH]; intros tw Hv; simpl; [done|].
  pose proof (valid_task_run_op tw o Hv) as H1.
  destruct (run_op tw o) as [tw'|tw'|tw']; simpl in *; try done.
  by apply IH.
Qed.

Lemma New_heap (d n : Z) (tw : TimeWheel) :
  New d n = Some tw -> heap tw = [] /\ fired tw = [] /\ taskRecord tw = ∅ /\
  currentPos tw = 0 /\ interval tw = d /\ slotNum tw = n /\ 0 < d /\ 0 < n /\
  slots tw = replicate (Z.to_nat n) (Some []).
Proof.
  intros HN.
  destruct (Z.leb_spec d 0) as [Hd|Hd].
  { assert (New d n = None) as E by (apply New_None; auto). congruence. }
  destruct (Z.leb_spec n 0) as [Hn|Hn].
  { assert (New d n = None) as E by (apply New_None; auto). congruence. }
  rewrite New_Some in HN by lia. injection HN as <-. simpl. repeat split; lia.
Qed.

(** X1: every wheel reached from [New] by ticks, admissions and calls of
    the public operations is well-formed: [slotNum] slots that all hold a
    list, the cursor on one of them, every pointer in a slot or in the
    index pointing to a task object, and every index entry filed under the
    key of its task.  Every task object has a non-nil key, a non-nil job
    and a run count of at least -1, and the nil key is never in the
    index. *)
Theorem reachable_wheel_wf (d n : Z) (tw : TimeWheel) (ops : list op) :
  n <= max_int -> New d n = Some tw ->
  let tw' := state_of (run ops tw) in
  wf tw' /\ Forall valid_task (heap tw') /\ taskRecord tw' !! None = None.
Proof.
  intros Hn HN tw'.
  assert (wf tw') as Hwf by (apply wf_run; by eapply wf_New).
  assert (Forall valid_task (heap tw')) as Hv.
  { apply valid_task_run. destruct (New_heap d n tw HN) as [-> _]. done. }
  split; [done|]. split; [done|].
  destruct (taskRecord tw' !! None) as [a|] eqn:Hk; [|done].
  destruct (wf_index _ Hwf _ _ Hk) as (t & Ha & Hkey).
  rewrite Forall_lookup in Hv. destruct (Hv a t Ha) as [Hne _]. done.
Qed.

(** ** The cursor *)

Lemma same_frame_run_op (tw : TimeWheel) (o : op) :
  match o with OpTick _ => False | _ => True end ->
  same_frame tw (state_of (run_op tw o)).
Proof.
  destruct o as [fuel|b|d n k data j|k|k d data]; intros Ho; simpl; try done.
  - apply same_frame_addTask.
  - unfold AddTask. destruct (_ || _); [apply same_frame_refl|].
    destruct (taskRecord tw !! k); [apply same_frame_refl|]. by repeat split.
  - unfold RemoveTask. destruct k as [k|]; [|apply same_frame_refl].
    destruct (taskRecord tw !! Some k) as [b|]; [|apply same_frame_refl].
    destruct (heap tw !! b) as [t0|]; [|apply same_frame_refl]. by repeat split.
  - unfold UpdateTask. destruct k as [k|]; [|apply same_frame_refl].
    destruct (taskRecord tw !! Some k) as [b|]; [|apply same_frame_refl].
    destruct (heap tw !! b) as [t0|]; [|apply same_frame_refl]. by repeat split.
Qed.

(** X2: along operations that all return, the cursor is the old one moved
    by the number of ticks, modulo the slot count; nothing writes the slot
    count, the tick interval or the length of the slot slice. *)
Theorem cursor_counts_ticks (tw tw' : TimeWheel) (ops : list op) :
  wf tw -> run ops tw = Done tw' ->
  currentPos tw' = (currentPos tw + count_ticks ops) mod slotNum tw /\
  slotNum tw' = slotNum tw /\ interval tw' = interval tw /\
  length (slots tw') = length (slots tw).
Proof.
  revert tw. induction ops as [|o ops IH]; intros tw Hwf Hrun; simpl in *.
  - injection Hrun as <-. rewrite Z.add_0_r.
    rewrite Z.mod_small by (apply (wf_pos _ Hwf)). done.
  - pose proof (wf_run_op tw o Hwf) as Hwf1.
    destruct (run_op tw o) as [tw1|tw1|tw1] eqn:Ho; try done. simpl in Hwf1.
    destruct (IH tw1 Hwf1 Hrun) as (Hc & HS & HI & HL).
    destruct o as [fuel|b|d n k data j|k|k d data].
    2-5: match type of Ho with run_op _ ?o = _ =>
           pose proof (same_frame_run_op tw o I) as F end;
         rewrite Ho in F; destruct F as (F1 & F2 & F3 & F4 & F5); simpl in *;
         rewrite Hc, HS, HI, HL, F1, F2, F3, F5; done.
    simpl in Ho. destruct (tickHandler_cursor fuel tw tw1 Hwf Ho) as (C1 & S1 & I1).
    assert (length (slots tw1) = length (slots tw)) as HL1.
    { pose proof (wf_length _ Hwf) as L0. pose proof (wf_length _ Hwf1) as L1. lia. }
    rewrite Hc, HS, HI, HL, C1, S1, I1, HL1.
    rewrite Z.add_mod_idemp_l by (pose proof (wf_slotNum _ Hwf); lia).
    rewrite Z.add_assoc. done.
Qed.

(** ** Runs and dispatches of one task *)

(** X3: as long as [RemoveTask] is not called under its key, a task whose
    runs are counted never runs more often than its run count allows: along
    any ticks, admissions and calls on a well-formed wheel, the number of its
    dispatches plus the runs it has left never goes up, and the run count
    never goes below 0.  ([RemoveTask] is the one operation that writes
    [times] from outside the control loop; what it does to the count when it
    takes effect inside a scan is shown with [racy_step].) *)
Theorem runs_are_counted (tw : TimeWheel) (a : addr) (t : task.t) (ops : list op) :
  wf tw -> heap tw !! a = Some t -> 0 <= task.times t ->
  Forall (fun o => o <> OpRemoveTask (task.key t)) ops ->
  let tw' := state_of (run ops tw) in
  exists t',
    heap tw' !! a = Some t' /\ 0 <= task.times t' /\
    Z.of_nat (length (dispatched a tw')) + task.times t'
    <= Z.of_nat (length (dispatched a tw)) + task.times t.
Proof.
  intros _ Ha H0 _ tw'.
  destruct (history_run a ops tw t Ha)
    as (x & t' & ds & Hx & Ht' & _ & _ & _ & _ & _ & Hn).
  assert (x = t) as -> by congruence.
  exists t'. split; [done|]. by apply Hn.
Qed.

(** X4: a task object keeps its key and its job for good, the dispatch log
    only grows, and every dispatch of the task runs the job it was added
    with. *)
Theorem task_keeps_key_and_job (tw : TimeWheel) (a : addr) (t : task.t)
    (ops : list op) :
  heap tw !! a = Some t ->
  let tw' := state_of (run ops tw) in
  exists t' ds,
    heap tw' !! a = Some t' /\
    task.key t' = task.key t /\ task.job t' = task.job t /\
    fired tw' = fired tw ++ ds /\
    forall b j data, (b, j, data) ∈ ds -> b = a -> task.job t = Some j.
Proof.
  intros Ha tw'.
  destruct (history_run a ops tw t Ha)
    as (x & t' & ds & Hx & Ht' & Hk & Hj & Hf & Hd & _).
  assert (x = t) as -> by congruence.
  exists t', ds. repeat split; try done.
  intros b j data Hin Hb. by apply (Hd (b, j, data)).
Qed.

(** ** What a tick dispatches *)

Lemma fired_addTask (tw : TimeWheel) (b : addr) :
  fired (state_of (addTask tw b)) = fired tw.
Proof.
  unfold addTask.
  destruct (heap tw !! b) as [t0|]; [|done].
  destruct (task.times t0 =? 0); [done|].
  destruct (getPositionAndCircle tw (task.interval t0)) as [[pos c]|]; [|done].
  destruct (pos <? 0); simpl; [done|].
  by destruct (slots tw !! Z.to_nat pos) as [[l|]|].
Qed.

Lemma heap_times_addTask (tw : TimeWheel) (b a : addr) (t' : task.t) :
  heap (state_of (addTask tw b)) !! a = Some t' ->
  exists t, heap tw !! a = Some t /\ task.times t' = task.times t.
Proof.
  unfold addTask.
  destruct (heap tw !! b) as [t0|] eqn:Hb; [|eauto].
  destruct (task.times t0 =? 0); [eauto|].
  destruct (getPositionAndCircle tw (task.interval t0)) as [[pos c]|]; [|eauto].
  assert (<[b := task.set_circle t0 c]> (heap tw) !! a = Some t' ->
          exists t, heap tw !! a = Some t /\ task.times t' = task.times t) as Hs.
  { destruct (decide (a = b)) as [->|Hne].
    - rewrite list_lookup_insert_eq by (by eapply lookup_lt_Some).
      intros [= <-]. eauto.
    - rewrite list_lookup_insert_ne by done. eauto. }
  destruct (pos <? 0); simpl; [done|].
  by destruct (slots tw !! Z.to_nat pos) as [[l|]|].
Qed.

(** During the scan of slot [p] the list of that slot holds only tasks of
    the list [l0] it began with, and only such tasks, with runs left at the
    beginning, are dispatched. *)
Lemma scan_step_fires (p i : nat) (tw0 tw : TimeWheel) (l0 : list addr) :
  (forall l, slots tw !! p = Some (Some l) -> l ⊆ l0) ->
  (forall a t, heap tw !! a = Some t -> task.times t <> 0 ->
     exists t0, heap tw0 !! a = Some t0 /\ task.times t0 <> 0) ->
  let tw' := step_state (scan_step p i tw) in
  (forall l, slots tw' !! p = Some (Some l) -> l ⊆ l0) /\
  (forall a t, heap tw' !! a = Some t -> task.times t <> 0 ->
     exists t0, heap tw0 !! a = Some t0 /\ task.times t0 <> 0) /\
  exists ds, fired tw' = fired tw ++ ds /\
    forall d, d ∈ ds ->
      d.1.1 ∈ l0 /\ exists t0, heap tw0 !! d.1.1 = Some t0 /\ task.times t0 <> 0.
Proof.
  intros Hsub Hlive tw'. subst tw'. unfold scan_step.
  assert (forall tw', slots tw' = slots tw -> heap tw' = heap tw ->
            fired tw' = fired tw ->
            (forall l, slots tw' !! p = Some (Some l) -> l ⊆ l0) /\
            (forall a t, heap tw' !! a = Some t -> task.times t <> 0 ->
               exists t0, heap tw0 !! a = Some t0 /\ task.times t0 <> 0) /\
            exists ds, fired tw' = fired tw ++ ds /\
              forall d, d ∈ ds ->
                d.1.1 ∈ l0 /\ exists t0, heap tw0 !! d.1.1 = Some t0 /\ task.times t0 <> 0)
    as Hsame.
  { intros tw' Hs Hh Hf. rewrite Hs, Hh, Hf. split; [done|]. split; [done|].
    exists []. rewrite app_nil_r. split; [done|]. intros d Hd. by apply elem_of_nil in Hd. }
  destruct (slots tw !! p) as [[l|]|] eqn:Hp; try by apply Hsame.
  destruct (l !! i) as [b|] eqn:Hi; [|by apply Hsame].
  destruct (heap tw !! b) as [t0|] eqn:Hb; [|by apply Hsame].
  assert (l ⊆ l0) as Hl by (by apply Hsub).
  assert (b ∈ l0) as Hbl by (apply Hl; by eapply list_elem_of_lookup_2).
  assert (delete i l ⊆ l0) as Hdel.
  { intros x Hx. apply Hl. by eapply list_elem_of_delete_inv. }
  assert (forall x (t' t1 : task.t),
            (task.times t' <> 0 -> task.times t0 <> 0) ->
            <[b := t']> (heap tw) !! x = Some t1 -> task.times t1 <> 0 ->
            exists t2, heap tw0 !! x = Some t2 /\ task.times t2 <> 0) as Hstore.
  { intros x t' t1 Ht'. destruct (decide (x = b)) as [->|Hne].
    - rewrite list_lookup_insert_eq by (by eapply lookup_lt_Some).
      intros [= <-] H1. apply (Hlive b t0 Hb). by apply Ht'.
    - rewrite list_lookup_insert_ne by done. apply Hlive. }
  destruct (Z.eqb_spec (task.times t0) 0) as [H0|H0].
  { simpl. split; [|split; [done|]].
    - intros l'. rewrite list_lookup_insert_eq by (by eapply lookup_lt_Some).
      by intros [= <-].
    - exists []. rewrite app_nil_r. split; [done|].
      intros d Hd. by apply elem_of_nil in Hd. }
  destruct (0 <? task.circle t0).
  { simpl. split; [by rewrite Hp|]. split.
    - intros x t1. by apply Hstore.
    - exists []. rewrite app_nil_r. split; [done|].
      intros d Hd. by apply elem_of_nil in Hd. }
  destruct (task.job t0) as [j|] eqn:Hj; [|by apply Hsame].
  assert (forall d, d ∈ [(b, j, task.taskData t0)] ->
            d.1.1 ∈ l0 /\ exists t2, heap tw0 !! d.1.1 = Some t2 /\ task.times t2 <> 0)
    as Hds.
  { intros d ->%list_elem_of_singleton. simpl. split; [done|]. by eapply Hlive. }
  destruct (Z.eqb_spec (task.times t0) 1) as [H1|H1].
  { simpl. split; [|split].
    - intros l'. rewrite list_lookup_insert_eq by (by eapply lookup_lt_Some).
      by intros [= <-].
    - intros x t1. by apply Hstore.
    - by exists [(b, j, task.taskData t0)]. }
  set (tw1 := set_slot (with_fired tw (fired tw ++ [(b, j, task.taskData t0)])) p (delete i l)).
  set (tw2 := if 0 <? task.times t0 then _ else _).
  assert (slots tw2 = <[p := Some (delete i l)]> (slots tw) /\
          fired tw2 = fired tw ++ [(b, j, task.taskData t0)] /\
          forall x t1, heap tw2 !! x = Some t1 -> task.times t1 <> 0 ->
            exists t2, heap tw0 !! x = Some t2 /\ task.times t2 <> 0) as (S2 & F2 & L2).
  { subst tw2. destruct (0 <? task.times t0); simpl; [|done].
    split; [done|]. split; [done|]. intros x t1. by apply Hstore. }
  pose proof (addTask_slots tw2 b) as HS3.
  pose proof (fired_addTask tw2 b) as HF3.
  pose proof (heap_times_addTask tw2 b) as HH3.
  assert (forall tw3, state_of (addTask tw2 b) = tw3 ->
            (forall l, slots tw3 !! p = Some (Some l) -> l ⊆ l0) /\
            (forall a t, heap tw3 !! a = Some t -> task.times t <> 0 ->
               exists t0, heap tw0 !! a = Some t0 /\ task.times t0 <> 0) /\
            exists ds, fired tw3 = fired tw ++ ds /\
              forall d, d ∈ ds ->
                d.1.1 ∈ l0 /\ exists t0, heap tw0 !! d.1.1 = Some t0 /\ task.times t0 <> 0)
    as Hend.
  { intros tw3 <-. split; [|split].
    - intros l'. destruct HS3 as [->|(q & lq & Hq & ->)].
      + rewrite S2, list_lookup_insert_eq by (by eapply lookup_lt_Some).
        by intros [= <-].
      + destruct (decide (q = p)) as [->|Hne].
        * rewrite list_lookup_insert_eq by (by eapply lookup_lt_Some).
          intros [= <-].
          rewrite S2, list_lookup_insert_eq in Hq by (by eapply lookup_lt_Some).
          injection Hq as <-. intros x [Hx|Hx%list_elem_of_singleton]%elem_of_app.
          -- by apply Hdel.
          -- by subst x.
        * rewrite list_lookup_insert_ne by done.
          rewrite S2, list_lookup_insert_eq by (by eapply lookup_lt_Some).
          by intros [= <-].
    - intros x t1 Hx Hn. destruct (HH3 x t1 Hx) as (t2 & Hx2 & Ht2).
      apply (L2 x t2 Hx2). congruence.
    - exists [(b, j, task.taskData t0)]. by rewrite HF3, F2. }
  destruct (addTask tw2 b) as [tw3|tw3|tw3]; by apply Hend.
Qed.

Lemma scan_loop_fires (fuel p : nat) (item : option nat) (tw0 tw : TimeWheel)
    (l0 : list addr) :
  (forall l, slots tw !! p = Some (Some l) -> l ⊆ l0) ->
  (forall a t, heap tw !! a = Some t -> task.times t <> 0 ->
     exists t0, heap tw0 !! a = Some t0 /\ task.times t0 <> 0) ->
  exists ds, fired (state_of (scan_loop fuel p item tw)) = fired tw ++ ds /\
    forall d, d ∈ ds ->
      d.1.1 ∈ l0 /\ exists t0, heap tw0 !! d.1.1 = Some t0 /\ task.times t0 <> 0.
Proof.
  assert (exists ds : list dispatch, fired tw = fired tw ++ ds /\
            forall d, d ∈ ds ->
              d.1.1 ∈ l0 /\ exists t0, heap tw0 !! d.1.1 = Some t0 /\ task.times t0 <> 0)
    as Hnil.
  { exists []. rewrite app_nil_r. split; [done|]. intros d Hd. by apply elem_of_nil in Hd. }
  revert item tw Hnil. induction fuel as [|fuel IH]; intros [i|] tw Hnil Hsub Hlive;
    simpl; try done.
  destruct (scan_step_fires p i tw0 tw l0 Hsub Hlive) as (Hsub' & Hlive' & ds & Hf & Hds).
  destruct (scan_step p i tw) as [tw' item'|tw']; simpl in *; [|by exists ds].
  destruct (IH item' tw') as (ds' & Hf' & Hds'); try done.
  { exists []. rewrite app_nil_r. split; [done|]. intros d Hd. by apply elem_of_nil in Hd. }
  exists (ds ++ ds'). rewrite Hf', Hf, app_assoc. split; [done|].
  intros d [Hd|Hd]%elem_of_app; auto.
Qed.

Lemma tickHandler_fires (fuel : nat) (tw : TimeWheel) :
  exists ds,
    fired (state_of (tickHandler fuel tw)) = fired tw ++ ds /\
    forall a j data, (a, j, data) ∈ ds ->
      exists l t,
        slots tw !! Z.to_nat (currentPos tw) = Some (Some l) /\ a ∈ l /\
        heap tw !! a = Some t /\ task.times t <> 0.
Proof.
  unfold tickHandler.
  assert (exists ds : list dispatch, fired tw = fired tw ++ ds /\
            forall a j data, (a, j, data) ∈ ds ->
              exists l t,
                slots tw !! Z.to_nat (currentPos tw) = Some (Some l) /\ a ∈ l /\
                heap tw !! a = Some t /\ task.times t <> 0) as Hnil.
  { exists []. rewrite app_nil_r. split; [done|]. intros a j data Hd. by apply elem_of_nil in Hd. }
  destruct (_ || _); [done|]. unfold scanAddRunTask.
  destruct (slots tw !! Z.to_nat (currentPos tw)) as [[l|]|] eqn:Hp; simpl; try done.
  destruct (scan_loop_fires fuel (Z.to_nat (currentPos tw)) (Front l) tw tw l)
    as (ds & Hf & Hds).
  { intros l'. rewrite Hp. by intros [= <-]. }
  { eauto. }
  exists ds. split.
  - destruct (scan_loop _ _ _ _); exact Hf.
  - intros a j data Hd. destruct (Hds _ Hd) as (Hin & t0 & Ht0 & Hn). simpl in *.
    by exists l, t0.
Qed.

(** X5: jobs are dispatched by ticks only, and a tick dispatches only tasks
    that it finds in the slot under the cursor and that had runs left when
    the tick began; the admission of a task and the public operations
    dispatch nothing. *)
Theorem only_ticks_dispatch (tw : TimeWheel) :
  (forall a, fired (state_of (run_op tw (OpRecv a))) = fired tw) /\
  (forall d n k data j, fired (state_of (run_op tw (OpAddTask d n k data j))) = fired tw) /\
  (forall k, fired (state_of (run_op tw (OpRemoveTask k))) = fired tw) /\
  (forall k d data, fired (state_of (run_op tw (OpUpdateTask k d data))) = fired tw) /\
  (forall fuel, exists ds,
     fired (state_of (tickHandler fuel tw)) = fired tw ++ ds /\
     forall a j data, (a, j, data) ∈ ds ->
       exists l t,
         slots tw !! Z.to_nat (currentPos tw) = Some (Some l) /\ a ∈ l /\
         heap tw !! a = Some t /\ task.times t <> 0).
Proof.
  split; [intros a; apply fired_addTask|].
  split.
  { intros d n k data j. simpl. unfold AddTask. destruct (_ || _); [done|].
    by destruct (taskRecord tw !! k). }
  split.
  { intros k. simpl. unfold RemoveTask. destruct k as [k|]; [|done].
    destruct (taskRecord tw !! Some k) as [b|]; [|done].
    by destruct (heap tw !! b). }
  split.
  { intros k d data. simpl. unfold UpdateTask. destruct k as [k|]; [|done].
    destruct (taskRecord tw !! Some k) as [b|]; [|done].
    by destruct (heap tw !! b). }
  intros fuel. apply tickHandler_fires.
Qed.

(** ** Keys: taken, freed, lost *)

Lemma AddTask_accepted (tw tw1 : TimeWheel) (d n : Z) (k : key_t) (data : TaskData)
    (j : option Job) (a : addr) :
  AddTask tw d n k data j = (tw1, Some a, None) ->
  ~ illegal_params d n k j /\ taskRecord tw !! k = None /\
  a = length (heap tw) /\
  tw1 = with_heap tw (heap tw ++ [task.mk d n 0 k j data]).
Proof.
  intros HA. destruct (illegal_params_dec d n k j) as [Hi|Hi].
  { rewrite AddTask_illegal in HA by done. done. }
  rewrite AddTask_legal in HA by done.
  destruct (taskRecord tw !! k); [done|]. injection HA as <- <-. done.
Qed.

Lemma addTask_Done_inv (tw tw' : TimeWheel) (a : addr) (t : task.t) :
  heap tw !! a = Some t -> task.times t <> 0 -> addTask tw a = Done tw' ->
  exists pos circle l,
    getPositionAndCircle tw (task.interval t) = Some (pos, circle) /\
    0 <= pos /\ slots tw !! Z.to_nat pos = Some (Some l) /\
    tw' = mkTW (interval tw) (ticker tw)
               (<[Z.to_nat pos := Some (l ++ [a])]> (slots tw))
               (currentPos tw) (slotNum tw)
               (<[task.key t := a]> (taskRecord tw))
               (<[a := task.set_circle t circle]> (heap tw))
               (fired tw).
Proof.
  intros Ha Ht. unfold addTask. rewrite Ha.
  destruct (Z.eqb_spec (task.times t) 0); [done|].
  destruct (getPositionAndCircle tw (task.interval t)) as [[pos c]|]; [|done].
  destruct (Z.ltb_spec pos 0); [done|]. simpl.
  destruct (slots tw !! Z.to_nat pos) as [[l|]|] eqn:Hl; try done.
  intros [= <-]. exists pos, c, l. done.
Qed.

(** X6: once the control loop has admitted a task that [AddTask] accepted,
    its key is taken: the index maps the key to the task, a further
    [AddTask] under that key is refused and changes nothing, and
    [UpdateTask] and [RemoveTask] under that key succeed. *)
Theorem indexed_key_is_taken (tw tw1 tw2 : TimeWheel) (d n : Z) (k : key_t)
    (data : TaskData) (j : option Job) (a : addr) :
  AddTask tw d n k data j = (tw1, Some a, None) ->
  addTask tw1 a = Done tw2 ->
  taskRecord tw2 !! k = Some a /\
  (exists c, heap tw2 !! a = Some (task.mk d n c k j data)) /\
  (forall d' n' data' j',
     exists e, AddTask tw2 d' n' k data' j' = (tw2, None, Some e)) /\
  (forall d' data', (UpdateTask tw2 k d' data').2 = None) /\
  (RemoveTask tw2 k).2 = None.
Proof.
  intros HA Hadd.
  destruct (AddTask_accepted _ _ _ _ _ _ _ _ HA) as (Hlegal & Hfree & -> & ->).
  assert (heap (with_heap tw (heap tw ++ [task.mk d n 0 k j data])) !! length (heap tw)
          = Some (task.mk d n 0 k j data)) as Ha.
  { simpl. rewrite lookup_app_r by lia. by rewrite Nat.sub_diag. }
  assert (n <> 0) as Hn.
  { intros ->. apply Hlegal. unfold illegal_params. auto. }
  destruct (addTask_Done_inv _ _ _ _ Ha Hn Hadd) as (pos & c & l & _ & _ & _ & ->).
  simpl in *.
  assert (<[length (heap tw) := task.mk d n c k j data]>
            (heap tw ++ [task.mk d n 0 k j data]) !! length (heap tw)
          = Some (task.mk d n c k j data)) as Ha2.
  { apply list_lookup_insert_eq. rewrite length_app. simpl. lia. }
  assert (exists s, k = Some s) as [s ->].
  { destruct k as [s|]; [by exists s|]. exfalso. apply Hlegal.
    unfold illegal_params. auto. }
  split; [by rewrite lookup_insert_eq|]. split; [by exists c|].
  split; [|split].
  - intros d' n' data' j'.
    destruct (illegal_params_dec d' n' (Some s) j') as [Hi|Hi].
    + exists ErrIllegalParams. by apply AddTask_illegal.
    + exists ErrDuplicateKey. rewrite AddTask_legal by done. simpl.
      by rewrite lookup_insert_eq.
  - intros d' data'. unfold UpdateTask. simpl.
    rewrite lookup_insert_eq. unfold task.set_circle in *. simpl in *.
    by rewrite Ha2.
  - unfold RemoveTask. simpl. rewrite lookup_insert_eq.
    unfold task.set_circle in *. simpl in *. by rewrite Ha2.
Qed.

(** X7: [RemoveTask] frees the key at once, while the task object is still
    in its slot: a second [RemoveTask] and an [UpdateTask] under the key
    find no task, and [AddTask] accepts the key again. *)
Theorem removed_key_is_free (tw : TimeWheel) (k : string) (a : addr) :
  wf tw -> taskRecord tw !! Some k = Some a ->
  let tw1 := (RemoveTask tw (Some k)).1 in
  slots tw1 = slots tw /\
  taskRecord tw1 !! Some k = None /\
  RemoveTask tw1 (Some k) = (tw1, Some ErrNotExists) /\
  (forall d data, UpdateTask tw1 (Some k) d data = (tw1, Some ErrNotExists)) /\
  (forall d n data j,
     ~ illegal_params d n (Some k) j ->
     exists tw2, AddTask tw1 d n (Some k) data j = (tw2, Some (length (heap tw1)), None)).
Proof.
  intros Hwf Hk tw1.
  destruct (wf_index _ Hwf _ _ Hk) as (t & Ha & Hkey).
  assert (tw1 = with_taskRecord (with_heap tw (<[a := task.set_times t 0]> (heap tw)))
                  (delete (Some k) (taskRecord tw))) as E.
  { subst tw1. rewrite (RemoveTask_found tw k a t Hk Ha). simpl. by rewrite Hkey. }
  assert (taskRecord tw1 !! Some k = None) as Hfree.
  { rewrite E. simpl. apply lookup_delete_eq. }
  split; [by rewrite E|]. split; [done|]. split; [|split].
  - unfold RemoveTask. by rewrite Hfree.
  - intros d data. unfold UpdateTask. by rewrite Hfree.
  - intros d n data j Hi. rewrite AddTask_legal by done. rewrite Hfree. eauto.
Qed.

(** X8: the scan purges a tombstone by deleting its key from the index,
    whatever the index holds under that key.  When the key was removed
    and added again while the old task object was still queued, the purge
    takes the index entry of the new task: the new task keeps its place
    and its runs, but [RemoveTask] and [UpdateTask] no longer find it. *)
Theorem purge_drops_reused_key (tw : TimeWheel) (p i : nat) (l : list addr)
    (a b : addr) (t : task.t) (k : string) :
  slots tw !! p = Some (Some l) -> l !! i = Some a ->
  heap tw !! a = Some t -> task.times t = 0 -> task.key t = Some k ->
  taskRecord tw !! Some k = Some b -> b <> a ->
  exists tw',
    scan_step p i tw = StepNext tw' (next_after_remove l i) /\
    heap tw' = heap tw /\ fired tw' = fired tw /\
    (forall q, q <> p -> slots tw' !! q = slots tw !! q) /\
    slots tw' !! p = Some (Some (delete i l)) /\
    taskRecord tw' !! Some k = None /\
    RemoveTask tw' (Some k) = (tw', Some ErrNotExists) /\
    (forall d data, UpdateTask tw' (Some k) d data = (tw', Some ErrNotExists)).
Proof.
  intros Hp Hi Ha H0 Hkey Hb Hne.
  eexists. split; [by apply (scan_step_dead tw p i l a t)|]. simpl.
  split; [done|]. split; [done|]. split.
  { intros q Hq. by apply list_lookup_insert_ne. }
  split; [apply list_lookup_insert_eq; by eapply lookup_lt_Some|].
  assert (delete (task.key t) (taskRecord tw) !! Some k = None) as Hfree
    by (rewrite Hkey; apply lookup_delete_eq).
  split; [done|]. split.
  - unfold RemoveTask. simpl. by rewrite Hfree.
  - intros d data. unfold UpdateTask. simpl. by rewrite Hfree.
Qed.

(** X9: [AddTask] looks the key up in the index, and the index learns of a
    task only when the control loop admits it.  Two calls under one key
    that both come before the first admission are both accepted; once
    both tasks are admitted the index holds the second, the first is
    queued with all its runs, and [RemoveTask] under the key leaves the
    first as it is. *)
Theorem AddTask_does_not_reserve_key (tw tw1 : TimeWheel)
    (d1 n1 d2 n2 : Z) (k : string) (data1 data2 : TaskData) (j1 j2 : option Job)
    (a1 : addr) :
  AddTask tw d1 n1 (Some k) data1 j1 = (tw1, Some a1, None) ->
  ~ illegal_params d2 n2 (Some k) j2 ->
  exists tw2 a2,
    AddTask tw1 d2 n2 (Some k) data2 j2 = (tw2, Some a2, None) /\ a2 <> a1 /\
    forall tw3 tw4,
      addTask tw2 a1 = Done tw3 -> addTask tw3 a2 = Done tw4 ->
      taskRecord tw4 !! Some k = Some a2 /\
      (exists c, heap tw4 !! a1 = Some (task.mk d1 n1 c (Some k) j1 data1)) /\
      (exists q l, slots tw4 !! q = Some (Some l) /\ a1 ∈ l) /\
      (RemoveTask tw4 (Some k)).2 = None /\
      heap (RemoveTask tw4 (Some k)).1 !! a1 = heap tw4 !! a1 /\
      slots (RemoveTask tw4 (Some k)).1 = slots tw4.
Proof.
  intros HA Hlegal2.
  destruct (AddTask_accepted _ _ _ _ _ _ _ _ HA) as (Hlegal1 & Hfree & -> & ->).
  set (t1 := task.mk d1 n1 0 (Some k) j1 data1).
  set (t2 := task.mk d2 n2 0 (Some k) j2 data2).
  set (h := heap tw).
  eexists _, (S (length h)). split.
  { rewrite AddTask_legal by done. simpl. rewrite Hfree. fold h.
    by rewrite length_app, Nat.add_1_r. }
  split; [lia|]. simpl. fold h t1 t2.
  intros tw3 tw4 H3 H4.
  assert (n1 <> 0) as Hn1.
  { intros ->. apply Hlegal1. unfold illegal_params. auto. }
  assert (n2 <> 0) as Hn2.
  { intros ->. apply Hlegal2. unfold illegal_params. auto. }
  assert (((h ++ [t1]) ++ [t2]) !! length h = Some t1) as L1.
  { rewrite lookup_app_l by (rewrite length_app; simpl; lia).
    rewrite lookup_app_r by lia. by rewrite Nat.sub_diag. }
  assert (((h ++ [t1]) ++ [t2]) !! S (length h) = Some t2) as L2.
  { rewrite lookup_app_r by (rewrite length_app; simpl; lia).
    rewrite length_app. simpl. by replace (S (length h) - (length h + 1))%nat with 0%nat by lia. }
  destruct (addTask_Done_inv
              (with_heap (with_heap tw (h ++ [t1])) ((h ++ [t1]) ++ [t2]))
              tw3 (length h) t1 L1 Hn1 H3) as (pos1 & c1 & l1 & _ & _ & Hl1 & ->).
  simpl in *.
  assert (<[length h := task.set_circle t1 c1]> ((h ++ [t1]) ++ [t2]) !! S (length h)
          = Some t2) as L2'.
  { rewrite list_lookup_insert_ne by lia. done. }
  match type of H4 with
  | addTask ?w _ = _ =>
      destruct (addTask_Done_inv w tw4 (S (length h)) t2 L2' Hn2 H4)
        as (pos2 & c2 & l2 & _ & _ & Hl2 & ->)
  end.
  simpl in *.
  assert (<[S (length h) := task.set_circle t2 c2]>
            (<[length h := task.set_circle t1 c1]> ((h ++ [t1]) ++ [t2])) !! length h
          = Some (task.set_circle t1 c1)) as L1'.
  { rewrite list_lookup_insert_ne by lia.
    apply list_lookup_insert_eq. rewrite !length_app. simpl. lia. }
  assert (<[S (length h) := task.set_circle t2 c2]>
            (<[length h := task.set_circle t1 c1]> ((h ++ [t1]) ++ [t2])) !! S (length h)
          = Some (task.set_circle t2 c2)) as L2''.
  { apply list_lookup_insert_eq. rewrite length_insert, !length_app. simpl. lia. }
  split; [by rewrite lookup_insert_eq|].
  split; [by exists c1|].
  split.
  { destruct (decide (Z.to_nat pos2 = Z.to_nat pos1)) as [E|E].
    - exists (Z.to_nat pos2), (l2 ++ [S (length h)]).
      split; [apply list_lookup_insert_eq; by eapply lookup_lt_Some|].
      rewrite E, list_lookup_insert_eq in Hl2 by (by eapply lookup_lt_Some).
      injection Hl2 as <-. set_solver.
    - exists (Z.to_nat pos1), (l1 ++ [length h]).
      split; [|set_solver].
      rewrite list_lookup_insert_ne by done.
      apply list_lookup_insert_eq. by eapply lookup_lt_Some. }
  unfold RemoveTask. simpl. rewrite lookup_insert_eq, L2''. simpl.
  split; [done|]. split; [|done].
  by rewrite list_lookup_insert_ne by lia.
Qed.

(** ** The tasks in the slots *)

Lemma elem_of_queued (tw : TimeWheel) (a : addr) :
  a ∈ queued tw <-> exists q l, slots tw !! q = Some (Some l) /\ a ∈ l.
Proof.
  unfold queued. rewrite list_elem_of_join. split.
  - intros (l & Ha & Hl). apply list_elem_of_fmap in Hl as (s & -> & Hs).
    apply list_elem_of_lookup in Hs as (q & Hq).
    destruct s as [l|]; [|by apply elem_of_nil in Ha]. eauto.
  - intros (q & l & Hq & Ha). exists l. split; [done|].
    apply list_elem_of_fmap. exists (Some l). split; [done|].
    by eapply list_elem_of_lookup_2.
Qed.

(** Replacing the list of one slot. *)
Lemma queued_insert (sl : list (option (list addr))) (q : nat) (l : list addr) :
  sl !! q = Some (Some l) ->
  exists rest,
    mjoin (default [] <$> sl) ≡ₚ l ++ rest /\
    forall l', mjoin (default [] <$> <[q := Some l']> sl) ≡ₚ l' ++ rest.
Proof.
  intros Hq.
  exists (mjoin (default [] <$> take q sl) ++ mjoin (default [] <$> drop (S q) sl)).
  assert (forall x, mjoin (default [] <$> (take q sl ++ Some x :: drop (S q) sl))
                    ≡ₚ x ++ (mjoin (default [] <$> take q sl) ++
                             mjoin (default [] <$> drop (S q) sl))) as Hx.
  { intros x. rewrite fmap_app, join_app. simpl.
    apply Permutation_app_swap_app. }
  split.
  - rewrite <- (take_drop_middle sl q (Some l) Hq) at 1. apply Hx.
  - intros l'. rewrite insert_take_drop by (by eapply lookup_lt_Some). apply Hx.
Qed.

(** ** The shape of one iteration of the scan *)

Lemma scan_step_shape (p i : nat) (tw : TimeWheel) (l : list addr) (b : addr)
    (t : task.t) :
  wf tw -> tame tw ->
  slots tw !! p = Some (Some l) -> l !! i = Some b -> heap tw !! b = Some t ->
  exists tw' item',
    scan_step p i tw = StepNext tw' item' /\ step_shape p i tw l b t tw' item'.
Proof.
  intros Hwf Htame Hp Hi Hb.
  destruct (Z.eq_dec (task.times t) 0) as [H0|H0].
  { eexists _, _. split; [by apply (scan_step_dead tw p i l b t)|]. by constructor. }
  destruct (Z.lt_ge_cases 0 (task.circle t)) as [Hc|Hc].
  { eexists _, _. split; [by apply (scan_step_wait tw p i l b t)|]. by constructor. }
  destruct (wf_jobs _ Hwf _ _ Hb) as [j Hj].
  destruct (Z.eq_dec (task.times t) 1) as [H1|H1].
  { eexists _, _. split; [by apply (scan_step_due_last tw p i l b t j)|].
    by apply (shape_last p i tw l b t j). }
  destruct (Htame b t Hb) as (pos & circle & Hg & Hpos & Hcirc).
  assert (exists l', <[p := Some (delete i l)]> (slots tw) !! Z.to_nat pos = Some (Some l'))
    as [l' Hl'].
  { destruct (decide (Z.to_nat pos = p)) as [->|Hne].
    - exists (delete i l). apply list_lookup_insert_eq. by eapply lookup_lt_Some.
    - rewrite list_lookup_insert_ne by done.
      destruct (lookup_lt_is_Some_2 (slots tw) (Z.to_nat pos)) as [s Hs].
      { pose proof (wf_length _ Hwf). lia. }
      destruct (wf_nonnil _ Hwf _ _ Hs) as [x ->]. eauto. }
  eexists _, _. split.
  - apply (scan_step_readmit tw p i l b t j pos circle l'); try done; lia.
  - by apply (shape_again p i tw l b t j pos circle l').
Qed.

(** ** Wheels used as intended *)

Lemma delay_steps_range (d i : Z) :
  Second <= d -> d <= i < 2 ^ 24 * Second ->
  1 <= delay_steps d i < 2 ^ 24.
Proof.
  intros Hd Hi. unfold delay_steps, Second in *.
  assert (1 <= d / 1000000000) by (apply Z.div_le_lower_bound; lia).
  assert (d / 1000000000 <= i / 1000000000) by (apply Z.div_le_mono; lia).
  assert (i / 1000000000 < 2 ^ 24) by (apply Z.div_lt_upper_bound; lia).
  split.
  - apply Z.div_le_lower_bound; lia.
  - apply Z.div_lt_upper_bound; [lia|]. nia.
Qed.

(** For a tick interval of whole seconds the delay in ticks is the delay
    divided by the tick interval. *)
Lemma delay_steps_whole_seconds (d i m : Z) :
  0 < m -> d = m * Second -> delay_steps d i = i / d.
Proof.
  intros Hm ->. unfold delay_steps, Second.
  rewrite Z.div_mul by lia. rewrite Z.div_div by lia. f_equal. lia.
Qed.

Lemma sane_position (d n : Z) (chan : list addr) (tw : TimeWheel) (i : Z) :
  wheel_inv d n chan tw -> d <= i < 2 ^ 24 * Second ->
  getPositionAndCircle tw i
  = Some ((currentPos tw + delay_steps d i) mod n, delay_steps d i / n).
Proof.
  intros [[Hd [Hn Hmax]] Hwf HI HS _ _ _ _] Hi.
  pose proof (delay_steps_range d i ltac:(lia) Hi) as Hst.
  pose proof (wf_pos _ Hwf) as Hc. pose proof (wf_slotNum _ Hwf) as HS'.
  pose proof (getPositionAndCircle_seconds tw i) as H. simpl in H.
  rewrite HI, HS in H.
  rewrite (int_seconds_floor d), (int_seconds_floor i) in H by lia.
  apply H; try lia.
  - unfold Second in *. apply Z.div_le_lower_bound; lia.
  - apply Z.div_pos; unfold Second; lia.
  - fold (delay_steps d i). lia.
Qed.

Lemma steps_to_same_slot (c st n : Z) :
  0 <= c < n -> 1 <= st -> (c + st) mod n = c -> 0 < st / n.
Proof.
  intros Hc Hst Hm.
  pose proof (Z.div_mod (c + st) n ltac:(lia)) as E. rewrite Hm in E.
  assert (st = n * ((c + st) / n)) as Est by lia.
  assert (0 < (c + st) / n) by nia.
  rewrite Est, Z.mul_comm, Z.div_mul by lia. done.
Qed.

Lemma wheel_inv_tame (d n : Z) (chan : list addr) (tw : TimeWheel) :
  wheel_inv d n chan tw -> tame tw.
Proof.
  intros Hinv a t Ha. pose proof Hinv as [[Hd [Hn Hmax]] Hwf HI HS Ht _ _ _].
  pose proof (Ht a t Ha) as Hi.
  pose proof (delay_steps_range d _ ltac:(lia) Hi) as Hst.
  pose proof (wf_pos _ Hwf) as Hc.
  eexists _, _. split; [by eapply sane_position|]. rewrite HS.
  split; [apply Z.mod_pos_bound; lia|].
  intros E. eapply steps_to_same_slot; [|apply Hst|exact E]. lia.
Qed.

Lemma wheel_inv_slot_NoDup (d n : Z) (chan : list addr) (tw : TimeWheel) (p : nat)
    (l : list addr) :
  wheel_inv d n chan tw -> slots tw !! p = Some (Some l) -> NoDup l.
Proof.
  intros Hinv Hp. pose proof (wi_nodup _ _ _ _ Hinv) as Hnd.
  apply NoDup_app in Hnd as (_ & _ & Hq). unfold queued in Hq.
  destruct (queued_insert _ _ _ Hp) as (rest & E & _). rewrite E in Hq.
  by apply NoDup_app in Hq as (? & _).
Qed.

(** One iteration of the scan keeps the invariant, and keeps or drops the
    task under the cursor. *)
Lemma wheel_inv_shape (d n : Z) (chan : list addr) (p i : nat) (tw tw' : TimeWheel)
    (l : list addr) (b : addr) (t : task.t) (item' : option nat) :
  wheel_inv d n chan tw ->
  slots tw !! p = Some (Some l) -> l !! i = Some b -> heap tw !! b = Some t ->
  scan_step p i tw = StepNext tw' item' ->
  step_shape p i tw l b t tw' item' ->
  wheel_inv d n chan tw' /\ currentPos tw' = currentPos tw /\
  (queued tw ≡ₚ queued tw' \/ queued tw ≡ₚ b :: queued tw').
Proof.
  intros Hinv Hp Hi Hb Hstep Hshape.
  pose proof Hinv as [Hsane Hwf HI HS Ht Hnd Hal Hix].
  assert (wf tw') as Hwf'.
  { pose proof (wf_scan_step p i tw Hwf) as H. by rewrite Hstep in H. }
  destruct (queued_insert _ _ _ Hp) as (rest & EQ & EQ').
  pose proof (delete_Permutation l i b Hi) as Hl.
  assert (b ∈ queued tw) as Hbq.
  { apply elem_of_queued. exists p, l. split; [done|]. by eapply list_elem_of_lookup_2. }
  assert (forall a, a ∈ chan -> a <> b) as Hsb.
  { intros a Ha ->. apply NoDup_app in Hnd as (_ & Hd & _). by apply (Hd b). }
  assert (forall t', task.interval t' = task.interval t ->
            forall a x, <[b := t']> (heap tw) !! a = Some x ->
              d <= task.interval x < 2 ^ 24 * Second) as Hstore.
  { intros t' E a x. destruct (decide (a = b)) as [->|Hne].
    - rewrite list_lookup_insert_eq by (by eapply lookup_lt_Some).
      intros [= <-]. rewrite E. by eapply Ht.
    - rewrite list_lookup_insert_ne by done. apply Ht. }
  assert (forall t' a, a ∈ chan ->
            exists x, <[b := t']> (heap tw) !! a = Some x /\ task.times x <> 0) as Hal'.
  { intros t' a Ha. rewrite list_lookup_insert_ne by (apply not_eq_sym; by apply Hsb).
    by apply Hal. }
  assert (forall Q', queued tw ≡ₚ b :: Q' ->
            NoDup (chan ++ Q') /\
            forall k a, delete (task.key t) (taskRecord tw) !! k = Some a -> a ∈ Q')
    as Hdrop.
  { intros Q' E. split.
    - rewrite E in Hnd. apply NoDup_app in Hnd as (N1 & N2 & N3).
      apply NoDup_app. split; [done|]. split.
      + intros x Hx Hx'. apply (N2 x Hx). by right.
      + by apply NoDup_cons in N3 as [_ ?].
    - intros k a Hk. apply lookup_delete_Some in Hk as [Hne Hk].
      pose proof (Hix k a Hk) as Ha. rewrite E in Ha.
      apply elem_of_cons in Ha as [->|Ha]; [|done].
      destruct (wf_index _ Hwf _ _ Hk) as (x & Hx & Hxk). congruence. }
  destruct Hshape as [H0|H0 Hc|j H1 Hc Hj|j pos circle l' H0 H1 Hc Hj Hg Hpos Hcirc Hl'].
  - (* dropped *)
    assert (queued tw ≡ₚ b :: mjoin (default [] <$> <[p := Some (delete i l)]> (slots tw)))
      as E.
    { unfold queued. rewrite EQ, EQ'. exact (Permutation_app_tail rest Hl). }
    destruct (Hdrop _ E) as [N X].
    split; [|split; [done|by right]].
    split; simpl; try done.
  - (* passed *)
    split; [|split; [done|by left]].
    split; simpl; try done; [by apply Hstore|by apply Hal'].
  - (* last run *)
    assert (queued tw ≡ₚ b :: mjoin (default [] <$> <[p := Some (delete i l)]> (slots tw)))
      as E.
    { unfold queued. rewrite EQ, EQ'. exact (Permutation_app_tail rest Hl). }
    destruct (Hdrop _ E) as [N X].
    split; [|split; [done|by right]].
    split; simpl; try done; [by apply Hstore|by apply Hal'].
  - (* run and admitted again *)
    destruct (queued_insert _ _ _ Hl') as (rest' & E1 & E1').
    assert (queued tw ≡ₚ
            mjoin (default [] <$> <[Z.to_nat pos := Some (l' ++ [b])]>
                                    (<[p := Some (delete i l)]> (slots tw)))) as E.
    { unfold queued. rewrite EQ, E1', <- app_assoc. cbn [app].
      rewrite <- Permutation_middle, <- E1, EQ'.
      exact (Permutation_app_tail rest Hl). }
    split; [|split; [done|by left]].
    split; simpl; try done.
    + by apply Hstore.
    + unfold queued. simpl. by rewrite <- E.
    + by apply Hal'.
    + intros k a. unfold queued. simpl. rewrite <- E.
      destruct (decide (k = task.key t)) as [->|Hne].
      * rewrite lookup_insert_eq. by intros [= <-].
      * rewrite lookup_insert_ne by done. apply Hix.
Qed.

Lemma scan_step_next_inv (p i : nat) (tw tw' : TimeWheel) (item' : option nat) :
  scan_step p i tw = StepNext tw' item' ->
  exists l b t,
    slots tw !! p = Some (Some l) /\ l !! i = Some b /\ heap tw !! b = Some t.
Proof.
  unfold scan_step.
  destruct (slots tw !! p) as [[l|]|]; try done.
  destruct (l !! i) as [b|] eqn:Hi; [|done].
  destruct (heap tw !! b) as [t|] eqn:Hb; [|done].
  intros _. by exists l, b, t.
Qed.

Lemma wheel_inv_scan_step (d n : Z) (chan : list addr) (p i : nat) (tw tw' : TimeWheel)
    (item' : option nat) :
  wheel_inv d n chan tw ->
  scan_step p i tw = StepNext tw' item' ->
  wheel_inv d n chan tw' /\ currentPos tw' = currentPos tw /\
  exists l b t,
    slots tw !! p = Some (Some l) /\ l !! i = Some b /\ heap tw !! b = Some t /\
    step_shape p i tw l b t tw' item' /\
    (queued tw ≡ₚ queued tw' \/ queued tw ≡ₚ b :: queued tw').
Proof.
  intros Hinv Hstep.
  destruct (scan_step_next_inv _ _ _ _ _ Hstep) as (l & b & t & Hp & Hi & Hb).
  destruct (scan_step_shape p i tw l b t (wi_wf _ _ _ _ Hinv)
              (wheel_inv_tame _ _ _ _ Hinv) Hp Hi Hb) as (tw1 & item1 & E & Hshape).
  rewrite Hstep in E. injection E as <- <-.
  destruct (wheel_inv_shape d n chan p i tw tw' l b t item' Hinv Hp Hi Hb Hstep Hshape)
    as (H1 & H2 & H3).
  split; [done|]. split; [done|]. by exists l, b, t.
Qed.

Lemma wheel_inv_scan_loop (d n : Z) (chan : list addr) (fuel p : nat)
    (item : option nat) (tw tw' : TimeWheel) :
  wheel_inv d n chan tw ->
  scan_loop fuel p item tw = Done tw' ->
  wheel_inv d n chan tw' /\ currentPos tw' = currentPos tw.
Proof.
  revert item tw. induction fuel as [|fuel IH]; intros [i|] tw Hinv; simpl; try done.
  - by intros [= <-].
  - destruct (scan_step p i tw) as [tw1 item1|tw1] eqn:Hstep; [|done].
    destruct (wheel_inv_scan_step d n chan p i tw tw1 item1 Hinv Hstep) as (H1 & H2 & _).
    intros Hloop. destruct (IH item1 tw1 H1 Hloop) as [H3 H4].
    split; [done|congruence].
  - by intros [= <-].
Qed.

Lemma wheel_inv_tickHandler (d n : Z) (chan : list addr) (fuel : nat)
    (tw tw' : TimeWheel) :
  wheel_inv d n chan tw ->
  tickHandler fuel tw = Done tw' ->
  wheel_inv d n chan tw'.
Proof.
  intros Hinv Htick.
  pose proof (wi_wf _ _ _ _ Hinv) as Hwf.
  assert (wf tw') as Hwf'.
  { pose proof (wf_tickHandler fuel tw Hwf) as H. by rewrite Htick in H. }
  destruct (lookup_lt_is_Some_2 (slots tw) (Z.to_nat (currentPos tw))) as [s Hs].
  { pose proof (wf_length _ Hwf). pose proof (wf_pos _ Hwf). lia. }
  destruct (wf_nonnil _ Hwf _ _ Hs) as [l ->].
  rewrite (tickHandler_unfold fuel tw l Hwf Hs) in Htick.
  destruct (scan_loop fuel _ (Front l) tw) as [tw1|tw1|tw1] eqn:Hloop; try done.
  injection Htick as <-.
  destruct (wheel_inv_scan_loop d n chan fuel _ _ tw tw1 Hinv Hloop)
    as [[Hsane _ HI HS Ht Hnd Hal Hix] _].
  split; try done.
Qed.

Lemma remove_first_Permutation (a : addr) (l : list addr) :
  a ∈ l -> l ≡ₚ a :: remove_first a l.
Proof.
  induction l as [|b l IH]; intros Ha; [by apply elem_of_nil in Ha|]. simpl.
  destruct (decide (b = a)) as [->|Hne]; [done|].
  apply elem_of_cons in Ha as [->|Ha]; [done|].
  rewrite (IH Ha) at 1. apply perm_swap.
Qed.

Lemma wheel_inv_AddTask (d n : Z) (chan : list addr) (tw : TimeWheel)
    (i m : Z) (k : key_t) (data : TaskData) (j : option Job) :
  wheel_inv d n chan tw -> d <= i < 2 ^ 24 * Second ->
  match AddTask tw i m k data j with
  | (tw1, Some a, _) => wheel_inv d n (chan ++ [a]) tw1
  | (tw1, None, _) => tw1 = tw
  end.
Proof.
  intros Hinv Hi. pose proof Hinv as [Hsane Hwf HI HS Ht Hnd Hal Hix].
  pose proof (wf_AddTask tw i m k data j Hwf) as Hwf1.
  destruct (illegal_params_dec i m k j) as [Hill|Hleg].
  { by rewrite AddTask_illegal. }
  rewrite AddTask_legal in * by done.
  destruct (taskRecord tw !! k); [done|]. simpl in Hwf1.
  assert (length (heap tw) ∉ chan) as F1.
  { intros Hin. destruct (Hal _ Hin) as (x & Hx & _).
    apply lookup_lt_Some in Hx. lia. }
  assert (length (heap tw) ∉ queued tw) as F2.
  { intros (q & l & Hq & Hin)%elem_of_queued.
    destruct (wf_addrs _ Hwf _ _ _ Hq Hin) as [x Hx].
    apply lookup_lt_Some in Hx. lia. }
  split; simpl; try done.
  - intros a t [Ha|[_ Ha]]%lookup_app_Some; [by eapply Ht|].
    destruct (a - length (heap tw))%nat; [|done]. simpl in Ha. by injection Ha as <-.
  - change (queued (with_heap tw (heap tw ++ [task.mk i m 0 k j data])))
      with (queued tw).
    rewrite <- app_assoc. cbn [app].
    rewrite <- Permutation_middle. apply NoDup_cons. split; [|done].
    rewrite elem_of_app. tauto.
  - intros a [Ha|Ha%list_elem_of_singleton]%elem_of_app; [|subst a].
    + destruct (Hal a Ha) as (x & Hx & Hx0). exists x. split; [|done].
      by apply lookup_app_l_Some.
    + eexists. split.
      * rewrite lookup_app_r by lia. by rewrite Nat.sub_diag.
      * simpl. intros ->. apply Hleg. unfold illegal_params. auto.
Qed.

Lemma wheel_inv_store (d n : Z) (chan : list addr) (tw tw' : TimeWheel) (b : addr)
    (t t' : task.t) :
  wheel_inv d n chan tw -> wf tw' ->
  heap tw !! b = Some t -> b ∈ queued tw ->
  d <= task.interval t' < 2 ^ 24 * Second ->
  heap tw' = <[b := t']> (heap tw) ->
  slots tw' = slots tw -> interval tw' = interval tw -> slotNum tw' = slotNum tw ->
  (forall k a, taskRecord tw' !! k = Some a -> taskRecord tw !! k = Some a) ->
  wheel_inv d n chan tw'.
Proof.
  intros [Hsane Hwf HI HS Ht Hnd Hal Hix] Hwf' Hb Hbq Hi Hh Hs HI' HS' Hrec.
  assert (queued tw' = queued tw) as Hq by (unfold queued; by rewrite Hs).
  split; try done; try congruence.
  - intros a x. rewrite Hh. destruct (decide (a = b)) as [->|Hne].
    + rewrite list_lookup_insert_eq by (by eapply lookup_lt_Some). by intros [= <-].
    + rewrite list_lookup_insert_ne by done. apply Ht.
  - intros a Ha. rewrite Hh, list_lookup_insert_ne; [by apply Hal|].
    intros ->. apply NoDup_app in Hnd as (_ & Hd & _). by apply (Hd a).
  - intros k a Hk. rewrite Hq. apply (Hix k). by apply Hrec.
Qed.

Lemma wheel_inv_RemoveTask (d n : Z) (chan : list addr) (tw : TimeWheel) (k : key_t) :
  wheel_inv d n chan tw -> wheel_inv d n chan (RemoveTask tw k).1.
Proof.
  intros Hinv. pose proof (wf_RemoveTask tw k (wi_wf _ _ _ _ Hinv)) as Hwf'.
  revert Hwf'. unfold RemoveTask. destruct k as [k|]; [|done].
  destruct (taskRecord tw !! Some k) as [b|] eqn:Hk; [|done].
  destruct (heap tw !! b) as [t|] eqn:Hb; [|done]. simpl. intros Hwf'.
  eapply (wheel_inv_store d n chan tw _ b t (task.set_times t 0)); try done.
  - by eapply wi_index.
  - simpl. by eapply wi_tasks.
  - simpl. intros k' a Hk'. by apply lookup_delete_Some in Hk' as [_ ?].
Qed.

Lemma wheel_inv_UpdateTask (d n : Z) (chan : list addr) (tw : TimeWheel) (k : key_t)
    (i : Z) (data : TaskData) :
  wheel_inv d n chan tw -> d <= i < 2 ^ 24 * Second ->
  wheel_inv d n chan (UpdateTask tw k i data).1.
Proof.
  intros Hinv Hi. pose proof (wf_UpdateTask tw k i data (wi_wf _ _ _ _ Hinv)) as Hwf'.
  revert Hwf'. unfold UpdateTask. destruct k as [k|]; [|done].
  destruct (taskRecord tw !! Some k) as [b|] eqn:Hk; [|done].
  destruct (heap tw !! b) as [t|] eqn:Hb; [|done]. simpl. intros Hwf'.
  eapply (wheel_inv_store d n chan tw _ b t (task.set_update t i data)); try done.
  by eapply wi_index.
Qed.

(** The admission of a task from the channel: it goes to the end of the
    slot [delay_steps] ahead of the cursor. *)
Lemma wheel_inv_addTask (d n : Z) (chan : list addr) (tw : TimeWheel) (a : addr) :
  wheel_inv d n chan tw -> a ∈ chan ->
  exists t l,
    heap tw !! a = Some t /\ task.times t <> 0 /\
    let st := delay_steps d (task.interval t) in
    let pos := Z.to_nat ((currentPos tw + st) mod n) in
    slots tw !! pos = Some (Some l) /\
    let tw' := mkTW (interval tw) (ticker tw)
                    (<[pos := Some (l ++ [a])]> (slots tw))
                    (currentPos tw) (slotNum tw)
                    (<[task.key t := a]> (taskRecord tw))
                    (<[a := task.set_circle t (st / n)]> (heap tw))
                    (fired tw) in
    addTask tw a = Done tw' /\ wheel_inv d n (remove_first a chan) tw'.
Proof.
  intros Hinv Ha. pose proof Hinv as [Hsane Hwf HI HS Ht Hnd Hal Hix].
  destruct (Hal a Ha) as (t & Hat & Hn0). pose proof (Ht a t Hat) as Hi.
  pose proof (sane_position d n chan tw (task.interval t) Hinv Hi) as Hg.
  set (st := delay_steps d (task.interval t)) in *.
  assert (0 <= (currentPos tw + st) mod n < n) as Hpos.
  { apply Z.mod_pos_bound. destruct Hsane as (_ & ? & _). lia. }
  destruct (lookup_lt_is_Some_2 (slots tw) (Z.to_nat ((currentPos tw + st) mod n)))
    as [s Hs].
  { pose proof (wf_length _ Hwf). lia. }
  destruct (wf_nonnil _ Hwf _ _ Hs) as [l ->].
  exists t, l. split; [done|]. split; [done|]. cbv zeta. split; [done|].
  assert (addTask tw a
          = Done (mkTW (interval tw) (ticker tw)
                    (<[Z.to_nat ((currentPos tw + st) mod n) := Some (l ++ [a])]> (slots tw))
                    (currentPos tw) (slotNum tw)
                    (<[task.key t := a]> (taskRecord tw))
                    (<[a := task.set_circle t (st / n)]> (heap tw))
                    (fired tw))) as Hadd.
  { apply (addTask_Done tw a t ((currentPos tw + st) mod n) (st / n) l); try done. lia. }
  split; [done|].
  assert (wf (state_of (addTask tw a))) as Hwf' by (by apply wf_addTask).
  rewrite Hadd in Hwf'. simpl in Hwf'.
  destruct (queued_insert _ _ _ Hs) as (rest & EQ & EQ').
  set (tw' := mkTW _ _ _ _ _ _ _ _) in *.
  assert (queued tw' ≡ₚ a :: queued tw) as EQa.
  { unfold queued. simpl. rewrite EQ', EQ, <- app_assoc. cbn [app].
    by rewrite <- Permutation_middle. }
  split; try done.
  - intros b x. simpl. destruct (decide (b = a)) as [->|Hne].
    + rewrite list_lookup_insert_eq by (by eapply lookup_lt_Some). by intros [= <-].
    + rewrite list_lookup_insert_ne by done. apply Ht.
  - rewrite EQa, <- Permutation_middle.
    change (NoDup ((a :: remove_first a chan) ++ queued tw)).
    pose proof (remove_first_Permutation a chan Ha) as Hperm.
    by rewrite <- Hperm.
  - intros b Hb. simpl.
    assert (b ∈ chan) as Hb'.
    { rewrite (remove_first_Permutation a chan Ha). by right. }
    rewrite list_lookup_insert_ne; [by apply Hal|].
    intros <-. apply NoDup_app in Hnd as (Hnd & _ & _).
    rewrite (remove_first_Permutation a chan Ha) in Hnd.
    by apply NoDup_cons in Hnd as [? _].
  - intros k b. rewrite EQa. simpl. destruct (decide (k = task.key t)) as [->|Hne].
    + rewrite lookup_insert_eq. intros [= <-]. by left.
    + rewrite lookup_insert_ne by done. intros Hk. right. by eapply Hix.
Qed.

(** ** The control loop never panics *)

Lemma scan_ok_no_panic (fuel p : nat) (item : option nat) (tw tw' : TimeWheel) :
  scan_ok p tw item -> scan_loop fuel p item tw <> Panic tw'.
Proof.
  revert item tw. induction fuel as [|fuel IH]; intros [i|] tw Hok; simpl; try done.
  destruct (so_list _ _ _ Hok) as (l & Hp & Hnd & Hi).
  destruct (lookup_lt_is_Some_2 l i) as [b Hb]; [by apply Hi|].
  destruct (wf_addrs _ (so_wf _ _ _ Hok) _ _ _ Hp (list_elem_of_lookup_2 _ _ _ Hb))
    as [t Ht].
  destruct (scan_step_progress p i tw l b t Hok Hp Hb Ht)
    as (tw1 & item1 & -> & Hok1 & _).
  by apply IH.
Qed.

Lemma wheel_inv_scan_ok (d n : Z) (chan : list addr) (tw : TimeWheel) (l : list addr) :
  wheel_inv d n chan tw ->
  slots tw !! Z.to_nat (currentPos tw) = Some (Some l) ->
  scan_ok (Z.to_nat (currentPos tw)) tw (Front l).
Proof.
  intros Hinv Hp. split; [by eapply wi_wf|by eapply wheel_inv_tame|done|].
  exists l. split; [done|]. split; [by eapply wheel_inv_slot_NoDup|].
  intros i. destruct l; [done|]. simpl. intros [= <-]. lia.
Qed.

Lemma wheel_inv_cursor_slot (d n : Z) (chan : list addr) (tw : TimeWheel) :
  wheel_inv d n chan tw ->
  exists l, slots tw !! Z.to_nat (currentPos tw) = Some (Some l).
Proof.
  intros Hinv. pose proof (wi_wf _ _ _ _ Hinv) as Hwf.
  destruct (lookup_lt_is_Some_2 (slots tw) (Z.to_nat (currentPos tw))) as [s Hs].
  { pose proof (wf_length _ Hwf). pose proof (wf_pos _ Hwf). lia. }
  destruct (wf_nonnil _ Hwf _ _ Hs) as [l ->]. eauto.
Qed.

Lemma wheel_inv_tick_no_panic (d n : Z) (chan : list addr) (fuel : nat)
    (tw tw' : TimeWheel) :
  wheel_inv d n chan tw -> tickHandler fuel tw <> Panic tw'.
Proof.
  intros Hinv. destruct (wheel_inv_cursor_slot _ _ _ _ Hinv) as [l Hl].
  rewrite (tickHandler_unfold fuel tw l (wi_wf _ _ _ _ Hinv) Hl).
  pose proof (scan_ok_no_panic fuel _ _ tw tw' (wheel_inv_scan_ok _ _ _ _ _ Hinv Hl)) as H.
  destruct (scan_loop fuel _ (Front l) tw) as [tw1|tw1|tw1] eqn:Hloop; done.
Qed.

Lemma wheel_inv_tick_ends (d n : Z) (chan : list addr) (tw : TimeWheel) :
  wheel_inv d n chan tw ->
  exists l tw',
    slots tw !! Z.to_nat (currentPos tw) = Some (Some l) /\
    tickHandler (2 * length l) tw = Done tw'.
Proof.
  intros Hinv. destruct (wheel_inv_cursor_slot _ _ _ _ Hinv) as [l Hl].
  destruct (tickHandler_ends tw l (wi_wf _ _ _ _ Hinv) (wheel_inv_tame _ _ _ _ Hinv) Hl
              (wheel_inv_slot_NoDup _ _ _ _ _ _ Hinv Hl)) as [tw' Htw'].
  by exists l, tw'.
Qed.

Lemma wheel_inv_ticker (d n : Z) (chan : list addr) (tw : TimeWheel) (x : option Z) :
  wheel_inv d n chan tw -> wheel_inv d n chan (with_ticker tw x).
Proof.
  intros [Hsane [W1 W2 W3 W4 W5 W6 W7] HI HS Ht Hnd Hal Hix].
  split; done.
Qed.

Lemma sys_inv_step (d n : Z) (s s' : system) (x : action) :
  sys_inv d n s -> sane_action d x -> sys_step s x = Some s' -> sys_inv d n s'.
Proof.
  intros [Hw Htk Hal] Hx. unfold sys_step.
  destruct x as [| |i m k data j|k|k i data|fuel|a|]; simpl in Hx.
  - (* Start *)
    assert ((interval (wheel s) <=? 0) = false) as ->.
    { apply Z.leb_gt. rewrite (wi_interval _ _ _ _ Hw).
      destruct (wi_sane _ _ _ _ Hw) as [? _]. unfold Second in *. lia. }
    destruct (loop s); try done; intros [= <-]; split; simpl; try done;
      by apply wheel_inv_ticker.
  - destruct (loop s) eqn:Hl; try done; intros [= <-]; split; simpl; try done;
      rewrite ?Hl; done.
  - pose proof (wheel_inv_AddTask d n (senders s) (wheel s) i m k data j Hw Hx) as H.
    destruct (AddTask (wheel s) i m k data j) as [[tw1 [a|]] e];
      destruct (loop s) eqn:Hl; try done; intros [= <-]; split; simpl;
      rewrite ?Hl; try done; by subst tw1.
  - pose proof (wheel_inv_RemoveTask d n (senders s) (wheel s) k Hw) as H.
    destruct (loop s) eqn:Hl; try done; intros [= <-]; split; simpl;
      rewrite ?Hl; done.
  - pose proof (wheel_inv_UpdateTask d n (senders s) (wheel s) k i data Hw Hx) as H.
    destruct (loop s) eqn:Hl; try done; intros [= <-]; split; simpl;
      rewrite ?Hl; done.
  - destruct (loop s) eqn:Hl; try done. rewrite (Htk eq_refl).
    pose proof (wheel_inv_tickHandler d n (senders s) fuel (wheel s)) as H1.
    pose proof (wheel_inv_tick_no_panic d n (senders s) fuel (wheel s)) as H2.
    destruct (tickHandler fuel (wheel s)) as [tw1|tw1|tw1]; simpl; try done.
    + intros [= <-]. split; simpl; try done. by apply H1.
    + by destruct (H2 tw1 Hw).
  - destruct (loop s) eqn:Hl; try done.
    destruct (decide (a ∈ senders s)) as [Ha|]; [|done].
    destruct (wheel_inv_addTask d n (senders s) (wheel s) a Hw Ha)
      as (t & l & _ & _ & _ & -> & H1).
    simpl. intros [= <-]. split; simpl; try done.
  - destruct (loop s) eqn:Hl; try done. destruct (stoppers s); [done|].
    intros [= <-]. split; simpl; done.
Qed.

Lemma sys_inv_run (d n : Z) (xs : list action) (s s' : system) :
  sys_inv d n s -> Forall (sane_action d) xs -> sys_run xs s = Some s' ->
  sys_inv d n s'.
Proof.
  revert s. induction xs as [|x xs IH]; intros s Hinv Hxs; simpl.
  - by intros [= <-].
  - apply Forall_cons in Hxs as [Hx Hxs].
    destruct (sys_step s x) as [s1|] eqn:Hstep; [|done].
    apply IH; [|done]. by eapply sys_inv_step.
Qed.

Lemma sys_inv_boot (d n : Z) (tw : TimeWheel) :
  sane_wheel d n -> New d n = Some tw -> sys_inv d n (boot tw).
Proof.
  intros Hsane HN. destruct (New_heap d n tw HN) as (Hh & Hf & Hr & Hc & HI & HS & Hd & Hn & Hs).
  assert (queued tw = []) as Hq.
  { unfold queued. rewrite Hs. clear. induction (Z.to_nat n) as [|m IH]; [done|].
    simpl. exact IH. }
  split; simpl; try done. split; try done.
  - eapply wf_New; [|done]. destruct Hsane as (_ & _ & ?). lia.
  - intros a t. by rewrite Hh.
  - rewrite Hq. constructor.
  - intros a Ha. by apply elem_of_nil in Ha.
  - intros k a. by rewrite Hr.
Qed.

(** X10: a wheel used as intended does not panic and does not hang in a
    scan, in the executions in which nothing overlaps: every call of a public
    operation and every tick or admission of the control loop runs to its
    end before the next step begins, and [Start] is called only while no
    control loop is running.  These are the executions that [sys_run] is
    defined on; a second control loop on one wheel and operations that take
    effect inside a scan are not among them (for the latter see
    [racy_step]).  With a tick interval of at least one second, delays of at
    least one tick interval in every [AddTask] and [UpdateTask], and
    everything below [2^24] seconds: whatever such steps the callers and the
    control loop take, in any order, including [Stop] and a new [Start]
    after it, no step panics; whenever the control loop is at its [select],
    a tick returns after at most two iterations of the scan per task of the
    slot, and the task of any caller blocked in [AddTask] is admitted. *)
Theorem control_loop_never_panics (d n : Z) (tw0 : TimeWheel) (xs : list action)
    (s : system) :
  sane_wheel d n -> New d n = Some tw0 ->
  Forall (sane_action d) xs ->
  sys_run xs (boot tw0) = Some s ->
  loop s <> Crashed /\
  (loop s = Selecting ->
   (exists l s',
      slots (wheel s) !! Z.to_nat (currentPos (wheel s)) = Some (Some l) /\
      sys_step s (OnTick (2 * length l)) = Some s' /\ loop s' = Selecting) /\
   (forall a, a ∈ senders s ->
      exists s', sys_step s (OnTask a) = Some s' /\ loop s' = Selecting /\
                 a ∈ queued (wheel s') /\ a ∉ senders s')).
Proof.
  intros Hsane HN Hxs Hrun.
  pose proof (sys_inv_run d n xs _ s (sys_inv_boot d n tw0 Hsane HN) Hxs Hrun)
    as [Hw Htk Hal].
  split; [done|]. intros Hl. split.
  - destruct (wheel_inv_tick_ends d n _ _ Hw) as (l & tw' & Hp & Htick).
    exists l. eexists. split; [done|]. unfold sys_step.
    rewrite Hl, (Htk Hl), Htick. simpl. done.
  - intros a Ha.
    destruct (wheel_inv_addTask d n _ _ a Hw Ha) as (t & l & _ & _ & Hp & Hadd & Hinv).
    eexists. unfold sys_step. rewrite Hl, Hadd.
    destruct (decide (a ∈ senders s)); [|done]. simpl.
    split; [done|]. split; [done|]. split.
    + apply elem_of_queued. eexists _, _. simpl. split.
      * apply list_lookup_insert_eq. by eapply lookup_lt_Some.
      * set_solver.
    + pose proof (wi_nodup _ _ _ _ Hw) as Hnd.
      apply NoDup_app in Hnd as (Hnd & _ & _).
      rewrite (remove_first_Permutation a _ Ha) in Hnd.
      by apply NoDup_cons in Hnd as [? _].
Qed.

(** ** Following one task through a scan *)

Lemma queued_one_slot (tw : TimeWheel) (p q : nat) (l lq : list addr) (a : addr) :
  NoDup (queued tw) ->
  slots tw !! p = Some (Some l) -> slots tw !! q = Some (Some lq) ->
  a ∈ l -> a ∈ lq -> p = q.
Proof.
  intros Hnd Hp Hq Ha Haq. destruct (decide (p = q)) as [|Hne]; [done|]. exfalso.
  destruct (queued_insert _ _ _ Hp) as (rest & E & E').
  assert (a ∈ rest) as Hrest.
  { assert (a ∈ mjoin (default [] <$> <[p := Some []]> (slots tw))) as Hin.
    { apply list_elem_of_join. exists lq. split; [done|].
      apply list_elem_of_fmap. exists (Some lq). split; [done|].
      apply (list_elem_of_lookup_2 _ q). by rewrite list_lookup_insert_ne. }
    by rewrite (E' []) in Hin. }
  unfold queued in Hnd. rewrite E in Hnd.
  apply NoDup_app in Hnd as (_ & Hd & _). by apply (Hd a).
Qed.

Section tracking.

Variables (d n : Z) (chan : list addr).

(** The task that is followed. *)
Variable a : addr.

(** An iteration on another task leaves [a] where it stands. *)
Lemma tracked_other (p i : nat) (tw tw' : TimeWheel) (item' : option nat)
    (pl : place) (x : task.t) (D : list dispatch) (l : list addr) (b : addr) :
  wheel_inv d n chan tw ->
  scan_step p i tw = StepNext tw' item' ->
  slots tw !! p = Some (Some l) -> l !! i = Some b -> b <> a ->
  tracked a p pl x D tw (Some i) ->
  tracked a p pl x D tw' item'.
Proof.
  intros Hinv Hstep Hp Hi Hne (Hx & HD & Hpl).
  destruct (wheel_inv_scan_step d n chan p i tw tw' item' Hinv Hstep)
    as (Hinv' & Hcur & l0 & b0 & t & Hp0 & Hi0 & Hb & Hshape & HQ).
  assert (l0 = l) as -> by congruence. assert (b0 = b) as -> by congruence.
  pose proof (wheel_inv_slot_NoDup _ _ _ _ _ _ Hinv Hp) as Hnd.
  pose proof (lookup_lt_Some _ _ _ Hi) as Hlt.
  assert (heap tw' !! a = Some x /\ dispatched a tw' = D) as [Hx' HD'].
  { destruct Hshape; simpl; rewrite ?list_lookup_insert_ne by done; split; try done.
    - by erewrite dispatched_other.
    - by erewrite dispatched_other. }
  split; [done|]. split; [done|].
  assert (forall k, l !! k = Some a -> (k < i)%nat -> delete i l !! k = Some a) as Hbefore.
  { intros k Hk Hki. by rewrite list_lookup_delete_lt. }
  assert (forall k, l !! k = Some a -> (i < k)%nat -> delete i l !! (k - 1)%nat = Some a)
    as Hafter.
  { intros k Hk Hki. rewrite list_lookup_delete_ge by lia.
    by replace (S (k - 1)) with k by lia. }
  assert (forall (pos : Z) (l' : list addr) (k : nat),
            <[p := Some (delete i l)]> (slots tw) !! Z.to_nat pos = Some (Some l') ->
            delete i l !! k = Some a ->
            exists l1, <[Z.to_nat pos := Some (l' ++ [b])]>
                         (<[p := Some (delete i l)]> (slots tw)) !! p = Some (Some l1) /\
                       l1 !! k = Some a) as Hpush.
  { intros pos l' k Hl' Hk. destruct (decide (Z.to_nat pos = p)) as [E|E].
    - rewrite E in *. rewrite list_lookup_insert_eq in Hl' by (by eapply lookup_lt_Some).
      injection Hl' as <-. exists (delete i l ++ [b]).
      split; [apply list_lookup_insert_eq; rewrite length_insert; by eapply lookup_lt_Some|].
      by apply lookup_app_l_Some.
    - exists (delete i l). rewrite list_lookup_insert_ne by done.
      split; [apply list_lookup_insert_eq; by eapply lookup_lt_Some|done]. }
  destruct pl as [| |q|].
  - (* ahead of the cursor *)
    destruct Hpl as (l1 & k & i1 & Hp1 & Hk & [= <-] & Hik).
    assert (l1 = l) as -> by congruence.
    assert (i < k)%nat as Hlt'.
    { destruct (decide (i = k)) as [->|]; [congruence|lia]. }
    pose proof (lookup_lt_Some _ _ _ Hk) as Hklt.
    assert (next_after_remove l i = Some i) as Hnext.
    { unfold next_after_remove. destruct (decide (S i < length l)%nat); [done|lia]. }
    destruct Hshape as [H0|H0 Hc|j H1 Hc Hj|j pos circle l' H0 H1 Hc Hj Hg Hpos Hcirc Hl'];
      simpl.
    + exists (delete i l), (k - 1)%nat, i.
      split; [apply list_lookup_insert_eq; by eapply lookup_lt_Some|].
      split; [by apply Hafter|]. split; [done|lia].
    + exists l, k, (S i). split; [done|]. split; [done|].
      unfold next_in_place. destruct (decide (S i < length l)%nat); [|lia].
      split; [done|lia].
    + exists (delete i l), (k - 1)%nat, i.
      split; [apply list_lookup_insert_eq; by eapply lookup_lt_Some|].
      split; [by apply Hafter|]. split; [done|lia].
    + destruct (Hpush pos l' (k - 1)%nat Hl' (Hafter k Hk Hlt')) as (l2 & Hl2 & Hk2).
      exists l2, (k - 1)%nat, i. split; [done|]. split; [done|]. split; [done|lia].
  - (* behind the cursor *)
    destruct Hpl as (l1 & k & Hp1 & Hk & Hik).
    assert (l1 = l) as -> by congruence.
    pose proof (Hik i eq_refl) as Hki.
    assert (forall i', next_after_remove l i = Some i' -> (k < i')%nat) as Hn1.
    { intros i'. unfold next_after_remove. destruct (decide _); [|done].
      intros [= <-]. done. }
    assert (forall i', next_in_place l i = Some i' -> (k < i')%nat) as Hn2.
    { intros i'. unfold next_in_place. destruct (decide _); [|done].
      intros [= <-]. lia. }
    destruct Hshape as [H0|H0 Hc|j H1 Hc Hj|j pos circle l' H0 H1 Hc Hj Hg Hpos Hcirc Hl'];
      simpl.
    + exists (delete i l), k.
      split; [apply list_lookup_insert_eq; by eapply lookup_lt_Some|].
      split; [by apply Hbefore|done].
    + by exists l, k.
    + exists (delete i l), k.
      split; [apply list_lookup_insert_eq; by eapply lookup_lt_Some|].
      split; [by apply Hbefore|done].
    + destruct (Hpush pos l' k Hl' (Hbefore k Hk Hki)) as (l2 & Hl2 & Hk2).
      by exists l2, k.
  - (* in another slot *)
    destruct Hpl as (Hqp & lq & Hq & Haq). split; [done|].
    destruct Hshape as [H0|H0 Hc|j H1 Hc Hj|j pos circle l' H0 H1 Hc Hj Hg Hpos Hcirc Hl'];
      simpl.
    + exists lq. by rewrite list_lookup_insert_ne.
    + by exists lq.
    + exists lq. by rewrite list_lookup_insert_ne.
    + destruct (decide (Z.to_nat pos = q)) as [E|E].
      * rewrite E in *. rewrite list_lookup_insert_ne in Hl' by done.
        assert (l' = lq) as -> by congruence.
        exists (lq ++ [b]).
        split; [apply list_lookup_insert_eq; rewrite length_insert; by eapply lookup_lt_Some|].
        apply elem_of_app. by left.
      * exists lq. by rewrite !list_lookup_insert_ne.
  - (* in no slot *)
    intros Hin. apply Hpl. destruct HQ as [->| ->]; [done|by right].
Qed.

Lemma queued_delete (tw : TimeWheel) (p i : nat) (l : list addr) :
  NoDup (queued tw) -> slots tw !! p = Some (Some l) -> l !! i = Some a ->
  a ∉ mjoin (default [] <$> <[p := Some (delete i l)]> (slots tw)).
Proof.
  intros Hnd Hp Hi. destruct (queued_insert _ _ _ Hp) as (rest & E & E').
  unfold queued in Hnd. rewrite E, (delete_Permutation l i a Hi) in Hnd.
  rewrite E'. by apply NoDup_cons in Hnd as [? _].
Qed.

Lemma visit_frame (tw tw' : TimeWheel) (p : nat) (x : task.t) (D : list dispatch) :
  interval tw' = interval tw -> slotNum tw' = slotNum tw ->
  currentPos tw' = currentPos tw ->
  visit tw' p a x D = visit tw p a x D.
Proof.
  intros H1 H2 H3. unfold visit.
  by rewrite (getPositionAndCircle_frame tw tw' _ H1 H2 H3).
Qed.

(** The iteration on [a] itself. *)
Lemma tracked_visit (p i : nat) (tw tw' : TimeWheel) (item' : option nat)
    (x x' : task.t) (D D' : list dispatch) (l : list addr) (pl' : place) :
  wheel_inv d n chan tw ->
  scan_step p i tw = StepNext tw' item' ->
  slots tw !! p = Some (Some l) -> l !! i = Some a ->
  heap tw !! a = Some x -> dispatched a tw = D ->
  visit tw p a x D = Some (pl', x', D') ->
  pl' <> Ahead /\ tracked a p pl' x' D' tw' item'.
Proof.
  intros Hinv Hstep Hp Hi Hx HD Hvisit. subst D.
  destruct (wheel_inv_scan_step d n chan p i tw tw' item' Hinv Hstep)
    as (Hinv' & Hcur & l0 & b0 & t & Hp0 & Hi0 & Hb & Hshape & HQ).
  assert (l0 = l) as -> by congruence. assert (b0 = a) as -> by congruence.
  assert (t = x) as -> by congruence.
  pose proof (wi_nodup _ _ _ _ Hinv) as Hnd.
  apply NoDup_app in Hnd as (_ & _ & Hnd).
  pose proof (queued_delete tw p i l Hnd Hp Hi) as Hgone.
  pose proof (lookup_lt_Some _ _ _ Hx) as Hlt.
  unfold visit in Hvisit.
  destruct Hshape as [H0|H0 Hc|j H1 Hc Hj|j pos circle l' H0 H1 Hc Hj Hg Hpos Hcirc Hl'].
  - destruct (Z.eqb_spec (task.times x) 0); [|done].
    injection Hvisit as <- <- <-. split; [done|]. by repeat split.
  - destruct (Z.eqb_spec (task.times x) 0); [done|].
    destruct (Z.ltb_spec 0 (task.circle x)); [|lia].
    injection Hvisit as <- <- <-. split; [done|].
    split; [simpl; by apply list_lookup_insert_eq|]. split; [done|].
    exists l, i. split; [done|]. split; [done|].
    intros i'. unfold next_in_place. destruct (decide _); [|done].
    intros [= <-]. lia.
  - destruct (Z.eqb_spec (task.times x) 0); [lia|].
    destruct (Z.ltb_spec 0 (task.circle x)); [lia|]. rewrite Hj in Hvisit.
    destruct (Z.eqb_spec (task.times x) 1); [|done].
    injection Hvisit as <- <- <-. split; [done|].
    split; [simpl; by apply list_lookup_insert_eq|].
    split; [by apply dispatched_self|]. done.
  - destruct (Z.eqb_spec (task.times x) 0); [lia|].
    destruct (Z.ltb_spec 0 (task.circle x)); [lia|]. rewrite Hj in Hvisit.
    destruct (Z.eqb_spec (task.times x) 1); [done|]. rewrite Hg in Hvisit.
    destruct (decide (Z.to_nat pos = p)) as [|Hpp]; [done|].
    injection Hvisit as <- <- <-. split; [done|].
    split; [simpl; rewrite Hj; by apply list_lookup_insert_eq|].
    split; [by apply dispatched_self|]. split; [done|].
    exists (l' ++ [a]). simpl.
    split; [apply list_lookup_insert_eq; by eapply lookup_lt_Some|].
    apply elem_of_app. right. by apply list_elem_of_singleton.
Qed.

(** Once [a] is behind the cursor or not in the list, the rest of the scan
    leaves it alone. *)
Lemma tracked_rest (fuel p : nat) (item : option nat) (tw tw' : TimeWheel)
    (pl : place) (x : task.t) (D : list dispatch) :
  wheel_inv d n chan tw -> pl <> Ahead ->
  tracked a p pl x D tw item ->
  scan_loop fuel p item tw = Done tw' ->
  tracked a p pl x D tw' None.
Proof.
  intros Hinv Hpl. revert item tw Hinv.
  induction fuel as [|fuel IH]; intros [i|] tw Hinv Htr; simpl; try done.
  - intros [= <-]. destruct Htr as (H1 & H2 & H3). split; [done|]. split; [done|].
    destruct pl as [| |q|]; try done.
  - destruct (scan_step p i tw) as [tw1 item1|tw1] eqn:Hstep; [|done].
    destruct (wheel_inv_scan_step d n chan p i tw tw1 item1 Hinv Hstep)
      as (Hinv1 & _ & l & b & t & Hp & Hi & Hb & _).
    intros Hloop. apply (IH item1 tw1 Hinv1); [|done].
    apply (tracked_other p i tw tw1 item1 pl x D l b Hinv Hstep Hp Hi); [|done].
    pose proof (wi_nodup _ _ _ _ Hinv) as Hnd.
    apply NoDup_app in Hnd as (_ & _ & Hnd).
    pose proof (wheel_inv_slot_NoDup _ _ _ _ _ _ Hinv Hp) as Hndl.
    intros ->. destruct Htr as (_ & _ & Htr). destruct pl as [| |q|]; [done| | |].
    + destruct Htr as (l1 & k & Hp1 & Hk & Hik).
      assert (l1 = l) as -> by congruence.
      pose proof (Hik i eq_refl). pose proof (NoDup_lookup _ _ _ _ Hndl Hi Hk). lia.
    + destruct Htr as (Hqp & lq & Hq & Haq). apply Hqp. symmetry.
      eapply (queued_one_slot tw p q l lq a); try done.
      by eapply list_elem_of_lookup_2.
    + apply Htr. apply elem_of_queued. exists p, l. split; [done|].
      by eapply list_elem_of_lookup_2.
  - intros [= <-]. destruct Htr as (H1 & H2 & H3). split; [done|]. split; [done|].
    destruct pl as [| |q|]; try done.
Qed.

(** The scan reaches a task that is ahead of the cursor, and then leaves it
    alone. *)
Lemma tracked_ahead (fuel p : nat) (item : option nat) (tw tw' : TimeWheel)
    (x x' : task.t) (D D' : list dispatch) (pl' : place) :
  wheel_inv d n chan tw ->
  tracked a p Ahead x D tw item ->
  visit tw p a x D = Some (pl', x', D') ->
  scan_loop fuel p item tw = Done tw' ->
  tracked a p pl' x' D' tw' None.
Proof.
  revert item tw. induction fuel as [|fuel IH]; intros item tw Hinv Htr Hvisit.
  { destruct Htr as (_ & _ & l & k & i & _ & _ & -> & _). done. }
  pose proof Htr as (Hx & HD & l & k & i & Hp & Hk & -> & Hik). simpl.
  destruct (scan_step p i tw) as [tw1 item1|tw1] eqn:Hstep; [|done].
  destruct (wheel_inv_scan_step d n chan p i tw tw1 item1 Hinv Hstep)
    as (Hinv1 & Hcur & l0 & b & t & Hp0 & Hi & Hb & _).
  assert (l0 = l) as -> by congruence.
  intros Hloop. destruct (decide (b = a)) as [->|Hne].
  - destruct (tracked_visit p i tw tw1 item1 x x' D D' l pl' Hinv Hstep Hp Hi Hx HD Hvisit)
      as [Hpl' Htr1].
    by apply (tracked_rest fuel p item1 tw1 tw' pl' x' D' Hinv1 Hpl' Htr1).
  - apply (IH item1 tw1 Hinv1); [| |done].
    + by apply (tracked_other p i tw tw1 item1 Ahead x D l b Hinv Hstep Hp Hi).
    + rewrite <- Hvisit. apply visit_frame; [| |done].
      * by rewrite (wi_interval _ _ _ _ Hinv1), (wi_interval _ _ _ _ Hinv).
      * by rewrite (wi_slotNum _ _ _ _ Hinv1), (wi_slotNum _ _ _ _ Hinv).
Qed.

(** The task comes back into the list that is being scanned: it is run
    once, and the scan either passes it again, taking one circle off, or
    ends before it gets there. *)
Lemma tracked_ahead_back (fuel p : nat) (item : option nat) (tw tw' : TimeWheel)
    (x : task.t) (D : list dispatch) (j : Job) (pos c : Z) :
  wheel_inv d n chan tw -> p = Z.to_nat (currentPos tw) ->
  tracked a p Ahead x D tw item ->
  task.times x <> 0 -> task.times x <> 1 -> task.circle x <= 0 ->
  task.job x = Some j ->
  getPositionAndCircle tw (task.interval x) = Some (pos, c) -> Z.to_nat pos = p ->
  scan_loop fuel p item tw = Done tw' ->
  exists c',
    (c' = c \/ c' = c - 1) /\ 0 <= c' /\
    tracked a p Behind
      (task.mk (task.interval x)
               (if 0 <? task.times x then task.times x - 1 else task.times x)
               c' (task.key x) (task.job x) (task.taskData x))
      (D ++ [(a, j, task.taskData x)]) tw' None.
Proof.
  revert item tw. induction fuel as [|fuel IH];
    intros item tw Hinv Hpc Htr H0 H1 Hc Hj Hg Hpos.
  { destruct Htr as (_ & _ & l & k & i & _ & _ & -> & _). done. }
  pose proof Htr as (Hx & HD & l & k & i & Hp & Hk & -> & Hik). simpl.
  destruct (scan_step p i tw) as [tw1 item1|tw1] eqn:Hstep; [|done].
  destruct (wheel_inv_scan_step d n chan p i tw tw1 item1 Hinv Hstep)
    as (Hinv1 & Hcur & l0 & b & t & Hp0 & Hi & Hb & Hshape & _).
  assert (l0 = l) as -> by congruence.
  assert (getPositionAndCircle tw1 (task.interval x) = Some (pos, c)) as Hg1.
  { rewrite <- Hg. apply getPositionAndCircle_frame; [| |done].
    - by rewrite (wi_interval _ _ _ _ Hinv1), (wi_interval _ _ _ _ Hinv).
    - by rewrite (wi_slotNum _ _ _ _ Hinv1), (wi_slotNum _ _ _ _ Hinv). }
  intros Hloop. destruct (decide (b = a)) as [->|Hne].
  - (* the iteration on [a] *)
    assert (t = x) as -> by congruence. subst D.
    pose proof (lookup_lt_Some _ _ _ Hx) as Hlt.
    pose proof (lookup_lt_Some _ _ _ Hi) as Hil.
    destruct Hshape as [E|E E'|j' E|j' pos' c' l' _ _ _ Hj' Hg' Hpos' Hcirc Hl'];
      try done; try lia.
    assert (j' = j) as -> by congruence.
    assert (pos' = pos /\ c' = c) as [-> ->] by (split; congruence).
    assert (0 < c) as Hcpos.
    { apply Hcirc. pose proof (wf_pos _ (wi_wf _ _ _ _ Hinv)). lia. }
    rewrite Hpos, list_lookup_insert_eq in Hl' by (by eapply lookup_lt_Some).
    injection Hl' as <-.
    set (x1 := task.mk (task.interval x)
                 (if 0 <? task.times x then task.times x - 1 else task.times x)
                 c (task.key x) (task.job x) (task.taskData x)) in *.
    set (tw1 := mkTW _ _ _ _ _ _ _ _) in *.
    assert (heap tw1 !! a = Some x1) as Hx1 by (simpl; by apply list_lookup_insert_eq).
    assert (dispatched a tw1 = dispatched a tw ++ [(a, j, task.taskData x)]) as HD1
      by (by apply dispatched_self).
    assert (slots tw1 !! p = Some (Some (delete i l ++ [a]))) as Hp1.
    { simpl. rewrite Hpos. apply list_lookup_insert_eq.
      rewrite length_insert. by eapply lookup_lt_Some. }
    assert ((delete i l ++ [a]) !! length (delete i l) = Some a) as Hk1.
    { rewrite lookup_app_r by lia. by rewrite Nat.sub_diag. }
    assert (task.times x1 <> 0) as Hx10.
    { simpl. destruct (Z.ltb_spec 0 (task.times x)); lia. }
    unfold next_after_remove in Hloop.
    destruct (decide (S i < length l)%nat) as [Hnl|Hnl].
    + (* the scan goes on and passes [a] once more *)
      exists (c - 1). split; [by right|]. split; [lia|].
      assert (tracked a p Ahead x1 (dispatched a tw ++ [(a, j, task.taskData x)])
                tw1 (Some i)) as Htr1.
      { split; [done|]. split; [done|].
        exists (delete i l ++ [a]), (length (delete i l)), i.
        split; [done|]. split; [done|]. split; [done|].
        rewrite length_delete by (by eexists). lia. }
      eapply (tracked_ahead fuel p (Some i) tw1 tw' x1 _ _ _ Behind Hinv1 Htr1); [|done].
      unfold visit. destruct (Z.eqb_spec (task.times x1) 0); [done|].
      destruct (Z.ltb_spec 0 (task.circle x1)); [done|]. simpl in *. lia.
    + (* [a] was the last of the list: the scan ends *)
      exists c. split; [by left|]. split; [lia|].
      destruct fuel; simpl in Hloop; injection Hloop as <-.
      * split; [done|]. split; [done|]. exists (delete i l ++ [a]), (length (delete i l)).
        done.
      * split; [done|]. split; [done|]. exists (delete i l ++ [a]), (length (delete i l)).
        done.
  - apply (IH item1 tw1 Hinv1); try done.
    + congruence.
    + by apply (tracked_other p i tw tw1 item1 Ahead x D l b Hinv Hstep Hp Hi).
Qed.

End tracking.

(** ** Ticks and the task that waits *)

(** The distance from the cursor to a slot, after the cursor has moved on. *)
Lemma distance_after_tick (q c n : Z) :
  0 <= q < n -> 0 <= c < n -> q <> c ->
  (q - (c + 1) mod n) mod n = (q - c) mod n - 1.
Proof.
  intros Hq Hc Hne.
  assert ((q - c) mod n <> 0) as Hnz.
  { intros E. destruct (Z.lt_ge_cases q c).
    - assert ((q - c) mod n = q - c + n) as E'
        by (symmetry; apply (Z.mod_unique _ _ (-1)); lia). lia.
    - rewrite Z.mod_small in E by lia. lia. }
  pose proof (Z.mod_pos_bound (q - c) n ltac:(lia)) as Hb.
  destruct (Z.eq_dec (c + 1) n) as [E|E].
  - rewrite E, Z.mod_same, Z.sub_0_r by lia. rewrite (Z.mod_small q) by lia.
    symmetry. assert ((q - c) mod n = q - c + n) as ->; [|lia].
    symmetry. apply (Z.mod_unique _ _ (-1)); lia.
  - rewrite (Z.mod_small (c + 1)) by lia.
    replace (q - (c + 1)) with ((q - c) - 1) by lia.
    pose proof (Z.div_mod (q - c) n ltac:(lia)) as Hdm.
    symmetry. apply (Z.mod_unique _ _ ((q - c) / n)); lia.
Qed.

Lemma distance_full_round (c n : Z) :
  0 <= c < n -> (c - (c + 1) mod n) mod n = n - 1.
Proof.
  intros Hc. destruct (Z.eq_dec (c + 1) n) as [E|E].
  - rewrite E, Z.mod_same, Z.sub_0_r by lia. rewrite Z.mod_small by lia. lia.
  - rewrite (Z.mod_small (c + 1)) by lia.
    replace (c - (c + 1)) with (-1) by lia.
    symmetry. apply (Z.mod_unique _ _ (-1)); lia.
Qed.

Lemma distance_to_target (c st n : Z) :
  0 <= c < n -> ((c + st) mod n - c) mod n = st mod n.
Proof.
  intros Hc. rewrite Zminus_mod_idemp_l. f_equal. lia.
Qed.

Lemma distance_zero (q c n : Z) :
  0 <= q < n -> 0 <= c < n -> (q - c) mod n = 0 -> q = c.
Proof.
  intros Hq Hc E. destruct (Z.lt_ge_cases q c).
  - assert ((q - c) mod n = q - c + n) as E'
      by (symmetry; apply (Z.mod_unique _ _ (-1)); lia). lia.
  - rewrite Z.mod_small in E by lia. lia.
Qed.

Section tick_by_tick.

Variables (d n : Z) (chan : list addr) (a : addr).

Lemma in_slot_range (tw : TimeWheel) (q : nat) :
  wf tw -> in_slot tw a q -> 0 <= Z.of_nat q < slotNum tw.
Proof.
  intros Hwf (l & Hq & _). apply lookup_lt_Some in Hq.
  pose proof (wf_length _ Hwf). lia.
Qed.

(** A tick on another slot. *)
Lemma tick_elsewhere (fuel : nat) (tw tw' : TimeWheel) (q : nat) (x : task.t) :
  wheel_inv d n chan tw -> tickHandler fuel tw = Done tw' ->
  in_slot tw a q -> q <> Z.to_nat (currentPos tw) -> heap tw !! a = Some x ->
  heap tw' !! a = Some x /\ dispatched a tw' = dispatched a tw /\ in_slot tw' a q.
Proof.
  intros Hinv Htick Hq Hne Hx.
  destruct (wheel_inv_cursor_slot _ _ _ _ Hinv) as [l Hl].
  rewrite (tickHandler_unfold fuel tw l (wi_wf _ _ _ _ Hinv) Hl) in Htick.
  destruct (scan_loop fuel _ (Front l) tw) as [tw1|tw1|tw1] eqn:Hloop; try done.
  injection Htick as <-.
  destruct (tracked_rest d n chan a fuel (Z.to_nat (currentPos tw)) (Front l) tw tw1
              (Away q) x (dispatched a tw) Hinv ltac:(done)) as (H1 & H2 & H3 & H4);
    try done.
Qed.

(** A tick on the slot of the task. *)
Lemma tick_here (fuel : nat) (tw tw' : TimeWheel) (x x' : task.t)
    (D' : list dispatch) (pl' : place) :
  wheel_inv d n chan tw -> tickHandler fuel tw = Done tw' ->
  in_slot tw a (Z.to_nat (currentPos tw)) -> heap tw !! a = Some x ->
  visit tw (Z.to_nat (currentPos tw)) a x (dispatched a tw) = Some (pl', x', D') ->
  heap tw' !! a = Some x' /\ dispatched a tw' = D' /\
  match pl' with
  | Ahead => False
  | Behind => in_slot tw' a (Z.to_nat (currentPos tw))
  | Away q => q <> Z.to_nat (currentPos tw) /\ in_slot tw' a q
  | Out => a ∉ queued tw'
  end.
Proof.
  intros Hinv Htick (l & Hl & Ha) Hx Hvisit.
  rewrite (tickHandler_unfold fuel tw l (wi_wf _ _ _ _ Hinv) Hl) in Htick.
  destruct (scan_loop fuel _ (Front l) tw) as [tw1|tw1|tw1] eqn:Hloop; try done.
  injection Htick as <-.
  apply list_elem_of_lookup in Ha as [k Hk].
  assert (tracked a (Z.to_nat (currentPos tw)) Ahead x (dispatched a tw) tw (Front l)) as Htr.
  { split; [done|]. split; [done|]. exists l, k, 0%nat.
    split; [done|]. split; [done|]. split; [by destruct l|lia]. }
  destruct (tracked_ahead d n chan a fuel (Z.to_nat (currentPos tw)) (Front l) tw tw1
              x x' (dispatched a tw) D' pl' Hinv Htr Hvisit Hloop) as (H1 & H2 & H3).
  split; [done|]. split; [done|].
  destruct pl' as [| |q|]; simpl.
  - destruct H3 as (? & ? & ? & _ & _ & ? & _). done.
  - destruct H3 as (l1 & k1 & Hl1 & Hk1 & _). exists l1. split; [done|].
    by eapply list_elem_of_lookup_2.
  - done.
  - done.
Qed.

(** A tick on the slot of the task, when the task comes back into that
    slot. *)
Lemma tick_here_back (fuel : nat) (tw tw' : TimeWheel) (x : task.t) (j : Job)
    (pos c : Z) :
  wheel_inv d n chan tw -> tickHandler fuel tw = Done tw' ->
  in_slot tw a (Z.to_nat (currentPos tw)) -> heap tw !! a = Some x ->
  task.times x <> 0 -> task.times x <> 1 -> task.circle x <= 0 ->
  task.job x = Some j ->
  getPositionAndCircle tw (task.interval x) = Some (pos, c) ->
  Z.to_nat pos = Z.to_nat (currentPos tw) ->
  exists c',
    (c' = c \/ c' = c - 1) /\ 0 <= c' /\
    heap tw' !! a
    = Some (task.mk (task.interval x)
                    (if 0 <? task.times x then task.times x - 1 else task.times x)
                    c' (task.key x) (task.job x) (task.taskData x)) /\
    dispatched a tw' = dispatched a tw ++ [(a, j, task.taskData x)] /\
    in_slot tw' a (Z.to_nat (currentPos tw)).
Proof.
  intros Hinv Htick (l & Hl & Ha) Hx H0 H1 Hc Hj Hg Hpos.
  rewrite (tickHandler_unfold fuel tw l (wi_wf _ _ _ _ Hinv) Hl) in Htick.
  destruct (scan_loop fuel _ (Front l) tw) as [tw1|tw1|tw1] eqn:Hloop; try done.
  injection Htick as <-.
  apply list_elem_of_lookup in Ha as [k Hk].
  assert (tracked a (Z.to_nat (currentPos tw)) Ahead x (dispatched a tw) tw (Front l)) as Htr.
  { split; [done|]. split; [done|]. exists l, k, 0%nat.
    split; [done|]. split; [done|]. split; [by destruct l|lia]. }
  destruct (tracked_ahead_back d n chan a fuel (Z.to_nat (currentPos tw)) (Front l) tw tw1
              x (dispatched a tw) j pos c Hinv eq_refl Htr H0 H1 Hc Hj Hg Hpos Hloop)
    as (c' & Hc' & Hc0 & H2 & H3 & l1 & k1 & Hl1 & Hk1 & _).
  exists c'. split; [done|]. split; [done|]. split; [done|]. split; [done|].
  exists l1. split; [done|]. by eapply list_elem_of_lookup_2.
Qed.

Lemma tick_frame (fuel : nat) (tw tw' : TimeWheel) :
  wheel_inv d n chan tw -> tickHandler fuel tw = Done tw' ->
  0 < n /\ 0 <= currentPos tw < n /\
  currentPos tw' = (currentPos tw + 1) mod n /\ slotNum tw = n /\ slotNum tw' = n.
Proof.
  intros Hinv Htick. pose proof (wi_wf _ _ _ _ Hinv) as Hwf.
  destruct (tickHandler_cursor fuel tw tw' Hwf Htick) as (H1 & H2 & _).
  pose proof (wf_pos _ Hwf) as Hc. pose proof (wf_slotNum _ Hwf) as HS.
  rewrite (wi_slotNum _ _ _ _ Hinv) in *. repeat split; try lia; done.
Qed.

Lemma waits_here (tw : TimeWheel) (x : task.t) (q : nat) :
  wf tw -> in_slot tw a q ->
  (Z.of_nat q - currentPos tw) mod slotNum tw = 0 ->
  q = Z.to_nat (currentPos tw).
Proof.
  intros Hwf Hq E. pose proof (in_slot_range tw q Hwf Hq) as Hr.
  pose proof (wf_pos _ Hwf) as Hc.
  pose proof (distance_zero _ _ _ Hr Hc E). lia.
Qed.

(** A tick before the task is due takes one off the ticks it waits. *)
Lemma waits_tick_pass (fuel : nat) (tw tw' : TimeWheel) (x : task.t) (m : Z) :
  wheel_inv d n chan tw -> tickHandler fuel tw = Done tw' ->
  waits tw a x m -> 0 < m ->
  exists c, waits tw' a (task.set_circle x c) (m - 1) /\
            dispatched a tw' = dispatched a tw.
Proof.
  intros Hinv Htick (Hx & Ht0 & Hc0 & q & Hq & Hm) Hpos.
  destruct (tick_frame fuel tw tw' Hinv Htick) as (Hn & Hc & Hc' & HS & HS').
  pose proof (wi_wf _ _ _ _ Hinv) as Hwf.
  pose proof (in_slot_range tw q Hwf Hq) as Hqr. rewrite HS in *.
  destruct (decide (q = Z.to_nat (currentPos tw))) as [->|Hne].
  - rewrite Z2Nat.id, Z.sub_diag, Z.mod_0_l in Hm by lia.
    assert (0 < task.circle x) as Hcx by nia.
    destruct (tick_here fuel tw tw' x (task.set_circle x (task.circle x - 1))
                (dispatched a tw) Behind Hinv Htick Hq Hx) as (H1 & H2 & H3).
    { unfold visit. destruct (Z.eqb_spec (task.times x) 0); [done|].
      destruct (Z.ltb_spec 0 (task.circle x)); [done|lia]. }
    exists (task.circle x - 1). split; [|done].
    split; [done|]. split; [done|]. split; [simpl; lia|].
    exists (Z.to_nat (currentPos tw)). split; [done|].
    rewrite HS', Hc', Z2Nat.id, distance_full_round by lia. simpl.
    rewrite Z.mul_sub_distr_r. lia.
  - destruct (tick_elsewhere fuel tw tw' q x Hinv Htick Hq Hne Hx)
      as (H1 & H2 & H3).
    exists (task.circle x). split; [|done].
    assert (task.set_circle x (task.circle x) = x) as -> by (by destruct x).
    split; [done|]. split; [done|]. split; [done|].
    exists q. split; [done|].
    rewrite HS', Hc', distance_after_tick by lia. lia.
Qed.

Lemma waits_due (tw : TimeWheel) (x : task.t) :
  wheel_inv d n chan tw -> waits tw a x 0 ->
  task.circle x = 0 /\ in_slot tw a (Z.to_nat (currentPos tw)).
Proof.
  intros Hinv (Hx & Ht0 & Hc0 & q & Hq & Hm).
  pose proof (wi_wf _ _ _ _ Hinv) as Hwf.
  pose proof (wf_slotNum _ Hwf) as HS.
  pose proof (Z.mod_pos_bound (Z.of_nat q - currentPos tw) (slotNum tw) ltac:(lia)) as Hb.
  assert (task.circle x = 0) as Hc by nia.
  split; [done|]. rewrite Hc in Hm.
  rewrite <- (waits_here tw x q Hwf Hq); [done|lia].
Qed.

(** The tick that runs the task for the last time. *)
Lemma waits_tick_last (fuel : nat) (tw tw' : TimeWheel) (x : task.t) (j : Job) :
  wheel_inv d n chan tw -> tickHandler fuel tw = Done tw' ->
  waits tw a x 0 -> task.times x = 1 -> task.job x = Some j ->
  dispatched a tw' = dispatched a tw ++ [(a, j, task.taskData x)] /\
  heap tw' !! a = Some (task.set_times x 0) /\ a ∉ queued tw'.
Proof.
  intros Hinv Htick Hw H1 Hj. destruct (waits_due tw x Hinv Hw) as [Hc Hq].
  destruct Hw as (Hx & _).
  destruct (tick_here fuel tw tw' x (task.set_times x 0)
              (dispatched a tw ++ [(a, j, task.taskData x)]) Out Hinv Htick Hq Hx)
    as (H2 & H3 & H4); [|done].
  unfold visit. destruct (Z.eqb_spec (task.times x) 0); [lia|].
  destruct (Z.ltb_spec 0 (task.circle x)); [lia|]. rewrite Hj.
  destruct (Z.eqb_spec (task.times x) 1); [done|lia].
Qed.

(** The tick that runs the task and admits it again, into another slot. *)
Lemma waits_tick_again (fuel : nat) (tw tw' : TimeWheel) (x : task.t) (j : Job) :
  wheel_inv d n chan tw -> tickHandler fuel tw = Done tw' ->
  waits tw a x 0 -> task.times x <> 1 -> task.job x = Some j ->
  let st := delay_steps d (task.interval x) in
  st mod n <> 0 ->
  dispatched a tw' = dispatched a tw ++ [(a, j, task.taskData x)] /\
  waits tw' a (task.mk (task.interval x)
                       (if 0 <? task.times x then task.times x - 1 else task.times x)
                       (st / n) (task.key x) (task.job x) (task.taskData x))
        (st - 1).
Proof.
  intros Hinv Htick Hw H1 Hj st Hst. destruct (waits_due tw x Hinv Hw) as [Hc Hq].
  destruct Hw as (Hx & H0 & _).
  destruct (tick_frame fuel tw tw' Hinv Htick) as (Hn & Hcur & Hc' & HS & HS').
  pose proof (wi_tasks _ _ _ _ Hinv _ _ Hx) as Hi.
  pose proof (sane_position d n chan tw _ Hinv Hi) as Hg. fold st in Hg.
  destruct (wi_sane _ _ _ _ Hinv) as (Hd & _ & _).
  pose proof (delay_steps_range d _ ltac:(lia) Hi) as Hsr. fold st in Hsr.
  pose proof (Z.mod_pos_bound (currentPos tw + st) n Hn) as Hpr.
  pose proof (distance_to_target (currentPos tw) st n Hcur) as Hdist.
  assert ((currentPos tw + st) mod n <> currentPos tw) as Hne.
  { intros E. rewrite E, Z.sub_diag, Z.mod_0_l in Hdist by lia. lia. }
  destruct (tick_here fuel tw tw' x
              (task.mk (task.interval x)
                       (if 0 <? task.times x then task.times x - 1 else task.times x)
                       (st / n) (task.key x) (task.job x) (task.taskData x))
              (dispatched a tw ++ [(a, j, task.taskData x)])
              (Away (Z.to_nat ((currentPos tw + st) mod n))) Hinv Htick Hq Hx)
    as (H2 & H3 & H4 & H5).
  { unfold visit. destruct (Z.eqb_spec (task.times x) 0); [lia|].
    destruct (Z.ltb_spec 0 (task.circle x)); [lia|]. rewrite Hj.
    destruct (Z.eqb_spec (task.times x) 1); [lia|]. rewrite Hg.
    destruct (decide _) as [E|E]; [lia|]. done. }
  split; [done|]. split; [done|]. split.
  { simpl. destruct (Z.ltb_spec 0 (task.times x)); lia. }
  split; [simpl; apply Z.div_pos; lia|].
  exists (Z.to_nat ((currentPos tw + st) mod n)). split; [done|].
  rewrite HS', Hc', Z2Nat.id, distance_after_tick, Hdist by lia. simpl.
  pose proof (Z.div_mod st n ltac:(lia)). lia.
Qed.

(** The tick that runs the task and admits it again: in every case the
    task is run once, and waits again. *)
Lemma waits_tick_run (fuel : nat) (tw tw' : TimeWheel) (x : task.t) (j : Job) :
  wheel_inv d n chan tw -> tickHandler fuel tw = Done tw' ->
  waits tw a x 0 -> task.job x = Some j ->
  dispatched a tw' = dispatched a tw ++ [(a, j, task.taskData x)].
Proof.
  intros Hinv Htick Hw Hj.
  destruct (Z.eq_dec (task.times x) 1) as [H1|H1].
  { by destruct (waits_tick_last fuel tw tw' x j Hinv Htick Hw H1 Hj). }
  destruct (Z.eq_dec (delay_steps d (task.interval x) mod n) 0) as [E|E].
  - destruct (waits_due tw x Hinv Hw) as [Hc Hq]. destruct Hw as (Hx & H0 & _).
    destruct (tick_frame fuel tw tw' Hinv Htick) as (Hn & Hcur & Hc' & HS & HS').
    pose proof (wi_tasks _ _ _ _ Hinv _ _ Hx) as Hi.
    pose proof (sane_position d n chan tw _ Hinv Hi) as Hg.
    destruct (tick_here_back fuel tw tw' x j _ _ Hinv Htick Hq Hx H0 H1 ltac:(lia) Hj Hg)
      as (c' & _ & _ & _ & H3 & _); [|done].
    f_equal. rewrite Z.add_mod, E, Z.add_0_r, Z.mod_mod, Z.mod_small by lia. done.
  - by destruct (waits_tick_again fuel tw tw' x j Hinv Htick Hw H1 Hj E).
Qed.

End tick_by_tick.

(** ** Schedules *)

Section schedules.

Variables (d n : Z) (a : addr).

(** A tick leaves a task that is in no slot alone. *)
Lemma tick_out (chan : list addr) (fuel : nat) (tw tw' : TimeWheel) (x : task.t) :
  wheel_inv d n chan tw -> tickHandler fuel tw = Done tw' ->
  a ∉ queued tw -> heap tw !! a = Some x ->
  heap tw' !! a = Some x /\ dispatched a tw' = dispatched a tw /\ a ∉ queued tw'.
Proof.
  intros Hinv Htick Hq Hx.
  destruct (wheel_inv_cursor_slot _ _ _ _ Hinv) as [l Hl].
  rewrite (tickHandler_unfold fuel tw l (wi_wf _ _ _ _ Hinv) Hl) in Htick.
  destruct (scan_loop fuel _ (Front l) tw) as [tw1|tw1|tw1] eqn:Hloop; try done.
  injection Htick as <-.
  destruct (tracked_rest d n chan a fuel (Z.to_nat (currentPos tw)) (Front l) tw tw1
              Out x (dispatched a tw) Hinv ltac:(done)) as (H1 & H2 & H3);
    try done.
Qed.

(** The admission of the task. *)
Lemma admission_waits (s s' : system) :
  sys_inv d n s -> a ∈ senders s -> sys_step s (OnTask a) = Some s' ->
  exists t,
    heap (wheel s) !! a = Some t /\
    let st := delay_steps d (task.interval t) in
    waits (wheel s') a (task.set_circle t (st / n)) st /\
    dispatched a (wheel s') = dispatched a (wheel s) /\
    a ∉ senders s'.
Proof.
  intros [Hw Htk Hal] Ha. unfold sys_step.
  destruct (loop s) eqn:Hl; try done.
  destruct (decide (a ∈ senders s)); [|done].
  destruct (wheel_inv_addTask d n _ _ a Hw Ha) as (t & l & Hat & Hn0 & Hp & -> & Hinv').
  simpl. intros [= <-]. exists t. split; [done|]. simpl.
  pose proof (wi_wf _ _ _ _ Hw) as Hwf.
  pose proof (wf_pos _ Hwf) as Hc. pose proof (wf_slotNum _ Hwf) as HS.
  pose proof (wi_slotNum _ _ _ _ Hw) as HSn.
  destruct (wi_sane _ _ _ _ Hw) as (Hd & Hn & _).
  pose proof (delay_steps_range d _ ltac:(lia) (wi_tasks _ _ _ _ Hw _ _ Hat)) as Hst.
  set (st := delay_steps d (task.interval t)) in *.
  pose proof (Z.mod_pos_bound (currentPos (wheel s) + st) n ltac:(lia)) as Hpr.
  split; [|split; [done|]].
  - split; [simpl; apply list_lookup_insert_eq; by eapply lookup_lt_Some|].
    split; [done|]. split; [simpl; apply Z.div_pos; lia|].
    exists (Z.to_nat ((currentPos (wheel s) + st) mod n)). split.
    + exists (l ++ [a]). simpl.
      split; [apply list_lookup_insert_eq; by eapply lookup_lt_Some|].
      apply elem_of_app. right. by apply list_elem_of_singleton.
    + simpl. rewrite HSn, Z2Nat.id, distance_to_target by lia.
      pose proof (Z.div_mod st n ltac:(lia)). lia.
  - pose proof (wi_nodup _ _ _ _ Hw) as Hnd.
    apply NoDup_app in Hnd as (Hnd & _ & _).
    rewrite (remove_first_Permutation a _ Ha) in Hnd.
    by apply NoDup_cons in Hnd as [? _].
Qed.

Lemma in_slot_queued (tw : TimeWheel) (q : nat) : in_slot tw a q -> a ∈ queued tw.
Proof. intros (l & Hl & Ha). apply elem_of_queued. eauto. Qed.

(** What is not a tick and does not name the key of the task leaves the
    task where it is. *)
Lemma step_keeps_task (s s' : system) (x : action) (x0 : task.t) :
  sys_inv d n s -> heap (wheel s) !! a = Some x0 -> a ∉ senders s ->
  match x with OnTick _ => False | _ => True end ->
  quiet (task.key x0) x \/ (a ∉ queued (wheel s)) ->
  sys_step s x = Some s' ->
  heap (wheel s') !! a = Some x0 /\
  dispatched a (wheel s') = dispatched a (wheel s) /\
  (a ∉ senders s') /\
  currentPos (wheel s') = currentPos (wheel s) /\
  slotNum (wheel s') = slotNum (wheel s) /\
  (forall q, in_slot (wheel s) a q -> in_slot (wheel s') a q) /\
  (a ∉ queued (wheel s) -> a ∉ queued (wheel s')).
Proof.
  intros [Hw Htk Hal] Hx Hns Htick Hquiet. unfold sys_step.
  pose proof (wi_wf _ _ _ _ Hw) as Hwf.
  assert (forall k b t0 t',
            taskRecord (wheel s) !! Some k = Some b -> heap (wheel s) !! b = Some t0 ->
            Some k <> task.key x0 \/ a ∉ queued (wheel s) ->
            <[b := t']> (heap (wheel s)) !! a = Some x0) as Hstore.
  { intros k b t0 t' Hk Hb Hq. rewrite list_lookup_insert_ne; [done|].
    intros ->. destruct Hq as [Hq|Hq].
    - destruct (wf_index _ Hwf _ _ Hk) as (t1 & Ht1 & Hkey). congruence.
    - apply Hq. by eapply wi_index. }
  destruct x as [| |i m k data j|k|k i data|fuel|b|]; simpl in *; try done.
  - destruct (interval (wheel s) <=? 0); destruct (loop s); try done;
      intros [= <-]; simpl; repeat split; done.
  - destruct (loop s); try done; intros [= <-]; simpl; repeat split; done.
  - destruct (illegal_params_dec i m k j) as [Hill|Hleg].
    { rewrite AddTask_illegal by done.
      destruct (loop s); try done; intros [= <-]; simpl; repeat split; done. }
    rewrite AddTask_legal by done.
    destruct (taskRecord (wheel s) !! k).
    { destruct (loop s); try done; intros [= <-]; simpl; repeat split; done. }
    assert (a ∉ senders s ++ [length (heap (wheel s))]) as Hns'.
    { intros [?|E%list_elem_of_singleton]%elem_of_app; [done|].
      apply lookup_lt_Some in Hx. lia. }
    destruct (loop s); try done; intros [= <-]; simpl; repeat split; try done;
      by apply lookup_app_l_Some.
  - assert (heap (RemoveTask (wheel s) k).1 !! a = Some x0 /\
            fired (RemoveTask (wheel s) k).1 = fired (wheel s) /\
            slots (RemoveTask (wheel s) k).1 = slots (wheel s) /\
            currentPos (RemoveTask (wheel s) k).1 = currentPos (wheel s) /\
            slotNum (RemoveTask (wheel s) k).1 = slotNum (wheel s)) as (H1 & H2 & H3 & H4 & H5).
    { unfold RemoveTask. destruct k as [k|]; [|done].
      destruct (taskRecord (wheel s) !! Some k) as [b|] eqn:Hk; [|done].
      destruct (heap (wheel s) !! b) as [t0|] eqn:Hb; [|done]. simpl.
      split; [|done]. by eapply Hstore. }
    destruct (loop s); try done; intros [= <-]; simpl; repeat split; try done;
      unfold dispatched, in_slot, queued; rewrite ?H2, ?H3; done.
  - assert (heap (UpdateTask (wheel s) k i data).1 !! a = Some x0 /\
            fired (UpdateTask (wheel s) k i data).1 = fired (wheel s) /\
            slots (UpdateTask (wheel s) k i data).1 = slots (wheel s) /\
            currentPos (UpdateTask (wheel s) k i data).1 = currentPos (wheel s) /\
            slotNum (UpdateTask (wheel s) k i data).1 = slotNum (wheel s))
      as (H1 & H2 & H3 & H4 & H5).
    { unfold UpdateTask. destruct k as [k|]; [|done].
      destruct (taskRecord (wheel s) !! Some k) as [b|] eqn:Hk; [|done].
      destruct (heap (wheel s) !! b) as [t0|] eqn:Hb; [|done]. simpl.
      split; [|done]. by eapply Hstore. }
    destruct (loop s); try done; intros [= <-]; simpl; repeat split; try done;
      unfold dispatched, in_slot, queued; rewrite ?H2, ?H3; done.
  - destruct (loop s) eqn:Hl; try done.
    destruct (decide (b ∈ senders s)) as [Hb|]; [|done].
    destruct (wheel_inv_addTask d n _ _ b Hw Hb) as (t & l & Hbt & Hn0 & Hp & -> & Hinv').
    simpl. intros [= <-]. simpl.
    assert (a <> b) as Hne by (intros ->; done).
    split; [by rewrite list_lookup_insert_ne|]. split; [done|].
    split.
    { intros Hin. apply Hns. rewrite (remove_first_Permutation b _ Hb). by right. }
    split; [done|]. split; [done|]. split.
    + intros q (lq & Hq & Haq).
      destruct (decide (q = Z.to_nat ((currentPos (wheel s) +
                  delay_steps d (task.interval t)) mod n))) as [->|Hqp].
      * assert (lq = l) as -> by congruence. exists (l ++ [b]). simpl.
        split; [apply list_lookup_insert_eq; by eapply lookup_lt_Some|].
        apply elem_of_app. by left.
      * exists lq. simpl. by rewrite list_lookup_insert_ne.
    + intros Hq (q & lq & Hlq & Haq)%elem_of_queued. simpl in Hlq.
      destruct (decide (q = Z.to_nat ((currentPos (wheel s) +
                  delay_steps d (task.interval t)) mod n))) as [->|Hqp].
      * rewrite list_lookup_insert_eq in Hlq by (by eapply lookup_lt_Some).
        injection Hlq as <-.
        apply elem_of_app in Haq as [Haq|Haq%list_elem_of_singleton]; [|done].
        apply Hq, elem_of_queued. eauto.
      * rewrite list_lookup_insert_ne in Hlq by done.
        apply Hq, elem_of_queued. eauto.
  - destruct (loop s); try done. destruct (stoppers s); [done|].
    intros [= <-]. simpl. repeat split; done.
Qed.

Lemma step_keeps_waits (s s' : system) (x : action) (x0 : task.t) (m : Z) :
  sys_inv d n s -> waits (wheel s) a x0 m -> a ∉ senders s ->
  match x with OnTick _ => False | _ => True end ->
  quiet (task.key x0) x ->
  sys_step s x = Some s' ->
  waits (wheel s') a x0 m /\ dispatched a (wheel s') = dispatched a (wheel s) /\
  a ∉ senders s'.
Proof.
  intros Hinv (Hx & H0 & Hc & q & Hq & Hm) Hns Htick Hquiet Hstep.
  destruct (step_keeps_task s s' x x0 Hinv Hx Hns Htick (or_introl Hquiet) Hstep)
    as (H1 & H2 & H3 & H4 & H5 & H6 & _).
  split; [|done]. split; [done|]. split; [done|]. split; [done|].
  exists q. split; [by apply H6|]. by rewrite H4, H5.
Qed.

Lemma ticks_nonneg (xs : list action) : 0 <= ticks xs.
Proof. induction xs as [|x xs IH]; simpl; [lia|]. destruct x; lia. Qed.

Lemma sys_tick_inv (s s' : system) (fuel : nat) :
  sys_inv d n s -> sys_step s (OnTick fuel) = Some s' ->
  tickHandler fuel (wheel s) = Done (wheel s') /\ senders s' = senders s.
Proof.
  intros [Hw Htk Hal]. unfold sys_step.
  destruct (loop s); try done. destruct (ticking s); [|done].
  pose proof (wheel_inv_tick_no_panic d n (senders s) fuel (wheel s)) as Hnp.
  destruct (tickHandler fuel (wheel s)) as [tw1|tw1|tw1]; simpl; try done.
  - by intros [= <-].
  - by destruct (Hnp tw1 Hw).
Qed.

(** Until it is due the task waits, whatever else happens. *)
Lemma run_keeps_waits (xs : list action) (s s' : system) (x0 : task.t) (m : Z) :
  sys_inv d n s -> waits (wheel s) a x0 m -> a ∉ senders s ->
  Forall (sane_action d) xs -> Forall (quiet (task.key x0)) xs ->
  sys_run xs s = Some s' -> ticks xs <= m ->
  sys_inv d n s' /\ (a ∉ senders s') /\
  dispatched a (wheel s') = dispatched a (wheel s) /\
  exists c, waits (wheel s') a (task.set_circle x0 c) (m - ticks xs).
Proof.
  revert s x0 m. induction xs as [|x xs IH]; intros s x0 m Hinv Hw Hns Hsane Hq; simpl.
  - intros [= <-] _. split; [done|]. split; [done|]. split; [done|].
    exists (task.circle x0). rewrite Z.sub_0_r.
    by assert (task.set_circle x0 (task.circle x0) = x0) as -> by (by destruct x0).
  - apply Forall_cons in Hsane as [Hx Hsane]. apply Forall_cons in Hq as [Hqx Hq].
    destruct (sys_step s x) as [s1|] eqn:Hstep; [|done].
    pose proof (sys_inv_step d n s s1 x Hinv Hx Hstep) as Hinv1.
    pose proof (ticks_nonneg xs) as Hnn.
    intros Hrun Hm.
    assert (forall fuel, x = OnTick fuel ->
              sys_inv d n s' /\ (a ∉ senders s') /\
              dispatched a (wheel s') = dispatched a (wheel s) /\
              exists c, waits (wheel s') a (task.set_circle x0 c) (m - (1 + ticks xs)))
      as Htick.
    { intros fuel ->. destruct (sys_tick_inv s s1 fuel Hinv Hstep) as [Ht Hs].
      destruct (waits_tick_pass d n (senders s) a fuel _ _ x0 m (si_wheel _ _ _ Hinv) Ht Hw
                  ltac:(simpl in Hm; lia)) as (c & Hw1 & HD1).
      destruct (IH s1 (task.set_circle x0 c) (m - 1) Hinv1 Hw1) as (H1 & H2 & H3 & c' & H4);
        try done; [by rewrite Hs|simpl in Hm; lia|].
      split; [done|]. split; [done|]. split; [congruence|].
      exists c'. replace (m - (1 + ticks xs)) with (m - 1 - ticks xs) by lia. done. }
    assert (match x with OnTick _ => False | _ => True end ->
              sys_inv d n s' /\ (a ∉ senders s') /\
              dispatched a (wheel s') = dispatched a (wheel s) /\
              exists c, waits (wheel s') a (task.set_circle x0 c) (m - ticks xs))
      as Hother.
    { intros Hnt.
      destruct (step_keeps_waits s s1 x x0 m Hinv Hw Hns Hnt Hqx Hstep) as (Hw1 & HD1 & Hns1).
      destruct (IH s1 x0 m Hinv1 Hw1 Hns1 Hsane Hq Hrun) as (H1 & H2 & H3 & H4).
      { destruct x; simpl in *; try done; lia. }
      split; [done|]. split; [done|]. split; [congruence|done]. }
    destruct x; try (by apply Hother); by eapply Htick.
Qed.

End schedules.

(** X11: a task that the control loop admits runs for the first time at
    the tick number [delay_steps + 1] after its admission, and not before,
    whatever the callers do in between with other keys.  [delay_steps] is
    the delay in ticks as [getPositionAndCircle] counts it, the whole
    seconds of the delay divided by the whole seconds of the tick interval;
    for a tick interval of whole seconds that is the delay divided by the
    tick interval ([delay_steps_whole_seconds]). *)
Theorem first_run_after_admission (d n : Z) (tw0 : TimeWheel) (xs0 xs : list action)
    (s s1 s' : system) (a : addr) (t : task.t) (j : Job) :
  sane_wheel d n -> New d n = Some tw0 ->
  Forall (sane_action d) xs0 -> sys_run xs0 (boot tw0) = Some s ->
  a ∈ senders s -> heap (wheel s) !! a = Some t -> task.job t = Some j ->
  sys_step s (OnTask a) = Some s1 ->
  Forall (sane_action d) xs -> Forall (quiet (task.key t)) xs ->
  sys_run xs s1 = Some s' ->
  let st := delay_steps d (task.interval t) in
  (ticks xs <= st -> dispatched a (wheel s') = dispatched a (wheel s)) /\
  (ticks xs = st ->
   forall fuel s'', sys_step s' (OnTick fuel) = Some s'' ->
     dispatched a (wheel s'') = dispatched a (wheel s) ++ [(a, j, task.taskData t)]).
Proof.
  intros Hsane HN Hxs0 Hrun0 Ha Ht Hj Hadm Hxs Hq Hrun st.
  pose proof (sys_inv_run d n xs0 _ s (sys_inv_boot d n tw0 Hsane HN) Hxs0 Hrun0) as Hinv.
  pose proof (sys_inv_step d n s s1 (OnTask a) Hinv I Hadm) as Hinv1.
  destruct (admission_waits d n a s s1 Hinv Ha Hadm) as (t' & Ht' & Hw & HD & Hns).
  assert (t' = t) as -> by congruence. fold st in Hw.
  assert (ticks xs <= st ->
            sys_inv d n s' /\ (a ∉ senders s') /\
            dispatched a (wheel s') = dispatched a (wheel s1) /\
            exists c, waits (wheel s') a (task.set_circle t c) (st - ticks xs)) as Hkeep.
  { intros Hle.
    destruct (run_keeps_waits d n a xs s1 s' _ st Hinv1 Hw Hns Hxs Hq Hrun Hle)
      as (H1 & H2 & H3 & c & H4). split; [done|]. split; [done|]. split; [done|].
    by exists c. }
  split.
  - intros Hle. destruct (Hkeep Hle) as (_ & _ & H3 & _). congruence.
  - intros E fuel s'' Hstep.
    destruct (Hkeep ltac:(lia)) as (Hinv' & _ & H3 & c & Hw').
    rewrite E, Z.sub_diag in Hw'.
    destruct (sys_tick_inv d n s' s'' fuel Hinv' Hstep) as [Htick _].
    rewrite (waits_tick_run d n (senders s') a fuel _ _ _ j (si_wheel _ _ _ Hinv') Htick Hw' Hj).
    simpl. congruence.
Qed.

(** ** The periodic schedule *)

Section periodic.

Variables (d n : Z) (a : addr) (t : task.t) (j : Job) (D0 : list dispatch).

Hypothesis Hj : task.job t = Some j.
Hypothesis Hst : delay_steps d (task.interval t) mod n <> 0.

Lemma after_runs_next (k c c' : Z) :
  (0 < task.times t -> k < task.times t) ->
  task.mk (task.interval (after_runs t k c))
          (if 0 <? task.times (after_runs t k c)
           then task.times (after_runs t k c) - 1
           else task.times (after_runs t k c))
          c' (task.key (after_runs t k c)) (task.job (after_runs t k c))
          (task.taskData (after_runs t k c))
  = after_runs t (k + 1) c'.
Proof.
  intros Hk. unfold after_runs. simpl. f_equal.
  destruct (Z.ltb_spec 0 (task.times t)) as [Hp|Hp].
  - destruct (Z.ltb_spec 0 (task.times t - k)); lia.
  - destruct (Z.ltb_spec 0 (task.times t)); lia.
Qed.

Lemma replicate_succ_end (k : Z) (x : dispatch) :
  0 <= k -> replicate (Z.to_nat (k + 1)) x = replicate (Z.to_nat k) x ++ [x].
Proof.
  intros Hk. replace (Z.to_nat (k + 1)) with (S (Z.to_nat k)) by lia.
  by rewrite replicate_S_end.
Qed.

Lemma on_schedule_tick (chan : list addr) (fuel : nat) (tw tw' : TimeWheel) (N : Z) :
  wheel_inv d n chan tw -> tickHandler fuel tw = Done tw' ->
  on_schedule d n a t j D0 N tw ->
  on_schedule d n a t j D0 (N + 1) tw'.
Proof.
  intros Hinv Htick (k & Hk & HD & [(m & c & Hlim & Hw & Hm & HN & Hkm)|Hdone]).
  - destruct (Z.eq_dec m 0) as [->|Hm0].
    + (* the tick that runs the task *)
      set (x := after_runs t k c) in *.
      assert (task.job x = Some j) as Hjx by done.
      destruct (Z.eq_dec (task.times x) 1) as [H1|H1].
      * destruct (waits_tick_last d n chan a fuel tw tw' x j Hinv Htick Hw H1 Hjx)
          as (H2 & H3 & H4).
        destruct (waits_due d n chan a tw x Hinv Hw) as [Hc0 _].
        assert (0 < task.times t /\ task.times t = k + 1) as [Hp Hk1].
        { subst x. simpl in H1. destruct (Z.ltb_spec 0 (task.times t)); [lia|].
          destruct Hw as (_ & ? & _). simpl in *.
          destruct (Z.ltb_spec 0 (task.times t)); lia. }
        exists (k + 1). split; [lia|]. split.
        { rewrite H2, HD, replicate_succ_end, app_assoc by done. done. }
        right. split; [done|]. split; [lia|]. split; [lia|]. split; [|done].
        rewrite H3. f_equal. subst x. unfold after_runs, task.set_times. simpl in *.
        f_equal; [|done]. destruct (Z.ltb_spec 0 (task.times t)); lia.
      * assert (delay_steps d (task.interval x) mod n <> 0) as Hstx by done.
        destruct (waits_tick_again d n chan a fuel tw tw' x j Hinv Htick Hw H1 Hjx Hstx)
          as (H2 & H3).
        rewrite (after_runs_next k c _ Hlim) in H3.
        exists (k + 1). split; [lia|]. split.
        { rewrite H2, HD, replicate_succ_end, app_assoc by done. done. }
        left. eexists _, _. split; [|split; [exact H3|]].
        { intros Hp. specialize (Hlim Hp). subst x. simpl in H1.
          destruct (Z.ltb_spec 0 (task.times t)); lia. }
        destruct (wi_sane _ _ _ _ Hinv) as (Hd & _ & _).
        destruct Hw as (Hx & _).
        pose proof (delay_steps_range d _ ltac:(lia) (wi_tasks _ _ _ _ Hinv _ _ Hx)) as Hr.
        simpl in *. split; [lia|]. split; [lia|]. right. lia.
    + (* a tick that passes *)
      destruct (waits_tick_pass d n chan a fuel tw tw' _ m Hinv Htick Hw ltac:(lia))
        as (c' & Hw' & HD').
      exists k. split; [done|]. split; [congruence|].
      left. exists (m - 1), c'. split; [done|]. split; [exact Hw'|].
      split; [lia|]. split; [lia|]. destruct Hkm; [by left|right; lia].
  - destruct Hdone as (Hp & Hkt & HN & Hx & Hq).
    destruct (tick_out d n a chan fuel tw tw' _ Hinv Htick Hq Hx) as (H1 & H2 & H3).
    exists k. split; [done|]. split; [congruence|].
    right. split; [done|]. split; [done|]. split; [lia|]. done.
Qed.

Lemma on_schedule_other (s s' : system) (x : action) (N : Z) :
  sys_inv d n s -> a ∉ senders s ->
  match x with OnTick _ => False | _ => True end ->
  quiet (task.key t) x -> sys_step s x = Some s' ->
  on_schedule d n a t j D0 N (wheel s) ->
  on_schedule d n a t j D0 N (wheel s') /\ a ∉ senders s'.
Proof.
  intros Hinv Hns Hnt Hq Hstep (k & Hk & HD & [(m & c & Hlim & Hw & Hm & HN & Hkm)|Hdone]).
  - destruct (step_keeps_waits d n a s s' x _ m Hinv Hw Hns Hnt Hq Hstep) as (Hw' & HD' & Hns').
    split; [|done]. exists k. split; [done|]. split; [congruence|].
    left. by exists m, c.
  - destruct Hdone as (Hp & Hkt & HN & Hx & Hnq).
    destruct (step_keeps_task d n a s s' x _ Hinv Hx Hns Hnt (or_intror Hnq) Hstep)
      as (H1 & H2 & H3 & _ & _ & _ & H4).
    split; [|done]. exists k. split; [done|]. split; [congruence|].
    right. split; [done|]. split; [done|]. split; [done|]. split; [done|]. by apply H4.
Qed.

Lemma on_schedule_run (xs : list action) (s s' : system) (N : Z) :
  sys_inv d n s -> a ∉ senders s ->
  on_schedule d n a t j D0 N (wheel s) ->
  Forall (sane_action d) xs -> Forall (quiet (task.key t)) xs ->
  sys_run xs s = Some s' ->
  on_schedule d n a t j D0 (N + ticks xs) (wheel s').
Proof.
  revert s N. induction xs as [|x xs IH]; intros s N Hinv Hns Hon Hsane Hq; simpl.
  - intros [= <-]. by rewrite Z.add_0_r.
  - apply Forall_cons in Hsane as [Hx Hsane]. apply Forall_cons in Hq as [Hqx Hq].
    destruct (sys_step s x) as [s1|] eqn:Hstep; [|done].
    pose proof (sys_inv_step d n s s1 x Hinv Hx Hstep) as Hinv1.
    intros Hrun.
    assert (match x with OnTick _ => False | _ => True end ->
            on_schedule d n a t j D0 (N + ticks xs) (wheel s')) as Hother.
    { intros Hnt.
      destruct (on_schedule_other s s1 x N Hinv Hns Hnt Hqx Hstep Hon) as [H1 H2].
      by apply (IH s1 N). }
    destruct x as [| | | | |fuel| |]; try (by apply Hother).
    destruct (sys_tick_inv d n s s1 fuel Hinv Hstep) as [Ht Hs].
    pose proof (on_schedule_tick (senders s) fuel _ _ N (si_wheel _ _ _ Hinv) Ht Hon) as H1.
    rewrite Z.add_assoc. apply (IH s1 (N + 1)); try done. by rewrite Hs.
Qed.

(** The number of runs, from where the task stands. *)
Lemma on_schedule_count (tw : TimeWheel) (N : Z) :
  1 <= delay_steps d (task.interval t) -> 0 <= N ->
  on_schedule d n a t j D0 N tw ->
  dispatched a tw
  = D0 ++ replicate (Z.to_nat (runs_by (task.times t) (delay_steps d (task.interval t)) N))
                    (a, j, task.taskData t).
Proof.
  intros Hs HN (k & Hk & HD & Hcase). rewrite HD. do 3 f_equal.
  set (st := delay_steps d (task.interval t)) in *.
  unfold runs_by.
  destruct Hcase as [(m & c & Hlim & _ & Hm & HNm & Hkm)|(Hp & Hkt & HNk & _)].
  - assert (Z.max 0 ((N - 1) / st) = k) as ->.
    { destruct Hkm as [->|Hmst].
      - assert ((N - 1) / st <= 0); [|lia].
        apply Z.lt_succ_r. apply Z.div_lt_upper_bound; lia.
      - assert ((N - 1) / st = k) as ->; [|lia].
        symmetry. apply (Z.div_unique _ _ _ (N - 1 - k * st)); nia. }
    destruct (Z.ltb_spec 0 (task.times t)) as [Hp|Hp]; [|done].
    specialize (Hlim Hp). lia.
  - destruct (Z.ltb_spec 0 (task.times t)); [|lia].
    assert (k <= (N - 1) / st) by (apply Z.div_le_lower_bound; nia). lia.
Qed.

End periodic.

(** The schedule from the admission on, for a system that keeps the
    invariant. *)
Lemma schedule_after_admission (d n : Z) (xs : list action) (s s1 s' : system)
    (a : addr) (t : task.t) (j : Job) :
  sys_inv d n s ->
  a ∈ senders s -> heap (wheel s) !! a = Some t -> task.job t = Some j ->
  delay_steps d (task.interval t) mod n <> 0 ->
  sys_step s (OnTask a) = Some s1 ->
  Forall (sane_action d) xs -> Forall (quiet (task.key t)) xs ->
  sys_run xs s1 = Some s' ->
  dispatched a (wheel s')
  = dispatched a (wheel s)
    ++ replicate (Z.to_nat (runs_by (task.times t) (delay_steps d (task.interval t))
                                    (ticks xs)))
                 (a, j, task.taskData t).
Proof.
  intros Hinv Ha Ht Hj Hst Hadm Hxs Hq Hrun.
  set (st := delay_steps d (task.interval t)) in *.
  pose proof (sys_inv_step d n s s1 (OnTask a) Hinv I Hadm) as Hinv1.
  destruct (admission_waits d n a s s1 Hinv Ha Hadm) as (t' & Ht' & Hw & HD & Hns).
  assert (t' = t) as -> by congruence. fold st in Hw.
  destruct (wi_sane _ _ _ _ (si_wheel _ _ _ Hinv)) as (Hd & Hn & Hmax).
  pose proof (delay_steps_range d _ ltac:(lia)
                (wi_tasks _ _ _ _ (si_wheel _ _ _ Hinv) _ _ Ht)) as Hr. fold st in Hr.
  assert (on_schedule d n a t j (dispatched a (wheel s)) 0 (wheel s1)) as Hon.
  { exists 0. split; [lia|]. split; [by rewrite app_nil_r|].
    left. exists st, (st / n). split.
    { destruct (si_wheel _ _ _ Hinv) as [_ _ _ _ _ _ Hal _].
      destruct (Hal a Ha) as (x & Hx & Hx0). assert (x = t) as -> by congruence. lia. }
    split.
    { assert (after_runs t 0 (st / n) = task.set_circle t (st / n)) as ->; [|done].
      unfold after_runs, task.set_circle. f_equal.
      destruct (0 <? task.times t); lia. }
    fold st. split; [lia|]. split; [lia|]. by left. }
  pose proof (on_schedule_run d n a t j _ Hj Hst xs s1 s' 0 Hinv1 Hns Hon Hxs Hq Hrun) as Hend.
  rewrite Z.add_0_l in Hend.
  apply (on_schedule_count d n a t j _ _ (ticks xs)); try done; [lia|].
  apply ticks_nonneg.
Qed.

(** X12: the schedule of a task whose delay is not a whole number of rounds
    of the wheel.  Taken in with [st] ticks of delay, it runs at the ticks
    [st + 1], [2 st + 1], ... after its admission, until it has had all its
    runs, whatever the callers do in between with other keys: after [N]
    ticks it has run [max 0 ((N - 1) / st)] times, or [times] times if that
    is less, each time with the job and the data it was added with. *)
Theorem periodic_schedule (d n : Z) (tw0 : TimeWheel) (xs0 xs : list action)
    (s s1 s' : system) (a : addr) (t : task.t) (j : Job) :
  sane_wheel d n -> New d n = Some tw0 ->
  Forall (sane_action d) xs0 -> sys_run xs0 (boot tw0) = Some s ->
  a ∈ senders s -> heap (wheel s) !! a = Some t -> task.job t = Some j ->
  let st := delay_steps d (task.interval t) in
  st mod n <> 0 ->
  sys_step s (OnTask a) = Some s1 ->
  Forall (sane_action d) xs -> Forall (quiet (task.key t)) xs ->
  sys_run xs s1 = Some s' ->
  dispatched a (wheel s')
  = dispatched a (wheel s)
    ++ replicate (Z.to_nat (runs_by (task.times t) st (ticks xs))) (a, j, task.taskData t).
Proof.
  intros Hsane HN Hxs0 Hrun0 Ha Ht Hj st Hst Hadm Hxs Hq Hrun.
  pose proof (sys_inv_run d n xs0 _ s (sys_inv_boot d n tw0 Hsane HN) Hxs0 Hrun0) as Hinv.
  by apply (schedule_after_admission d n xs s s1 s' a t j).
Qed.

(** ** A delay of whole rounds *)

(** The tick that runs a task that is alone in its slot and whose delay is a
    whole number of rounds: the task comes back into the slot, behind the
    end of the scan, with all its circles. *)
Lemma tick_alone (d n : Z) (chan : list addr) (a : addr) (fuel : nat)
    (tw tw' : TimeWheel) (x : task.t) (j : Job) :
  wheel_inv d n chan tw -> tickHandler fuel tw = Done tw' ->
  slots tw !! Z.to_nat (currentPos tw) = Some (Some [a]) ->
  heap tw !! a = Some x -> task.circle x = 0 ->
  task.times x <> 0 -> task.times x <> 1 -> task.job x = Some j ->
  let st := delay_steps d (task.interval x) in
  st mod n = 0 ->
  dispatched a tw' = dispatched a tw ++ [(a, j, task.taskData x)] /\
  waits tw' a (task.mk (task.interval x)
                       (if 0 <? task.times x then task.times x - 1 else task.times x)
                       (st / n) (task.key x) (task.job x) (task.taskData x))
        (st + n - 1).
Proof.
  intros Hinv Htick Hl Hx Hc H0 H1 Hj st Hst.
  destruct (tick_frame d n chan fuel tw tw' Hinv Htick) as (Hn & Hcur & Hc' & HS & HS').
  pose proof (wi_wf _ _ _ _ Hinv) as Hwf.
  pose proof (wi_tasks _ _ _ _ Hinv _ _ Hx) as Hi.
  pose proof (sane_position d n chan tw _ Hinv Hi) as Hg. fold st in Hg.
  destruct (wi_sane _ _ _ _ Hinv) as (Hd & _ & _).
  pose proof (delay_steps_range d _ ltac:(lia) Hi) as Hsr. fold st in Hsr.
  assert ((currentPos tw + st) mod n = currentPos tw) as Hpos.
  { rewrite Z.add_mod, Hst, Z.add_0_r, Z.mod_mod, Z.mod_small by lia. done. }
  rewrite Hpos in Hg.
  rewrite (tickHandler_unfold fuel tw [a] Hwf Hl) in Htick.
  destruct fuel as [|fuel]; [done|]. simpl in Htick.
  destruct (scan_step_shape (Z.to_nat (currentPos tw)) 0 tw [a] a x Hwf
              (wheel_inv_tame _ _ _ _ Hinv) Hl eq_refl Hx) as (tw1 & item1 & Hstep & Hshape).
  rewrite Hstep in Htick.
  destruct Hshape as [E|E E'|j' E|j' pos' c' l' _ _ _ Hj' Hg' Hpos' Hcirc Hl'];
    try done; try lia.
  assert (j' = j) as -> by congruence.
  assert (pos' = currentPos tw /\ c' = st / n) as [-> ->] by (split; congruence).
  rewrite list_lookup_insert_eq in Hl' by (by eapply lookup_lt_Some).
  injection Hl' as <-.
  unfold next_after_remove in Htick. simpl in Htick.
  assert (forall tw2, scan_loop fuel (Z.to_nat (currentPos tw)) None tw2 = Done tw2) as Hend
    by (by destruct fuel).
  rewrite Hend in Htick. injection Htick as <-.
  pose proof (lookup_lt_Some _ _ _ Hx) as Hlt.
  split; [by apply dispatched_self|].
  split; [simpl; by apply list_lookup_insert_eq|].
  split; [simpl; destruct (Z.ltb_spec 0 (task.times x)); lia|].
  split; [simpl; apply Z.div_pos; lia|].
  exists (Z.to_nat (currentPos tw)). split.
  - exists [a]. simpl. split; [|by apply list_elem_of_singleton].
    apply list_lookup_insert_eq. rewrite length_insert. by eapply lookup_lt_Some.
  - simpl. rewrite Z2Nat.id by lia. rewrite HS.
    rewrite (distance_full_round (currentPos tw) n Hcur).
    pose proof (Z.div_mod st n ltac:(lia)). lia.
Qed.

(** X13: a task whose delay is a whole number of rounds of the wheel and
    that is alone in its slot when it runs does not run again after its
    delay: the scan has ended when it comes back into the slot, so it keeps
    the circle that a passing scan would have taken off, and its next run
    comes [delay_steps + slotNum] ticks after this one. *)
Theorem whole_rounds_alone (d n : Z) (tw0 : TimeWheel) (xs0 xs : list action)
    (s s1 s' : system) (a : addr) (x : task.t) (j : Job) (fuel : nat) :
  sane_wheel d n -> New d n = Some tw0 ->
  Forall (sane_action d) xs0 -> sys_run xs0 (boot tw0) = Some s ->
  slots (wheel s) !! Z.to_nat (currentPos (wheel s)) = Some (Some [a]) ->
  heap (wheel s) !! a = Some x -> task.circle x = 0 ->
  task.times x <> 0 -> task.times x <> 1 -> task.job x = Some j ->
  let st := delay_steps d (task.interval x) in
  st mod n = 0 ->
  sys_step s (OnTick fuel) = Some s1 ->
  Forall (sane_action d) xs -> Forall (quiet (task.key x)) xs ->
  sys_run xs s1 = Some s' ->
  dispatched a (wheel s1) = dispatched a (wheel s) ++ [(a, j, task.taskData x)] /\
  (ticks xs <= st + n - 1 -> dispatched a (wheel s') = dispatched a (wheel s1)) /\
  (ticks xs = st + n - 1 ->
   forall fuel' s'', sys_step s' (OnTick fuel') = Some s'' ->
     dispatched a (wheel s'') = dispatched a (wheel s1) ++ [(a, j, task.taskData x)]).
Proof.
  intros Hsane HN Hxs0 Hrun0 Hl Hx Hc H0 H1 Hj st Hst Htick Hxs Hq Hrun.
  pose proof (sys_inv_run d n xs0 _ s (sys_inv_boot d n tw0 Hsane HN) Hxs0 Hrun0) as Hinv.
  pose proof (sys_inv_step d n s s1 (OnTick fuel) Hinv I Htick) as Hinv1.
  destruct (sys_tick_inv d n s s1 fuel Hinv Htick) as [Ht Hs].
  destruct (tick_alone d n (senders s) a fuel _ _ x j (si_wheel _ _ _ Hinv) Ht Hl Hx Hc
              H0 H1 Hj Hst) as [HD Hw]. fold st in Hw.
  assert (a ∉ senders s1) as Hns.
  { rewrite Hs. intros Hin.
    pose proof (wi_nodup _ _ _ _ (si_wheel _ _ _ Hinv)) as Hnd.
    apply NoDup_app in Hnd as (_ & Hdis & _). apply (Hdis a Hin).
    apply elem_of_queued. exists (Z.to_nat (currentPos (wheel s))), [a].
    split; [done|]. by apply list_elem_of_singleton. }
  split; [done|].
  assert (ticks xs <= st + n - 1 ->
          sys_inv d n s' /\
          dispatched a (wheel s') = dispatched a (wheel s1) /\
          exists c, waits (wheel s') a
                      (task.set_circle
                         (task.mk (task.interval x)
                            (if 0 <? task.times x then task.times x - 1 else task.times x)
                            (st / n) (task.key x) (task.job x) (task.taskData x)) c)
                      (st + n - 1 - ticks xs)) as Hkeep.
  { intros Hle.
    destruct (run_keeps_waits d n a xs s1 s' _ _ Hinv1 Hw Hns Hxs Hq Hrun Hle)
      as (G1 & _ & G3 & c & G4). split; [done|]. split; [done|]. by exists c. }
  split.
  - intros Hle. by destruct (Hkeep Hle) as (_ & ? & _).
  - intros E fuel' s'' Hstep.
    destruct (Hkeep ltac:(lia)) as (Hinv' & G3 & c & Hw').
    rewrite E, Z.sub_diag in Hw'.
    destruct (sys_tick_inv d n s' s'' fuel' Hinv' Hstep) as [Htick' _].
    rewrite (waits_tick_run d n (senders s') a fuel' _ _ _ j (si_wheel _ _ _ Hinv')
               Htick' Hw' Hj).
    simpl. congruence.
Qed.

(** ** Without a control loop *)

Lemma idle_step (s s' : system) (x : action) :
  loop s <> Selecting -> x <> DoStart -> sys_step s x = Some s' ->
  loop s' = loop s /\ ticking s' = ticking s /\
  fired (wheel s') = fired (wheel s) /\ slots (wheel s') = slots (wheel s) /\
  currentPos (wheel s') = currentPos (wheel s) /\
  (forall k b, taskRecord (wheel s') !! k = Some b -> taskRecord (wheel s) !! k = Some b) /\
  (exists more, senders s' = senders s ++ more) /\
  (stoppers s <= stoppers s')%nat.
Proof.
  intros Hl Hx. unfold sys_step.
  assert (forall s1, loop s1 = loop s -> ticking s1 = ticking s ->
            fired (wheel s1) = fired (wheel s) -> slots (wheel s1) = slots (wheel s) ->
            currentPos (wheel s1) = currentPos (wheel s) ->
            (forall k b, taskRecord (wheel s1) !! k = Some b ->
                         taskRecord (wheel s) !! k = Some b) ->
            (exists more, senders s1 = senders s ++ more) ->
            (stoppers s <= stoppers s1)%nat ->
            Some s1 = Some s' ->
            loop s' = loop s /\ ticking s' = ticking s /\
            fired (wheel s') = fired (wheel s) /\ slots (wheel s') = slots (wheel s) /\
            currentPos (wheel s') = currentPos (wheel s) /\
            (forall k b, taskRecord (wheel s') !! k = Some b ->
                         taskRecord (wheel s) !! k = Some b) /\
            (exists more, senders s' = senders s ++ more) /\
            (stoppers s <= stoppers s')%nat) as Hfin.
  { intros s1 ? ? ? ? ? ? ? ? [= <-]. done. }
  assert (exists more, senders s = senders s ++ more) as Hnil
    by (exists []; by rewrite app_nil_r).
  destruct x as [| |i m k data j|k|k i data|fuel|b|]; simpl; try done.
  - destruct (loop s) eqn:E; try done; apply Hfin; simpl; rewrite ?E; try done; lia.
  - unfold AddTask. destruct (_ || _).
    { destruct (loop s) eqn:E; try done; apply Hfin; simpl; rewrite ?E; done. }
    destruct (taskRecord (wheel s) !! k).
    { destruct (loop s) eqn:E; try done; apply Hfin; simpl; rewrite ?E; done. }
    destruct (loop s) eqn:E; try done; apply Hfin; simpl; rewrite ?E; try done; eauto.
  - assert (fired (RemoveTask (wheel s) k).1 = fired (wheel s) /\
            slots (RemoveTask (wheel s) k).1 = slots (wheel s) /\
            currentPos (RemoveTask (wheel s) k).1 = currentPos (wheel s) /\
            forall k' b, taskRecord (RemoveTask (wheel s) k).1 !! k' = Some b ->
                         taskRecord (wheel s) !! k' = Some b) as (H1 & H2 & H3 & H4).
    { unfold RemoveTask. destruct k as [k|]; [|done].
      destruct (taskRecord (wheel s) !! Some k) as [b|] eqn:Hk; [|done].
      destruct (heap (wheel s) !! b) as [t0|] eqn:Hb; [|done]. simpl.
      repeat split; try done. intros k' b' Hk'.
      by apply lookup_delete_Some in Hk' as [_ ?]. }
    destruct (loop s) eqn:E; try done; apply Hfin; simpl; rewrite ?E; done.
  - assert (fired (UpdateTask (wheel s) k i data).1 = fired (wheel s) /\
            slots (UpdateTask (wheel s) k i data).1 = slots (wheel s) /\
            currentPos (UpdateTask (wheel s) k i data).1 = currentPos (wheel s) /\
            taskRecord (UpdateTask (wheel s) k i data).1 = taskRecord (wheel s))
      as (H1 & H2 & H3 & H4).
    { unfold UpdateTask. destruct k as [k|]; [|done].
      destruct (taskRecord (wheel s) !! Some k) as [b|] eqn:Hk; [|done].
      by destruct (heap (wheel s) !! b) as [t0|] eqn:Hb. }
    destruct (loop s) eqn:E; try done; apply Hfin; simpl; rewrite ?E; try done;
      by rewrite H4.
  - by destruct (loop s).
  - by destruct (loop s).
  - by destruct (loop s).
Qed.

(** X14: while no control loop is at its [select], before the first [Start]
    or after a [Stop] has been taken, and as long as nobody calls [Start]:
    no job is dispatched, the slots and the cursor stay as they are, no task
    gets into the index, and nobody who blocks on a channel is served: every
    [AddTask] that passed its checks and every [Stop] stays blocked. *)
Theorem idle_without_control_loop (s s' : system) (xs : list action) :
  loop s <> Selecting -> Forall (fun x => x <> DoStart) xs ->
  sys_run xs s = Some s' ->
  loop s' = loop s /\ ticking s' = ticking s /\
  fired (wheel s') = fired (wheel s) /\ slots (wheel s') = slots (wheel s) /\
  currentPos (wheel s') = currentPos (wheel s) /\
  (forall k b, taskRecord (wheel s') !! k = Some b -> taskRecord (wheel s) !! k = Some b) /\
  (exists more, senders s' = senders s ++ more) /\
  (stoppers s <= stoppers s')%nat.
Proof.
  revert s. induction xs as [|x xs IH]; intros s Hl Hxs; simpl.
  - intros [= <-]. repeat split; try done. exists []. by rewrite app_nil_r.
  - apply Forall_cons in Hxs as [Hx Hxs].
    destruct (sys_step s x) as [s1|] eqn:Hstep; [|done].
    destruct (idle_step s s1 x Hl Hx Hstep)
      as (A1 & A2 & A3 & A4 & A5 & A6 & (m1 & A7) & A8).
    intros Hrun.
    destruct (IH s1 ltac:(by rewrite A1) Hxs Hrun)
      as (B1 & B2 & B3 & B4 & B5 & B6 & (m2 & B7) & B8).
    repeat split; try congruence; try lia.
    + intros k b Hk. by apply A6, B6.
    + exists (m1 ++ m2). by rewrite B7, A7, app_assoc.
Qed.

(** ** [UpdateTask] and the pending run *)



(** ** The example program *)

Lemma main_wheel_New : New Second 160 = Some main_wheel.
Proof. reflexivity. Qed.

Lemma main_sane : sane_wheel Second 160.
Proof. unfold sane_wheel, Second, max_int. lia. Qed.

Lemma main_inv_tick (s s' : system) (fuel : nat) :
  main_inv s -> sys_step s (OnTick fuel) = Some s' ->
  main_inv s' /\ senders s' = senders s /\
  (forall a, a ∈ senders s ->
     heap (wheel s') !! a = heap (wheel s) !! a /\
     dispatched a (wheel s') = dispatched a (wheel s)).
Proof.
  intros [Hsys Hl Hh Hf] Hstep.
  pose proof (sys_inv_step _ _ s s' (OnTick fuel) Hsys I Hstep) as Hsys'.
  destruct (sys_tick_inv _ _ s s' fuel Hsys Hstep) as [Htick Hs].
  pose proof (heap_length_tickHandler fuel (wheel s)) as Hlen.
  destruct (tickHandler_fires fuel (wheel s)) as (ds & Hds & Hin).
  rewrite Htick in Hlen, Hds. simpl in Hlen, Hds.
  split; [|split; [done|]].
  - split; [done| |congruence|].
    + revert Hstep. unfold sys_step. rewrite Hl.
      destruct (ticking s); [|done].
      destruct (tickHandler fuel (wheel s)); simpl; try done. by intros [= <-].
    + intros [[b j] data]. rewrite Hds. intros [Hd|Hd]%elem_of_app; [by apply Hf|].
      destruct (Hin b j data Hd) as (l & t & _ & _ & Ht & _).
      apply lookup_lt_Some in Ht. simpl. lia.
  - intros a Ha.
    destruct (wi_alloc _ _ _ _ (si_wheel _ _ _ Hsys) a Ha) as (t & Ht & _).
    assert (a ∉ queued (wheel s)) as Hq.
    { pose proof (wi_nodup _ _ _ _ (si_wheel _ _ _ Hsys)) as Hnd.
      apply NoDup_app in Hnd as (_ & Hdis & _). by apply Hdis. }
    destruct (tick_out Second 160 a (senders s) fuel _ _ t (si_wheel _ _ _ Hsys)
                Htick Hq Ht) as (H1 & H2 & _). split; congruence.
Qed.

Lemma main_inv_ticks (xs : list action) (s s' : system) :
  only_ticks xs -> main_inv s -> sys_run xs s = Some s' ->
  main_inv s' /\ senders s' = senders s /\
  (forall a, a ∈ senders s ->
     heap (wheel s') !! a = heap (wheel s) !! a /\
     dispatched a (wheel s') = dispatched a (wheel s)).
Proof.
  revert s. induction xs as [|x xs IH]; intros s Hxs Hinv; simpl.
  - by intros [= <-].
  - apply Forall_cons in Hxs as [[fuel ->] Hxs].
    destruct (sys_step s (OnTick fuel)) as [s1|] eqn:Hstep; [|done].
    destruct (main_inv_tick s s1 fuel Hinv Hstep) as (H1 & H2 & H3).
    intros Hrun. destruct (IH s1 Hxs H1 Hrun) as (G1 & G2 & G3).
    split; [done|]. split; [congruence|].
    intros a Ha. destruct (H3 a Ha) as [E1 E2].
    destruct (G3 a ltac:(by rewrite H2)) as [E3 E4]. split; congruence.
Qed.

Lemma sys_run_app (xs ys : list action) (s s' : system) :
  sys_run xs s = Some s' -> sys_run (xs ++ ys) s = sys_run ys s'.
Proof.
  revert s. induction xs as [|x xs IH]; intros s; simpl; [by intros [= <-]|].
  destruct (sys_step s x); [apply IH|done].
Qed.

Lemma sys_run_app_None (xs ys : list action) (s : system) :
  sys_run xs s = None -> sys_run (xs ++ ys) s = None.
Proof.
  revert s. induction xs as [|x xs IH]; intros s; simpl; [done|].
  destruct (sys_step s x); [apply IH|done].
Qed.

Lemma only_ticks_sane (d : Z) (k : key_t) (xs : list action) :
  only_ticks xs -> Forall (sane_action d) xs /\ Forall (quiet k) xs.
Proof.
  induction 1 as [|x xs [fuel ->] _ [IH1 IH2]]; [done|].
  split; by constructor.
Qed.

Lemma filter_all {A} (P : A -> Prop) `{forall x, Decision (P x)} (l : list A) :
  (forall x, x ∈ l -> P x) -> filter P l = l.
Proof.
  induction l as [|x l IH]; intros Hl; [done|].
  rewrite filter_cons_True by (apply Hl; by left).
  f_equal. apply IH. intros y Hy. apply Hl. by right.
Qed.

(** X16: the example program runs its job exactly five times, at the
    ticks 3, 5, 7, 9 and 11 after the control loop has taken the task from
    [AddTask], each time with [{"name": "nosixtools"}]; nothing else is ever
    dispatched.  The ticks that come before the task is taken do not
    count. *)
Theorem main_runs (xs1 xs2 : list action) (s' : system) :
  only_ticks xs1 -> only_ticks xs2 ->
  sys_run (main_calls ++ xs1 ++ OnTask 0 :: xs2) (boot main_wheel) = Some s' ->
  fired (wheel s')
  = replicate (Z.to_nat (runs_by 5 2 (ticks xs2))) (0%nat, main_job, main_data).
Proof.
  intros Hxs1 Hxs2.
  set (s0 := mkSys (with_ticker
                      (with_heap main_wheel
                         [task.mk (2 * Second) 5 0 (Some "did"%string) (Some main_job) main_data])
                      (Some Second))
                   Selecting true [0%nat] 0).
  assert (sys_run main_calls (boot main_wheel) = Some s0) as Hs0 by reflexivity.
  assert (main_inv s0) as Hinv0.
  { split; try done.
    - apply (sys_inv_run Second 160 main_calls (boot main_wheel));
        [by apply sys_inv_boot, main_wheel_New; apply main_sane| |done].
      repeat constructor; unfold Second; simpl; lia.
    - intros d Hd. by apply elem_of_nil in Hd. }
  rewrite (sys_run_app _ _ _ _ Hs0).
  destruct (sys_run xs1 s0) as [s1|] eqn:Hrun1.
  2:{ by rewrite (sys_run_app_None _ _ _ Hrun1). }
  rewrite (sys_run_app _ _ _ _ Hrun1). simpl.
  destruct (main_inv_ticks xs1 s0 s1 Hxs1 Hinv0 Hrun1) as (Hinv1 & Hsnd & Hheap).
  destruct (sys_step s1 (OnTask 0)) as [s2|] eqn:Hadm; [|done]. intros Hrun2.
  assert (0%nat ∈ senders s1) as Ha by (rewrite Hsnd; by left).
  destruct (Hheap 0%nat ltac:(by left)) as [Ht HD1]. simpl in Ht.
  change (dispatched 0 (wheel s0)) with (@nil dispatch) in HD1.
  destruct (only_ticks_sane Second (Some "did"%string) xs2 Hxs2) as [Hsane Hquiet].
  pose proof (schedule_after_admission Second 160 xs2 s1 s2 s' 0 _ main_job
                (mi_sys _ Hinv1) Ha Ht eq_refl ltac:(vm_compute; discriminate)
                Hadm Hsane Hquiet Hrun2) as Hsched.
  assert (main_inv s2) as Hinv2.
  { destruct Hinv1 as [Hsys Hl Hh Hf].
    pose proof (sys_inv_step _ _ s1 s2 (OnTask 0) Hsys I Hadm) as Hsys2.
    revert Hadm. unfold sys_step. rewrite Hl.
    destruct (decide (0%nat ∈ senders s1)); [|done].
    pose proof (heap_length_addTask (wheel s1) 0) as Hlen.
    pose proof (fired_addTask (wheel s1) 0) as Hfa.
    destruct (addTask (wheel s1) 0) as [tw|tw|tw] eqn:E; simpl in *; try done.
    - intros [= <-]. split; simpl; [done|done|congruence|by rewrite Hfa].
    - intros [= <-]. by destruct (si_alive _ _ _ Hsys2). }
  destruct (main_inv_ticks xs2 s2 s' Hxs2 Hinv2 Hrun2) as ([_ _ _ Hf'] & _ & _).
  rewrite HD1 in Hsched. simpl in Hsched.
  change (delay_steps Second (2 * Second)) with 2 in Hsched. rewrite <- Hsched.
  unfold dispatched. symmetry. by apply filter_all.
Qed.

(** ** The properties at work *)

Lemma sane_wheel_1s : sane_wheel Second 4.
Proof. unfold sane_wheel, Second, max_int. lia. Qed.

Lemma sane_2s : Second <= 2 * Second < 2 ^ 24 * Second.
Proof. unfold Second. lia. Qed.

Lemma sane_4s : Second <= 4 * Second < 2 ^ 24 * Second.
Proof. unfold Second. lia. Qed.

Lemma reachable_wheel_wf_witness :
  4 <= max_int /\ New Second 4 = Some wheel_1s /\
  wf wheel_due /\ Forall valid_task (heap wheel_due) /\
  taskRecord wheel_due !! None = None.
Proof.
  split; [unfold max_int; lia|]. split; [reflexivity|].
  apply (reachable_wheel_wf Second 4 wheel_1s
           [OpAddTask Second 2 (Some "a"%string) ∅ (Some 7%nat); OpRecv 0; OpTick 1]);
    [unfold max_int; lia|reflexivity].
Defined.

Lemma cursor_counts_ticks_witness :
  currentPos (state_of (run [OpTick 9; OpTick 9; OpTick 9; OpTick 9; OpTick 9] wheel_pending))
  = (currentPos wheel_pending + 5) mod slotNum wheel_pending.
Proof.
  destruct (cursor_counts_ticks wheel_pending
              (state_of (run [OpTick 9; OpTick 9; OpTick 9; OpTick 9; OpTick 9] wheel_pending))
              [OpTick 9; OpTick 9; OpTick 9; OpTick 9; OpTick 9] wheel_pending_wf
              ltac:(vm_compute; reflexivity)) as [H _].
  exact H.
Defined.

Lemma runs_are_counted_witness :
  exists t',
    heap (state_of (run [OpTick 9; OpTick 9; OpTick 9; OpTick 9; OpTick 9; OpTick 9]
                        wheel_pending)) !! 0%nat = Some t' /\
    0 <= task.times t' /\
    Z.of_nat (length (dispatched 0
       (state_of (run [OpTick 9; OpTick 9; OpTick 9; OpTick 9; OpTick 9; OpTick 9]
                      wheel_pending)))) + task.times t'
    <= Z.of_nat (length (dispatched 0 wheel_pending)) + 2.
Proof.
  apply (runs_are_counted wheel_pending 0
           (task.mk (4 * Second) 2 1 (Some "a"%string) (Some 7%nat) ∅)
           [OpTick 9; OpTick 9; OpTick 9; OpTick 9; OpTick 9; OpTick 9]
           wheel_pending_wf);
    [vm_compute; reflexivity|simpl; lia|repeat constructor; discriminate].
Defined.

Lemma task_keeps_key_and_job_witness :
  exists t' ds,
    heap (state_of (run [OpUpdateTask (Some "a"%string) Second ∅; OpTick 9;
                         OpRemoveTask (Some "a"%string); OpTick 9] wheel_pending))
      !! 0%nat = Some t' /\
    task.key t' = Some "a"%string /\ task.job t' = Some 7%nat /\
    fired (state_of (run [OpUpdateTask (Some "a"%string) Second ∅; OpTick 9;
                          OpRemoveTask (Some "a"%string); OpTick 9] wheel_pending))
    = fired wheel_pending ++ ds /\
    forall b j data, (b, j, data) ∈ ds -> b = 0%nat -> Some 7%nat = Some j.
Proof.
  apply (task_keeps_key_and_job wheel_pending 0
           (task.mk (4 * Second) 2 1 (Some "a"%string) (Some 7%nat) ∅)
           [OpUpdateTask (Some "a"%string) Second ∅; OpTick 9;
            OpRemoveTask (Some "a"%string); OpTick 9]).
  vm_compute; reflexivity.
Defined.

Lemma indexed_key_is_taken_witness :
  taskRecord wheel_pending !! Some "a"%string = Some 0%nat /\
  (exists c, heap wheel_pending !! 0%nat
             = Some (task.mk (4 * Second) 2 c (Some "a"%string) (Some 7%nat) ∅)) /\
  (forall d' n' data' j',
     exists e, AddTask wheel_pending d' n' (Some "a"%string) data' j'
               = (wheel_pending, None, Some e)) /\
  (forall d' data', (UpdateTask wheel_pending (Some "a"%string) d' data').2 = None) /\
  (RemoveTask wheel_pending (Some "a"%string)).2 = None.
Proof.
  apply (indexed_key_is_taken wheel_1s
           (AddTask wheel_1s (4 * Second) 2 (Some "a"%string) ∅ (Some 7%nat)).1.1
           wheel_pending (4 * Second) 2 (Some "a"%string) ∅ (Some 7%nat) 0);
    vm_compute; reflexivity.
Defined.

Lemma removed_key_is_free_witness :
  slots (RemoveTask wheel_pending (Some "a"%string)).1 = slots wheel_pending /\
  taskRecord (RemoveTask wheel_pending (Some "a"%string)).1 !! Some "a"%string = None /\
  exists tw2,
    AddTask (RemoveTask wheel_pending (Some "a"%string)).1 Second 1 (Some "a"%string) ∅
            (Some 8%nat)
    = (tw2, Some 1%nat, None).
Proof.
  destruct (removed_key_is_free wheel_pending "a" 0 wheel_pending_wf wheel_pending_index)
    as (H1 & H2 & _ & _ & H3).
  split; [exact H1|]. split; [exact H2|].
  apply (H3 Second 1 ∅ (Some 8%nat)).
  unfold illegal_params. intros [?|[?|[?|[?|?]]]]; done.
Defined.

Lemma purge_drops_reused_key_witness :
  slots wheel_reused !! 0%nat = Some (Some [0; 1]%nat) /\
  taskRecord wheel_reused !! Some "a"%string = Some 1%nat /\
  exists tw',
    scan_step 0 0 wheel_reused = StepNext tw' (Some 0%nat) /\
    slots tw' !! 0%nat = Some (Some [1%nat]) /\
    heap tw' !! 1%nat
    = Some (task.mk (4 * Second) 2 1 (Some "a"%string) (Some 8%nat) ∅) /\
    RemoveTask tw' (Some "a"%string) = (tw', Some ErrNotExists).
Proof.
  split; [reflexivity|]. split; [reflexivity|].
  destruct (purge_drops_reused_key wheel_reused 0 0 [0; 1]%nat 0 1
              (task.mk (4 * Second) 0 1 (Some "a"%string) (Some 7%nat) ∅) "a"
              eq_refl eq_refl eq_refl eq_refl eq_refl eq_refl ltac:(discriminate))
    as (tw' & H1 & H2 & _ & _ & H3 & _ & H4 & _).
  exists tw'. split; [exact H1|]. split; [exact H3|]. split; [by rewrite H2|exact H4].
Defined.

Lemma AddTask_does_not_reserve_key_witness :
  exists tw2 a2,
    AddTask (AddTask wheel_1s (4 * Second) 2 (Some "a"%string) ∅ (Some 7%nat)).1.1
            Second 1 (Some "a"%string) ∅ (Some 8%nat)
    = (tw2, Some a2, None) /\ a2 <> 0%nat.
Proof.
  destruct (AddTask_does_not_reserve_key wheel_1s
              (AddTask wheel_1s (4 * Second) 2 (Some "a"%string) ∅ (Some 7%nat)).1.1
              (4 * Second) 2 Second 1 "a" ∅ ∅ (Some 7%nat) (Some 8%nat) 0 eq_refl)
    as (tw2 & a2 & H1 & H2 & _).
  { unfold illegal_params. intros [?|[?|[?|[?|?]]]]; done. }
  by exists tw2, a2.
Defined.


Lemma calls_2s_sane : Forall (sane_action Second) calls_2s.
Proof. repeat constructor; apply sane_2s. Qed.

Lemma calls_2s_run : sys_run calls_2s (boot wheel_1s) = Some sys_2s.
Proof. vm_compute. reflexivity. Qed.

Lemma sys_2s_sender : 0%nat ∈ senders sys_2s.
Proof. vm_compute. constructor. Qed.

Lemma sys_2s_heap : heap (wheel sys_2s) !! 0%nat = Some task_2s.
Proof. vm_compute. reflexivity. Qed.

Lemma sys_2s_admission : sys_step sys_2s (OnTask 0) = Some (sys_after [OnTask 0] sys_2s).
Proof. vm_compute. reflexivity. Qed.

Lemma ticks_sane (d : Z) (k : key_t) (m : nat) :
  Forall (sane_action d) (replicate m (OnTick 2)) /\
  Forall (quiet k) (replicate m (OnTick 2)).
Proof. induction m as [|m [IH1 IH2]]; split; by constructor. Qed.

Lemma calls_4s_sane : Forall (sane_action Second) calls_4s.
Proof. repeat constructor; apply sane_4s. Qed.

Lemma control_loop_never_panics_witness :
  loop sys_2s = Selecting /\
  exists s', sys_step sys_2s (OnTask 0) = Some s' /\ loop s' = Selecting /\
             0%nat ∈ queued (wheel s') /\ 0%nat ∉ senders s'.
Proof.
  split; [reflexivity|].
  destruct (control_loop_never_panics Second 4 wheel_1s calls_2s sys_2s
              sane_wheel_1s eq_refl calls_2s_sane calls_2s_run) as (_ & H).
  destruct (H eq_refl) as (_ & H2). apply (H2 0%nat sys_2s_sender).
Defined.

Lemma first_run_after_admission_witness :
  dispatched 0 (wheel (sys_after [OnTask 0; OnTick 2; OnTick 2] sys_2s))
  = dispatched 0 (wheel sys_2s) /\
  dispatched 0 (wheel (sys_after [OnTask 0; OnTick 2; OnTick 2; OnTick 2] sys_2s))
  = dispatched 0 (wheel sys_2s) ++ [(0%nat, 7%nat, ∅)].
Proof.
  destruct (first_run_after_admission Second 4 wheel_1s calls_2s [OnTick 2; OnTick 2]
              sys_2s (sys_after [OnTask 0] sys_2s)
              (sys_after [OnTask 0; OnTick 2; OnTick 2] sys_2s)
              0 task_2s 7%nat sane_wheel_1s eq_refl calls_2s_sane calls_2s_run
              sys_2s_sender sys_2s_heap eq_refl sys_2s_admission
              (proj1 (ticks_sane Second (Some "a"%string) 2))
              (proj2 (ticks_sane Second (Some "a"%string) 2))
              ltac:(vm_compute; reflexivity)) as [H1 H2].
  split.
  - apply H1. vm_compute. discriminate.
  - apply (H2 ltac:(vm_compute; reflexivity) 2%nat). vm_compute. reflexivity.
Defined.

Lemma periodic_schedule_witness :
  dispatched 0
    (wheel (sys_after [OnTask 0; OnTick 2; OnTick 2; OnTick 2; OnTick 2; OnTick 2] sys_2s))
  = [(0%nat, 7%nat, ∅); (0%nat, 7%nat, ∅)].
Proof.
  etrans.
  - apply (periodic_schedule Second 4 wheel_1s calls_2s
             [OnTick 2; OnTick 2; OnTick 2; OnTick 2; OnTick 2]
             sys_2s (sys_after [OnTask 0] sys_2s)
             (sys_after [OnTask 0; OnTick 2; OnTick 2; OnTick 2; OnTick 2; OnTick 2] sys_2s)
             0 task_2s 7%nat sane_wheel_1s eq_refl calls_2s_sane calls_2s_run
             sys_2s_sender sys_2s_heap eq_refl ltac:(vm_compute; discriminate)
             sys_2s_admission
             (proj1 (ticks_sane Second (Some "a"%string) 5))
             (proj2 (ticks_sane Second (Some "a"%string) 5))
             ltac:(vm_compute; reflexivity)).
  - vm_compute. reflexivity.
Defined.

Lemma whole_rounds_alone_witness :
  slots (wheel sys_4s) !! Z.to_nat (currentPos (wheel sys_4s)) = Some (Some [0%nat]) /\
  dispatched 0 (wheel (sys_after [OnTick 2] sys_4s))
  = dispatched 0 (wheel sys_4s) ++ [(0%nat, 7%nat, ∅)] /\
  dispatched 0
    (wheel (sys_after [OnTick 2; OnTick 2; OnTick 2; OnTick 2; OnTick 2] sys_4s))
  = dispatched 0 (wheel (sys_after [OnTick 2] sys_4s)).
Proof.
  split; [vm_compute; reflexivity|].
  destruct (whole_rounds_alone Second 4 wheel_1s calls_4s
              [OnTick 2; OnTick 2; OnTick 2; OnTick 2]
              sys_4s (sys_after [OnTick 2] sys_4s)
              (sys_after [OnTick 2; OnTick 2; OnTick 2; OnTick 2; OnTick 2] sys_4s)
              0 (task.mk (4 * Second) 3 0 (Some "a"%string) (Some 7%nat) ∅) 7%nat 2
              sane_wheel_1s eq_refl calls_4s_sane
              ltac:(vm_compute; reflexivity) ltac:(vm_compute; reflexivity)
              ltac:(vm_compute; reflexivity) eq_refl
              ltac:(discriminate) ltac:(discriminate) eq_refl
              ltac:(vm_compute; reflexivity) ltac:(vm_compute; reflexivity)
              (proj1 (ticks_sane Second (Some "a"%string) 4))
              (proj2 (ticks_sane Second (Some "a"%string) 4))
              ltac:(vm_compute; reflexivity)) as (H1 & H2 & _).
  split; [exact H1|]. apply H2. vm_compute. discriminate.
Defined.

Lemma idle_without_control_loop_witness :
  fired (wheel (sys_after [DoAddTask Second 1 (Some "a"%string) ∅ (Some 7%nat); DoStop]
                          (boot wheel_1s))) = fired wheel_1s /\
  slots (wheel (sys_after [DoAddTask Second 1 (Some "a"%string) ∅ (Some 7%nat); DoStop]
                          (boot wheel_1s))) = slots wheel_1s /\
  loop (sys_after [DoAddTask Second 1 (Some "a"%string) ∅ (Some 7%nat); DoStop]
                  (boot wheel_1s)) = NotStarted.
Proof.
  destruct (idle_without_control_loop (boot wheel_1s)
              (sys_after [DoAddTask Second 1 (Some "a"%string) ∅ (Some 7%nat); DoStop]
                         (boot wheel_1s))
              [DoAddTask Second 1 (Some "a"%string) ∅ (Some 7%nat); DoStop]
              ltac:(discriminate) ltac:(repeat constructor; discriminate)
              ltac:(vm_compute; reflexivity))
    as (H1 & _ & H2 & H3 & _).
  split; [exact H2|]. split; [exact H3|exact H1].
Defined.


Lemma main_runs_witness :
  fired (wheel (sys_after (main_calls ++ [OnTick 2] ++ OnTask 0
                             :: [OnTick 2; OnTick 2; OnTick 2; OnTick 2; OnTick 2])
                          (boot main_wheel)))
  = [(0%nat, main_job, main_data); (0%nat, main_job, main_data)].
Proof.
  etrans.
  - apply (main_runs [OnTick 2] [OnTick 2; OnTick 2; OnTick 2; OnTick 2; OnTick 2]).
    + repeat constructor. by exists 2%nat.
    + repeat constructor; by exists 2%nat.
    + vm_compute. reflexivity.
  - vm_compute. reflexivity.
Defined.

(** * A caller inside the scan *)

Lemma land_None (at_ here : point) (tw : TimeWheel) : land at_ None here tw = tw.
Proof. unfold land. by destruct (Nat.eqb _ _). Qed.

Lemma land_other (at_ here : point) (k : key_t) (tw : TimeWheel) :
  point_index here <> point_index at_ -> land at_ k here tw = tw.
Proof. intros H. unfold land. by apply Nat.eqb_neq in H as ->. Qed.

Lemma land_here (at_ : point) (k : key_t) (tw : TimeWheel) :
  land at_ k at_ tw = (RemoveTask tw k).1.
Proof. unfold land. by rewrite Nat.eqb_refl. Qed.

Lemma addTask_split (tw : TimeWheel) (a : addr) :
  addTask tw a
  = match heap tw !! a with
    | None => Panic tw
    | Some t => if task.times t =? 0 then Done tw else addTask_rest tw a
    end.
Proof.
  unfold addTask, addTask_rest. destruct (heap tw !! a) as [t|]; [|done].
  by destruct (task.times t =? 0).
Qed.

(** Without a caller the iteration is the one of [scanAddRunTask]. *)
Lemma racy_step_alone (at_ : point) (p i : nat) (tw : TimeWheel) :
  racy_step at_ None p i tw = scan_step p i tw.
Proof.
  unfold racy_step, scan_step, racy_readmit. cbv zeta. rewrite !land_None.
  destruct (slots tw !! p) as [[l|]|]; try done.
  destruct (l !! i) as [a|]; [|done].
  destruct (heap tw !! a) as [t|] eqn:Ha; [|done].
  destruct (task.times t =? 0) eqn:H0; [done|].
  destruct (0 <? task.circle t); [done|].
  destruct (task.job t) as [j|]; [|done].
  repeat (progress (rewrite ?land_None; simpl; rewrite ?Ha)).
  destruct (task.times t =? 1) eqn:H1; [done|].
  assert (a < length (heap tw))%nat by (by eapply lookup_lt_Some).
  rewrite addTask_split.
  destruct (0 <? task.times t) eqn:Hpos;
    repeat (progress (rewrite ?land_None; simpl;
                      rewrite ?Ha, ?list_lookup_insert_eq by done)).
  - by destruct (task.times t - 1 =? 0).
  - by rewrite H0.
Qed.

(** A [RemoveTask] that takes effect before the first access is a
    [RemoveTask] before the iteration. *)
Lemma racy_step_before (k : key_t) (p i : nat) (tw : TimeWheel) :
  racy_step AtTimes0 k p i tw = scan_step p i (RemoveTask tw k).1.
Proof.
  unfold racy_step, scan_step, racy_readmit. cbv zeta. rewrite land_here.
  set (tw0 := (RemoveTask tw k).1) in *.
  destruct (slots tw0 !! p) as [[l|]|]; try done.
  destruct (l !! i) as [a|]; [|done].
  destruct (heap tw0 !! a) as [t|] eqn:Ha; [|done].
  destruct (task.times t =? 0) eqn:H0; [done|].
  rewrite land_other by (simpl; lia). rewrite Ha.
  destruct (0 <? task.circle t); [done|].
  rewrite land_other by (simpl; lia). rewrite Ha.
  destruct (task.job t) as [j|]; [|done].
  repeat (progress (rewrite ?land_other by (simpl; lia); simpl; rewrite ?Ha)).
  destruct (task.times t =? 1) eqn:H1; [done|].
  assert (a < length (heap tw0))%nat by (by eapply lookup_lt_Some).
  rewrite addTask_split.
  destruct (0 <? task.times t) eqn:Hpos;
    repeat (progress (rewrite ?land_other by (simpl; lia); simpl;
                      rewrite ?Ha, ?list_lookup_insert_eq by done)).
  - by destruct (task.times t - 1 =? 0).
  - by rewrite H0.
Qed.

Lemma addTask_rest_Done (tw : TimeWheel) (a : addr) (t : task.t) (pos circle : Z)
    (l : list addr) :
  heap tw !! a = Some t ->
  getPositionAndCircle tw (task.interval t) = Some (pos, circle) ->
  0 <= pos -> slots tw !! Z.to_nat pos = Some (Some l) ->
  addTask_rest tw a
  = Done (mkTW (interval tw) (ticker tw)
               (<[Z.to_nat pos := Some (l ++ [a])]> (slots tw))
               (currentPos tw) (slotNum tw)
               (<[task.key t := a]> (taskRecord tw))
               (<[a := task.set_circle t circle]> (heap tw))
               (fired tw)).
Proof.
  intros Ha Hg Hpos Hl. unfold addTask_rest. rewrite Ha, Hg.
  destruct (Z.ltb_spec pos 0); [lia|]. simpl. by rewrite Hl.
Qed.

(** The iteration up to the test of line 234, when nothing takes effect
    before it. *)
Lemma racy_step_due (at_ : point) (k : key_t) (p i : nat) (tw : TimeWheel)
    (l : list addr) (a : addr) (t : task.t) (j : Job) :
  (4 <= point_index at_)%nat ->
  slots tw !! p = Some (Some l) -> l !! i = Some a -> heap tw !! a = Some t ->
  task.times t <> 0 -> task.times t <> 1 -> task.circle t <= 0 -> task.job t = Some j ->
  racy_step at_ k p i tw
  = racy_readmit at_ k a (next_after_remove l i) (after_dispatch tw p i l a j t).
Proof.
  intros Hat Hp Hi Ha H0 H1 Hc Hj. unfold racy_step. cbv zeta.
  rewrite land_other by (simpl; lia). rewrite Hp, Hi, Ha.
  destruct (Z.eqb_spec (task.times t) 0); [done|].
  rewrite land_other by (simpl; lia). rewrite Ha.
  destruct (Z.ltb_spec 0 (task.circle t)); [lia|].
  rewrite land_other by (simpl; lia). rewrite Ha, Hj.
  rewrite land_other by (simpl; lia). simpl. rewrite Ha.
  destruct (Z.eqb_spec (task.times t) 1); [done|]. done.
Qed.

(** X17: a [RemoveTask] that takes effect inside the iteration of the scan
    on its own task, which has more than one run left and is due.  The
    caller gets nil in each case.  After the test of line 207 and before
    the [go] statement: the job is still dispatched, then the task is
    dropped.  Between the test of line 234 and the decrement of line 235:
    the decrement turns the 0 that [RemoveTask] wrote into -1, and [addTask]
    puts the task into its next slot and back into the index: the iteration
    ends exactly as the iteration on an unlimited task does, and the removed
    task runs on without a limit.  Between the read and the write of the
    decrement: the write puts [times - 1] over the 0, and the iteration ends
    as if [RemoveTask] had not been called. *)
Theorem RemoveTask_inside_scan (tw : TimeWheel) (p i : nat) (l l' : list addr)
    (a : addr) (t : task.t) (k : string) (j : Job) (pos circle : Z) :
  slots tw !! p = Some (Some l) -> l !! i = Some a -> heap tw !! a = Some t ->
  taskRecord tw !! Some k = Some a -> task.key t = Some k ->
  1 < task.times t -> task.circle t <= 0 -> task.job t = Some j ->
  getPositionAndCircle tw (task.interval t) = Some (pos, circle) -> 0 <= pos ->
  slots (after_dispatch tw p i l a j t) !! Z.to_nat pos = Some (Some l') ->
  let result (n : Z) :=
    StepNext (mkTW (interval tw) (ticker tw)
                   (<[Z.to_nat pos := Some (l' ++ [a])]>
                      (<[p := Some (delete i l)]> (slots tw)))
                   (currentPos tw) (slotNum tw)
                   (<[Some k := a]> (taskRecord tw))
                   (<[a := task.mk (task.interval t) n circle (task.key t) (task.job t)
                                   (task.taskData t)]> (heap tw))
                   (fired tw ++ [(a, j, task.taskData t)]))
             (next_after_remove l i) in
  (RemoveTask tw (Some k)).2 = None /\
  (RemoveTask (after_dispatch tw p i l a j t) (Some k)).2 = None /\
  scan_step p i tw = result (task.times t - 1) /\
  racy_step AtGo (Some k) p i tw
  = StepNext (mkTW (interval tw) (ticker tw) (<[p := Some (delete i l)]> (slots tw))
                   (currentPos tw) (slotNum tw)
                   (delete (Some k) (taskRecord tw))
                   (<[a := task.set_times t 0]> (heap tw))
                   (fired tw ++ [(a, j, task.taskData t)]))
             (next_after_remove l i) /\
  racy_step AtDecrement (Some k) p i tw = result (-1) /\
  racy_step AtStore (Some k) p i tw = result (task.times t - 1) /\
  scan_step p i (with_heap tw (<[a := task.set_times t (-1)]> (heap tw))) = result (-1).
Proof.
  intros Hp Hi Ha Hk Hkey Ht Hc Hj Hg Hpos Hl' result.
  assert (a < length (heap tw))%nat as Halt by (by eapply lookup_lt_Some).
  set (tw1 := after_dispatch tw p i l a j t) in *.
  assert (RemoveTask tw1 (Some k)
          = (with_taskRecord (with_heap tw1 (<[a := task.set_times t 0]> (heap tw1)))
               (delete (task.key t) (taskRecord tw1)), None)) as Hrm
    by (by apply RemoveTask_found).
  split; [by rewrite (RemoveTask_found tw k a t)|].
  split; [by rewrite Hrm|].
  split.
  { rewrite (scan_step_readmit tw p i l a t j pos circle l'); try done; try lia.
    destruct (Z.ltb_spec 0 (task.times t)); [|lia]. subst result. simpl. by rewrite Hkey. }
  split.
  { unfold racy_step, racy_readmit, land. cbn [point_index Nat.eqb]. cbv zeta.
    rewrite Hp, Hi, Ha.
    destruct (Z.eqb_spec (task.times t) 0); [lia|].
    destruct (Z.ltb_spec 0 (task.circle t)); [lia|].
    rewrite (RemoveTask_found tw k a t) by done. cbn [fst].
    set (tw2 := with_taskRecord _ _).
    assert (heap tw2 !! a = Some (task.set_times t 0)) as Ha2
      by (subst tw2; simpl; by rewrite list_lookup_insert_eq).
    rewrite Ha2. simpl. rewrite Hj. simpl.
    assert (<[a := task.set_times t 0]> (heap tw) !! a = Some (task.set_times t 0)) as E
      by (by apply list_lookup_insert_eq).
    rewrite !E. simpl. rewrite !E. simpl. subst tw2. simpl. by rewrite Hkey. }
  split; [|split].
  - rewrite (racy_step_due AtDecrement (Some k) p i tw l a t j) by (simpl; done || lia).
    fold tw1. unfold racy_readmit, land. cbn [point_index Nat.eqb]. cbv zeta.
    change (heap tw1) with (heap tw) at 1. rewrite Ha.
    destruct (Z.ltb_spec 0 (task.times t)); [|lia].
    rewrite Hrm. cbn [fst].
    set (tw2 := with_taskRecord _ _).
    assert (heap tw2 !! a = Some (task.set_times t 0)) as Ha2
      by (subst tw2; simpl; by rewrite list_lookup_insert_eq).
    rewrite !Ha2.
    set (tw3 := with_heap tw2 _).
    assert (heap tw3 !! a = Some (task.set_times t (-1))) as Ha3.
    { subst tw3 tw2. simpl. rewrite list_lookup_insert_eq; [done|].
      by rewrite !length_insert. }
    rewrite Ha3. simpl.
    rewrite (addTask_rest_Done tw3 a (task.set_times t (-1)) pos circle l');
      [|done|done|lia|done].
    subst result tw3 tw2 tw1. simpl. rewrite Hkey.
    rewrite insert_delete_eq, !list_insert_insert_eq.
    unfold task.set_circle, task.set_times. simpl. by rewrite Hkey.
  - rewrite (racy_step_due AtStore (Some k) p i tw l a t j) by (simpl; done || lia).
    fold tw1. unfold racy_readmit, land. cbn [point_index Nat.eqb]. cbv zeta.
    change (heap tw1) with (heap tw). rewrite !Ha.
    destruct (Z.ltb_spec 0 (task.times t)); [|lia].
    rewrite Hrm. cbn [fst].
    set (tw2 := with_taskRecord _ _).
    assert (heap tw2 !! a = Some (task.set_times t 0)) as Ha2
      by (subst tw2; simpl; by rewrite list_lookup_insert_eq).
    rewrite !Ha2.
    set (tw3 := with_heap tw2 _).
    assert (heap tw3 !! a = Some (task.set_times t (task.times t - 1))) as Ha3.
    { subst tw3 tw2. simpl. rewrite list_lookup_insert_eq; [done|].
      by rewrite !length_insert. }
    rewrite Ha3. simpl. destruct (Z.eqb_spec (task.times t - 1) 0); [lia|].
    rewrite (addTask_rest_Done tw3 a (task.set_times t (task.times t - 1)) pos circle l');
      [|done|done|lia|done].
    subst result tw3 tw2 tw1. simpl. rewrite Hkey.
    rewrite insert_delete_eq, !list_insert_insert_eq.
    unfold task.set_circle, task.set_times. simpl. by rewrite Hkey.
  - set (tw0 := with_heap tw _).
    rewrite (scan_step_readmit tw0 p i l a (task.set_times t (-1)) j pos circle l');
      try done.
    + subst result tw0. simpl. rewrite Hkey, list_insert_insert_eq. done.
    + subst tw0. simpl. by rewrite list_lookup_insert_eq.
    + simpl. lia.
Qed.

(** * The due task in its tick *)




(** * Two tasks under one key *)

(** C5: two [AddTask] calls under the key "k" that both
    come before the control loop has admitted the first are both accepted
    ([AddTask] looks the key up, and the index learns of a task only at its
    admission), so two tasks are pending under "k".  [RemoveTask("k")]
    returns nil and makes a tombstone of the one the index holds; the other
    keeps its runs and is dispatched by the fifth tick after that. *)
Theorem RemoveTask_misses_twin :
  (exists tw1 tw2,
     AddTask wheel_1s (4 * Second) 2 (Some "k"%string) ∅ (Some 7%nat) = (tw1, Some 0%nat, None) /\
     AddTask tw1 (4 * Second) 2 (Some "k"%string) ∅ (Some 8%nat) = (tw2, Some 1%nat, None) /\
     run [OpRecv 0; OpRecv 1] tw2 = Done wheel_twins) /\
  slots wheel_twins !! 0%nat = Some (Some [0; 1]%nat) /\
  heap wheel_twins
  = [task.mk (4 * Second) 2 1 (Some "k"%string) (Some 7%nat) ∅;
     task.mk (4 * Second) 2 1 (Some "k"%string) (Some 8%nat) ∅] /\
  (RemoveTask wheel_twins (Some "k"%string)).2 = None /\
  heap (RemoveTask wheel_twins (Some "k"%string)).1
  = [task.mk (4 * Second) 2 1 (Some "k"%string) (Some 7%nat) ∅;
     task.mk (4 * Second) 0 1 (Some "k"%string) (Some 8%nat) ∅] /\
  dispatched 0
    (state_of (run [OpTick 4; OpTick 4; OpTick 4; OpTick 4]
                   (RemoveTask wheel_twins (Some "k"%string)).1)) = [] /\
  dispatched 0
    (state_of (run [OpTick 4; OpTick 4; OpTick 4; OpTick 4; OpTick 4]
                   (RemoveTask wheel_twins (Some "k"%string)).1))
  = [(0%nat, 7%nat, ∅)].
Proof.
  split.
  { eexists _, _. split; [reflexivity|]. split; [reflexivity|]. vm_compute. reflexivity. }
  repeat split; vm_compute; reflexivity.
Qed.


Lemma RemoveTask_inside_scan_witness :
  racy_step AtDecrement (Some "a"%string) 1 0 (wheel sys_due)
  = StepNext (mkTW Second (Some Second) [Some []; Some []; Some [0%nat]; Some []] 1 4
                   (<[Some "a"%string := 0%nat]> (taskRecord (wheel sys_due)))
                   [task.mk Second (-1) 0 (Some "a"%string) (Some 7%nat) ∅]
                   [(0%nat, 7%nat, ∅)])
             None /\
  dispatched 0 (state_of (run [OpTick 2; OpTick 2; OpTick 2] wheel_raced))
  = [(0%nat, 7%nat, ∅); (0%nat, 7%nat, ∅); (0%nat, 7%nat, ∅); (0%nat, 7%nat, ∅)].
Proof.
  split; [|vm_compute; reflexivity].
  destruct (RemoveTask_inside_scan (wheel sys_due) 1 0 [0%nat] [] 0
              (task.mk Second 2 0 (Some "a"%string) (Some 7%nat) ∅) "a" 7%nat 2 0
              ltac:(vm_compute; reflexivity) eq_refl ltac:(vm_compute; reflexivity)
              ltac:(vm_compute; reflexivity) eq_refl ltac:(simpl; lia) ltac:(simpl; lia)
              eq_refl ltac:(vm_compute; reflexivity) ltac:(lia)
              ltac:(vm_compute; reflexivity))
    as (_ & _ & _ & _ & H & _).
  exact H.
Defined.
